(** * Legacy-JavaScript detection: a shallow embedding

    This development embeds the detection and estimation engine of
    [core/audits/byte-efficiency/legacy-javascript.js] (in the sources at
    hand, the second file held by
    [src/core/audits/insights/third-parties-insight.js]):
    the class [CodePatternMatcher], and the static methods
    [buildPolyfillExpression], [getCoreJsPolyfillData],
    [getPolyfillPatterns], [getTransformPatterns], [detectAcrossScripts] and
    [estimateWastedBytes] of [LegacyJavascript].  It also embeds the loop
    of [audit_] that warns about version 2 of core-js, the method
    [makeSubItems] of [ThirdPartiesInsight] (the first file held by
    [src/core/audits/insights/third-parties-insight.js]), the generator of
    the catalog ([core/scripts/legacy-javascript/create-polyfill-module-data.js])
    and [makeRequireCodeForPolyfill] of the verification tool
    ([core/scripts/legacy-javascript/run.js]).

    Conventions.
    - A JavaScript string is a [list ascii] (code units below 256).
    - A JavaScript number holding an integer is a [Z]; [NaN] is written out
      where the source can produce it.  The sums of [LegacyJavascript] are
      exact, as the sums of the code are while they stay within 2^53 in
      absolute value; [Doubles] holds the estimate with every sum rounded
      as the machine rounds it, for what depends on the order of the
      additions.
    - A computation that throws or does not terminate yields [None].
    - The two JSON assets read at load time ([polyfill-module-data.json] and
      [polyfill-graph-data.json]) are parameters of the functions using them. *)

From Stdlib Require Import Ascii String List Bool Arith ZArith Lia Permutation.
From Stdlib Require QArith Lqa Sorted.
Import ListNotations.

(** ** Strings *)

Module Str.

Definition t := list ascii.

(** A string literal. *)
Definition lit (s : string) : t := list_ascii_of_string s.

Definition dquote : ascii := "034"%char.
Definition CR : ascii := "013"%char.
Definition LF : ascii := "010"%char.

Definition eqb (a b : t) : bool :=
  if list_eq_dec ascii_dec a b then true else false.

(** [s.startsWith(p)] *)
Fixpoint startsWith (p s : t) : bool :=
  match p, s with
  | [], _ => true
  | a :: p', b :: s' => Ascii.eqb a b && startsWith p' s'
  | _ :: _, [] => false
  end.

(** [s.endsWith(p)] *)
Definition endsWith (p s : t) : bool := startsWith (rev p) (rev s).

(** [s.includes(p)] *)
Fixpoint includes (p s : t) : bool :=
  startsWith p s || match s with [] => false | _ :: s' => includes p s' end.

(** [s.split(sep)] for a one-character separator. *)
Fixpoint split (sep : ascii) (s : t) : list t :=
  match s with
  | [] => [[]]
  | c :: s' =>
      if Ascii.eqb c sep then [] :: split sep s'
      else match split sep s' with
           | [] => [[c]]
           | w :: ws => (c :: w) :: ws
           end
  end.

(** [parts.join(sep)] *)
Fixpoint join (sep : t) (parts : list t) : t :=
  match parts with
  | [] => []
  | [w] => w
  | w :: ws => w ++ sep ++ join sep ws
  end.

(** [s.replace(pat, rep)] with a string pattern: the first occurrence only. *)
Fixpoint replace (pat rep s : t) : t :=
  if startsWith pat s then rep ++ skipn (length pat) s
  else match s with
       | [] => []
       | c :: s' => c :: replace pat rep s'
       end.

(** [s.split(sep).length - 1] for a non-empty separator: the number of
    occurrences of [sep] found left to right without overlap.  [skip] counts
    the characters of the last occurrence still to be passed over. *)
Fixpoint count_split_from (sep s : t) (skip : nat) : nat :=
  match s with
  | [] => 0
  | _ :: s' =>
      match skip with
      | S k => count_split_from sep s' k
      | O => if startsWith sep s
             then S (count_split_from sep s' (length sep - 1))
             else count_split_from sep s' 0
      end
  end.

Definition count_split (sep s : t) : nat := count_split_from sep s 0.

End Str.

Definition str : string -> Str.t := Str.lit.

(** ** Regular expressions

    The fragment of ECMAScript regular expressions (without the [u], [i],
    [m] and [s] flags) that the audit writes: literal characters, [.],
    the escapes [\s], [\S], [\r], [\n], [\t] and identity escapes,
    character classes of single characters and [\s], the anchor [^],
    groups (capturing and [(?:...)]), alternation and the greedy
    quantifiers [*], [+] and [?].  Braces are literal characters, as they
    are in ECMAScript whenever they do not spell a counted quantifier, which
    is the case in every expression of the audit. *)

Module RegExp.

Inductive class_item :=
| CChar (c : ascii)
| CSpace.

Inductive regex :=
| Empty
| Char (c : ascii)
| Dot
| Space (negated : bool)
| Class (negated : bool) (items : list class_item)
| Bol
| Seq (r1 r2 : regex)
| Alt (r1 r2 : regex)
| Star (r : regex)
| Plus (r : regex)
| Opt (r : regex)
| Cap (n : nat) (r : regex)
| NCap (r : regex).

(** [WhiteSpace] and [LineTerminator] code units below 256. *)
Definition is_space (c : ascii) : bool :=
  let n := nat_of_ascii c in
  (n =? 9) || (n =? 10) || (n =? 11) || (n =? 12) || (n =? 13) || (n =? 32)
  || (n =? 160).

Definition is_line_terminator (c : ascii) : bool :=
  let n := nat_of_ascii c in (n =? 10) || (n =? 13).

Definition item_matches (c : ascii) (i : class_item) : bool :=
  match i with
  | CChar d => Ascii.eqb c d
  | CSpace => is_space c
  end.

Definition class_matches (negated : bool) (items : list class_item) (c : ascii) : bool :=
  xorb negated (existsb (item_matches c) items).

(** *** The backtracking matcher

    The matcher follows the continuation-passing semantics of the
    ECMAScript specification.  A state holds whether the current position is
    index 0 of the input, the input still to read, and the captures. *)

Record mstate := MState {
  at_start : bool;
  rest : Str.t;
  caps : list (nat * Str.t)
}.

Definition cont := mstate -> option mstate.

Definition advance (st : mstate) (s' : Str.t) : mstate :=
  MState false s' (caps st).

(** The text read between two states of one run. *)
Definition consumed (st st' : mstate) : Str.t :=
  firstn (length (rest st) - length (rest st')) (rest st).

Definition set_cap (n : nat) (st st' : mstate) : mstate :=
  MState (at_start st') (rest st') ((n, consumed st st') :: caps st').

Definition one_char (p : ascii -> bool) (st : mstate) (k : cont) : option mstate :=
  match rest st with
  | c :: s' => if p c then k (advance st s') else None
  | [] => None
  end.

(** An iteration of a quantifier with minimum 0 that reads nothing fails
    (RepeatMatcher, step 2.b). *)
Definition progress (st : mstate) (k : cont) : cont :=
  fun st' => if length (rest st') <? length (rest st) then k st' else None.

Definition or_else (a b : option mstate) : option mstate :=
  match a with Some x => Some x | None => b end.

Fixpoint star_fuel (step : mstate -> cont -> option mstate) (fuel : nat)
    (st : mstate) (k : cont) : option mstate :=
  match fuel with
  | O => k st
  | S fuel' =>
      or_else (step st (progress st (fun st' => star_fuel step fuel' st' k))) (k st)
  end.

Fixpoint bt (r : regex) (st : mstate) (k : cont) {struct r} : option mstate :=
  match r with
  | Empty => k st
  | Char c => one_char (Ascii.eqb c) st k
  | Dot => one_char (fun c => negb (is_line_terminator c)) st k
  | Space negated => one_char (fun c => xorb negated (is_space c)) st k
  | Class negated items => one_char (class_matches negated items) st k
  | Bol => if at_start st then k st else None
  | Seq r1 r2 => bt r1 st (fun st' => bt r2 st' k)
  | Alt r1 r2 => or_else (bt r1 st k) (bt r2 st k)
  | Star r1 => star_fuel (bt r1) (length (rest st)) st k
  | Plus r1 => bt r1 st (fun st' => star_fuel (bt r1) (length (rest st')) st' k)
  | Opt r1 => or_else (bt r1 st (progress st k)) (k st)
  | Cap n r1 => bt r1 st (fun st' => k (set_cap n st st'))
  | NCap r1 => bt r1 st k
  end.

(** *** Reading a pattern text

    [new RegExp(text)]: the text is read left to right, one character at a
    time, with a stack of the groups still open.  [None] stands for the
    [SyntaxError] of the constructor, and also for syntax outside the
    fragment above (counted quantifiers do not occur: see the note on
    braces). *)

Record frame := Frame {
  f_cap : option nat;           (* the number of the group, if capturing *)
  f_alts : option regex;        (* the alternatives closed so far *)
  f_seq : list regex            (* the terms of the current one, last first *)
}.

Inductive pmode :=
| Normal
| Escape
| GroupOpen
| GroupQ
| ClassStart
| InClass (negated : bool) (items : list class_item)
| ClassEscape (negated : bool) (items : list class_item).

Record pstate := PState {
  stack : list frame;
  cur : frame;
  ngroups : nat;
  mode : pmode
}.

Definition seq_of (terms : list regex) : regex := fold_right Seq Empty terms.

Definition close_frame (f : frame) : regex :=
  let s := seq_of (rev (f_seq f)) in
  match f_alts f with
  | None => s
  | Some a => Alt a s
  end.

Definition push_term (t : regex) (st : pstate) : pstate :=
  PState (stack st)
         (Frame (f_cap (cur st)) (f_alts (cur st)) (t :: f_seq (cur st)))
         (ngroups st) Normal.

Definition is_quantified (r : regex) : bool :=
  match r with
  | Star _ | Plus _ | Opt _ | Bol => true
  | _ => false
  end.

Definition quantify (q : regex -> regex) (st : pstate) : option pstate :=
  match f_seq (cur st) with
  | t :: ts =>
      if is_quantified t then None
      else Some (PState (stack st)
                        (Frame (f_cap (cur st)) (f_alts (cur st)) (q t :: ts))
                        (ngroups st) Normal)
  | [] => None
  end.

Definition open_group (capturing : bool) (st : pstate) : pstate :=
  if capturing
  then PState (cur st :: stack st) (Frame (Some (S (ngroups st))) None [])
              (S (ngroups st)) Normal
  else PState (cur st :: stack st) (Frame None None []) (ngroups st) Normal.

Definition close_group (st : pstate) : option pstate :=
  match stack st with
  | [] => None
  | parent :: below =>
      let body := close_frame (cur st) in
      let g := match f_cap (cur st) with
               | Some n => Cap n body
               | None => NCap body
               end in
      Some (PState below
                   (Frame (f_cap parent) (f_alts parent) (g :: f_seq parent))
                   (ngroups st) Normal)
  end.

Definition next_alternative (st : pstate) : pstate :=
  PState (stack st)
         (Frame (f_cap (cur st)) (Some (close_frame (cur st))) [])
         (ngroups st) Normal.

Definition with_mode (m : pmode) (st : pstate) : pstate :=
  PState (stack st) (cur st) (ngroups st) m.

Definition normal_step (c : ascii) (st : pstate) : option pstate :=
  if Ascii.eqb c "\" then Some (with_mode Escape st)
  else if Ascii.eqb c "(" then Some (with_mode GroupOpen st)
  else if Ascii.eqb c ")" then close_group st
  else if Ascii.eqb c "|" then Some (next_alternative st)
  else if Ascii.eqb c "*" then quantify Star st
  else if Ascii.eqb c "+" then quantify Plus st
  else if Ascii.eqb c "?" then quantify Opt st
  else if Ascii.eqb c "[" then Some (with_mode ClassStart st)
  else if Ascii.eqb c "^" then Some (push_term Bol st)
  else if Ascii.eqb c "$" then None
  else if Ascii.eqb c "." then Some (push_term Dot st)
  else Some (push_term (Char c) st).

(** Escapes: the character escapes and class escapes in use, identity
    escapes for punctuation; the remaining letters and digits are outside
    the fragment. *)
Definition escape_control (c : ascii) : option ascii :=
  if Ascii.eqb c "r" then Some Str.CR
  else if Ascii.eqb c "n" then Some Str.LF
  else if Ascii.eqb c "t" then Some "009"%char
  else None.

Definition is_alnum (c : ascii) : bool :=
  let n := nat_of_ascii c in
  ((48 <=? n) && (n <=? 57)) || ((65 <=? n) && (n <=? 90))
  || ((97 <=? n) && (n <=? 122)).

Definition escape_step (c : ascii) (st : pstate) : option pstate :=
  if Ascii.eqb c "s" then Some (push_term (Space false) st)
  else if Ascii.eqb c "S" then Some (push_term (Space true) st)
  else match escape_control c with
       | Some d => Some (push_term (Char d) st)
       | None => if is_alnum c then None else Some (push_term (Char c) st)
       end.

Definition class_step (negated : bool) (items : list class_item) (c : ascii)
    (st : pstate) : option pstate :=
  if Ascii.eqb c "]" then Some (push_term (Class negated (rev items)) st)
  else if Ascii.eqb c "\" then Some (with_mode (ClassEscape negated items) st)
  else if Ascii.eqb c "-" then
    match items with
    | [] => Some (with_mode (InClass negated [CChar c]) st)
    | _ => None
    end
  else Some (with_mode (InClass negated (CChar c :: items)) st).

Definition class_escape_step (negated : bool) (items : list class_item)
    (c : ascii) (st : pstate) : option pstate :=
  if Ascii.eqb c "s" then Some (with_mode (InClass negated (CSpace :: items)) st)
  else match escape_control c with
       | Some d => Some (with_mode (InClass negated (CChar d :: items)) st)
       | None => if is_alnum c then None
                 else Some (with_mode (InClass negated (CChar c :: items)) st)
       end.

Definition step (st : pstate) (c : ascii) : option pstate :=
  match mode st with
  | Normal => normal_step c st
  | Escape => escape_step c st
  | GroupOpen =>
      if Ascii.eqb c "?" then Some (with_mode GroupQ st)
      else normal_step c (open_group true st)
  | GroupQ =>
      if Ascii.eqb c ":" then Some (open_group false st) else None
  | ClassStart =>
      if Ascii.eqb c "^" then Some (with_mode (InClass true []) st)
      else class_step false [] c st
  | InClass negated items => class_step negated items c st
  | ClassEscape negated items => class_escape_step negated items c st
  end.

Fixpoint run (text : Str.t) (st : pstate) : option pstate :=
  match text with
  | [] => Some st
  | c :: text' =>
      match step st c with
      | Some st' => run text' st'
      | None => None
      end
  end.

Definition initial : pstate := PState [] (Frame None None []) 0 Normal.

Definition finish (st : pstate) : option regex :=
  match mode st, stack st with
  | Normal, [] => Some (close_frame (cur st))
  | _, _ => None
  end.

Definition parse (text : Str.t) : option regex :=
  match run text initial with
  | Some st => finish st
  | None => None
  end.

(** The number of capturing groups of a pattern text. *)
Definition group_count (text : Str.t) : nat :=
  match run text initial with
  | Some st => ngroups st
  | None => 0
  end.

(** *** [RegExp.prototype.exec] with the [g] flag

    [exec_scan re idx s] looks for the first index at or after [idx] where
    [re] matches, [s] being the input from [idx] on.  The result holds the
    index of the match, its captures and the index where it ends (the new
    [lastIndex]). *)

Record exec_result := ExecResult {
  index : nat;
  captures : list (nat * Str.t);
  end_index : nat
}.

Definition exec_at (re : regex) (idx : nat) (s : Str.t) : option exec_result :=
  match bt re (MState (idx =? 0) s []) Some with
  | Some st' => Some (ExecResult idx (caps st') (idx + (length s - length (rest st'))))
  | None => None
  end.

Fixpoint exec_scan (re : regex) (idx : nat) (s : Str.t) : option exec_result :=
  match exec_at re idx s with
  | Some r => Some r
  | None =>
      match s with
      | [] => None
      | _ :: s' => exec_scan re (S idx) s'
      end
  end.

Definition exec (re : regex) (lastIndex : nat) (input : Str.t) : option exec_result :=
  if length input <? lastIndex then None
  else exec_scan re lastIndex (skipn lastIndex input).

(** [result[n]]: the last value captured by group [n], if any. *)
Fixpoint capture (cs : list (nat * Str.t)) (n : nat) : option Str.t :=
  match cs with
  | [] => None
  | (m, v) :: cs' => if m =? n then Some v else capture cs' n
  end.

(** Truthiness of a capture: defined and not the empty string. *)
Definition truthy (v : option Str.t) : bool :=
  match v with
  | Some (_ :: _) => true
  | _ => false
  end.

End RegExp.

(** ** The audit *)

Module LegacyJavascript.

Import RegExp.

(** *** Numbers *)

Inductive number :=
| Num (z : Z)
| NaN.

Definition add (a b : number) : number :=
  match a, b with
  | Num x, Num y => Num (x + y)
  | _, _ => NaN
  end.

(** [Math.min] *)
Definition min (a b : number) : number :=
  match a, b with
  | Num x, Num y => Num (Z.min x y)
  | _, _ => NaN
  end.

(** *** Data *)

(** [Pattern] *)
Record Pattern := {
  name : Str.t;
  expression : Str.t;
  estimateBytes : option (Str.t -> Z)
}.

(** [PatternMatchResult] *)
Record PatternMatchResult := {
  m_name : Str.t;
  line : Z;
  column : Z
}.

(** An entry of [polyfill-module-data.json] ([PolyfillModuleData]); an
    absent [corejs] reads as [false]. *)
Record PolyfillModule := {
  p_name : Str.t;
  modules : list Str.t;
  corejs : bool
}.

(** [polyfill-graph-data.json] ([PolyfillSizeEstimator]). *)
Record Graph := {
  moduleSizes : list Z;
  dependencies : list (Str.t * list nat);
  maxSize : Z
}.

(** [LH.Artifacts.Script]: [content] may be missing. *)
Record Script := {
  url : Str.t;
  content : option Str.t;
  scriptId : Str.t
}.

(** An entry of [bundle.map.mappings()]. *)
Record Mapping := {
  sourceURL : option Str.t;
  lineNumber : Z;
  columnNumber : Z
}.

(** [LH.Artifacts.Bundle], with the fields the audit reads:
    [bundle.script.scriptId], [bundle.rawMap.sources] and
    [bundle.map.mappings()]. *)
Record Bundle := {
  b_scriptId : Str.t;
  sources : list Str.t;
  mappings : list Mapping
}.

(** *** [CodePatternMatcher] *)

Record CodePatternMatcher := {
  re : regex;
  groups : nat;
  patterns : list Pattern
}.

Definition patternsExpression (ps : list Pattern) : Str.t :=
  Str.join (str "|") (map (fun p => str "(" ++ expression p ++ str ")") ps).

(** The text handed to [new RegExp]: the template literal holds a carriage
    return and a line feed themselves. *)
Definition matcher_source (ps : list Pattern) : Str.t :=
  str "(^" ++ [Str.CR; Str.LF] ++ str "|" ++ [Str.CR] ++ str "|" ++ [Str.LF]
  ++ str ")|" ++ patternsExpression ps.

Definition new_CodePatternMatcher (ps : list Pattern) : option CodePatternMatcher :=
  match parse (matcher_source ps) with
  | Some r => Some {| re := r; groups := group_count (matcher_source ps); patterns := ps |}
  | None => None
  end.

(** [array.findIndex(f)] over the indices below [n]. *)
Fixpoint findIndex_from (f : nat -> bool) (i n : nat) : option nat :=
  match n with
  | O => None
  | S n' => if f i then Some i else findIndex_from f (S i) n'
  end.

(** The local variables of [match]. *)
Record match_state := {
  lastIndex : nat;
  seen : list nat;                 (* the patterns seen, by position in [patterns] *)
  matches : list PatternMatchResult;
  cur_line : Z;
  lineBeginsAtIndex : Z
}.

(** The body of the [while] loop.  [inl] is the state after one iteration,
    [inr] the value returned once [exec] yields [null]; [None] is the
    [TypeError] of reading [name] of an undefined pattern. *)
Definition match_iteration (m : CodePatternMatcher) (code : Str.t) (st : match_state)
    : option (match_state + list PatternMatchResult) :=
  match exec (re m) (lastIndex st) code with
  | None => Some (inr (matches st))
  | Some result =>
      let isNewline := capture (captures result) 1 in
      if truthy isNewline then
        Some (inl {| lastIndex := end_index result;
                     seen := seen st;
                     matches := matches st;
                     cur_line := cur_line st + 1;
                     lineBeginsAtIndex := Z.of_nat (index result) + 1 |})
      else
        match findIndex_from (fun j => truthy (capture (captures result) (j + 2)))
                             0 (groups m - 1) with
        | None => None
        | Some j =>
            match nth_error (patterns m) j with
            | None => None
            | Some pattern =>
                if existsb (Nat.eqb j) (seen st) then
                  Some (inl {| lastIndex := end_index result;
                               seen := seen st;
                               matches := matches st;
                               cur_line := cur_line st;
                               lineBeginsAtIndex := lineBeginsAtIndex st |})
                else
                  Some (inl {| lastIndex := end_index result;
                               seen := j :: seen st;
                               matches := matches st ++
                                 [{| m_name := name pattern;
                                     line := cur_line st;
                                     column := Z.of_nat (index result)
                                               - lineBeginsAtIndex st |}];
                               cur_line := cur_line st;
                               lineBeginsAtIndex := lineBeginsAtIndex st |})
            end
        end
  end.

Fixpoint match_loop (fuel : nat) (m : CodePatternMatcher) (code : Str.t)
    (st : match_state) : option (list PatternMatchResult) :=
  match fuel with
  | O => None
  | S fuel' =>
      match match_iteration m code st with
      | None => None
      | Some (inr result) => Some result
      | Some (inl st') => match_loop fuel' m code st'
      end
  end.

Definition initial_state : match_state :=
  {| lastIndex := 0; seen := []; matches := []; cur_line := 0; lineBeginsAtIndex := 0 |}.

(** [matcher.match(code)].  Every iteration but the last reads at least one
    character when no match is empty, so that [length code + 1] iterations
    are enough; an empty match would make the source loop forever. *)
Definition matcher_match (m : CodePatternMatcher) (code : Str.t)
    : option (list PatternMatchResult) :=
  match_loop (S (length code)) m code initial_state.

(** *** The pattern catalog *)

(** [qt]: a token between string delimiters. *)
Definition qt (token : Str.t) : Str.t :=
  str "['" ++ [Str.dquote] ++ str "]" ++ token ++ str "['" ++ [Str.dquote] ++ str "]".

(** Truthiness of [object]: neither [null] nor the empty string. *)
Definition object_given (object : option Str.t) : option Str.t :=
  match object with
  | Some (c :: o) => Some (c :: o)
  | _ => None
  end.

(** [buildPolyfillExpression(object, property, coreJs3Module)] *)
Definition buildPolyfillExpression (object : option Str.t) (property coreJs3Module : Str.t)
    : Str.t :=
  match object_given object with
  | Some object =>
      (* String.prototype.startsWith = *)
      object ++ str "\." ++ property ++ str "\s?=[^=]"
      (* String.prototype['startsWith'] = *)
      ++ str "|" ++ object ++ str "\[" ++ qt property ++ str "\]\s?=[^=]"
      (* Object.defineProperty(String.prototype, 'startsWith' *)
      ++ str "|defineProperty\(" ++ object ++ str ",\s?" ++ qt property
      (* es-shims: no(Object,{entries:r},{entries:function *)
      ++ str "|\(" ++ object ++ str ",\s*{" ++ property ++ str ":.*},\s*{" ++ property
      (* core-js@3 minified pattern: {target:"Array",proto:true},{fill:fill *)
      ++ str "|{target:" ++ qt (Str.replace (str ".prototype") [] object)
      ++ str "\S*},{" ++ property ++ str ":"
      (* un-minified code may have module names *)
      ++ str "|core-js/modules/" ++ coreJs3Module ++ [Str.dquote]
  | None =>
      (* window.Promise =, Promise =, but not: SomePromise = *)
      str "(?:window\.|[\s;]+)" ++ property ++ str "\s?=[^=]"
      ++ str "|defineProperty\(" ++ str "window" ++ str ",\s?" ++ qt property
      ++ str "|core-js/modules/" ++ coreJs3Module ++ [Str.dquote]
  end.

Section Catalog.

(** The content of [polyfill-module-data.json]. *)
Variable polyfillModuleData : list PolyfillModule.

(** An undefined value in a template literal reads [undefined]. *)
Definition template_value (v : option Str.t) : Str.t :=
  match v with
  | Some s => s
  | None => str "undefined"
  end.

(** [getCoreJsPolyfillData()]: pairs of [name] and [coreJs3Module]. *)
Definition getCoreJsPolyfillData : list (Str.t * option Str.t) :=
  map (fun d => (p_name d, nth_error (modules d) 0))
      (filter corejs polyfillModuleData).

(** The body of the loop of [getPolyfillPatterns]. *)
Definition polyfill_pattern (d : Str.t * option Str.t) : Pattern :=
  let parts := Str.split "." (fst d) in
  let object := if 1 <? length parts
                then Some (Str.join (str ".") (firstn (length parts - 1) parts))
                else None in
  let property := nth (length parts - 1) parts [] in
  {| name := fst d;
     expression := buildPolyfillExpression object property (template_value (snd d));
     estimateBytes := None |}.

(** [getPolyfillPatterns()] *)
Definition getPolyfillPatterns : list Pattern :=
  map polyfill_pattern getCoreJsPolyfillData.

End Catalog.

(** [content.match(pattern).length] for a pattern with the [g] flag: the
    matches are taken left to right; after an empty match the search moves
    on by one character. *)
Fixpoint match_count_fuel (fuel : nat) (r : regex) (lastIndex : nat) (content : Str.t) : nat :=
  match fuel with
  | O => 0
  | S fuel' =>
      match exec r lastIndex content with
      | None => 0
      | Some res =>
          S (match_count_fuel fuel' r
               (if end_index res =? index res then S (end_index res) else end_index res)
               content)
      end
  end.

Definition match_count (r : regex) (content : Str.t) : nat :=
  match_count_fuel (S (length content)) r 0 content.

(** [count(content, pattern)] of [getTransformPatterns], for a string and
    for a regular expression given by its text. *)
Definition count_string (content pattern : Str.t) : Z :=
  Z.of_nat (Str.count_split pattern content).

Definition count_regexp (content pattern : Str.t) : Z :=
  match parse pattern with
  | Some r => Z.of_nat (match_count r content)
  | None => 0
  end.

(** The [estimateBytes] functions of the three transform patterns. *)
Definition estimate_classes (content : Str.t) : Z :=
  1000 + (count_string content (str "_classCallCheck") - 1)
         * Z.of_nat (length (str "_classCallCheck()")).

Definition estimate_regenerator (content : Str.t) : Z :=
  count_regexp content (str "regeneratorRuntime\(?\)?\.a?wrap") * 80.

Definition estimate_spread (content : Str.t) : Z :=
  let per := Z.of_nat (length (str "_toConsumableArray()")) in
  1169 + count_regexp content (str "\.apply\(void 0,\s?_toConsumableArray") * per.

(** [getTransformPatterns()] *)
Definition getTransformPatterns : list Pattern :=
  [ {| name := str "@babel/plugin-transform-classes";
       expression := str "Cannot call a class as a function";
       estimateBytes := Some estimate_classes |};
    {| name := str "@babel/plugin-transform-regenerator";
       expression := str "Generator is already running|regeneratorRuntime";
       estimateBytes := Some estimate_regenerator |};
    {| name := str "@babel/plugin-transform-spread";
       expression := str "Invalid attempt to spread non-iterable instance";
       estimateBytes := Some estimate_spread |} ].

(** The matcher that [audit_] builds. *)
Definition audit_matcher (polyfillModuleData : list PolyfillModule) : option CodePatternMatcher :=
  new_CodePatternMatcher (getPolyfillPatterns polyfillModuleData ++ getTransformPatterns).

(** *** [detectAcrossScripts] *)

(** Truthiness of a string that may be missing. *)
Definition non_empty (s : option Str.t) : option Str.t :=
  match s with
  | Some (c :: r) => Some (c :: r)
  | _ => None
  end.

(** The test under [bundle.rawMap.sources.find]. *)
Definition source_matches (mods : list Str.t) (source : Str.t) : bool :=
  existsb (fun module =>
             Str.endsWith (str "/" ++ module ++ str ".js") source
             || Str.includes (str "node_modules/" ++ module ++ str "/") source)
          mods.

Definition names_match (n : Str.t) (m : PatternMatchResult) : bool :=
  Str.eqb (m_name m) n.

(** The body of the loop over [polyfillData], on the array [matches]. *)
Definition correlate_entry (bundle : Bundle) (found : list PatternMatchResult)
    (d : PolyfillModule) : list PatternMatchResult :=
  (* Skip if the pattern matching found a match for this polyfill. *)
  if existsb (names_match (p_name d)) found then found
  else
    match non_empty (find (source_matches (modules d)) (sources bundle)) with
    | None => found
    | Some source =>
        match find (fun m => match sourceURL m with
                             | Some u => Str.eqb u source
                             | None => false
                             end) (mappings bundle) with
        | Some mapping =>
            found ++ [{| m_name := p_name d; line := lineNumber mapping;
                         column := columnNumber mapping |}]
        | None =>
            found ++ [{| m_name := p_name d; line := 0; column := 0 |}]
        end
    end.

Section Detect.

Variable polyfillModuleData : list PolyfillModule.
Variable matcher : CodePatternMatcher.
Variable bundles : list Bundle.

Definition correlate (bundle : Bundle) (found : list PatternMatchResult)
    : list PatternMatchResult :=
  fold_left (correlate_entry bundle) polyfillModuleData found.

Definition find_bundle (script : Script) : option Bundle :=
  find (fun b => Str.eqb (b_scriptId b) (scriptId script)) bundles.

(** The matches of one script with content: pattern matching, then the
    polyfill modules named by the source map. *)
Definition script_matches (script : Script) (code : Str.t)
    : option (list PatternMatchResult) :=
  match matcher_match matcher code with
  | None => None
  | Some found =>
      match find_bundle script with
      | Some bundle => Some (correlate bundle found)
      | None => Some found
      end
  end.

(** The body of the loop over the scripts.  [scriptToMatchResults] is kept as
    the list of its entries in insertion order; the scripts of the artifact
    are distinct objects, so that [set] always adds an entry. *)
Definition detect_script (acc : list (Script * list PatternMatchResult))
    (script : Script) : option (list (Script * list PatternMatchResult)) :=
  match non_empty (content script) with
  | None => Some acc
  | Some code =>
      match script_matches script code with
      | None => None
      | Some [] => Some acc
      | Some found => Some (acc ++ [(script, found)])
      end
  end.

Fixpoint detect_loop (scripts : list Script)
    (acc : list (Script * list PatternMatchResult))
    : option (list (Script * list PatternMatchResult)) :=
  match scripts with
  | [] => Some acc
  | script :: scripts' =>
      match detect_script acc script with
      | Some acc' => detect_loop scripts' acc'
      | None => None
      end
  end.

Definition detectAcrossScripts (scripts : list Script)
    : option (list (Script * list PatternMatchResult)) :=
  detect_loop scripts [].

End Detect.

(** *** [estimateWastedBytes] *)

(** The names of the members of [Object.prototype], which the object that
    [JSON.parse] makes of [polyfill-graph-data.json] inherits. *)
Definition object_prototype_members : list Str.t :=
  [ str "constructor"; str "__defineGetter__"; str "__defineSetter__";
    str "hasOwnProperty"; str "__lookupGetter__"; str "__lookupSetter__";
    str "isPrototypeOf"; str "propertyIsEnumerable"; str "toString";
    str "valueOf"; str "__proto__"; str "toLocaleString" ].

(** What reading a property of [graph.dependencies] gives: the value of an
    own property, a member inherited from [Object.prototype] (a function,
    or the prototype itself for [__proto__]: truthy and not iterable), or
    [undefined]. *)
Inductive member :=
| Own (mods : list nat)
| Inherited
| Undefined.

(** The own property [n] of the object with the entries [deps]. *)
Fixpoint own_dependencies (deps : list (Str.t * list nat)) (n : Str.t) : option (list nat) :=
  match deps with
  | [] => None
  | (k, v) :: deps' => if Str.eqb k n then Some v else own_dependencies deps' n
  end.

Section Estimate.

(** The content of [polyfill-graph-data.json]. *)
Variable graph : Graph.

(** [graph.dependencies[name]] *)
Definition dependencies_of (n : Str.t) : member :=
  match own_dependencies (dependencies graph) n with
  | Some mods => Own mods
  | None =>
      if existsb (Str.eqb n) object_prototype_members then Inherited else Undefined
  end.

(** [graph.moduleSizes[moduleIndex]] inside a sum: an index out of range
    reads [undefined], which the addition turns into [NaN]. *)
Definition module_size (moduleIndex : nat) : number :=
  match nth_error (moduleSizes graph) moduleIndex with
  | Some z => Num z
  | None => NaN
  end.

(** [modulesSeen.add(module)]: a [Set] keeps its elements in insertion
    order. *)
Definition set_add (modulesSeen : list nat) (module : nat) : list nat :=
  if existsb (Nat.eqb module) modulesSeen then modulesSeen else modulesSeen ++ [module].

Definition is_transform (m : PatternMatchResult) : bool :=
  Str.startsWith (str "@") (m_name m).

(** The body of the loop over [polyfillResults]; [for...of] over a
    value that is not iterable throws a [TypeError]. *)
Definition see_modules (modulesSeen : list nat) (result : PatternMatchResult)
    : option (list nat) :=
  match dependencies_of (m_name result) with
  | Undefined => Some modulesSeen (* Shouldn't happen. *)
  | Own mods => Some (fold_left set_add mods modulesSeen)
  | Inherited => None
  end.

(** The loop over [polyfillResults], from the modules seen so far. *)
Fixpoint modules_seen_from (polyfillResults : list PatternMatchResult)
    (modulesSeen : list nat) : option (list nat) :=
  match polyfillResults with
  | [] => Some modulesSeen
  | result :: polyfillResults' =>
      match see_modules modulesSeen result with
      | Some modulesSeen' => modules_seen_from polyfillResults' modulesSeen'
      | None => None
      end
  end.

(** The modules seen after the loop over [polyfillResults]. *)
Definition modules_seen (polyfillResults : list PatternMatchResult) : option (list nat) :=
  modules_seen_from polyfillResults [].

(** [[...modulesSeen].reduce((acc, moduleIndex) => acc + graph.moduleSizes[moduleIndex], 0)] *)
Definition polyfill_sum (modulesSeen : list nat) : number :=
  fold_left (fun acc moduleIndex => add acc (module_size moduleIndex))
            modulesSeen (Num 0).

Definition estimatedWastedBytesFromPolyfills (found : list PatternMatchResult)
    : option number :=
  let polyfillResults := filter (fun m => negb (is_transform m)) found in
  match modules_seen polyfillResults with
  | Some modulesSeen =>
      Some (min (add (Num 0) (polyfill_sum modulesSeen)) (Num (maxSize graph)))
  | None => None
  end.

(** The body of the loop over [transformResults]. *)
Definition add_transform (script : Script) (acc : number) (result : PatternMatchResult)
    : number :=
  match find (fun p => Str.eqb (name p) (m_name result)) getTransformPatterns with
  | None => acc
  | Some pattern =>
      match estimateBytes pattern, non_empty (content script) with
      | Some estimate, Some code => add acc (Num (estimate code))
      | _, _ => acc
      end
  end.

Definition estimatedWastedBytesFromTransforms (script : Script)
    (found : list PatternMatchResult) : number :=
  let transformResults := filter is_transform found in
  fold_left (add_transform script) transformResults (Num 0).

(** [estimateWastedBytes(script, matches)]; [None] when the loop over the
    polyfill results throws. *)
Definition estimateWastedBytes (script : Script) (found : list PatternMatchResult)
    : option number :=
  match estimatedWastedBytesFromPolyfills found with
  | Some polyfills => Some (add polyfills (estimatedWastedBytesFromTransforms script found))
  | None => None
  end.

End Estimate.

End LegacyJavascript.

(** ** The estimate with the additions of the machine *)

(** The numbers of the code are doubles: the sum of two integers is the
    nearest integer with 53 significant bits, the even one of two that are
    equally near, hence the sum itself up to 2^53 in absolute value (and
    infinite from 2^1024 on, which no statement below reaches).  The
    functions of [estimateWastedBytes] that add are given again with that
    sum. *)
Module Doubles.

Import LegacyJavascript.

Definition round (z : Z) : Z :=
  let a := Z.abs z in
  if (a <=? 2 ^ 53)%Z then z
  else
    let e := (Z.log2 a - 52)%Z in
    let q := Z.shiftr a e in
    let r := (a - Z.shiftl q e)%Z in
    let half := Z.shiftl 1 (e - 1) in
    let q' := if (r <? half)%Z || ((r =? half)%Z && Z.even q) then q else (q + 1)%Z in
    (Z.sgn z * Z.shiftl q' e)%Z.

(** [a + b] *)
Definition add (a b : number) : number :=
  match a, b with
  | Num x, Num y => Num (round (x + y))
  | _, _ => NaN
  end.

Section Estimate.

Variable graph : Graph.

(** [[...modulesSeen].reduce((acc, moduleIndex) => acc + graph.moduleSizes[moduleIndex], 0)] *)
Definition polyfill_sum (modulesSeen : list nat) : number :=
  fold_left (fun acc moduleIndex => add acc (module_size graph moduleIndex))
            modulesSeen (Num 0).

Definition estimatedWastedBytesFromPolyfills (found : list PatternMatchResult)
    : option number :=
  let polyfillResults := filter (fun m => negb (is_transform m)) found in
  match modules_seen graph polyfillResults with
  | Some modulesSeen =>
      Some (min (add (Num 0) (polyfill_sum modulesSeen)) (Num (maxSize graph)))
  | None => None
  end.

(** The body of the loop over [transformResults]. *)
Definition add_transform (script : Script) (acc : number) (result : PatternMatchResult)
    : number :=
  match find (fun p => Str.eqb (name p) (m_name result)) getTransformPatterns with
  | None => acc
  | Some pattern =>
      match estimateBytes pattern, non_empty (content script) with
      | Some estimate, Some code => add acc (Num (estimate code))
      | _, _ => acc
      end
  end.

Definition estimatedWastedBytesFromTransforms (script : Script)
    (found : list PatternMatchResult) : number :=
  let transformResults := filter is_transform found in
  fold_left (add_transform script) transformResults (Num 0).

(** [estimateWastedBytes(script, matches)] *)
Definition estimateWastedBytes (script : Script) (found : list PatternMatchResult)
    : option number :=
  match estimatedWastedBytesFromPolyfills found with
  | Some polyfills => Some (add polyfills (estimatedWastedBytesFromTransforms script found))
  | None => None
  end.

End Estimate.

End Doubles.

(** ** Pattern texts with open names *)

Import RegExp LegacyJavascript.

Module Symbolic.

(** All the ways a regular expression can read a prefix of [s]: the list of
    what can be left. *)
Fixpoint star_all (step : Str.t -> list Str.t) (fuel : nat) (s : Str.t) : list Str.t :=
  s :: match fuel with
       | O => []
       | S fuel' =>
           flat_map (fun s' => if length s' <? length s then star_all step fuel' s' else [])
                    (step s)
       end.

Definition one_char_all (p : ascii -> bool) (s : Str.t) : list Str.t :=
  match s with
  | c :: s' => if p c then [s'] else []
  | [] => []
  end.

Fixpoint all_matches (r : regex) (s : Str.t) : list Str.t :=
  match r with
  | Empty => [s]
  | Char c => one_char_all (Ascii.eqb c) s
  | Dot => one_char_all (fun c => negb (is_line_terminator c)) s
  | Space negated => one_char_all (fun c => xorb negated (is_space c)) s
  | Class negated items => one_char_all (class_matches negated items) s
  | Bol => [s]
  | Seq r1 r2 => flat_map (all_matches r2) (all_matches r1 s)
  | Alt r1 r2 => all_matches r1 s ++ all_matches r2 s
  | Star r1 => star_all (all_matches r1) (length s) s
  | Plus r1 => flat_map (fun s' => star_all (all_matches r1) (length s') s') (all_matches r1 s)
  | Opt r1 => s :: all_matches r1 s
  | Cap _ r1 => all_matches r1 s
  | NCap r1 => all_matches r1 s
  end.

(** The characters of the names in the catalog. *)
Definition is_ident_char (c : ascii) : bool := is_alnum c || Ascii.eqb c "_".

Definition is_module_char (c : ascii) : bool :=
  is_ident_char c || Ascii.eqb c "." || Ascii.eqb c "-".

Definition ident (s : Str.t) : bool :=
  match s with
  | [] => false
  | _ => forallb is_ident_char s
  end.

(** The term that one character of a name stands for in a pattern text. *)
Definition atom (c : ascii) : regex := if Ascii.eqb c "." then Dot else Char c.

(** The terms that a piece of pattern text stands for. *)
Definition chunk_terms (k : Str.t) : list regex :=
  match run k initial with
  | Some st => rev (f_seq (cur st))
  | None => []
  end.

(** A pattern text with the names left open: pieces of text, and the places
    of the class name, of the property and of the module name. *)
Inductive item :=
| Text (k : Str.t)
| HoleC
| HoleP
| HoleM.

Definition render_item (C P M : Str.t) (i : item) : Str.t :=
  match i with
  | Text k => k
  | HoleC => C
  | HoleP => P
  | HoleM => M
  end.

(** The text of a pattern: the alternatives are joined with a bar. *)
Definition render (C P M : Str.t) (alts : list (list item)) : Str.t :=
  Str.join (str "|") (map (flat_map (render_item C P M)) alts).

Definition inst_item (C P M : Str.t) (i : item) : list regex :=
  match i with
  | Text k => chunk_terms k
  | HoleC => map Char C
  | HoleP => map Char P
  | HoleM => map atom M
  end.

Definition inst_alt (C P M : Str.t) (items : list item) : regex :=
  seq_of (flat_map (inst_item C P M) items).

(** The alternatives of a text, as the reader nests them. *)
Definition alts_of (alts : list regex) : regex :=
  match alts with
  | [] => Empty
  | a :: alts' => fold_left Alt alts' a
  end.

(** The regular expression of a pattern text. *)
Definition inst (C P M : Str.t) (alts : list (list item)) : regex :=
  alts_of (map (inst_alt C P M) alts).

Definition binding := (option Str.t * option Str.t)%type.

Fixpoint ident_prefixes (s : Str.t) : list (Str.t * Str.t) :=
  match s with
  | c :: s' =>
      if is_ident_char c
      then ([c], s') :: map (fun vr => (c :: fst vr, snd vr)) (ident_prefixes s')
      else []
  | [] => []
  end.

Fixpoint line_suffixes (s : Str.t) : list Str.t :=
  match s with
  | c :: s' => if is_line_terminator c then [] else s' :: line_suffixes s'
  | [] => []
  end.

Definition bound (v : option Str.t) (s : Str.t) (k : Str.t -> Str.t -> list (binding * Str.t))
    : list (binding * Str.t) :=
  match v with
  | Some v => if Str.startsWith v s then k v (skipn (length v) s) else []
  | None => flat_map (fun vr => k (fst vr) (snd vr)) (ident_prefixes s)
  end.

(** The ways a text with open names can read a prefix of [s], each with the
    names it fixes and with what is left. *)
Fixpoint enum_items (items : list item) (b : binding) (s : Str.t) : list (binding * Str.t) :=
  match items with
  | [] => [(b, s)]
  | Text k :: items' =>
      flat_map (enum_items items' b) (all_matches (seq_of (chunk_terms k)) s)
  | HoleC :: items' =>
      bound (fst b) s (fun v s' => enum_items items' (Some v, snd b) s')
  | HoleP :: items' =>
      bound (snd b) s (fun v s' => enum_items items' (fst b, Some v) s')
  | HoleM :: items' => flat_map (enum_items items' b) (line_suffixes s)
  end.

Definition enum (alts : list (list item)) (s : Str.t) : list (binding * Str.t) :=
  flat_map (fun items => enum_items items (None, None) s) alts.

(** The three shapes of a catalog name ([Class], [Class.property] and
    [Class.prototype.property]) and the pattern text that
    [buildPolyfillExpression] writes for each.  For a global the place of
    the class name is where the text has [window] for the object. *)
Inductive shape := Global | Static | Proto.

Definition T (s : string) : item := Text (str s).

Definition qt_items : list item :=
  [Text (str "['" ++ [Str.dquote] ++ str "]"); HoleP;
   Text (str "['" ++ [Str.dquote] ++ str "]")].

Definition object_items (sh : shape) : list item :=
  match sh with
  | Proto => [HoleC; T ".prototype"]
  | _ => [HoleC]
  end.

Definition qt_class_items : list item :=
  [Text (str "['" ++ [Str.dquote] ++ str "]"); HoleC;
   Text (str "['" ++ [Str.dquote] ++ str "]")].

Definition module_alt : list item :=
  [T "core-js/modules/"; HoleM; Text [Str.dquote]].

Definition shape_alts (sh : shape) : list (list item) :=
  match sh with
  | Global =>
      [ [T "(?:window\.|[\s;]+)"; HoleP; T "\s?=[^=]"];
        [T "defineProperty\("; HoleC; T ",\s?"] ++ qt_items;
        module_alt ]
  | _ =>
      [ object_items sh ++ [T "\."; HoleP; T "\s?=[^=]"];
        object_items sh ++ [T "\["] ++ qt_items ++ [T "\]\s?=[^=]"];
        [T "defineProperty\("] ++ object_items sh ++ [T ",\s?"] ++ qt_items;
        [T "\("] ++ object_items sh ++ [T ",\s*{"; HoleP; T ":.*},\s*{"; HoleP];
        [T "{target:"] ++ qt_class_items ++ [T "\S*},{"; HoleP; T ":"];
        module_alt ]
  end.

(** The names under which a catalog pattern can match at the start of [s],
    with what the match leaves. *)
Definition candidates (s : Str.t) : list (shape * binding * Str.t) :=
  flat_map (fun sh => map (fun br => (sh, fst br, snd br)) (enum (shape_alts sh) s))
           [Global; Static; Proto].

Fixpoint tails (s : Str.t) : list Str.t :=
  s :: match s with [] => [] | _ :: s' => tails s' end.

Definition agrees (b : binding) (C P : Str.t) : Prop :=
  (fst b = None \/ fst b = Some C) /\ (snd b = None \/ snd b = Some P).

(** A piece of text is read as its terms, whatever was read before. *)
Definition chunk_ok (k : Str.t) : Prop :=
  forall stk cap alts seq n,
    run k (PState stk (Frame cap alts seq) n Normal)
    = Some (PState stk (Frame cap alts (rev (chunk_terms k) ++ seq)) n Normal).

Definition item_ok (i : item) : Prop :=
  match i with
  | Text k => chunk_ok k
  | _ => True
  end.

Definition add_alt (a0 : option regex) (r : regex) : regex :=
  match a0 with
  | None => r
  | Some a => Alt a r
  end.

(** A pattern whose expression, between parentheses, is read as a
    capturing group around [body]. *)
Definition reads (e : Str.t) (body : regex) : Prop :=
  forall a seq n,
    run (str "(" ++ e ++ str ")") (PState [] (Frame None a seq) n Normal)
    = Some (PState [] (Frame None a (Cap (S n) body :: seq)) (S n) Normal).

End Symbolic.

(** ** The scan, result by result *)

Import Symbolic.

Module Scan.

(** The first group of the regular expression of a matcher. *)
Definition newline_body : regex :=
  Alt (Alt (seq_of [Bol; Char Str.CR; Char Str.LF]) (seq_of [Char Str.CR]))
      (seq_of [Char Str.LF]).

(** The alternation of the groups, as the reader nests it: [acc] holds the
    groups up to number [k]. *)
Fixpoint alternate (acc : regex) (k : nat) (bodies : list regex) : regex :=
  match bodies with
  | [] => acc
  | b :: bodies' => alternate (Alt acc (seq_of [Cap (S k) b])) (S k) bodies'
  end.

Definition combined (bodies : list regex) : regex :=
  alternate (seq_of [Cap 1 newline_body]) 1 bodies.

(** No capturing group inside. *)
Fixpoint no_caps (r : regex) : bool :=
  match r with
  | Seq r1 r2 | Alt r1 r2 => no_caps r1 && no_caps r2
  | Star r1 | Plus r1 | Opt r1 | NCap r1 => no_caps r1
  | Cap _ _ => false
  | _ => true
  end.

(** No anchor inside. *)
Fixpoint bol_free (r : regex) : bool :=
  match r with
  | Bol => false
  | Seq r1 r2 | Alt r1 r2 => bol_free r1 && bol_free r2
  | Star r1 | Plus r1 | Opt r1 | NCap r1 | Cap _ r1 => bol_free r1
  | _ => true
  end.

(** Able to match without reading. *)
Fixpoint nullable (r : regex) : bool :=
  match r with
  | Empty | Bol | Star _ | Opt _ => true
  | Seq r1 r2 => nullable r1 && nullable r2
  | Alt r1 r2 => nullable r1 || nullable r2
  | Plus r1 | NCap r1 | Cap _ r1 => nullable r1
  | _ => false
  end.

(** The characters a match can begin with. *)
Fixpoint first_char (r : regex) (c : ascii) : bool :=
  match r with
  | Empty | Bol => false
  | Char d => Ascii.eqb d c
  | Dot => negb (is_line_terminator c)
  | Space negated => xorb negated (is_space c)
  | Class negated items => class_matches negated items c
  | Seq r1 r2 => first_char r1 c || (nullable r1 && first_char r2 c)
  | Alt r1 r2 => first_char r1 c || first_char r2 c
  | Star r1 | Plus r1 | Opt r1 | NCap r1 | Cap _ r1 => first_char r1 c
  end.

(** What the first group reads at the start of [s]: a carriage return and
    a line feed at index 0, or else one of the two. *)
Definition newline_len (at0 : bool) (s : Str.t) : option nat :=
  match s with
  | c :: s' =>
      if Ascii.eqb Str.CR c then
        if at0 then
          match s' with
          | d :: _ => if Ascii.eqb Str.LF d then Some 2 else Some 1
          | [] => Some 1
          end
        else Some 1
      else if Ascii.eqb Str.LF c then Some 1
      else None
  | [] => None
  end.

(** The first of the patterns to match, by position in the list, with the
    state of the matcher after it. *)
Fixpoint first_body (j : nat) (bodies : list regex) (st : mstate) : option (nat * mstate) :=
  match bodies with
  | [] => None
  | b :: bodies' =>
      match bt b st Some with
      | Some st' => Some (j, st')
      | None => first_body (S j) bodies' st
      end
  end.

(** What the regular expression of a matcher finds at the start of [s]:
    a line terminator ([None]) or a pattern, and the length of the match. *)
Definition event_at (bodies : list regex) (at0 : bool) (s : Str.t) : option (option nat * nat) :=
  match newline_len at0 s with
  | Some n => Some (None, n)
  | None =>
      match first_body 0 bodies (MState at0 s []) with
      | Some (j, st') => Some (Some j, length s - length (rest st'))
      | None => None
      end
  end.

Definition result_of_event (idx : nat) (s : Str.t) (e : option nat * nat) : exec_result :=
  match fst e with
  | None => ExecResult idx [(1, firstn (snd e) s)] (idx + snd e)
  | Some j => ExecResult idx [(j + 2, firstn (snd e) s)] (idx + snd e)
  end.

(** The first index at or after [idx] where the regular expression of a
    matcher finds something, [s] being the input from [idx] on. *)
Fixpoint next_event (bodies : list regex) (idx : nat) (s : Str.t)
    : option (nat * (option nat * nat)) :=
  match event_at bodies (idx =? 0) s with
  | Some e => Some (idx, e)
  | None =>
      match s with
      | [] => None
      | _ :: s' => next_event bodies (S idx) s'
      end
  end.

(** One iteration of the loop of [match], on what [exec] found. *)
Definition iterate_event (ps : list Pattern) (st : match_state)
    (ev : option (nat * (option nat * nat)))
    : option (match_state + list PatternMatchResult) :=
  match ev with
  | None => Some (inr (matches st))
  | Some (i, (None, n)) =>
      Some (inl {| lastIndex := i + n;
                   seen := seen st;
                   matches := matches st;
                   cur_line := cur_line st + 1;
                   lineBeginsAtIndex := Z.of_nat i + 1 |})
  | Some (i, (Some j, n)) =>
      match nth_error ps j with
      | None => None
      | Some pattern =>
          if existsb (Nat.eqb j) (seen st) then
            Some (inl {| lastIndex := i + n;
                         seen := seen st;
                         matches := matches st;
                         cur_line := cur_line st;
                         lineBeginsAtIndex := lineBeginsAtIndex st |})
          else
            Some (inl {| lastIndex := i + n;
                         seen := j :: seen st;
                         matches := matches st ++
                           [{| m_name := name pattern;
                               line := cur_line st;
                               column := Z.of_nat i - lineBeginsAtIndex st |}];
                         cur_line := cur_line st;
                         lineBeginsAtIndex := lineBeginsAtIndex st |})
      end
  end.

(** The loop of [match], on what [exec] finds. *)
Fixpoint event_loop (fuel : nat) (ps : list Pattern) (bodies : list regex) (code : Str.t)
    (st : match_state) : option (list PatternMatchResult) :=
  match fuel with
  | O => None
  | S fuel' =>
      match iterate_event ps st
              (next_event bodies (lastIndex st) (skipn (lastIndex st) code)) with
      | None => None
      | Some (inr result) => Some result
      | Some (inl st') => event_loop fuel' ps bodies code st'
      end
  end.

(** A matcher whose regular expression is the alternation of the line
    terminators and of [bodies], one per pattern. *)
Definition scans (m : CodePatternMatcher) (bodies : list regex) : Prop :=
  re m = combined bodies
  /\ groups m = S (length bodies)
  /\ length (patterns m) = length bodies
  /\ forall b, In b bodies -> no_caps b = true /\ nullable b = false.

(** The same properties, read off a pattern text with open names. *)
Definition item_all (p : regex -> bool) (i : item) : bool :=
  match i with
  | Text k => forallb p (chunk_terms k)
  | _ => true
  end.

Definition item_consumes (i : item) : bool :=
  match i with
  | Text k => existsb (fun t => negb (nullable t)) (chunk_terms k)
  | _ => false
  end.

(** The first item of an alternative decides how a match can begin: a
    piece of text that reads something and cannot begin with [c], or the
    class name or the property. *)
Definition alt_begins_without (c : ascii) (items : list item) : bool :=
  match items with
  | Text k :: _ =>
      match chunk_terms k with
      | t :: _ => negb (nullable t) && negb (first_char t c)
      | [] => false
      end
  | HoleC :: _ => true
  | HoleP :: _ => true
  | _ => false
  end.

(** The same, for an alternative that begins with a piece of text. *)
Definition text_begins_without (c : ascii) (items : list item) : bool :=
  match items with
  | Text k :: _ =>
      match chunk_terms k with
      | t :: _ => negb (nullable t) && negb (first_char t c)
      | [] => false
      end
  | _ => false
  end.

(** What a regular expression can read: [accepts r s s'] when [r] can read
    the characters of [s] before [s'].  Anchors and captures are left out,
    so that the relation bounds the matcher from above. *)
Inductive accepts : regex -> Str.t -> Str.t -> Prop :=
| A_Empty s : accepts Empty s s
| A_Char c s : accepts (Char c) (c :: s) s
| A_Dot c s : is_line_terminator c = false -> accepts Dot (c :: s) s
| A_Space negated c s :
    xorb negated (is_space c) = true -> accepts (Space negated) (c :: s) s
| A_Class negated items c s :
    class_matches negated items c = true -> accepts (Class negated items) (c :: s) s
| A_Bol s : accepts Bol s s
| A_Seq r1 r2 s s' s'' :
    accepts r1 s s' -> accepts r2 s' s'' -> accepts (Seq r1 r2) s s''
| A_AltL r1 r2 s s' : accepts r1 s s' -> accepts (Alt r1 r2) s s'
| A_AltR r1 r2 s s' : accepts r2 s s' -> accepts (Alt r1 r2) s s'
| A_StarO r s : accepts (Star r) s s
| A_StarS r s s' s'' :
    accepts r s s' -> accepts (Star r) s' s'' -> accepts (Star r) s s''
| A_Plus r s s' s'' :
    accepts r s s' -> accepts (Star r) s' s'' -> accepts (Plus r) s s''
| A_OptO r s : accepts (Opt r) s s
| A_OptS r s s' : accepts r s s' -> accepts (Opt r) s s'
| A_Cap n r s s' : accepts r s s' -> accepts (Cap n r) s s'
| A_NCap r s s' : accepts r s s' -> accepts (NCap r) s s'.

(** The same state, away from index 0. *)
Definition unflag (st : mstate) : mstate := MState false (rest st) (caps st).

Definition event_of (r : option (nat * mstate)) : option (nat * nat) :=
  match r with
  | Some (j, st') => Some (j, length (rest st'))
  | None => None
  end.

(** States of two runs, the second on the code with one more character in
    front. *)
Definition framed (st st' : match_state) : Prop :=
  lastIndex st' = S (lastIndex st) /\ seen st' = seen st
  /\ map m_name (matches st') = map m_name (matches st).

End Scan.

(** ** Catalogs *)

Import Scan.

Module Catalog.

(** The names that [create-polyfill-module-data.js] writes: [Class] for a
    global, [Class.property] for a static property and
    [Class.prototype.property] for an instance property. *)
Definition name_shape (n : Str.t) : option (shape * Str.t * Str.t) :=
  match Str.split "." n with
  | [P] => if ident P then Some (Global, str "window", P) else None
  | [C; P] => if ident C && ident P then Some (Static, C, P) else None
  | [C; M; P] =>
      if ident C && Str.eqb M (str "prototype") && ident P
      then Some (Proto, C, P) else None
  | _ => None
  end.

(** The module name as it is written into the pattern. *)
Definition module_text (d : PolyfillModule) : Str.t :=
  template_value (nth_error (modules d) 0).

Definition wf_module (m : Str.t) : bool :=
  match m with
  | [] => false
  | _ => forallb is_module_char m
  end.

(** A catalog entry that yields a pattern is well formed when its name has
    one of the three shapes and its first module is a module name. *)
Definition wf_entry (d : PolyfillModule) : bool :=
  if corejs d
  then match name_shape (p_name d) with
       | Some _ => wf_module (module_text d)
       | None => false
       end
  else true.

Definition wf_catalog (data : list PolyfillModule) : Prop :=
  forallb wf_entry data = true.

(** The property of an entry, as [getPolyfillPatterns] takes it. *)
Definition property_of (n : Str.t) : Str.t :=
  let parts := Str.split "." n in nth (length parts - 1) parts [].

(** No entry for a global: every pattern has an object. *)
Definition has_object (d : PolyfillModule) : bool :=
  match name_shape (p_name d) with
  | Some (Global, _, _) => false
  | _ => true
  end.

(** The regular expression of the pattern of an entry. *)
Definition entry_body (d : PolyfillModule) : regex :=
  match name_shape (p_name d) with
  | Some (sh, C, P) => inst C P (module_text d) (shape_alts sh)
  | None => Empty
  end.

(** The texts of the transform patterns. *)
Definition transform_alts : list (list (list item)) :=
  [ [[T "Cannot call a class as a function"]];
    [[T "Generator is already running"]; [T "regeneratorRuntime"]];
    [[T "Invalid attempt to spread non-iterable instance"]] ].

Definition transform_bodies : list regex := map (inst [] [] []) transform_alts.

(** The regular expressions of the patterns of the audit. *)
Definition audit_bodies (data : list PolyfillModule) : list regex :=
  map entry_body (filter corejs data) ++ transform_bodies.

Definition audit_patterns (data : list PolyfillModule) : list Pattern :=
  getPolyfillPatterns data ++ getTransformPatterns.

(** Nothing for the audit to find at the start of [t]: no line terminator,
    no transform, and no catalog pattern but for a property among [props]. *)
Definition is_none {A} (o : option A) : bool :=
  match o with
  | None => true
  | Some _ => false
  end.

Definition candidate_excluded (props : list Str.t) (c : shape * binding * Str.t) : bool :=
  match snd (snd (fst c)) with
  | Some p => existsb (Str.eqb p) props
  | None => false
  end.

Definition quiet_at (props : list Str.t) (at0 : bool) (t : Str.t) : bool :=
  is_none (newline_len at0 t)
  && forallb (fun b => is_none (bt b (MState at0 t []) Some)) transform_bodies
  && forallb (candidate_excluded props) (candidates t).

Fixpoint quiet (props : list Str.t) (idx : nat) (s : Str.t) : bool :=
  quiet_at props (idx =? 0) s
  && match s with
     | [] => true
     | _ :: s' => quiet props (S idx) s'
     end.

(** The name of each shape. *)
Definition shape_name (sh : shape) (C P : Str.t) : Str.t :=
  match sh with
  | Global => P
  | Static => C ++ str "." ++ P
  | Proto => C ++ str "." ++ str "prototype" ++ str "." ++ P
  end.

(** The characters put in front of a snippet. *)
Definition framing_char (c : ascii) : bool := Ascii.eqb c ";" || Ascii.eqb c " ".

(** Two lists of matches that report the same signals, in the same order. *)
Definition same_signals (r r' : list PatternMatchResult) : Prop :=
  map m_name r' = map m_name r.

End Catalog.

(** ** Traces of a scan *)

Import Catalog.

Module Trace.

(** What one call of [exec] finds: the index, the pattern (none for a line
    terminator) and the length. *)
Definition event := (nat * (option nat * nat))%type.

(** The successive results of [exec] from index [idx] on, each search
    starting where the last result ended. *)
Fixpoint trace (fuel : nat) (bodies : list regex) (code : Str.t) (idx : nat) : list event :=
  match fuel with
  | O => []
  | S fuel' =>
      match next_event bodies idx (skipn idx code) with
      | None => []
      | Some (i, (g, n)) => (i, (g, n)) :: trace fuel' bodies code (i + n)
      end
  end.

Definition scan_events (bodies : list regex) (code : Str.t) : list event :=
  trace (S (length code)) bodies code 0.

Definition is_newline (e : event) : bool :=
  match snd e with
  | (None, _) => true
  | _ => false
  end.

Definition is_pattern (j : nat) (e : event) : bool :=
  match snd e with
  | (Some k, _) => Nat.eqb j k
  | _ => false
  end.

(** The number of line terminators scanned. *)
Definition line_of (before : list event) : Z :=
  Z.of_nat (length (filter is_newline before)).

(** The start of the current line, [past] being what a line terminator
    leaves as the start of the next line. *)
Definition line_start (past : event -> Z) (before : list event) : Z :=
  fold_left (fun acc e => if is_newline e then past e else acc) before 0%Z.

(** [result.index + 1], which [match] records. *)
Definition index_plus_one (e : event) : Z := Z.of_nat (fst e) + 1.

(** The index just past a line terminator. *)
Definition past_terminator (e : event) : Z := Z.of_nat (fst e + snd (snd e)).

(** The matches that a scan reports: for every pattern, at the first event
    of that pattern, the line and the column of that event. *)
Fixpoint located (past : event -> Z) (ps : list Pattern) (before evs : list event)
    : list PatternMatchResult :=
  match evs with
  | [] => []
  | e :: evs' =>
      match snd e with
      | (Some j, _) =>
          if existsb (is_pattern j) before then []
          else match nth_error ps j with
               | Some pattern =>
                   [{| m_name := name pattern;
                       line := line_of before;
                       column := Z.of_nat (fst e) - line_start past before |}]
               | None => []
               end
      | _ => []
      end ++ located past ps (before ++ [e]) evs'
  end.

(** The patterns that a scan reports, in the order of their first
    events. *)
Fixpoint reported_patterns (ps : list Pattern) (before evs : list event) : list nat :=
  match evs with
  | [] => []
  | e :: evs' =>
      match snd e with
      | (Some j, _) =>
          if existsb (is_pattern j) before then []
          else match nth_error ps j with
               | Some _ => [j]
               | None => []
               end
      | _ => []
      end ++ reported_patterns ps (before ++ [e]) evs'
  end.

(** The state of [match] after the events [before]. *)
Definition tracked (st : match_state) (before : list event) : Prop :=
  (forall j, existsb (Nat.eqb j) (seen st) = existsb (is_pattern j) before)
  /\ cur_line st = line_of before
  /\ lineBeginsAtIndex st = line_start index_plus_one before.

(** The first index at which an expression alone matches in a text. *)
Definition first_occurrence (expression code : Str.t) : option nat :=
  match parse expression with
  | Some r => option_map index (exec r 0 code)
  | None => None
  end.

(** The line and the column of an index of a text, every carriage return
    and every line feed ending a line. *)
Fixpoint position_from (s : Str.t) (i idx : nat) (line begins : Z) : Z * Z :=
  match i, s with
  | S i', c :: s' =>
      if is_line_terminator c
      then position_from s' i' (S idx) (line + 1)%Z (Z.of_nat idx + 1)%Z
      else position_from s' i' (S idx) line begins
  | _, _ => (line, (Z.of_nat idx - begins)%Z)
  end.

Definition position (code : Str.t) (i : nat) : Z * Z := position_from code i 0 0%Z 0%Z.

(** Every match is reported at the first occurrence of the expression of
    its pattern in the text. *)
Definition at_first_occurrence (ps : list Pattern) (code : Str.t)
    (mt : PatternMatchResult) : bool :=
  forallb (fun p =>
             if Str.eqb (name p) (m_name mt)
             then match first_occurrence (expression p) code with
                  | Some i =>
                      Z.eqb (fst (position code i)) (line mt)
                      && Z.eqb (snd (position code i)) (column mt)
                  | None => false
                  end
             else true) ps.

Definition starts_with_crlf (code : Str.t) : bool :=
  Str.startsWith [Str.CR; Str.LF] code.

(** A line terminator of one character. *)
Definition unit_newline (e : event) : Prop :=
  is_newline e = true -> snd (snd e) = 1.

(** Every match has a pattern of [ps] behind it. *)
Definition named_by (ps : list Pattern) (seen : list nat) (ms : list PatternMatchResult)
    : Prop :=
  forall mt, In mt ms ->
    exists j pattern, In j seen /\ nth_error ps j = Some pattern /\ m_name mt = name pattern.

End Trace.

Module Detect.

(** No string twice in a list. *)
Fixpoint distinct (l : list Str.t) : bool :=
  match l with
  | [] => true
  | a :: l' => negb (existsb (Str.eqb a) l') && distinct l'
  end.

(** An entry of a name one of whose modules names a source of the map. *)
Definition named_source (bundle : Bundle) (n : Str.t) (d : PolyfillModule) : bool :=
  Str.eqb (p_name d) n && existsb (source_matches (modules d)) (sources bundle).

(** Where the source map places a source: the first mapping of that
    source, or the start of the file when the map has none. *)
Definition mapped_location (bundle : Bundle) (source : Str.t) : Z * Z :=
  match find (fun m => match sourceURL m with
                       | Some u => Str.eqb u source
                       | None => false
                       end) (mappings bundle) with
  | Some mapping => (lineNumber mapping, columnNumber mapping)
  | None => (0, 0)%Z
  end.

(** The combined list of a script: what pattern matching finds in its
    content, then what the source map of its bundle adds. *)
Definition combined_matches (data : list PolyfillModule) (m : CodePatternMatcher)
    (bundles : list Bundle) (script : Script) : list PatternMatchResult :=
  match non_empty (content script) with
  | None => []
  | Some code =>
      match script_matches data m bundles script code with
      | Some found => found
      | None => []
      end
  end.

(** The entries of the map that [detectAcrossScripts] returns, as the
    scripts with a combined list that is not empty. *)
Definition reported (data : list PolyfillModule) (m : CodePatternMatcher)
    (bundles : list Bundle) (scripts : list Script)
    : list (Script * list PatternMatchResult) :=
  flat_map (fun script =>
              match combined_matches data m bundles script with
              | [] => []
              | found => [(script, found)]
              end) scripts.

End Detect.

(** ** The estimate, as the specification words it *)

Module EstimateSpec.

Section Spec.

Variable graph : Graph.

(** The sum of the sizes of a list of modules. *)
Definition sum_sizes (l : list nat) : number :=
  fold_left (fun acc i => add acc (module_size graph i)) l (Num 0).

(** The modules that [graph.dependencies] lists for a match: those of its
    own entry. *)
Definition listed (r : PatternMatchResult) : list nat :=
  match own_dependencies (dependencies graph) (m_name r) with
  | Some mods => mods
  | None => []
  end.

(** A match whose name finds a member of [Object.prototype] and no entry
    of [graph.dependencies]. *)
Definition inherited (r : PatternMatchResult) : bool :=
  match dependencies_of graph (m_name r) with
  | Inherited => true
  | _ => false
  end.

Definition polyfill_matches (found : list PatternMatchResult) : list PatternMatchResult :=
  filter (fun m => negb (is_transform m)) found.

(** Some polyfill match has such a name. *)
Definition names_inherited (found : list PatternMatchResult) : bool :=
  existsb inherited (polyfill_matches found).

(** A list without its repetitions, every element at its first place. *)
Fixpoint first_occurrences (l : list nat) : list nat :=
  match l with
  | [] => []
  | i :: l' => i :: filter (fun j => negb (j =? i)) (first_occurrences l')
  end.

(** The modules of the polyfill matches: the union of what
    [graph.dependencies] lists for them, in the order of first mention. *)
Definition seen_modules (found : list PatternMatchResult) : list nat :=
  first_occurrences (flat_map listed (polyfill_matches found)).

Definition dependency_union (rs : list PatternMatchResult) : list nat :=
  nodup Nat.eq_dec (flat_map listed rs).

(** The sizes of a list of modules, read off [graph.moduleSizes] and added
    from left to right. *)
Definition sizes_total (l : list nat) : number :=
  fold_left (fun acc i => add acc (match nth_error (moduleSizes graph) i with
                                   | Some z => Num z
                                   | None => NaN
                                   end)) l (Num 0).

(** The same sizes, added from left to right as the machine adds
    them. *)
Definition sizes_added (l : list nat) : number :=
  fold_left (fun acc i => Doubles.add acc (match nth_error (moduleSizes graph) i with
                                           | Some z => Num z
                                           | None => NaN
                                           end)) l (Num 0).

(** The size of a module that has one, and the sum of the sizes of a list
    of such modules. *)
Definition size_at (i : nat) : Z := nth i (moduleSizes graph) 0%Z.

Definition sizes_sum (l : list nat) : Z :=
  fold_right (fun i acc => (size_at i + acc)%Z) 0%Z l.

(** The sizes are within the range in which the additions of the code are
    exact, whatever their order: their absolute values sum to 2^53 at
    most. *)
Definition sizes_exact : Prop :=
  (fold_right (fun z acc => Z.abs z + acc) 0 (moduleSizes graph) <= 2 ^ 53)%Z.

Definition transform_estimate (code : Str.t) (r : PatternMatchResult) : Z :=
  match find (fun p => Str.eqb (name p) (m_name r)) getTransformPatterns with
  | Some p => match estimateBytes p with Some f => f code | None => 0%Z end
  | None => 0%Z
  end.

Definition transform_total (script : Script) (found : list PatternMatchResult) : Z :=
  fold_right (fun r acc => (transform_estimate (match content script with Some c => c | None => [] end) r + acc)%Z)
             0%Z (filter is_transform found).


(** The estimate is within the range in which the additions of the code
    are exact: the absolute values of the sizes and of the ceiling, and the
    estimates of the transform matches, sum to 2^53 at most. *)
Definition estimate_exact (script : Script) (found : list PatternMatchResult) : Prop :=
  (fold_right (fun z acc => Z.abs z + acc) 0 (moduleSizes graph)
   + Z.abs (maxSize graph) + transform_total script found <= 2 ^ 53)%Z.

End Spec.

End EstimateSpec.

(** ** Sample data *)

Import Trace Detect EstimateSpec.

Module Sample.

(** A small catalog in the format of [polyfill-module-data.json], with the
    two hand-written entries of [create-polyfill-module-data.js] and some of
    the entries it derives; the last one is a global, which the shipped
    catalog leaves out (see [modulesToSkip]). *)
Definition entry (n : string) (m : string) (c : bool) : PolyfillModule :=
  {| p_name := str n; modules := [str m]; corejs := c |}.

Definition catalog : list PolyfillModule :=
  [ entry "focus-visible" "focus-visible" false;
    entry "Error.prototype.cause" "es.error.cause" false;
    entry "Array.prototype.findLast" "esnext.array.find-last" true;
    entry "Array.prototype.forEach" "es.array.for-each" true;
    entry "Object.entries" "es.object.entries" true;
    entry "Object.keys" "es.object.keys" true;
    entry "Object.values" "es.object.values" true;
    entry "String.prototype.repeat" "es.string.repeat" true;
    entry "String.raw" "es.string.raw" true ].

Definition catalog_with_global : list PolyfillModule :=
  catalog ++ [entry "Promise" "es.promise" true].

(** A small graph in the format of [polyfill-graph-data.json]: module 0 is
    shared by the three polyfills. *)
Definition graph : Graph :=
  {| moduleSizes := [1000; 200; 300; 50]%Z;
     dependencies := [(str "Object.entries", [0; 1]);
                      (str "Object.values", [0; 2]);
                      (str "String.prototype.repeat", [0; 3])];
     maxSize := 10000 |}.

Definition script (code : Str.t) : Script :=
  {| url := str "https://www.example.com/a.js"; content := Some code; scriptId := str "0" |}.

Definition found (n : string) : PatternMatchResult :=
  {| m_name := str n; line := 0; column := 0 |}.

(** The matches of a code with a catalog. *)
Definition run (data : list PolyfillModule) (code : Str.t) : option (list PatternMatchResult) :=
  match audit_matcher data with
  | Some m => matcher_match m code
  | None => None
  end.

(** The first iteration of the loop of [match]. *)
Definition first_iteration (data : list PolyfillModule) (code : Str.t)
    : option (match_state + list PatternMatchResult) :=
  match audit_matcher data with
  | Some m => match_iteration m code initial_state
  | None => None
  end.

(** A bundle whose source map lists a polyfill module and has no mapping
    for it, and one with a mapping. *)
Definition repeat_source : Str.t := str "node_modules/blah/blah/es.string.repeat.js".

Definition bundle : Bundle :=
  {| b_scriptId := str "0"; sources := [repeat_source]; mappings := [] |}.

Definition mapped_bundle : Bundle :=
  {| b_scriptId := str "0";
     sources := [repeat_source];
     mappings := [ {| sourceURL := None; lineNumber := 0; columnNumber := 0 |};
                   {| sourceURL := Some repeat_source; lineNumber := 3; columnNumber := 14 |} ] |}.

Definition no_content : Script :=
  {| url := str "https://www.example.com/b.js"; content := None; scriptId := str "1" |}.

Definition empty_content : Script :=
  {| url := str "https://www.example.com/c.js"; content := Some []; scriptId := str "2" |}.

(** A catalog with two entries of one name, as the generator writes them
    for a module and for the module of the same feature under [esnext]. *)
Definition twin_catalog : list PolyfillModule :=
  [ entry "Array.prototype.findLast" "es.array.find-last" true;
    entry "Array.prototype.findLast" "esnext.array.find-last" true ].

(** A bundle whose source map lists the two modules, each with a
    mapping. *)
Definition twin_source : Str.t := str "node_modules/core-js/modules/es.array.find-last.js".

Definition esnext_source : Str.t :=
  str "node_modules/core-js/modules/esnext.array.find-last.js".

Definition twin_bundle : Bundle :=
  {| b_scriptId := str "0";
     sources := [twin_source; esnext_source];
     mappings := [ {| sourceURL := Some twin_source; lineNumber := 1; columnNumber := 2 |};
                   {| sourceURL := Some esnext_source; lineNumber := 3;
                      columnNumber := 4 |} ] |}.

(** A script of the bundles above without content. *)
Definition silent_script : Script :=
  {| url := str "https://www.example.com/a.js"; content := Some []; scriptId := str "0" |}.

(** What [detectAcrossScripts] returns with the matcher of a catalog. *)
Definition detect (data : list PolyfillModule) (bundles : list Bundle)
    (scripts : list Script) : option (list (Script * list PatternMatchResult)) :=
  match audit_matcher data with
  | Some m => detectAcrossScripts data m bundles scripts
  | None => None
  end.

End Sample.

Module Inputs.

(** A chained assignment: the first signature of [Object.values] begins
    inside what the pattern of [Object.keys] reads. *)
Definition chained_code : Str.t := str "Object.keys=Object.values=f;Object.values=g".

Definition chained_lines : Str.t :=
  str "Object.keys=Object.values=f" ++ [Str.LF] ++ str "Object.values=g".

Definition values_expression : Str.t :=
  buildPolyfillExpression (Some (str "Object")) (str "values") (str "es.object.values").

(** A file that begins with a carriage return and a line feed. *)
Definition crlf_code : Str.t :=
  [Str.CR; Str.LF] ++ str "String.prototype.repeat = function() {}".

Definition two_lines : Str.t :=
  str "some code;" ++ [Str.LF] ++ str "String.prototype.repeat = function() {}".

Definition global_code : Str.t := str "Promise = function() {}".

Definition framed_code : Str.t :=
  str "String.prototype.repeat = function() {}; Object.values = f".

Definition blah_code : Str.t := str "blah blah".



(** A graph with a module of 2^53 bytes. *)
Definition huge_graph : Graph :=
  {| moduleSizes := [2 ^ 53; 1; 1]%Z;
     dependencies := [(str "Object.entries", [0; 1]);
                      (str "Object.values", [0; 2]);
                      (str "Object.keys", [1; 2])];
     maxSize := (2 ^ 54)%Z |}.

Definition repeat_code : Str.t := str "String.prototype.repeat = function() {}".

Definition ordinary_code : list Str.t :=
  [ str "var message = " ++ [Str.dquote] ++ str "hello world" ++ [Str.dquote]
      ++ str "; console.log(message);";
    str "SomeClass.prototype.someFn = function() {}";
    str "Object.defineProperty(SomeClass.prototype, " ++ [Str.dquote] ++ str "someFn"
      ++ [Str.dquote] ++ str ", function() {})";
    str "SomeGlobal = function() {}";
    str "var b=typeof Map===" ++ [Str.dquote] ++ str "function" ++ [Str.dquote]
      ++ str "?new Map():void 0" ].

Definition unrelated_properties : list Str.t := [str "message"; str "someFn"; str "b"].

(** An identifier that ends with the name of a global, and an assignment
    to it. *)
Definition subclass_name : Str.t := str "SomePromise".

Definition subclass_code : Str.t := subclass_name ++ str " = function() {}".

(** An assignment to a property, and on the next line the path of the
    module of the same property under [esnext]. *)
Definition twin_code : Str.t :=
  str "Array.prototype.findLast=f;" ++ [Str.LF] ++ str "require(" ++ [Str.dquote]
  ++ str "core-js/modules/esnext.array.find-last" ++ [Str.dquote] ++ str ")".

End Inputs.

(** ** Positions, signatures and more of the audit *)

Module Positions.

(** The number of carriage returns and line feeds of a text. *)
Definition terminators (s : Str.t) : nat := length (filter is_line_terminator s).

(** A match that lies in a text: its line is at most the number of line
    terminators, its column at most the length. *)
Definition in_file (code : Str.t) (mt : PatternMatchResult) : Prop :=
  (0 <= line mt <= Z.of_nat (terminators code))%Z
  /\ (0 <= column mt <= Z.of_nat (length code))%Z.

(** The state of [match] lies in the text. *)
Definition state_in_file (code : Str.t) (st : match_state) : Prop :=
  lastIndex st <= length code
  /\ (0 <= cur_line st <= Z.of_nat (terminators (firstn (lastIndex st) code)))%Z
  /\ (0 <= lineBeginsAtIndex st <= Z.of_nat (lastIndex st))%Z
  /\ Forall (in_file code) (matches st).

End Positions.

Module Signatures.

(** The object of a pattern, as the code under audit writes it. *)
Definition object_text (sh : shape) (C : Str.t) : Str.t :=
  match sh with
  | Proto => C ++ str ".prototype"
  | _ => C
  end.

(** What may stand between the property and the equals sign: nothing or
    one character of white space. *)
Definition is_gap (gap : Str.t) : bool :=
  match gap with
  | [] => true
  | [w] => is_space w
  | _ => false
  end.

(** An assignment to a property of an object, [x] being the first
    character of what is assigned. *)
Definition assignment (sh : shape) (C P gap : Str.t) (x : ascii) (t : Str.t) : Str.t :=
  object_text sh C ++ str "." ++ P ++ gap ++ str "=" ++ x :: t.

(** A continuation that succeeds wherever a match ends at [s]. *)
Definition good (k : cont) (s : Str.t) : Prop :=
  forall a caps, k (MState a s caps) <> None.

(** The forms under which the code under audit defines a property: the
    assignment, the assignment with brackets, [Object.defineProperty], the
    call of es-shims, the descriptor of core-js 3 and the path of the
    module.  Each form says what is free in it: the white space, the
    quotes, the first character of what is assigned, the text skipped. *)
Inductive form :=
| Assign (gap : Str.t) (x : ascii)
| Bracket (q1 q2 : ascii) (gap : Str.t) (x : ascii)
| DefineProperty (gap : Str.t) (q1 q2 : ascii)
| Shim (ws1 filler ws2 : Str.t)
| Target (q1 q2 : ascii) (filler : Str.t)
| ModulePath.

Definition is_quote (c : ascii) : bool := Ascii.eqb c "'" || Ascii.eqb c Str.dquote.

Definition valid_form (f : form) : bool :=
  match f with
  | Assign gap x => is_gap gap && negb (Ascii.eqb x "=")
  | Bracket q1 q2 gap x =>
      is_quote q1 && is_quote q2 && is_gap gap && negb (Ascii.eqb x "=")
  | DefineProperty gap q1 q2 => is_gap gap && is_quote q1 && is_quote q2
  | Shim ws1 filler ws2 =>
      forallb is_space ws1
      && forallb (fun c => negb (is_line_terminator c)) filler
      && forallb is_space ws2
  | Target q1 q2 filler =>
      is_quote q1 && is_quote q2 && forallb (fun c => negb (is_space c)) filler
  | ModulePath => true
  end.

(** The text of a form for the class [C], the property [P] and the module
    [M] of a pattern of shape [sh]. *)
Definition signature_text (sh : shape) (C P M : Str.t) (f : form) : Str.t :=
  match f with
  | Assign gap x =>
      object_text sh C ++ str "." ++ P ++ gap ++ str "=" ++ [x]
  | Bracket q1 q2 gap x =>
      object_text sh C ++ str "[" ++ [q1] ++ P ++ [q2] ++ str "]" ++ gap ++ str "=" ++ [x]
  | DefineProperty gap q1 q2 =>
      str "defineProperty(" ++ object_text sh C ++ str "," ++ gap ++ [q1] ++ P ++ [q2]
  | Shim ws1 filler ws2 =>
      str "(" ++ object_text sh C ++ str "," ++ ws1 ++ str "{" ++ P ++ str ":" ++ filler
      ++ str "}," ++ ws2 ++ str "{" ++ P
  | Target q1 q2 filler =>
      str "{target:" ++ [q1] ++ C ++ [q2] ++ filler ++ str "},{" ++ P ++ str ":"
  | ModulePath => str "core-js/modules/" ++ M ++ [Str.dquote]
  end.

(** The alternative of the pattern that reads a form. *)
Definition form_index (f : form) : nat :=
  match f with
  | Assign _ _ => 0
  | Bracket _ _ _ _ => 1
  | DefineProperty _ _ _ => 2
  | Shim _ _ _ => 3
  | Target _ _ _ => 4
  | ModulePath => 5
  end.

(** Terms of one character, and a list of them that spells a text. *)
Definition single (t : regex) : bool :=
  match t with
  | Char _ | Dot | Space _ | Class _ _ => true
  | _ => false
  end.

Fixpoint spells (ts : list regex) (w : Str.t) : bool :=
  match ts, w with
  | [], [] => true
  | t :: ts', c :: w' => single t && first_char t c && spells ts' w'
  | _, _ => false
  end.

(** [makeRequireCodeForPolyfill(module)] of the verification tool
    ([core/scripts/legacy-javascript/run.js]). *)
Definition makeRequireCodeForPolyfill (module : Str.t) : Str.t :=
  str "require(" ++ [Str.dquote] ++ str "../../../../node_modules/core-js/modules/"
  ++ module ++ [Str.dquote] ++ str ")".

(** A list of terms reads a text, whatever follows it. *)
Definition reads_text (ts : list regex) (w : Str.t) : Prop :=
  forall s, accepts (seq_of ts) (w ++ s) s.

End Signatures.

Module Snippets.

(** The helpers that Babel writes for a class, with one use. *)
Definition classes_code : Str.t :=
  str "function _classCallCheck(a, n) { if (!(a instanceof n)) throw new TypeError("
  ++ [Str.dquote] ++ str "Cannot call a class as a function" ++ [Str.dquote]
  ++ str "); } function A() { _classCallCheck(this, A); }".

End Snippets.

Module Warnings.

(** [UIStrings.detectedCoreJs2Warning]; a message of [str_] is kept as its
    text. *)
Definition detectedCoreJs2Warning : Str.t :=
  str "Version 2 of core-js was detected on the page. You should upgrade to version 3 for many performance improvements.".

(** The text of the regular expression of [audit_]. *)
Definition coreJs2_expression : Str.t := str "node_modules\/core-js\/modules\/es[67]".

(** [s.match(/node_modules\/core-js\/modules\/es[67]/)] as a truth value:
    without the [g] flag, [match] is [exec] from index 0. *)
Definition matches_coreJs2 (s : Str.t) : bool :=
  match parse coreJs2_expression with
  | Some r =>
      match exec r 0 s with
      | Some _ => true
      | None => false
      end
  | None => false
  end.

(** The loop of [audit_] over the bundles; [isFirstParty bundle] stands for
    [classifiedEntities.isFirstParty(bundle.script.url)]. *)
Fixpoint warnings (isFirstParty : Bundle -> bool) (bundles : list Bundle) : list Str.t :=
  match bundles with
  | [] => []
  | bundle :: bundles' =>
      if isFirstParty bundle
      then if existsb matches_coreJs2 (sources bundle)
           then [detectedCoreJs2Warning] (* break *)
           else warnings isFirstParty bundles'
      else warnings isFirstParty bundles'
  end.

(** A source of version 2 of core-js. *)
Definition names_coreJs2 (s : Str.t) : bool :=
  Str.includes (str "node_modules/core-js/modules/es6") s
  || Str.includes (str "node_modules/core-js/modules/es7") s.

(** The text before the class of the expression. *)
Definition coreJs2_prefix : Str.t := str "node_modules/core-js/modules/es".

End Warnings.

Module Regenerator.

(** The texts that [/regeneratorRuntime\(?\)?\.a?wrap/] reads. *)
Definition wrap_variants : list Str.t :=
  flat_map (fun open =>
    flat_map (fun close =>
      map (fun a => str "regeneratorRuntime" ++ open ++ close ++ str "." ++ a ++ str "wrap")
          [[]; str "a"])
      [[]; str ")"])
    [[]; str "("].

(** The regular expression of the estimate. *)
Definition wrap_regex : regex :=
  seq_of (map Char (str "regeneratorRuntime")
          ++ Opt (Char "(") :: Opt (Char ")") :: map Char (str ".")
          ++ Opt (Char "a") :: map Char (str "wrap")).

End Regenerator.

Module Estimates.

(** What a transform match adds to the estimate of a script. *)
Definition delta (script : Script) (r : PatternMatchResult) : Z :=
  match non_empty (content script) with
  | Some code => transform_estimate code r
  | None => 0%Z
  end.

End Estimates.

(** ** The sub-items of the third-parties insight

    The first file held by
    [src/core/audits/insights/third-parties-insight.js]: the method
    [makeSubItems] of [ThirdPartiesInsight].  A finite number is a
    rational: the sign of a difference of two finite numbers, which is all
    that the comparison of the sort reads, is that of the difference of
    the rationals. *)

Module ThirdPartiesInsight.

Import QArith.

(** A value of [insight.summaryByUrl]. *)
Record Summary := {
  transferSize : Q;
  mainThreadTime : Q
}.

(** [URLSummary] *)
Record URLSummary := {
  u_url : Str.t;
  u_mainThreadTime : Q;
  u_transferSize : Q
}.

(** The two maps of the insight that [makeSubItems] reads, [Entity] being
    the type of the keys of the first. *)
Record Insight (Entity : Type) := {
  urlsByEntity : Entity -> option (list Str.t);
  summaryByUrl : Str.t -> option Summary
}.

Arguments urlsByEntity {Entity}.
Arguments summaryByUrl {Entity}.

(** [{url, mainThreadTime: 0, transferSize: 0, ...insight.summaryByUrl.get(url)}] *)
Definition summarize {Entity} (insight : Insight Entity) (url : Str.t) : URLSummary :=
  match summaryByUrl insight url with
  | Some s => {| u_url := url; u_mainThreadTime := mainThreadTime s;
                 u_transferSize := transferSize s |}
  | None => {| u_url := url; u_mainThreadTime := 0; u_transferSize := 0 |}
  end.

(** [(b.mainThreadTime - a.mainThreadTime) || (b.transferSize - a.transferSize)] *)
Definition compareFn (a b : URLSummary) : Q :=
  let d := u_mainThreadTime b - u_mainThreadTime a in
  if Qeq_bool d 0 then u_transferSize b - u_transferSize a else d.

(** [Array.prototype.sort]: the sort is stable; an element goes before the
    first one that the comparison does not put before it. *)
Fixpoint insert (x : URLSummary) (l : list URLSummary) : list URLSummary :=
  match l with
  | [] => [x]
  | y :: l' => if Qle_bool (compareFn x y) 0 then x :: l else y :: insert x l'
  end.

Definition sort (l : list URLSummary) : list URLSummary := fold_right insert [] l.

(** [[...insight.urlsByEntity.get(entity) ?? []]] *)
Definition urls_of {Entity} (entity : Entity) (insight : Insight Entity) : list Str.t :=
  match urlsByEntity insight entity with
  | Some urls => urls
  | None => []
  end.

(** [makeSubItems(entity, insight)] *)
Definition makeSubItems {Entity} (entity : Entity) (insight : Insight Entity)
    : list URLSummary :=
  sort (map (summarize insight) (urls_of entity insight)).

(** The order of the sub-items: more time on the main thread first, and
    for the same time the larger transfer first. *)
Definition before (a b : URLSummary) : Prop :=
  u_mainThreadTime b < u_mainThreadTime a
  \/ (u_mainThreadTime b == u_mainThreadTime a /\ u_transferSize b <= u_transferSize a).

(** Two sub-items that the comparison leaves equal. *)
Definition tied (a b : URLSummary) : bool := Qeq_bool (compareFn a b) 0.

End ThirdPartiesInsight.

(** ** The generator of the catalog

    [core/scripts/legacy-javascript/create-polyfill-module-data.js] writes
    [polyfill-module-data.json].  The list of core-js-compat and the
    globals of the runtime that the script consults are parameters. *)

Module Generator.

(** [c.toUpperCase()] for a code unit below 128. *)
Definition toUpperCase (c : ascii) : ascii :=
  let n := nat_of_ascii c in
  if (97 <=? n) && (n <=? 122) then ascii_of_nat (n - 32) else c.

(** [str.replace(/(-\w)/g, m => m[1].toUpperCase())]: the matches are taken
    left to right and do not overlap. *)
Fixpoint kebabCaseToCamelCase (s : Str.t) : Str.t :=
  match s with
  | [] => []
  | c :: t =>
      if Ascii.eqb c "-"
      then match t with
           | d :: t' =>
               if is_ident_char d
               then toUpperCase d :: kebabCaseToCamelCase t'
               else c :: kebabCaseToCamelCase t
           | [] => [c]
           end
      else c :: kebabCaseToCamelCase t
  end.

(** [modulesToSkip] *)
Definition modulesToSkip : list Str.t :=
  [ str "es.string.anchor";
    str "es.string.big";
    str "es.string.blink";
    str "es.string.bold";
    str "es.string.fixed";
    str "es.string.fontcolor";
    str "es.string.fontsize";
    str "es.string.italics";
    str "es.string.small";
    str "es.string.strike";
    str "es.string.sub";
    str "es.string.sup";
    str "es.map";
    str "es.set";
    str "es.weak-map";
    str "es.weak-set";
    str "es.promise";
    str "es.symbol";
    str "es.symbol.description";
    str "es.symbol.async-iterator";
    str "es.symbol.has-instance";
    str "es.symbol.is-concat-spreadable";
    str "es.symbol.iterator";
    str "es.symbol.match";
    str "es.symbol.match-all";
    str "es.symbol.replace";
    str "es.symbol.search";
    str "es.symbol.species";
    str "es.symbol.split";
    str "es.symbol.to-primitive";
    str "es.symbol.to-string-tag";
    str "es.symbol.unscopables";
    str "es.error.to-string";
    str "es.aggregate-error";
    str "es.aggregate-error.cause";
    str "es.array.iterator";
    str "es.array.last-index-of";
    str "es.array.reduce";
    str "es.array.reduce-right";
    str "es.array.reverse";
    str "es.array.species";
    str "es.array.splice";
    str "es.array.unscopables.flat";
    str "es.array.unscopables.flat-map";
    str "es.array-buffer.constructor";
    str "es.array-buffer.is-view";
    str "es.array-buffer.slice";
    str "es.data-view";
    str "es.date.get-year";
    str "es.date.now";
    str "es.date.set-year";
    str "es.date.to-gmt-string";
    str "es.date.to-iso-string";
    str "es.date.to-json";
    str "es.date.to-primitive";
    str "es.date.to-string";
    str "es.escape";
    str "es.function.bind";
    str "es.function.has-instance";
    str "es.function.name";
    str "es.global-this";
    str "es.json.stringify";
    str "es.json.to-string-tag";
    str "es.math.to-string-tag";
    str "es.number.constructor";
    str "es.number.epsilon";
    str "es.number.is-finite";
    str "es.number.is-integer";
    str "es.number.is-nan";
    str "es.number.is-safe-integer";
    str "es.number.max-safe-integer";
    str "es.number.min-safe-integer";
    str "es.number.parse-float";
    str "es.number.parse-int";
    str "es.number.to-exponential";
    str "es.number.to-fixed";
    str "es.number.to-precision";
    str "es.object.define-getter";
    str "es.object.define-properties";
    str "es.object.define-property";
    str "es.object.define-setter";
    str "es.object.get-own-property-names";
    str "es.object.lookup-getter";
    str "es.object.lookup-setter";
    str "es.object.proto";
    str "es.object.to-string";
    str "es.parse-float";
    str "es.parse-int";
    str "es.promise.all-settled";
    str "es.promise.finally";
    str "es.reflect.define-property";
    str "es.reflect.to-string-tag";
    str "es.regexp.constructor";
    str "es.regexp.dot-all";
    str "es.regexp.exec";
    str "es.regexp.sticky";
    str "es.regexp.test";
    str "es.regexp.to-string";
    str "es.string.at-alternative";
    str "es.string.iterator";
    str "es.string.match";
    str "es.string.replace";
    str "es.string.search";
    str "es.string.split";
    str "es.typed-array.float32-array";
    str "es.typed-array.float64-array";
    str "es.typed-array.int8-array";
    str "es.typed-array.int16-array";
    str "es.typed-array.int32-array";
    str "es.typed-array.uint8-array";
    str "es.typed-array.uint8-clamped-array";
    str "es.typed-array.uint16-array";
    str "es.typed-array.uint32-array";
    str "es.typed-array.at";
    str "es.typed-array.copy-within";
    str "es.typed-array.every";
    str "es.typed-array.fill";
    str "es.typed-array.filter";
    str "es.typed-array.find";
    str "es.typed-array.find-index";
    str "es.typed-array.find-last";
    str "es.typed-array.find-last-index";
    str "es.typed-array.for-each";
    str "es.typed-array.from";
    str "es.typed-array.includes";
    str "es.typed-array.index-of";
    str "es.typed-array.iterator";
    str "es.typed-array.join";
    str "es.typed-array.last-index-of";
    str "es.typed-array.map";
    str "es.typed-array.of";
    str "es.typed-array.reduce";
    str "es.typed-array.reduce-right";
    str "es.typed-array.reverse";
    str "es.typed-array.set";
    str "es.typed-array.slice";
    str "es.typed-array.some";
    str "es.typed-array.sort";
    str "es.typed-array.subarray";
    str "es.typed-array.to-locale-string";
    str "es.typed-array.to-string";
    str "es.unescape";
    str "esnext.aggregate-error";
    str "esnext.global-this";
    str "esnext.typed-array.at";
    str "esnext.typed-array.find-last";
    str "esnext.typed-array.find-last-index";
    str "web.atob";
    str "web.btoa";
    str "web.dom-collections.for-each";
    str "web.dom-collections.iterator";
    str "web.dom-exception.constructor";
    str "web.dom-exception.to-string-tag";
    str "web.queue-microtask";
    str "web.self";
    str "web.timers";
    str "web.url";
    str "web.url.to-json";
    str "web.url-search-params" ].

(** What the script asks of the runtime it runs in, for a class name and a
    property: whether [global[className]] is truthy; whether
    [maybeGlobal()] returns and [instance[prop]] is defined, nothing being
    thrown; whether [Object.hasOwn(maybeGlobal, prop)]. *)
Record Runtime := {
  global_truthy : Str.t -> bool;
  instance_has : Str.t -> Str.t -> bool;
  has_own : Str.t -> Str.t -> bool
}.

(** The entries written by hand. *)
Definition manual : list PolyfillModule :=
  [ {| p_name := str "focus-visible"; modules := [str "focus-visible"]; corejs := false |};
    {| p_name := str "Error.prototype.cause"; modules := [str "es.error.cause"];
       corejs := false |} ].

(** The class name of a module, from the first part of its name after the
    prefix; [None] where [className[0]] is [undefined]. *)
Definition class_name (part0 : Str.t) : option Str.t :=
  match kebabCaseToCamelCase part0 with
  | [] => None
  | c :: className =>
      let className := toUpperCase c :: className in
      let className := if Str.eqb part0 (str "json") then str "JSON" else className in
      let className := if Str.eqb part0 (str "url") then str "URL" else className in
      Some className
  end.

(** The property of a module, from the second part. *)
Definition prop_name (rest_parts : list Str.t) : Str.t :=
  match rest_parts with
  | part1 :: _ =>
      if Str.eqb part1 (str "to-json") then str "toJSON" else kebabCaseToCamelCase part1
  | [] => []
  end.

(** The body of the loop for a module that is not skipped: the entry
    pushed, or [None] when the script throws. *)
Definition entry_of (rt : Runtime) (polyfillModuleName : Str.t) : option PolyfillModule :=
  match skipn 1 (Str.split "." polyfillModuleName) with
  | [] => None
  | part0 :: rest_parts =>
      match class_name part0 with
      | None => None
      | Some className =>
          let prop := prop_name rest_parts in
          match rest_parts with
          | [] =>
              if global_truthy rt className
              then Some {| p_name := className; modules := [polyfillModuleName];
                           corejs := true |}
              else None
          | _ :: _ =>
              if instance_has rt className prop
              then Some {| p_name := className ++ str ".prototype." ++ prop;
                           modules := [polyfillModuleName]; corejs := true |}
              else if global_truthy rt className && has_own rt className prop
              then Some {| p_name := className ++ str "." ++ prop;
                           modules := [polyfillModuleName]; corejs := true |}
              else None
          end
      end
  end.

(** The loop over [polyfillsNotNeededForBaseline.list]. *)
Fixpoint generate_loop (rt : Runtime) (compat : list Str.t) (data : list PolyfillModule)
    : option (list PolyfillModule) :=
  match compat with
  | [] => Some data
  | polyfillModuleName :: compat' =>
      if existsb (fun d => existsb (Str.eqb polyfillModuleName) (modules d)) data
      then generate_loop rt compat' data
      else if existsb (Str.eqb polyfillModuleName) modulesToSkip
      then generate_loop rt compat' data
      else match entry_of rt polyfillModuleName with
           | Some d => generate_loop rt compat' (data ++ [d])
           | None => None
           end
  end.

(** The data that the script writes, [compat] being
    [polyfillsNotNeededForBaseline.list]; [None] when it exits or throws. *)
Definition generate (rt : Runtime) (compat : list Str.t) : option (list PolyfillModule) :=
  let unneededSkips :=
    filter (fun m => negb (existsb (Str.eqb m) compat)) modulesToSkip in
  match unneededSkips with
  | [] => generate_loop rt compat manual
  | _ :: _ => None
  end.

(** A part of a module name in kebab case: word characters, with hyphens
    that each come before a word character. *)
Fixpoint kebab (s : Str.t) : bool :=
  match s with
  | [] => true
  | c :: t =>
      if Ascii.eqb c "-"
      then match t with
           | d :: _ => is_ident_char d && kebab t
           | [] => false
           end
      else is_ident_char c && kebab t
  end.

(** A module name that the script can name: its parts after the prefix
    are not empty and in kebab case. *)
Definition module_name_ok (polyfillModuleName : Str.t) : bool :=
  match Str.split "." polyfillModuleName with
  | prefix :: parts =>
      kebab prefix && negb (Str.eqb prefix [])
      && forallb (fun p => kebab p && negb (Str.eqb p [])) parts
  | [] => false
  end.

(** A runtime for the samples: the globals [Array] and [Object], with an
    instance method and a static one. *)
Definition sample_runtime : Runtime :=
  {| global_truthy := fun c => Str.eqb c (str "Array") || Str.eqb c (str "Object");
     instance_has := fun c p => Str.eqb c (str "Array") && Str.eqb p (str "findLast");
     has_own := fun c p => Str.eqb c (str "Object") && Str.eqb p (str "entries") |}.

Definition sample_list : list Str.t :=
  modulesToSkip ++ [str "es.error.cause"; str "esnext.array.find-last"; str "es.object.entries"].

(** A list with a module and the module of the same feature under
    [esnext]. *)
Definition twin_list : list Str.t :=
  modulesToSkip ++ [str "es.array.find-last"; str "esnext.array.find-last"].

End Generator.

(** * Facts *)

Import Inputs.

Module StrFacts.

Import Str.

Lemma eqb_eq a b : eqb a b = true <-> a = b.
Proof. unfold eqb. destruct (list_eq_dec ascii_dec a b); split; congruence. Qed.

Lemma eqb_refl a : eqb a a = true.
Proof. apply eqb_eq. reflexivity. Qed.

Lemma eqb_neq a b : eqb a b = false <-> a <> b.
Proof. unfold eqb. destruct (list_eq_dec ascii_dec a b); split; congruence. Qed.

Lemma startsWith_app p s : startsWith p (p ++ s) = true.
Proof.
  induction p as [|a p IH]; simpl; [reflexivity|].
  rewrite Ascii.eqb_refl. exact IH.
Qed.

Lemma startsWith_spec p s : startsWith p s = true <-> exists r, s = p ++ r.
Proof.
  split.
  - revert s. induction p as [|a p IH]; intros s H.
    + exists s. reflexivity.
    + destruct s as [|b s]; simpl in H; [discriminate|].
      apply andb_true_iff in H. destruct H as [Hab H].
      apply Ascii.eqb_eq in Hab. subst b.
      destruct (IH _ H) as [r ->]. exists r. reflexivity.
  - intros [r ->]. apply startsWith_app.
Qed.

End StrFacts.

(** ** The estimate *)

Module EstimateFacts.

Lemma add_comm a b : add a b = add b a.
Proof. destruct a, b; simpl; try reflexivity. f_equal. lia. Qed.

Lemma add_assoc a b c : add (add a b) c = add a (add b c).
Proof. destruct a, b, c; simpl; try reflexivity. f_equal. lia. Qed.

Lemma add_zero_l a : add (Num 0) a = a.
Proof. destruct a; reflexivity. Qed.

Section WithGraph.

Variable graph : Graph.

Lemma fold_sizes_acc l a :
  fold_left (fun acc i => add acc (module_size graph i)) l a = add a (sum_sizes graph l).
Proof.
  unfold sum_sizes. revert a. induction l as [|i l IH]; intros a.
  - destruct a; simpl; [f_equal; lia | reflexivity].
  - change (fold_left (fun acc i => add acc (module_size graph i)) l
              (add a (module_size graph i))
            = add a (fold_left (fun acc i => add acc (module_size graph i)) l
                       (add (Num 0) (module_size graph i)))).
    rewrite IH. rewrite (IH (add (Num 0) (module_size graph i))).
    rewrite add_zero_l. apply add_assoc.
Qed.

Lemma sum_sizes_cons i l : sum_sizes graph (i :: l) = add (module_size graph i) (sum_sizes graph l).
Proof.
  unfold sum_sizes at 1. cbn [fold_left]. rewrite fold_sizes_acc. rewrite add_zero_l. reflexivity.
Qed.

Lemma sum_sizes_app l1 l2 : sum_sizes graph (l1 ++ l2) = add (sum_sizes graph l1) (sum_sizes graph l2).
Proof.
  unfold sum_sizes at 1. rewrite fold_left_app. rewrite fold_sizes_acc. reflexivity.
Qed.

Lemma sum_sizes_perm l l' : Permutation l l' -> sum_sizes graph l = sum_sizes graph l'.
Proof.
  induction 1.
  - reflexivity.
  - rewrite !sum_sizes_cons. congruence.
  - rewrite !sum_sizes_cons. rewrite <- !add_assoc.
    f_equal. apply add_comm.
  - congruence.
Qed.

Lemma set_add_In s i j : In j (set_add s i) <-> In j s \/ j = i.
Proof.
  unfold set_add. destruct (existsb (Nat.eqb i) s) eqn:E.
  - split; [auto|]. intros [H | ->]; [exact H|].
    apply existsb_exists in E. destruct E as [x [Hx Hix]].
    apply Nat.eqb_eq in Hix. subst x. exact Hx.
  - rewrite in_app_iff. simpl. intuition.
Qed.

Lemma set_add_NoDup s i : NoDup s -> NoDup (set_add s i).
Proof.
  intros H. unfold set_add. destruct (existsb (Nat.eqb i) s) eqn:E; [exact H|].
  apply NoDup_app; [exact H | constructor; [intros [] | constructor] |].
  intros x Hx [<- | []].
  assert (existsb (Nat.eqb i) s = true); [|congruence].
  apply existsb_exists. exists i. split; [exact Hx | apply Nat.eqb_refl].
Qed.

Lemma fold_set_add_In mods s j :
  In j (fold_left set_add mods s) <-> In j s \/ In j mods.
Proof.
  revert s. induction mods as [|i mods IH]; intros s; simpl.
  - intuition.
  - rewrite IH, set_add_In. intuition.
Qed.

Lemma fold_set_add_NoDup mods s : NoDup s -> NoDup (fold_left set_add mods s).
Proof.
  revert s. induction mods as [|i mods IH]; intros s H; simpl; [exact H|].
  apply IH. apply set_add_NoDup. exact H.
Qed.

Lemma filter_twice {A} (f g h : A -> bool) l :
  (forall x, h x = g x && f x) -> filter f (filter g l) = filter h l.
Proof.
  intros H. induction l as [|x l IH]; [reflexivity|].
  cbn [filter]. rewrite (H x). destruct (g x); cbn [andb filter]; [|exact IH].
  rewrite IH. reflexivity.
Qed.

(** [fold_left set_add l s] keeps [s] and appends what is new in [l], every
    element at its first place. *)
Lemma fold_set_add_first l : forall s,
  fold_left set_add l s
  = s ++ filter (fun j => negb (existsb (Nat.eqb j) s)) (first_occurrences l).
Proof.
  induction l as [|i l IH]; intros s; cbn [fold_left first_occurrences filter].
  - rewrite app_nil_r. reflexivity.
  - rewrite IH. unfold set_add. destruct (existsb (Nat.eqb i) s) eqn:E; cbn [negb].
    + f_equal. symmetry. apply filter_twice. intros j.
      destruct (j =? i) eqn:Ej; cbn [negb andb]; [|reflexivity].
      apply Nat.eqb_eq in Ej. subst j. rewrite E. reflexivity.
    + rewrite <- app_assoc. cbn [app]. f_equal. f_equal.
      symmetry. apply filter_twice. intros j.
      rewrite existsb_app. cbn [existsb]. rewrite orb_false_r, negb_orb.
      apply andb_comm.
Qed.

Lemma fold_set_add_nil l : fold_left set_add l [] = first_occurrences l.
Proof.
  rewrite fold_set_add_first. cbn [app existsb negb].
  induction (first_occurrences l) as [|j f IH]; [reflexivity|].
  cbn [filter]. rewrite IH. reflexivity.
Qed.

Lemma first_occurrences_In l j : In j (first_occurrences l) <-> In j l.
Proof. rewrite <- fold_set_add_nil, fold_set_add_In. cbn [In]. intuition. Qed.

Lemma first_occurrences_NoDup l : NoDup (first_occurrences l).
Proof. rewrite <- fold_set_add_nil. apply fold_set_add_NoDup. constructor. Qed.

(** One turn of the loop over the polyfill results. *)
Lemma see_modules_cases s r :
  see_modules graph s r
  = if inherited graph r then None else Some (fold_left set_add (listed graph r) s).
Proof.
  unfold see_modules, inherited, listed, dependencies_of.
  destruct (own_dependencies (dependencies graph) (m_name r)); [reflexivity|].
  destruct (existsb (Str.eqb (m_name r)) object_prototype_members); reflexivity.
Qed.

(** The loop throws when a name finds an inherited member, and sees the
    modules listed otherwise. *)
Lemma modules_seen_from_spec rs : forall s,
  modules_seen_from graph rs s
  = if existsb (inherited graph) rs then None
    else Some (fold_left set_add (flat_map (listed graph) rs) s).
Proof.
  induction rs as [|r rs IH]; intros s; cbn [modules_seen_from existsb flat_map];
    [reflexivity|].
  rewrite see_modules_cases. destruct (inherited graph r); cbn [orb]; [reflexivity|].
  rewrite IH, fold_left_app. reflexivity.
Qed.

Lemma modules_seen_spec found :
  modules_seen graph (polyfill_matches found)
  = if names_inherited graph found then None else Some (seen_modules graph found).
Proof.
  unfold modules_seen, names_inherited, seen_modules.
  rewrite modules_seen_from_spec, fold_set_add_nil. reflexivity.
Qed.

Lemma seen_modules_In found j :
  In j (seen_modules graph found) <-> In j (flat_map (listed graph) (polyfill_matches found)).
Proof. apply first_occurrences_In. Qed.

Lemma seen_modules_NoDup found : NoDup (seen_modules graph found).
Proof. apply first_occurrences_NoDup. Qed.

Lemma seen_modules_perm found l :
  NoDup l -> (forall j, In j l <-> In j (flat_map (listed graph) (polyfill_matches found))) ->
  Permutation (seen_modules graph found) l.
Proof.
  intros Hl Hin. apply NoDup_Permutation; [apply seen_modules_NoDup | exact Hl |].
  intros j. rewrite seen_modules_In, Hin. reflexivity.
Qed.

Lemma polyfill_sum_sizes l : polyfill_sum graph l = sum_sizes graph l.
Proof. reflexivity. Qed.

Lemma sizes_total_sizes l : sizes_total graph l = sum_sizes graph l.
Proof. reflexivity. Qed.

End WithGraph.

Lemma listed_shared graph h rs us :
  Forall2 (fun r u => exists d, own_dependencies (dependencies graph) (m_name r) = Some d
                                /\ Permutation d (h :: u)) rs us ->
  forall j, In j (flat_map (listed graph) rs) <-> (rs <> [] /\ j = h) \/ In j (concat us).
Proof.
  induction 1 as [|r u rs us [d [Hd Hp]] _ IH]; intros j; simpl.
  - intuition.
  - rewrite !in_app_iff, IH. unfold listed at 1. rewrite Hd.
    split.
    + intros [Hj | [[_ ->] | Hj]].
      * apply (Permutation_in _ Hp) in Hj. destruct Hj as [<- | Hj].
        -- left. split; [discriminate | reflexivity].
        -- right. left. exact Hj.
      * left. split; [discriminate | reflexivity].
      * right. right. exact Hj.
    + intros [[_ ->] | [Hj | Hj]].
      * left. apply (Permutation_in _ (Permutation_sym Hp)). left. reflexivity.
      * left. apply (Permutation_in _ (Permutation_sym Hp)). right. exact Hj.
      * right. right. exact Hj.
Qed.

Lemma sum_sizes_concat graph us :
  sum_sizes graph (concat us)
  = fold_right (fun u acc => add (sum_sizes graph u) acc) (Num 0) us.
Proof.
  induction us as [|u us IH]; simpl; [reflexivity|].
  rewrite sum_sizes_app, IH. reflexivity.
Qed.

(** The modules seen and the union of the dependencies hold the same
    modules, each once. *)
Lemma seen_union graph found :
  Permutation (seen_modules graph found)
              (dependency_union graph (polyfill_matches found)).
Proof.
  apply seen_modules_perm.
  - apply NoDup_nodup.
  - intros j. apply nodup_In.
Qed.

Lemma dependency_union_In graph found j :
  In j (dependency_union graph (polyfill_matches found)) <->
  exists r mods, In r found /\ is_transform r = false
    /\ own_dependencies (dependencies graph) (m_name r) = Some mods /\ In j mods.
Proof.
  unfold dependency_union. rewrite nodup_In, in_flat_map. split.
  - intros [r [Hr Hj]]. unfold polyfill_matches in Hr. apply filter_In in Hr.
    destruct Hr as [Hr Ht]. apply negb_true_iff in Ht.
    unfold listed in Hj.
    destruct (own_dependencies (dependencies graph) (m_name r)) as [mods|] eqn:E; [|destruct Hj].
    exists r, mods. auto.
  - intros [r [mods [Hr [Ht [E Hj]]]]]. exists r. split.
    + apply filter_In. split; [exact Hr | rewrite Ht; reflexivity].
    + unfold listed. rewrite E. exact Hj.
Qed.

Lemma seen_modules_spec graph found j :
  In j (seen_modules graph found) <->
  exists r mods, In r found /\ is_transform r = false
    /\ own_dependencies (dependencies graph) (m_name r) = Some mods /\ In j mods.
Proof.
  rewrite <- dependency_union_In. split; apply Permutation_in;
    [|apply Permutation_sym]; apply seen_union.
Qed.

(** The polyfill part: nothing when the loop throws, and else the sizes of
    the modules seen, added in their order and clamped. *)
Lemma polyfills_value graph found :
  estimatedWastedBytesFromPolyfills graph found
  = if names_inherited graph found then None
    else Some (min (sizes_total graph (seen_modules graph found)) (Num (maxSize graph))).
Proof.
  unfold estimatedWastedBytesFromPolyfills. fold (polyfill_matches found).
  rewrite modules_seen_spec. destruct (names_inherited graph found); [reflexivity|].
  rewrite add_zero_l. reflexivity.
Qed.


Lemma estimate_value graph script found :
  estimateWastedBytes graph script found
  = if names_inherited graph found then None
    else Some (add (min (sizes_total graph (seen_modules graph found)) (Num (maxSize graph)))
                   (estimatedWastedBytesFromTransforms script found)).
Proof.
  unfold estimateWastedBytes. rewrite polyfills_value.
  destruct (names_inherited graph found); reflexivity.
Qed.

(** The modules seen for polyfills that share one module and nothing
    else. *)
Lemma seen_shared graph found h us :
  Forall2 (fun r u => exists d,
             own_dependencies (dependencies graph) (m_name r) = Some d
             /\ Permutation d (h :: u)) (polyfill_matches found) us ->
  polyfill_matches found <> [] ->
  NoDup (h :: concat us) ->
  Permutation (seen_modules graph found) (h :: concat us).
Proof.
  intros HF Hne Hnd. apply seen_modules_perm; [exact Hnd|].
  intros j. rewrite (listed_shared graph h _ _ HF). simpl. intuition.
Qed.

(** The sum of the sizes of modules that have one. *)
Lemma sum_sizes_value graph l :
  (forall i, In i l -> i < length (moduleSizes graph)) ->
  sum_sizes graph l = Num (sizes_sum graph l).
Proof.
  induction l as [|i l IH]; intros Hl; [reflexivity|].
  rewrite sum_sizes_cons, IH by (intros; apply Hl; right; assumption).
  unfold module_size. cbn [sizes_sum fold_right]. fold (sizes_sum graph l).
  unfold size_at at 1.
  destruct (nth_error (moduleSizes graph) i) as [z|] eqn:E.
  - rewrite (nth_error_nth _ _ _ E). reflexivity.
  - apply nth_error_None in E. specialize (Hl i (or_introl eq_refl)). lia.
Qed.

Lemma sizes_sum_concat graph us :
  sizes_sum graph (concat us)
  = fold_right (fun u acc => (sizes_sum graph u + acc)%Z) 0%Z us.
Proof.
  induction us as [|u us IH]; [reflexivity|]. cbn [concat fold_right]. rewrite <- IH.
  unfold sizes_sum. rewrite fold_right_app.
  induction u as [|i u IHu]; cbn [fold_right]; lia.
Qed.


Lemma count_regexp_nonneg content pattern : (0 <= count_regexp content pattern)%Z.
Proof. unfold count_regexp. destruct (parse pattern); lia. Qed.

Lemma count_string_nonneg content pattern : (0 <= count_string content pattern)%Z.
Proof. unfold count_string. lia. Qed.

Lemma transform_estimates_nonneg p f code :
  In p getTransformPatterns -> estimateBytes p = Some f -> (0 <= f code)%Z.
Proof.
  intros Hp Hf. unfold getTransformPatterns in Hp. cbn [In] in Hp.
  destruct Hp as [<- | [<- | [<- | []]]]; cbn [estimateBytes] in Hf; injection Hf as <-.
  - pose proof (count_string_nonneg code (str "_classCallCheck")).
    unfold estimate_classes.
    change (Z.of_nat (length (str "_classCallCheck()"))) with 17%Z. lia.
  - pose proof (count_regexp_nonneg code (str "regeneratorRuntime\(?\)?\.a?wrap")).
    unfold estimate_regenerator. lia.
  - pose proof (count_regexp_nonneg code (str "\.apply\(void 0,\s?_toConsumableArray")).
    unfold estimate_spread.
    change (Z.of_nat (length (str "_toConsumableArray()"))) with 20%Z. lia.
Qed.

Lemma transform_estimate_nonneg code r : (0 <= transform_estimate code r)%Z.
Proof.
  unfold transform_estimate.
  destruct (find _ getTransformPatterns) as [p|] eqn:E; [|lia].
  destruct (estimateBytes p) as [f|] eqn:Ef; [|lia].
  apply find_some in E. destruct E as [Hp _].
  eapply transform_estimates_nonneg; eauto.
Qed.

Lemma add_transform_cases script acc r :
  add_transform script acc r = acc
  \/ exists c code, content script = Some (c :: code)
       /\ add_transform script acc r = add acc (Num (transform_estimate (c :: code) r)).
Proof.
  unfold add_transform, transform_estimate.
  destruct (find _ getTransformPatterns) as [p|]; [|left; reflexivity].
  destruct (estimateBytes p) as [f|]; [|left; reflexivity].
  destruct (content script) as [[|c code]|]; cbn [non_empty]; [left; reflexivity | | left; reflexivity].
  right. exists c, code. split; reflexivity.
Qed.

Lemma transforms_bounded script rs a :
  (0 <= a)%Z ->
  exists t, fold_left (add_transform script) rs (Num a) = Num t
            /\ (a <= t <= a + fold_right (fun r acc =>
                  transform_estimate (match content script with Some c => c | None => [] end) r + acc) 0 rs)%Z.
Proof.
  revert a. induction rs as [|r rs IH]; intros a Ha; cbn [fold_left fold_right].
  - exists a. split; [reflexivity | lia].
  - pose proof (transform_estimate_nonneg
                  (match content script with Some c => c | None => [] end) r) as Hr.
    destruct (add_transform_cases script (Num a) r) as [E | [c [code [Ec E]]]]; rewrite E.
    + destruct (IH a Ha) as [t [Ht Hb]]. exists t. split; [exact Ht | lia].
    + rewrite Ec in *. cbn [add].
      assert (0 <= a + transform_estimate (c :: code) r)%Z as Ha' by lia.
      destruct (IH _ Ha') as [t [Ht Hb]]. exists t. split; [exact Ht | lia].
Qed.



(** *** The sums of the machine *)

(** Up to 2^53 the sum of the machine is the sum. *)
Lemma round_exact z : (Z.abs z <= 2 ^ 53)%Z -> Doubles.round z = z.
Proof.
  intros H. unfold Doubles.round. apply Z.leb_le in H. rewrite H. reflexivity.
Qed.

Lemma add_exact x y :
  (Z.abs (x + y) <= 2 ^ 53)%Z -> Doubles.add (Num x) (Num y) = add (Num x) (Num y).
Proof. intros H. cbn [Doubles.add add]. rewrite round_exact by exact H. reflexivity. Qed.

Lemma fold_sizes_NaN (f : number -> number -> number) (size : nat -> number) l :
  (forall b, f NaN b = NaN) ->
  fold_left (fun acc i => f acc (size i)) l NaN = NaN.
Proof.
  intros Hf. induction l as [|i l IH]; cbn [fold_left]; [reflexivity|].
  rewrite Hf. exact IH.
Qed.

(** The sizes picked by distinct indices sum, in absolute value, to the sum
    of all the sizes at most. *)
Lemma picked_shift z zs l :
  NoDup l ->
  NoDup (map pred (filter (fun i => negb (i =? 0)%nat) l))
  /\ fold_right (fun i acc => Z.abs (nth i (z :: zs) 0%Z) + acc)%Z 0%Z l
     = ((if existsb (fun i => (i =? 0)%nat) l then Z.abs z else 0)
        + fold_right (fun i acc => Z.abs (nth i zs 0) + acc) 0
            (map pred (filter (fun i => negb (i =? 0)%nat) l)))%Z.
Proof.
  induction l as [|i l IH]; intros Hnd.
  - split; [constructor | reflexivity].
  - inversion Hnd as [|? ? Hi Hl]; subst. destruct (IH Hl) as [IH1 IH2].
    cbn [filter existsb fold_right]. rewrite IH2.
    destruct i as [|k]; cbn [Nat.eqb negb orb map pred fold_right nth].
    + split; [exact IH1|].
      destruct (existsb (fun i => (i =? 0)%nat) l) eqn:E; [|lia].
      exfalso. apply Hi. apply existsb_exists in E. destruct E as [x [Hx Hx0]].
      apply Nat.eqb_eq in Hx0. subst x. exact Hx.
    + split; [|lia]. constructor; [|exact IH1].
      intros Hin. apply in_map_iff in Hin. destruct Hin as [x [Hx Hin]].
      apply filter_In in Hin. destruct Hin as [Hin Hx0].
      apply negb_true_iff, Nat.eqb_neq in Hx0.
      apply Hi. replace (S k) with x by lia. exact Hin.
Qed.

Lemma picked_bound zs : forall l,
  NoDup l ->
  (0 <= fold_right (fun i acc => Z.abs (nth i zs 0) + acc) 0 l
   <= fold_right (fun z acc => Z.abs z + acc) 0 zs)%Z.
Proof.
  induction zs as [|z zs IH]; intros l Hnd.
  - clear Hnd. induction l as [|i l IHl]; [cbn [fold_right]; lia|].
    change (0 <= Z.abs (nth i [] 0) + fold_right (fun i acc => Z.abs (nth i [] 0) + acc) 0 l
            <= 0)%Z.
    change (fold_right (fun z acc => Z.abs z + acc) 0 [])%Z with 0%Z in IHl.
    assert (Z.abs (nth i [] 0) = 0)%Z as -> by (destruct i; reflexivity). lia.
  - destruct (picked_shift z zs l Hnd) as [Hnd' ->]. specialize (IH _ Hnd').
    cbn [fold_right]. destruct (existsb _ l); lia.
Qed.

Lemma picked_nonneg zs l :
  (0 <= fold_right (fun i acc => Z.abs (nth i zs 0) + acc) 0 l)%Z.
Proof. induction l as [|i l IH]; cbn [fold_right]; lia. Qed.

(** While what is added stays within 2^53, the machine adds the sizes as
    they are. *)
Lemma sizes_added_from graph l : forall a,
  (Z.abs a + fold_right (fun i acc => Z.abs (nth i (moduleSizes graph) 0) + acc) 0 l
   <= 2 ^ 53)%Z ->
  fold_left (fun acc i => Doubles.add acc (match nth_error (moduleSizes graph) i with
                                           | Some z => Num z
                                           | None => NaN
                                           end)) l (Num a)
  = fold_left (fun acc i => add acc (match nth_error (moduleSizes graph) i with
                                     | Some z => Num z
                                     | None => NaN
                                     end)) l (Num a)
  /\ forall v,
       fold_left (fun acc i => add acc (match nth_error (moduleSizes graph) i with
                                        | Some z => Num z
                                        | None => NaN
                                        end)) l (Num a) = Num v ->
       (Z.abs v
        <= Z.abs a + fold_right (fun i acc => Z.abs (nth i (moduleSizes graph) 0) + acc) 0 l)%Z.
Proof.
  induction l as [|i l IH]; intros a Ha; cbn [fold_left fold_right] in *.
  - split; [reflexivity|]. intros v [= <-]. lia.
  - pose proof (picked_nonneg (moduleSizes graph) l) as Hl.
    destruct (nth_error (moduleSizes graph) i) as [z|] eqn:E.
    + rewrite (nth_error_nth _ _ 0%Z E) in *.
      rewrite add_exact by lia. cbn [add].
      destruct (IH (a + z)%Z) as [IH1 IH2]; [lia|]. split; [exact IH1|].
      intros v Hv. specialize (IH2 v Hv). lia.
    + cbn [Doubles.add add].
      rewrite (fold_sizes_NaN Doubles.add), (fold_sizes_NaN add) by reflexivity.
      split; [reflexivity | discriminate].
Qed.

Lemma sizes_added_exact graph l :
  sizes_exact graph -> NoDup l ->
  sizes_added graph l = sizes_total graph l
  /\ forall v, sizes_total graph l = Num v ->
       (Z.abs v <= fold_right (fun z acc => Z.abs z + acc) 0 (moduleSizes graph))%Z.
Proof.
  intros He Hnd. pose proof (picked_bound (moduleSizes graph) l Hnd) as Hb.
  unfold sizes_exact in He.
  destruct (sizes_added_from graph l 0) as [H1 H2]; [cbn [Z.abs]; lia|].
  split; [exact H1|]. intros v Hv. specialize (H2 v Hv). cbn [Z.abs] in H2. lia.
Qed.

(** The polyfill part with the sums of the machine. *)
Lemma machine_polyfills_value graph found :
  Doubles.estimatedWastedBytesFromPolyfills graph found
  = if names_inherited graph found then None
    else Some (min (Doubles.add (Num 0) (sizes_added graph (seen_modules graph found)))
                   (Num (maxSize graph))).
Proof.
  unfold Doubles.estimatedWastedBytesFromPolyfills. fold (polyfill_matches found).
  rewrite modules_seen_spec. destruct (names_inherited graph found); reflexivity.
Qed.

Lemma machine_zero_exact graph l :
  sizes_exact graph -> NoDup l ->
  Doubles.add (Num 0) (sizes_added graph l) = sizes_total graph l.
Proof.
  intros He Hnd. destruct (sizes_added_exact graph l He Hnd) as [-> Hb].
  destruct (sizes_total graph l) as [v|]; [|reflexivity].
  specialize (Hb v eq_refl). unfold sizes_exact in He.
  rewrite add_exact by (cbn [Z.add]; lia). reflexivity.
Qed.

Lemma polyfills_exact graph found :
  sizes_exact graph ->
  Doubles.estimatedWastedBytesFromPolyfills graph found
  = estimatedWastedBytesFromPolyfills graph found.
Proof.
  intros He. rewrite machine_polyfills_value, polyfills_value.
  destruct (names_inherited graph found); [reflexivity|].
  rewrite (machine_zero_exact graph _ He (seen_modules_NoDup graph found)). reflexivity.
Qed.

(** One turn of the loop over the transform results, with both sums. *)
Lemma machine_add_transform_cases script acc r :
  (Doubles.add_transform script acc r = acc /\ add_transform script acc r = acc)
  \/ exists c code,
       content script = Some (c :: code)
       /\ Doubles.add_transform script acc r
          = Doubles.add acc (Num (transform_estimate (c :: code) r))
       /\ add_transform script acc r = add acc (Num (transform_estimate (c :: code) r)).
Proof.
  unfold Doubles.add_transform, add_transform, transform_estimate.
  destruct (find _ getTransformPatterns) as [p|]; [|left; split; reflexivity].
  destruct (estimateBytes p) as [f|]; [|left; split; reflexivity].
  destruct (content script) as [[|c code]|]; cbn [non_empty];
    [left; split; reflexivity | | left; split; reflexivity].
  right. exists c, code. repeat split.
Qed.

Lemma transforms_exact script rs : forall a,
  (0 <= a)%Z ->
  (a + fold_right (fun r acc =>
         transform_estimate (match content script with Some c => c | None => [] end) r
         + acc) 0 rs <= 2 ^ 53)%Z ->
  fold_left (Doubles.add_transform script) rs (Num a)
  = fold_left (add_transform script) rs (Num a).
Proof.
  induction rs as [|r rs IH]; intros a Ha Hb; cbn [fold_left fold_right] in *;
    [reflexivity|].
  pose proof (transform_estimate_nonneg
                (match content script with Some c => c | None => [] end) r) as Hr.
  assert (0 <= fold_right (fun r acc =>
            transform_estimate (match content script with Some c => c | None => [] end) r
            + acc) 0 rs)%Z as Hrest.
  { clear. induction rs as [|r rs IH]; cbn [fold_right]; [lia|].
    pose proof (transform_estimate_nonneg
                  (match content script with Some c => c | None => [] end) r). lia. }
  destruct (machine_add_transform_cases script (Num a) r)
    as [[-> ->] | [c [code [Ec [-> ->]]]]].
  - apply IH; [exact Ha | lia].
  - rewrite Ec in *. rewrite add_exact by lia. cbn [add]. apply IH; lia.
Qed.

Lemma transform_total_nonneg script found : (0 <= transform_total script found)%Z.
Proof.
  unfold transform_total. induction (filter is_transform found) as [|r rs IH];
    cbn [fold_right]; [lia|].
  pose proof (transform_estimate_nonneg
                (match content script with Some c => c | None => [] end) r). lia.
Qed.

Lemma estimate_exact_sizes graph script found :
  estimate_exact graph script found -> sizes_exact graph.
Proof.
  unfold estimate_exact, sizes_exact. intros H.
  pose proof (transform_total_nonneg script found). lia.
Qed.

(** Within the range of exact sums the estimate with the sums of the
    machine is the estimate with the exact ones. *)
Lemma machine_estimate_exact graph script found :
  estimate_exact graph script found ->
  Doubles.estimateWastedBytes graph script found = estimateWastedBytes graph script found.
Proof.
  intros He. pose proof (estimate_exact_sizes _ _ _ He) as Hs.
  unfold Doubles.estimateWastedBytes, estimateWastedBytes.
  rewrite (polyfills_exact graph found Hs), polyfills_value.
  destruct (names_inherited graph found); [reflexivity|].
  unfold Doubles.estimatedWastedBytesFromTransforms, estimatedWastedBytesFromTransforms.
  unfold estimate_exact in He. pose proof (transform_total_nonneg script found) as Ht.
  unfold transform_total in He, Ht.
  pose proof (picked_bound (moduleSizes graph) [] (NoDup_nil _)) as Hz.
  cbn [fold_right] in Hz.
  rewrite transforms_exact by lia.
  destruct (transforms_bounded script (filter is_transform found) 0 (Z.le_refl 0))
    as [t [-> Hb]].
  destruct (sizes_added_exact graph _ Hs (seen_modules_NoDup graph found)) as [_ Hv].
  destruct (sizes_total graph (seen_modules graph found)) as [v|]; [|reflexivity].
  specialize (Hv v eq_refl). cbn [min]. rewrite add_exact by lia. reflexivity.
Qed.


Lemma sizes_total_concat graph us :
  sizes_total graph (concat us)
  = fold_right (fun u acc => add (sizes_total graph u) acc) (Num 0) us.
Proof. apply sum_sizes_concat. Qed.

End EstimateFacts.

Import EstimateFacts.

(** ** Regular expressions *)

Module RegExpFacts.

#[local] Hint Constructors accepts : core.

Lemma or_else_Some a b x :
  or_else a b = Some x -> a = Some x \/ b = Some x.
Proof. destruct a; simpl; auto. Qed.

Lemma one_char_sound p st k x :
  one_char p st k = Some x ->
  exists c s', rest st = c :: s' /\ p c = true /\ k (advance st s') = Some x.
Proof.
  unfold one_char. destruct (rest st) as [|c s']; [discriminate|].
  destruct (p c) eqn:E; [|discriminate]. intros H. exists c, s'. auto.
Qed.

Lemma progress_Some st k st' x :
  progress st k st' = Some x -> k st' = Some x.
Proof. unfold progress. destruct (_ <? _); [auto | discriminate]. Qed.

Lemma star_fuel_sound r :
  (forall st k x, bt r st k = Some x ->
     exists st', accepts r (rest st) (rest st') /\ k st' = Some x
                 /\ (no_caps r = true -> caps st' = caps st)) ->
  forall fuel st k x, star_fuel (bt r) fuel st k = Some x ->
     exists st', accepts (Star r) (rest st) (rest st') /\ k st' = Some x
                 /\ (no_caps r = true -> caps st' = caps st).
Proof.
  intros IH. induction fuel as [|fuel IHf]; intros st k x H; simpl in H.
  - exists st. auto.
  - apply or_else_Some in H. destruct H as [H | H].
    + apply IH in H. destruct H as [st1 [Hm [H Hc1]]].
      apply progress_Some in H. apply IHf in H. destruct H as [st2 [Hm2 [H Hc2]]].
      exists st2. split; [eauto|]. split; [exact H|].
      intros Hn. rewrite (Hc2 Hn). auto.
    + exists st. auto.
Qed.

(** The matcher reads only what the relation allows, and leaves the
    captures alone where there is no group. *)
Theorem bt_sound r : forall st k x,
  bt r st k = Some x ->
  exists st', accepts r (rest st) (rest st') /\ k st' = Some x
              /\ (no_caps r = true -> caps st' = caps st).
Proof.
  induction r; intros st k x H; simpl in H.
  - exists st. auto.
  - apply one_char_sound in H. destruct H as [d [s' [E [Hp H]]]].
    apply Ascii.eqb_eq in Hp. subst d. exists (advance st s'). rewrite E. auto.
  - apply one_char_sound in H. destruct H as [d [s' [E [Hp H]]]].
    apply negb_true_iff in Hp. exists (advance st s'). rewrite E. auto.
  - apply one_char_sound in H. destruct H as [d [s' [E [Hp H]]]].
    exists (advance st s'). rewrite E. auto.
  - apply one_char_sound in H. destruct H as [d [s' [E [Hp H]]]].
    exists (advance st s'). rewrite E. auto.
  - destruct (at_start st); [|discriminate]. exists st. auto.
  - apply IHr1 in H. destruct H as [st1 [Hm1 [H Hc1]]].
    apply IHr2 in H. destruct H as [st2 [Hm2 [H Hc2]]]. exists st2.
    split; [eauto|]. split; [exact H|]. simpl. intros Hn.
    apply andb_true_iff in Hn. destruct Hn as [Hn1 Hn2].
    rewrite (Hc2 Hn2). auto.
  - apply or_else_Some in H. simpl. destruct H as [H | H].
    + apply IHr1 in H. destruct H as [st1 [Hm [H Hc]]]. exists st1.
      split; [auto|]. split; [exact H|]. intros Hn.
      apply andb_true_iff in Hn. apply Hc. apply Hn.
    + apply IHr2 in H. destruct H as [st1 [Hm [H Hc]]]. exists st1.
      split; [auto|]. split; [exact H|]. intros Hn.
      apply andb_true_iff in Hn. apply Hc. apply Hn.
  - apply (star_fuel_sound r IHr) in H. exact H.
  - apply IHr in H. destruct H as [st1 [Hm1 [H Hc1]]].
    apply (star_fuel_sound r IHr) in H. destruct H as [st2 [Hm2 [H Hc2]]].
    exists st2. split; [eauto|]. split; [exact H|]. simpl. intros Hn.
    rewrite (Hc2 Hn). auto.
  - apply or_else_Some in H. destruct H as [H | H].
    + apply IHr in H. destruct H as [st1 [Hm [H Hc]]]. apply progress_Some in H.
      exists st1. auto.
    + exists st. auto.
  - apply IHr in H. destruct H as [st1 [Hm [H Hc]]].
    exists (set_cap n st st1). split; [auto|]. split; [exact H|].
    simpl. discriminate.
  - apply IHr in H. destruct H as [st1 [Hm [H Hc]]]. exists st1. auto.
Qed.

(** What is left after a match is a suffix of the input. *)
Lemma accepts_suffix r s s' : accepts r s s' -> exists t, s = t ++ s'.
Proof.
  induction 1;
    repeat match goal with
           | H : exists _, _ |- _ => destruct H as [? ->]
           end;
    try (exists []; reflexivity);
    try (eexists [_]; reflexivity);
    try (eexists; reflexivity);
    try (eexists; rewrite app_assoc; reflexivity).
Qed.

Lemma accepts_length r s s' : accepts r s s' -> length s' <= length s.
Proof.
  intros H. apply accepts_suffix in H. destruct H as [t ->].
  rewrite length_app. lia.
Qed.

Lemma accepts_Empty_inv s s' : accepts Empty s s' -> s' = s.
Proof. inversion 1; reflexivity. Qed.

Lemma accepts_Char_inv c s s' : accepts (Char c) s s' -> s = c :: s'.
Proof. inversion 1; reflexivity. Qed.

Lemma accepts_Seq_inv r1 r2 s s'' :
  accepts (Seq r1 r2) s s'' -> exists s', accepts r1 s s' /\ accepts r2 s' s''.
Proof. inversion 1; subst; eauto. Qed.

Lemma accepts_Plus_inv r s s'' :
  accepts (Plus r) s s'' -> exists s', accepts r s s' /\ accepts (Star r) s' s''.
Proof. inversion 1; subst; eauto. Qed.

Lemma accepts_Alt_inv r1 r2 s s' :
  accepts (Alt r1 r2) s s' -> accepts r1 s s' \/ accepts r2 s s'.
Proof. inversion 1; subst; auto. Qed.

Lemma accepts_seq_single r s s' : accepts (seq_of [r]) s s' -> accepts r s s'.
Proof.
  simpl. intros H. apply accepts_Seq_inv in H. destruct H as [t [H1 H2]].
  apply accepts_Empty_inv in H2. subst. exact H1.
Qed.

Lemma suffix_same_length (t s : Str.t) : length (t ++ s) <= length s -> t = [].
Proof. destruct t; [reflexivity|]. rewrite length_app. simpl. lia. Qed.

Lemma accepts_same_length r s s' : accepts r s s' -> length s <= length s' -> s' = s.
Proof.
  intros H Hl. apply accepts_suffix in H. destruct H as [t ->].
  apply suffix_same_length in Hl. subst. reflexivity.
Qed.

(** A match of an expression that is not nullable reads something. *)
Lemma accepts_progress r s s' :
  accepts r s s' -> nullable r = false -> length s' < length s.
Proof.
  induction 1; simpl; intros Hn; try discriminate; try (simpl; lia); auto.
  - apply accepts_length in H, H0. apply andb_false_iff in Hn.
    destruct Hn as [Hn | Hn]; [specialize (IHaccepts1 Hn) | specialize (IHaccepts2 Hn)]; lia.
  - apply orb_false_iff in Hn. apply IHaccepts. apply Hn.
  - apply orb_false_iff in Hn. apply IHaccepts. apply Hn.
  - apply accepts_length in H0. specialize (IHaccepts1 Hn). lia.
Qed.

(** A match that reads something begins with a character of [first_char]. *)
Lemma accepts_first_char r s s' :
  accepts r s s' -> length s' < length s ->
  exists c t, s = c :: t /\ first_char r c = true.
Proof.
  induction 1; simpl; intros Hl; try lia.
  - exists c, s. split; [reflexivity | apply Ascii.eqb_refl].
  - exists c, s. split; [reflexivity | rewrite H; reflexivity].
  - exists c, s. auto.
  - exists c, s. auto.
  - destruct (Nat.ltb (length s') (length s)) eqn:E.
    + apply Nat.ltb_lt in E. destruct (IHaccepts1 E) as [c [t [-> Hc]]].
      exists c, t. rewrite Hc. auto.
    + apply Nat.ltb_ge in E. pose proof (accepts_same_length _ _ _ H E) as ->.
      destruct (IHaccepts2 Hl) as [c [t [-> Hc]]].
      exists c, t. split; [reflexivity|]. rewrite Hc.
      destruct (nullable r1) eqn:En; [apply orb_true_r|].
      pose proof (accepts_progress _ _ _ H En). lia.
  - destruct (IHaccepts Hl) as [c [t [-> Hc]]]. exists c, t. rewrite Hc. auto.
  - destruct (IHaccepts Hl) as [c [t [-> Hc]]]. exists c, t. rewrite Hc.
    split; [reflexivity | apply orb_true_r].
  - destruct (Nat.ltb (length s') (length s)) eqn:E.
    + apply Nat.ltb_lt in E. exact (IHaccepts1 E).
    + apply Nat.ltb_ge in E. pose proof (accepts_same_length _ _ _ H E) as ->.
      exact (IHaccepts2 Hl).
  - destruct (Nat.ltb (length s') (length s)) eqn:E.
    + apply Nat.ltb_lt in E. exact (IHaccepts1 E).
    + apply Nat.ltb_ge in E. pose proof (accepts_same_length _ _ _ H E) as ->.
      exact (IHaccepts2 Hl).
  - exact (IHaccepts Hl).
  - exact (IHaccepts Hl).
  - exact (IHaccepts Hl).
Qed.

End RegExpFacts.

Import RegExpFacts.

Module SymbolicFacts.

Lemma one_char_all_In p c s : p c = true -> In s (one_char_all p (c :: s)).
Proof. intros H. simpl. rewrite H. left. reflexivity. Qed.

Lemma star_all_complete r step :
  (forall s s', accepts r s s' -> In s' (step s)) ->
  forall s s', accepts (Star r) s s' ->
  forall fuel, length s <= fuel -> In s' (star_all step fuel s).
Proof.
  intros Hstep s s' H. remember (Star r) as q eqn:Eq.
  induction H; try discriminate; injection Eq as ->; intros fuel Hf.
  - destruct fuel; left; reflexivity.
  - pose proof (accepts_suffix _ _ _ H) as [t Et].
    destruct (Nat.ltb (length s') (length s)) eqn:El.
    + pose proof El as El'. apply Nat.ltb_lt in El'. destruct fuel as [|fuel]; [lia|].
      simpl. right. apply in_flat_map. exists s'. split; [apply Hstep; exact H|].
      rewrite El. apply IHaccepts2; [reflexivity | lia].
    + apply Nat.ltb_ge in El. subst s. apply suffix_same_length in El. subst t.
      apply IHaccepts2; [reflexivity | exact Hf].
Qed.

(** [all_matches] lists every way of reading. *)
Theorem all_matches_complete r : forall s s', accepts r s s' -> In s' (all_matches r s).
Proof.
  induction r; intros s s' H.
  - inversion H; subst. left. reflexivity.
  - inversion H; subst. apply one_char_all_In. apply Ascii.eqb_refl.
  - inversion H; subst. apply one_char_all_In. apply negb_true_iff. assumption.
  - inversion H; subst. apply one_char_all_In. assumption.
  - inversion H; subst. apply one_char_all_In. assumption.
  - inversion H; subst. left. reflexivity.
  - apply accepts_Seq_inv in H. destruct H as [t [H1 H2]].
    simpl. apply in_flat_map. eauto.
  - simpl. apply in_or_app. apply accepts_Alt_inv in H. destruct H; auto.
  - simpl. apply (star_all_complete r _ IHr _ _ H). lia.
  - apply accepts_Plus_inv in H. destruct H as [t [H1 H2]].
    simpl. apply in_flat_map. exists t. split; [auto|].
    apply (star_all_complete r _ IHr _ _ H2). lia.
  - simpl. inversion H; subst; auto.
  - inversion H; subst. simpl. auto.
  - inversion H; subst. simpl. auto.
Qed.

Lemma accepts_seq_of_app l1 l2 s s' :
  accepts (seq_of (l1 ++ l2)) s s' ->
  exists t, accepts (seq_of l1) s t /\ accepts (seq_of l2) t s'.
Proof.
  revert s. induction l1 as [|r l1 IH]; intros s H; simpl in *.
  - exists s. split; [constructor | exact H].
  - apply accepts_Seq_inv in H. destruct H as [u [Hr H]].
    destruct (IH _ H) as [t [H1 H2]].
    exists t. split; [econstructor; eauto | exact H2].
Qed.

Lemma accepts_chars v s t : accepts (seq_of (map Char v)) s t -> s = v ++ t.
Proof.
  revert s. induction v as [|c v IH]; intros s H; simpl in H.
  - apply accepts_Empty_inv in H. subst. reflexivity.
  - apply accepts_Seq_inv in H. destruct H as [u [Hc H]].
    apply accepts_Char_inv in Hc. subst s. simpl. f_equal. apply IH. exact H.
Qed.

Lemma atom_not_terminator c d s s' :
  is_module_char c = true -> accepts (atom c) (d :: s) s' ->
  s' = s /\ is_line_terminator d = false.
Proof.
  unfold atom. intros Hc H. destruct (Ascii.eqb c "."); inversion H; subst.
  - auto.
  - split; [reflexivity|]. revert Hc. clear.
    destruct d as [[] [] [] [] [] [] [] []]; vm_compute; congruence.
Qed.

Lemma accepts_atoms M s t :
  forallb is_module_char M = true -> M <> [] ->
  accepts (seq_of (map atom M)) s t -> In t (line_suffixes s).
Proof.
  revert s. induction M as [|c M IH]; intros s HM Hne H; [congruence|].
  simpl in HM. apply andb_true_iff in HM. destruct HM as [Hc HM].
  simpl in H. apply accepts_Seq_inv in H. destruct H as [u [H3 H5]].
  assert (exists d s1, s = d :: s1) as [d [s1 ->]].
  { unfold atom in H3. destruct (Ascii.eqb c "."); inversion H3; eauto. }
  apply (atom_not_terminator _ _ _ _ Hc) in H3. destruct H3 as [-> Hd].
  simpl. rewrite Hd. destruct M as [|c' M].
  - simpl in H5. apply accepts_Empty_inv in H5. subst. left. reflexivity.
  - right. apply IH; [exact HM | discriminate | exact H5].
Qed.

Lemma ident_prefixes_In v t :
  ident v = true -> In (v, t) (ident_prefixes (v ++ t)).
Proof.
  intros Hv. destruct v as [|c v]; [discriminate|]. simpl in Hv.
  apply andb_true_iff in Hv. destruct Hv as [Hc Hv].
  revert c Hc. induction v as [|c' v IH]; intros c Hc; simpl; rewrite Hc.
  - left. reflexivity.
  - right. simpl in Hv. apply andb_true_iff in Hv. destruct Hv as [Hc' Hv].
    specialize (IH Hv c' Hc').
    apply (in_map (fun vr => (c :: fst vr, snd vr))) in IH. exact IH.
Qed.

Lemma bound_In (v : option Str.t) x t k (r : binding * Str.t) :
  ident x = true -> (v = None \/ v = Some x) ->
  In r (k x t) -> In r (bound v (x ++ t) k).
Proof.
  intros Hx [-> | ->] Hr; unfold bound.
  - apply in_flat_map. exists (x, t). split; [apply ident_prefixes_In; exact Hx | exact Hr].
  - rewrite StrFacts.startsWith_app.
    rewrite skipn_app, skipn_all, Nat.sub_diag. exact Hr.
Qed.

Section Names.

Variables C P M : Str.t.
Hypothesis HC : ident C = true.
Hypothesis HP : ident P = true.
Hypothesis HM : forallb is_module_char M = true.
Hypothesis HMne : M <> [].

(** [enum_items] lists every way of reading, with names that agree with
    the names of the pattern. *)
Lemma enum_items_complete items : forall b s s',
  accepts (inst_alt C P M items) s s' -> agrees b C P ->
  exists b', In (b', s') (enum_items items b s) /\ agrees b' C P.
Proof.
  unfold inst_alt. induction items as [|i items IH]; intros b s s' H Hb.
  - simpl in H. apply accepts_Empty_inv in H. subst. exists b. split; [left; reflexivity | exact Hb].
  - change (flat_map (inst_item C P M) (i :: items))
      with (inst_item C P M i ++ flat_map (inst_item C P M) items) in H.
    apply accepts_seq_of_app in H. destruct H as [t [H1 H2]].
    destruct i; simpl in H1.
    + destruct (IH b _ _ H2 Hb) as [b' [Hin Hb']].
      exists b'. split; [|exact Hb']. simpl. apply in_flat_map.
      exists t. split; [apply all_matches_complete; assumption | exact Hin].
    + apply accepts_chars in H1. subst s.
      destruct (IH (Some C, snd b) _ _ H2) as [b' [Hin Hb']].
      { destruct Hb as [_ Hb]. split; [right; reflexivity | exact Hb]. }
      exists b'. split; [|exact Hb']. simpl.
      apply bound_In; [exact HC | apply Hb | exact Hin].
    + apply accepts_chars in H1. subst s.
      destruct (IH (fst b, Some P) _ _ H2) as [b' [Hin Hb']].
      { destruct Hb as [Hb _]. split; [exact Hb | right; reflexivity]. }
      exists b'. split; [|exact Hb']. simpl.
      apply bound_In; [exact HP | apply Hb | exact Hin].
    + apply (accepts_atoms _ _ _ HM HMne) in H1.
      destruct (IH b _ _ H2 Hb) as [b' [Hin Hb']].
      exists b'. split; [|exact Hb']. simpl. apply in_flat_map. eauto.
Qed.

Lemma accepts_fold_Alt alts : forall a s s',
  accepts (fold_left Alt alts a) s s' ->
  accepts a s s' \/ exists r, In r alts /\ accepts r s s'.
Proof.
  induction alts as [|r alts IH]; intros a s s' H; simpl in H; [auto|].
  apply IH in H. destruct H as [H | [r' [Hin H]]].
  - apply accepts_Alt_inv in H. destruct H as [H | H]; [auto|].
    right. exists r. split; [left; reflexivity | assumption].
  - right. exists r'. split; [right; exact Hin | exact H].
Qed.

Lemma accepts_alts_of alts s s' :
  accepts (alts_of alts) s s' -> alts <> [] -> exists r, In r alts /\ accepts r s s'.
Proof.
  destruct alts as [|a alts]; [congruence|]. simpl. intros H _.
  apply accepts_fold_Alt in H. destruct H as [H | [r [Hin H]]].
  - exists a. auto.
  - exists r. auto.
Qed.

Theorem enum_complete alts s s' :
  alts <> [] ->
  accepts (inst C P M alts) s s' ->
  exists b, In (b, s') (enum alts s) /\ agrees b C P.
Proof.
  intros Hne H. unfold inst in H. apply accepts_alts_of in H.
  - destruct H as [r [Hin H]]. apply in_map_iff in Hin.
    destruct Hin as [items [<- Hin]].
    destruct (enum_items_complete items (None, None) _ _ H) as [b [Hb Ha]].
    { split; left; reflexivity. }
    exists b. split; [|exact Ha]. unfold enum. apply in_flat_map. eauto.
  - destruct alts; [congruence | discriminate].
Qed.

End Names.

End SymbolicFacts.

Import SymbolicFacts.

Module ParseFacts.

Lemma run_app a b st :
  run (a ++ b) st = match run a st with Some st' => run b st' | None => None end.
Proof.
  revert st. induction a as [|c a IH]; intros st; simpl; [reflexivity|].
  destruct (step st c); [apply IH | reflexivity].
Qed.

Lemma normal_step_module c st :
  is_module_char c = true -> normal_step c st = Some (push_term (atom c) st).
Proof.
  destruct c as [[] [] [] [] [] [] [] []]; vm_compute; congruence.
Qed.

Lemma atom_ident c : is_ident_char c = true -> atom c = Char c.
Proof.
  destruct c as [[] [] [] [] [] [] [] []]; vm_compute; congruence.
Qed.

Lemma ident_module_char c : is_ident_char c = true -> is_module_char c = true.
Proof. unfold is_module_char. intros ->. reflexivity. Qed.

Lemma run_module v : forall stk cap alts seq n,
  forallb is_module_char v = true ->
  run v (PState stk (Frame cap alts seq) n Normal)
  = Some (PState stk (Frame cap alts (rev (map atom v) ++ seq)) n Normal).
Proof.
  induction v as [|c v IH]; intros stk cap alts seq n Hv; [reflexivity|].
  simpl in Hv. apply andb_true_iff in Hv. destruct Hv as [Hc Hv].
  cbn [run step mode]. rewrite (normal_step_module _ _ Hc).
  unfold push_term. cbn [stack cur ngroups f_cap f_alts f_seq].
  rewrite (IH _ _ _ _ _ Hv). cbn [map rev]. rewrite <- app_assoc. reflexivity.
Qed.

Lemma map_atom_ident v : forallb is_ident_char v = true -> map atom v = map Char v.
Proof.
  induction v as [|c v IH]; intros Hv; [reflexivity|].
  simpl in Hv. apply andb_true_iff in Hv. destruct Hv as [Hc Hv].
  simpl. rewrite (atom_ident _ Hc), (IH Hv). reflexivity.
Qed.

Lemma forallb_ident_module v :
  forallb is_ident_char v = true -> forallb is_module_char v = true.
Proof.
  intros H. rewrite forallb_forall in *. intros c Hc.
  apply ident_module_char. auto.
Qed.

Lemma run_ident v stk cap alts seq n :
  forallb is_ident_char v = true ->
  run v (PState stk (Frame cap alts seq) n Normal)
  = Some (PState stk (Frame cap alts (rev (map Char v) ++ seq)) n Normal).
Proof.
  intros Hv. rewrite <- (map_atom_ident _ Hv).
  apply run_module. apply forallb_ident_module. exact Hv.
Qed.

Lemma ident_chars v : ident v = true -> forallb is_ident_char v = true.
Proof. destruct v; [discriminate | auto]. Qed.

Lemma fold_left_add_alt rs r :
  fold_left Alt rs r = fold_left (fun acc x => add_alt (Some acc) x) rs r.
Proof. reflexivity. Qed.

Section Names.

Variables C P M : Str.t.
Hypothesis HC : forallb is_ident_char C = true.
Hypothesis HP : forallb is_ident_char P = true.
Hypothesis HM : forallb is_module_char M = true.

Lemma run_items items :
  Forall item_ok items ->
  forall stk cap alts seq n,
    run (flat_map (render_item C P M) items) (PState stk (Frame cap alts seq) n Normal)
    = Some (PState stk (Frame cap alts (rev (flat_map (inst_item C P M) items) ++ seq))
                   n Normal).
Proof.
  induction 1 as [|i items Hi _ IH]; intros stk cap alts seq n; [reflexivity|].
  cbn [flat_map]. rewrite run_app.
  assert (run (render_item C P M i) (PState stk (Frame cap alts seq) n Normal)
          = Some (PState stk (Frame cap alts (rev (inst_item C P M i) ++ seq)) n Normal)) as ->.
  { destruct i; cbn [render_item inst_item].
    - apply Hi.
    - apply run_ident. exact HC.
    - apply run_ident. exact HP.
    - apply run_module. exact HM. }
  rewrite IH, rev_app_distr, <- app_assoc. reflexivity.
Qed.

Lemma step_bar stk cap alts seq n :
  step (PState stk (Frame cap alts seq) n Normal) "|"
  = Some (PState stk (Frame cap (Some (add_alt alts (seq_of (rev seq)))) []) n Normal).
Proof. destruct alts; reflexivity. Qed.

Lemma run_alts alts :
  Forall (Forall item_ok) alts -> alts <> [] ->
  forall stk cap a0 n,
    exists f,
      run (render C P M alts) (PState stk (Frame cap a0 []) n Normal)
      = Some (PState stk f n Normal)
      /\ f_cap f = cap
      /\ close_frame f = fold_left (fun acc r => add_alt (Some acc) r)
                                   (map (inst_alt C P M) (tl alts))
                                   (add_alt a0 (inst_alt C P M (hd [] alts))).
Proof.
  unfold render.
  induction 1 as [|x xs Hx Hxs IH]; intros Hne stk cap a0 n; [congruence|].
  destruct xs as [|y ys].
  - cbn [map Str.join hd tl fold_left]. rewrite (run_items x Hx).
    eexists. split; [reflexivity|]. split; [reflexivity|].
    unfold close_frame. cbn [f_alts f_seq]. rewrite app_nil_r, rev_involutive.
    destruct a0; reflexivity.
  - change (Str.join (str "|") (map (flat_map (render_item C P M)) (x :: y :: ys)))
      with (flat_map (render_item C P M) x
            ++ "|"%char :: Str.join (str "|") (map (flat_map (render_item C P M)) (y :: ys))).
    rewrite run_app, (run_items x Hx). cbn [run]. rewrite step_bar.
    rewrite app_nil_r, rev_involutive.
    destruct (IH ltac:(discriminate) stk cap
                 (Some (add_alt a0 (seq_of (flat_map (inst_item C P M) x)))) n)
      as [f [Hrun [Hcap Hclose]]].
    exists f. split; [exact Hrun|]. split; [exact Hcap|].
    rewrite Hclose. reflexivity.
Qed.

(** The text of a pattern reads as [inst]. *)
Theorem run_render alts stk cap n :
  Forall (Forall item_ok) alts -> alts <> [] ->
  exists f,
    run (render C P M alts) (PState stk (Frame cap None []) n Normal)
    = Some (PState stk f n Normal)
    /\ f_cap f = cap
    /\ close_frame f = inst C P M alts.
Proof.
  intros Hok Hne. destruct (run_alts alts Hok Hne stk cap None n) as [f [H1 [H2 H3]]].
  exists f. split; [exact H1|]. split; [exact H2|].
  rewrite H3. destruct alts as [|x xs]; [congruence|]. reflexivity.
Qed.

End Names.

Lemma reads_render C P M alts :
  forallb is_ident_char C = true ->
  forallb is_ident_char P = true ->
  forallb is_module_char M = true ->
  Forall (Forall item_ok) alts -> alts <> [] ->
  (exists c e, render C P M alts = c :: e /\ c <> "?"%char) ->
  reads (render C P M alts) (inst C P M alts).
Proof.
  intros HC HP HM Hok Hne [c [e [He Hc]]] a seq n.
  destruct (run_render C P M HC HP HM alts [Frame None a seq] (Some (S n)) (S n) Hok Hne)
    as [f [Hrun [Hcap Hclose]]].
  rewrite run_app.
  assert (run (str "(") (PState [] (Frame None a seq) n Normal)
          = Some (PState [] (Frame None a seq) n GroupOpen)) as -> by reflexivity.
  rewrite run_app.
  assert (run (render C P M alts) (PState [] (Frame None a seq) n GroupOpen)
          = run (render C P M alts)
                (PState [Frame None a seq] (Frame (Some (S n)) None []) (S n) Normal)) as ->.
  { rewrite He. cbn [run step mode].
    destruct (Ascii.eqb c "?") eqn:E; [apply Ascii.eqb_eq in E; congruence|].
    reflexivity. }
  rewrite Hrun. destruct f as [fc fa fs]. cbn in Hcap. subst fc.
  cbn [run str Str.lit list_ascii_of_string step mode].
  unfold normal_step. cbn [Ascii.eqb Bool.eqb]. unfold close_group.
  cbn [stack cur f_cap ngroups]. rewrite Hclose. reflexivity.
Qed.

End ParseFacts.

Import ParseFacts.

Module ScanFacts.

Lemma or_else_assoc (a b c : option mstate) :
  or_else (or_else a b) c = or_else a (or_else b c).
Proof. destruct a; reflexivity. Qed.

Lemma star_fuel_ext r :
  (forall st k k', (forall x, k x = k' x) -> bt r st k = bt r st k') ->
  forall fuel st k k', (forall x, k x = k' x) ->
    star_fuel (bt r) fuel st k = star_fuel (bt r) fuel st k'.
Proof.
  intros IH. induction fuel as [|fuel IHf]; intros st k k' Hk; simpl.
  - apply Hk.
  - rewrite (Hk st). f_equal. apply IH. intros x. unfold progress.
    destruct (_ <? _); [apply IHf; exact Hk | reflexivity].
Qed.

(** The matcher looks at its continuation pointwise only. *)
Lemma bt_ext r : forall st k k', (forall x, k x = k' x) -> bt r st k = bt r st k'.
Proof.
  induction r; intros st k k' Hk; simpl; try (unfold one_char; destruct (rest st); [reflexivity|];
    match goal with |- context [if ?b then _ else _] => destruct b end; auto).
  - apply Hk.
  - destruct (at_start st); auto.
  - apply IHr1. intros x. apply IHr2. exact Hk.
  - rewrite (IHr1 st k k' Hk), (IHr2 st k k' Hk). reflexivity.
  - apply (star_fuel_ext r IHr). exact Hk.
  - apply IHr. intros x. apply (star_fuel_ext r IHr). exact Hk.
  - rewrite (Hk st). f_equal. apply IHr. intros x. unfold progress.
    destruct (_ <? _); [apply Hk | reflexivity].
  - apply IHr. intros x. apply Hk.
  - apply IHr. exact Hk.
Qed.

Lemma option_map_or_else (g : mstate -> mstate) a b :
  option_map g (or_else a b) = or_else (option_map g a) (option_map g b).
Proof. destruct a; reflexivity. Qed.

Lemma star_fuel_map r (g : mstate -> mstate) :
  (forall st k, bt r st (fun x => option_map g (k x)) = option_map g (bt r st k)) ->
  forall fuel st k,
    star_fuel (bt r) fuel st (fun x => option_map g (k x))
    = option_map g (star_fuel (bt r) fuel st k).
Proof.
  intros IH. induction fuel as [|fuel IHf]; intros st k; simpl; [reflexivity|].
  rewrite option_map_or_else. f_equal. rewrite <- IH.
  apply bt_ext. intros x. unfold progress. destruct (_ <? _); [apply IHf | reflexivity].
Qed.

(** A function applied to the result can be moved into the continuation. *)
Lemma bt_map r (g : mstate -> mstate) : forall st k,
  bt r st (fun x => option_map g (k x)) = option_map g (bt r st k).
Proof.
  induction r; intros st k; simpl;
    try (unfold one_char; destruct (rest st); [reflexivity|];
         match goal with |- context [if ?b then _ else _] => destruct b end; reflexivity).
  - reflexivity.
  - destruct (at_start st); reflexivity.
  - rewrite <- IHr1. apply bt_ext. intros x. apply IHr2.
  - rewrite option_map_or_else, IHr1, IHr2. reflexivity.
  - apply (star_fuel_map r g IHr).
  - rewrite <- IHr. apply bt_ext. intros x. apply (star_fuel_map r g IHr).
  - rewrite option_map_or_else. f_equal. rewrite <- IHr.
    apply bt_ext. intros x. unfold progress. destruct (_ <? _); reflexivity.
  - rewrite <- IHr. reflexivity.
  - apply IHr.
Qed.

Lemma bt_group k b st :
  bt (seq_of [Cap k b]) st Some = option_map (set_cap k st) (bt b st Some).
Proof.
  unfold seq_of. simpl. rewrite <- bt_map. reflexivity.
Qed.

Lemma bt_combine bodies : forall acc k st,
  bt (alternate acc k bodies) st Some
  = or_else (bt acc st Some)
            (fold_right (fun kb r => or_else (bt (seq_of [Cap (fst kb) (snd kb)]) st Some) r)
                        None (List.combine (seq (S k) (length bodies)) bodies)).
Proof.
  induction bodies as [|b bodies IH]; intros acc k st;
    cbn [alternate length seq List.combine fold_right fst snd].
  - destruct (bt acc st Some); reflexivity.
  - rewrite IH. cbn [bt]. rewrite or_else_assoc. reflexivity.
Qed.

Lemma groups_first_body bodies : forall k j st,
  (forall b, In b bodies -> no_caps b = true) ->
  caps st = [] ->
  fold_right (fun kb r => or_else (bt (seq_of [Cap (fst kb) (snd kb)]) st Some) r)
             None (List.combine (seq (j + k) (length bodies)) bodies)
  = match first_body j bodies st with
    | Some (i, st') => Some (MState (at_start st') (rest st') [(i + k, consumed st st')])
    | None => None
    end.
Proof.
  induction bodies as [|b bodies IH]; intros k j st Hn Hc;
    cbn [length seq List.combine fold_right fst snd first_body]; [reflexivity|].
  rewrite bt_group. destruct (bt b st Some) as [st'|] eqn:E.
  - cbn [option_map or_else]. unfold set_cap.
    apply bt_sound in E. destruct E as [st1 [_ [[= ->] Hcaps]]].
    rewrite Hcaps, Hc; [reflexivity|]. apply Hn. left. reflexivity.
  - cbn [option_map or_else]. apply (IH k (S j)); [|exact Hc].
    intros b' Hb. apply Hn. right. exact Hb.
Qed.

Lemma newline_len_bound at0 s n : newline_len at0 s = Some n -> 1 <= n <= length s.
Proof.
  unfold newline_len. destruct s as [|c s]; [discriminate|].
  destruct (Ascii.eqb Str.CR c).
  - destruct at0; [|intros [= <-]; simpl; lia].
    destruct s as [|d s]; [intros [= <-]; simpl; lia|].
    destruct (Ascii.eqb Str.LF d); intros [= <-]; simpl; lia.
  - destruct (Ascii.eqb Str.LF c); [|discriminate]. intros [= <-]. simpl. lia.
Qed.

Lemma consumed_skipn at0 s cs n st' :
  n <= length s -> rest st' = skipn n s ->
  consumed (MState at0 s cs) st' = firstn n s.
Proof.
  intros Hn Hr. unfold consumed. cbn [rest]. rewrite Hr, length_skipn.
  replace (length s - (length s - n)) with n by lia. reflexivity.
Qed.

Lemma one_char_cons p at0 c s cs k :
  one_char p (MState at0 (c :: s) cs) k = if p c then k (MState false s cs) else None.
Proof. reflexivity. Qed.

Lemma one_char_nil p at0 cs k : one_char p (MState at0 [] cs) k = None.
Proof. reflexivity. Qed.

Lemma set_cap_skipn k at0 s n :
  n <= length s ->
  set_cap k (MState at0 s []) (MState false (skipn n s) [])
  = MState false (skipn n s) [(k, firstn n s)].
Proof.
  intros Hn. unfold set_cap. rewrite (consumed_skipn _ _ _ n); [reflexivity | exact Hn | reflexivity].
Qed.

(** What the first group reads. *)
Lemma bt_newline at0 s :
  bt (seq_of [Cap 1 newline_body]) (MState at0 s []) Some
  = match newline_len at0 s with
    | Some n => Some (MState false (skipn n s) [(1, firstn n s)])
    | None => None
    end.
Proof.
  rewrite bt_group. unfold newline_body, seq_of, newline_len.
  cbn [fold_right bt at_start].
  destruct s as [|c s].
  - rewrite !one_char_nil. destruct at0; reflexivity.
  - rewrite !one_char_cons. destruct (Ascii.eqb Str.CR c) eqn:Ec.
    + destruct at0.
      * destruct s as [|d s].
        -- rewrite one_char_nil. cbn [or_else option_map].
           apply f_equal. apply (set_cap_skipn 1 true [c] 1). simpl; lia.
        -- rewrite one_char_cons. destruct (Ascii.eqb Str.LF d) eqn:Ed; cbn [or_else option_map].
           ++ apply f_equal. apply (set_cap_skipn 1 true (c :: d :: s) 2). simpl; lia.
           ++ apply f_equal. apply (set_cap_skipn 1 true (c :: d :: s) 1). simpl; lia.
      * cbn [or_else option_map].
        apply f_equal. apply (set_cap_skipn 1 false (c :: s) 1). simpl; lia.
    + assert (or_else (if at0 then None else None) None = @None mstate) as ->
        by (destruct at0; reflexivity).
      cbn [or_else]. destruct (Ascii.eqb Str.LF c) eqn:El; [|reflexivity].
      cbn [option_map].
      apply f_equal. apply (set_cap_skipn 1 at0 (c :: s) 1). simpl; lia.
Qed.

(** What [exec] finds at one index, for the regular expression of a
    matcher. *)
Theorem exec_at_combined bodies idx s :
  (forall b, In b bodies -> no_caps b = true) ->
  exec_at (combined bodies) idx s
  = option_map (result_of_event idx s) (event_at bodies (idx =? 0) s).
Proof.
  intros Hn. unfold exec_at, combined, event_at.
  rewrite bt_combine, bt_newline.
  destruct (newline_len (idx =? 0) s) as [n|] eqn:En.
  - cbn [or_else option_map]. unfold result_of_event. cbn [fst snd caps rest].
    apply newline_len_bound in En. rewrite length_skipn.
    replace (length s - (length s - n)) with n by lia. reflexivity.
  - cbn [or_else].
    pose proof (groups_first_body bodies 2 0 (MState (idx =? 0) s []) Hn eq_refl) as Hg.
    change (0 + 2) with 2 in Hg. rewrite Hg. clear Hg.
    destruct (first_body 0 bodies (MState (idx =? 0) s [])) as [[j st']|]; [|reflexivity].
    cbn [option_map]. unfold result_of_event, consumed. cbn [fst snd caps rest].
    reflexivity.
Qed.

Lemma run_patterns ps bodies :
  Forall2 (fun p b => reads (expression p) b) ps bodies -> ps <> [] ->
  forall a n,
    exists f,
      run (patternsExpression ps) (PState [] (Frame None (Some a) []) n Normal)
      = Some (PState [] f (n + length ps) Normal)
      /\ close_frame f = alternate a n bodies.
Proof.
  unfold patternsExpression.
  induction 1 as [|p b ps bodies Hp Hps IH]; intros Hne a n; [congruence|].
  destruct ps as [|q qs].
  - inversion Hps; subst. cbn [map Str.join length alternate].
    rewrite (Hp (Some a) [] n). replace (n + 1) with (S n) by lia.
    eexists. split; [reflexivity|]. reflexivity.
  - change (Str.join (str "|") (map (fun p => str "(" ++ expression p ++ str ")") (p :: q :: qs)))
      with ((str "(" ++ expression p ++ str ")")
            ++ "|"%char :: Str.join (str "|")
                 (map (fun p => str "(" ++ expression p ++ str ")") (q :: qs))).
    rewrite run_app, (Hp (Some a) [] n). cbn [run]. rewrite step_bar.
    destruct (IH ltac:(discriminate) (Alt a (seq_of [Cap (S n) b])) (S n))
      as [f [Hrun Hclose]].
    exists f. replace (n + length (p :: q :: qs)) with (S n + length (q :: qs))
      by (cbn [length]; lia).
    split; [exact Hrun|]. rewrite Hclose. reflexivity.
Qed.

(** The matcher built from patterns whose expressions are read as
    [bodies]. *)
Theorem parse_matcher ps bodies :
  Forall2 (fun p b => reads (expression p) b) ps bodies -> ps <> [] ->
  new_CodePatternMatcher ps
  = Some {| re := combined bodies; groups := S (length ps); patterns := ps |}.
Proof.
  intros Hr Hne. unfold new_CodePatternMatcher, parse, group_count.
  change (matcher_source ps)
    with ((str "(^" ++ [Str.CR; Str.LF] ++ str "|" ++ [Str.CR] ++ str "|" ++ [Str.LF]
           ++ str ")|") ++ patternsExpression ps).
  rewrite run_app.
  assert (run (str "(^" ++ [Str.CR; Str.LF] ++ str "|" ++ [Str.CR] ++ str "|" ++ [Str.LF]
               ++ str ")|") initial
          = Some (PState [] (Frame None (Some (seq_of [Cap 1 newline_body])) []) 1 Normal))
    as -> by reflexivity.
  destruct (run_patterns ps bodies Hr Hne (seq_of [Cap 1 newline_body]) 1)
    as [f [Hrun Hclose]].
  rewrite Hrun. unfold finish. cbn [mode stack cur ngroups]. rewrite Hclose.
  reflexivity.
Qed.

End ScanFacts.

Import ScanFacts.

Module CatalogFacts.

Lemma shape_alts_ok sh : Forall (Forall item_ok) (shape_alts sh).
Proof.
  destruct sh; repeat constructor; intros stk cap alts seq n; reflexivity.
Qed.

Lemma transform_alts_ok : Forall (Forall (Forall item_ok)) transform_alts.
Proof. repeat constructor; intros stk cap alts seq n; reflexivity. Qed.

Lemma ident_chars_not_dot C :
  forallb is_ident_char C = true ->
  Str.replace (str ".prototype") [] C = C.
Proof.
  induction C as [|c C IH]; intros H; [reflexivity|].
  simpl in H. apply andb_true_iff in H. destruct H as [Hc H].
  cbn [Str.replace]. 
  assert (Str.startsWith (str ".prototype") (c :: C) = false) as ->.
  { cbn [str Str.lit list_ascii_of_string Str.startsWith].
    destruct (Ascii.eqb "." c) eqn:E; [|reflexivity].
    apply Ascii.eqb_eq in E. subst c. discriminate. }
  rewrite (IH H). reflexivity.
Qed.

Lemma replace_prototype C :
  forallb is_ident_char C = true ->
  Str.replace (str ".prototype") [] (C ++ str "." ++ str "prototype") = C.
Proof.
  induction C as [|c C IH]; intros H; [reflexivity|].
  simpl in H. apply andb_true_iff in H. destruct H as [Hc H].
  cbn [Str.replace app].
  assert (Str.startsWith (str ".prototype") (c :: C ++ str "." ++ str "prototype") = false) as ->.
  { cbn [str Str.lit list_ascii_of_string Str.startsWith].
    destruct (Ascii.eqb "." c) eqn:E; [|reflexivity].
    apply Ascii.eqb_eq in E. subst c. discriminate. }
  rewrite (IH H). reflexivity.
Qed.

Lemma expression_rendered n m sh C P :
  name_shape n = Some (sh, C, P) ->
  expression (polyfill_pattern (n, m)) = render C P (template_value m) (shape_alts sh).
Proof.
  unfold name_shape, polyfill_pattern. cbn [fst snd expression].
  destruct (Str.split "." n) as [|x [|y [|z [|w l]]]]; try discriminate.
  - destruct (ident x) eqn:Hx; [|discriminate]. intros [= <- <- <-].
    cbn [length Nat.ltb Nat.leb Nat.sub nth].
    unfold buildPolyfillExpression. cbn [object_given].
    unfold render, shape_alts, qt_items, module_alt, qt, T.
    cbn [map flat_map render_item Str.join app].
    repeat (progress (simpl; rewrite ?app_nil_r, <- ?app_assoc)). reflexivity.
  - destruct (ident x) eqn:Hx; [|discriminate].
    destruct (ident y) eqn:Hy; [|discriminate]. intros [= <- <- <-].
    cbn [length Nat.ltb Nat.leb Nat.sub firstn Str.join nth].
    unfold buildPolyfillExpression.
    destruct x as [|c x]; [discriminate|]. cbn [object_given].
    rewrite (ident_chars_not_dot (c :: x) Hx).
    unfold render, shape_alts, object_items, qt_items, qt_class_items, module_alt, qt, T.
    cbn [map flat_map render_item Str.join app].
    repeat (progress (simpl; rewrite ?app_nil_r, <- ?app_assoc)). reflexivity.
  - destruct (ident x) eqn:Hx; [|discriminate].
    destruct (Str.eqb y (str "prototype")) eqn:Ey; [|discriminate].
    destruct (ident z) eqn:Hz; [|discriminate]. intros [= <- <- <-].
    apply StrFacts.eqb_eq in Ey. subst y.
    cbn [length Nat.ltb Nat.leb Nat.sub firstn Str.join nth].
    unfold buildPolyfillExpression.
    destruct x as [|c x]; [discriminate|]. cbn [object_given app].
    change (c :: x ++ str "." ++ str "prototype") with ((c :: x) ++ str "." ++ str "prototype").
    rewrite (replace_prototype (c :: x) Hx).
    unfold render, shape_alts, object_items, qt_items, qt_class_items, module_alt, qt, T.
    cbn [map flat_map render_item Str.join app].
    repeat (progress (simpl; rewrite ?app_nil_r, <- ?app_assoc)). reflexivity.
Qed.

Lemma name_shape_ident n sh C P :
  name_shape n = Some (sh, C, P) -> ident C = true /\ ident P = true.
Proof.
  unfold name_shape.
  destruct (Str.split "." n) as [|x [|y [|z [|w l]]]]; try discriminate.
  - destruct (ident x) eqn:Hx; [|discriminate]. intros [= <- <- <-].
    split; [reflexivity | exact Hx].
  - destruct (ident x) eqn:Hx; [|discriminate].
    destruct (ident y) eqn:Hy; [|discriminate]. intros [= <- <- <-].
    split; [exact Hx | exact Hy].
  - destruct (ident x) eqn:Hx; [|discriminate].
    destruct (Str.eqb y (str "prototype")); [|discriminate].
    destruct (ident z) eqn:Hz; [|discriminate]. intros [= <- <- <-].
    split; [exact Hx | exact Hz].
Qed.

Lemma wf_module_chars m : wf_module m = true -> forallb is_module_char m = true /\ m <> [].
Proof. destruct m; [discriminate|]. intros H. split; [exact H | discriminate]. Qed.

Lemma render_first sh C P M :
  ident C = true ->
  exists c e, render C P M (shape_alts sh) = c :: e /\ c <> "?"%char.
Proof.
  intros HC. destruct sh.
  - eexists _, _. split; [reflexivity | discriminate].
  - destruct C as [|c C]; [discriminate|].
    eexists c, _. split; [reflexivity|]. intros ->. discriminate.
  - destruct C as [|c C]; [discriminate|].
    eexists c, _. split; [reflexivity|]. intros ->. discriminate.
Qed.

(** The pattern of a well-formed entry is read as [entry_body]. *)
Lemma entry_reads d :
  corejs d = true -> wf_entry d = true ->
  reads (expression (polyfill_pattern (p_name d, nth_error (modules d) 0))) (entry_body d).
Proof.
  intros Hc Hwf. unfold wf_entry in Hwf. rewrite Hc in Hwf.
  unfold entry_body. destruct (name_shape (p_name d)) as [[[sh C] P]|] eqn:E; [|discriminate].
  rewrite (expression_rendered _ _ _ _ _ E). fold (module_text d).
  destruct (name_shape_ident _ _ _ _ E) as [HC HP].
  destruct (wf_module_chars _ Hwf) as [HM _].
  apply reads_render.
  - apply ident_chars. exact HC.
  - apply ident_chars. exact HP.
  - exact HM.
  - apply shape_alts_ok.
  - destruct sh; discriminate.
  - apply render_first. exact HC.
Qed.

Lemma transform_reads :
  Forall2 (fun p b => reads (expression p) b) getTransformPatterns transform_bodies.
Proof.
  unfold getTransformPatterns, transform_bodies, transform_alts. cbn [map expression].
  repeat constructor.
Qed.

Lemma wf_catalog_In data d : wf_catalog data -> In d data -> wf_entry d = true.
Proof. unfold wf_catalog. rewrite forallb_forall. auto. Qed.

Lemma polyfill_reads data :
  wf_catalog data ->
  Forall2 (fun p b => reads (expression p) b)
          (getPolyfillPatterns data) (map entry_body (filter corejs data)).
Proof.
  intros Hwf. unfold getPolyfillPatterns, getCoreJsPolyfillData. rewrite map_map.
  assert (forall d, In d (filter corejs data) -> corejs d = true /\ wf_entry d = true) as H.
  { intros d Hd. apply filter_In in Hd. destruct Hd as [Hd Hc].
    split; [exact Hc | exact (wf_catalog_In _ _ Hwf Hd)]. }
  induction (filter corejs data) as [|d l IH]; [constructor|].
  cbn [map]. constructor.
  - destruct (H d (or_introl eq_refl)) as [Hc Hw]. apply entry_reads; assumption.
  - apply IH. intros d' Hd'. apply H. right. exact Hd'.
Qed.

(** The matcher of the audit, for a well-formed catalog. *)
Theorem audit_matcher_spec data :
  wf_catalog data ->
  audit_matcher data
  = Some {| re := combined (audit_bodies data);
            groups := S (length (audit_patterns data));
            patterns := audit_patterns data |}.
Proof.
  intros Hwf. unfold audit_matcher. fold (audit_patterns data).
  apply parse_matcher.
  - unfold audit_patterns, audit_bodies. apply Forall2_app.
    + apply polyfill_reads. exact Hwf.
    + apply transform_reads.
  - unfold audit_patterns, getTransformPatterns. destruct (getPolyfillPatterns data); discriminate.
Qed.

(** *** Properties of the regular expressions of the patterns *)

Section Structural.

Variable p : regex -> bool.
Hypothesis p_Empty : p Empty = true.
Hypothesis p_Seq : forall a b, p (Seq a b) = p a && p b.
Hypothesis p_Alt : forall a b, p (Alt a b) = p a && p b.
Hypothesis p_Char : forall c, p (Char c) = true.
Hypothesis p_Dot : p Dot = true.

Lemma all_seq_of l : p (seq_of l) = forallb p l.
Proof.
  induction l as [|r l IH]; [exact p_Empty|].
  cbn [seq_of fold_right forallb]. rewrite p_Seq. f_equal. exact IH.
Qed.

Lemma all_fold_Alt rs : forall r, p (fold_left Alt rs r) = p r && forallb p rs.
Proof.
  induction rs as [|x rs IH]; intros r; cbn [fold_left forallb].
  - rewrite andb_true_r. reflexivity.
  - rewrite IH, p_Alt, andb_assoc. reflexivity.
Qed.

Lemma all_chars v : forallb p (map Char v) = true.
Proof. induction v; [reflexivity|]. cbn. rewrite p_Char. assumption. Qed.

Lemma all_atoms v : forallb p (map atom v) = true.
Proof.
  induction v as [|c v IH]; [reflexivity|]. cbn [map forallb]. rewrite IH.
  unfold atom. destruct (Ascii.eqb c "."); [rewrite p_Dot | rewrite p_Char]; reflexivity.
Qed.

Lemma all_inst_alt C P M items :
  forallb (item_all p) items = true -> p (inst_alt C P M items) = true.
Proof.
  intros H. unfold inst_alt. rewrite all_seq_of.
  induction items as [|i items IH]; [reflexivity|].
  cbn [forallb] in H. apply andb_true_iff in H. destruct H as [Hi H].
  cbn [flat_map]. rewrite forallb_app, (IH H), andb_true_r.
  destruct i; cbn [inst_item]; [exact Hi | apply all_chars | apply all_chars | apply all_atoms].
Qed.

Lemma all_inst C P M alts :
  forallb (forallb (item_all p)) alts = true -> p (inst C P M alts) = true.
Proof.
  intros H. unfold inst, alts_of. destruct alts as [|a alts]; [exact p_Empty|].
  cbn [forallb map] in *. apply andb_true_iff in H. destruct H as [Ha H].
  rewrite all_fold_Alt, (all_inst_alt _ _ _ _ Ha). cbn [andb].
  induction alts as [|b alts IH]; [reflexivity|].
  cbn [forallb map] in *. apply andb_true_iff in H. destruct H as [Hb H].
  rewrite (all_inst_alt _ _ _ _ Hb), (IH H). reflexivity.
Qed.

End Structural.

Lemma no_caps_inst C P M alts :
  forallb (forallb (item_all no_caps)) alts = true -> no_caps (inst C P M alts) = true.
Proof. apply all_inst; reflexivity. Qed.

Lemma bol_free_inst C P M alts :
  forallb (forallb (item_all bol_free)) alts = true -> bol_free (inst C P M alts) = true.
Proof. apply all_inst; reflexivity. Qed.

Lemma nullable_seq_of l : nullable (seq_of l) = forallb nullable l.
Proof.
  induction l as [|r l IH]; [reflexivity|].
  cbn [seq_of fold_right forallb nullable]. f_equal. exact IH.
Qed.

Lemma nullable_fold_Alt rs : forall r,
  nullable (fold_left Alt rs r) = nullable r || existsb nullable rs.
Proof.
  induction rs as [|x rs IH]; intros r; cbn [fold_left existsb].
  - rewrite orb_false_r. reflexivity.
  - rewrite IH. cbn [nullable]. rewrite orb_assoc. reflexivity.
Qed.

Lemma nullable_inst_alt C P M items :
  existsb item_consumes items = true -> nullable (inst_alt C P M items) = false.
Proof.
  intros H. unfold inst_alt. rewrite nullable_seq_of.
  apply existsb_exists in H. destruct H as [i [Hi Hc]].
  destruct i; try discriminate. cbn [item_consumes] in Hc.
  apply existsb_exists in Hc. destruct Hc as [t [Ht Hn]].
  apply negb_true_iff in Hn.
  apply not_true_is_false. intros Hall. rewrite forallb_forall in Hall.
  rewrite (Hall t) in Hn; [discriminate|].
  apply in_flat_map. exists (Text k). split; [exact Hi | exact Ht].
Qed.

Lemma nullable_inst C P M alts :
  alts <> [] -> forallb (existsb item_consumes) alts = true ->
  nullable (inst C P M alts) = false.
Proof.
  intros Hne H. unfold inst, alts_of. destruct alts as [|a alts]; [congruence|].
  cbn [forallb map] in *. apply andb_true_iff in H. destruct H as [Ha H].
  rewrite nullable_fold_Alt, (nullable_inst_alt _ _ _ _ Ha). cbn [orb].
  clear Hne Ha.
  induction alts as [|b alts IH]; [reflexivity|].
  cbn [forallb map existsb] in *. apply andb_true_iff in H. destruct H as [Hb H].
  rewrite (nullable_inst_alt _ _ _ _ Hb), (IH H). reflexivity.
Qed.

(** The regular expressions of the audit have no group and no anchor
    inside, and read at least one character. *)
Lemma entry_body_structure d :
  corejs d = true -> wf_entry d = true ->
  no_caps (entry_body d) = true /\ bol_free (entry_body d) = true
  /\ nullable (entry_body d) = false.
Proof.
  intros Hc Hwf. unfold wf_entry in Hwf. rewrite Hc in Hwf. unfold entry_body.
  destruct (name_shape (p_name d)) as [[[sh C] P]|]; [|discriminate].
  split; [|split].
  - apply no_caps_inst. destruct sh; vm_compute; reflexivity.
  - apply bol_free_inst. destruct sh; vm_compute; reflexivity.
  - apply nullable_inst; [destruct sh; discriminate|]. destruct sh; vm_compute; reflexivity.
Qed.

Lemma transform_bodies_structure b :
  In b transform_bodies ->
  no_caps b = true /\ bol_free b = true /\ nullable b = false.
Proof.
  unfold transform_bodies, transform_alts. cbn [map In].
  intros [<- | [<- | [<- | []]]]; vm_compute; auto.
Qed.

Lemma audit_bodies_structure data b :
  wf_catalog data -> In b (audit_bodies data) ->
  no_caps b = true /\ bol_free b = true /\ nullable b = false.
Proof.
  intros Hwf Hb. unfold audit_bodies in Hb. apply in_app_or in Hb.
  destruct Hb as [Hb | Hb]; [|apply transform_bodies_structure; exact Hb].
  apply in_map_iff in Hb. destruct Hb as [d [<- Hd]].
  apply filter_In in Hd. destruct Hd as [Hd Hc].
  apply entry_body_structure; [exact Hc | exact (wf_catalog_In _ _ Hwf Hd)].
Qed.

Lemma audit_lengths data :
  length (audit_bodies data) = length (audit_patterns data).
Proof.
  unfold audit_bodies, audit_patterns, getPolyfillPatterns, getCoreJsPolyfillData.
  rewrite !length_app, !length_map. reflexivity.
Qed.

End CatalogFacts.

Import CatalogFacts.

Module LoopFacts.

Lemma first_body_spec bodies : forall j st i st',
  first_body j bodies st = Some (i, st') ->
  exists b, nth_error bodies (i - j) = Some b /\ j <= i
            /\ bt b st Some = Some st'
            /\ forall i' b', i' < i - j -> nth_error bodies i' = Some b' ->
                             bt b' st Some = None.
Proof.
  induction bodies as [|b bodies IH]; intros j st i st' H; cbn [first_body] in H; [discriminate|].
  destruct (bt b st Some) as [x|] eqn:E.
  - injection H as <- <-. exists b. rewrite Nat.sub_diag. repeat split; auto. lia.
  - apply IH in H. destruct H as [b0 [Hn [Hj [Hb Hprev]]]].
    exists b0. replace (i - j) with (S (i - S j)) by lia.
    repeat split; [exact Hn | lia | exact Hb |].
    intros [|i'] b' Hi' Hb'; cbn [nth_error] in Hb'.
    + injection Hb' as <-. exact E.
    + apply (Hprev i' b'); [lia | exact Hb'].
Qed.

Lemma first_body_None bodies : forall j st,
  first_body j bodies st = None <-> forall b, In b bodies -> bt b st Some = None.
Proof.
  induction bodies as [|b bodies IH]; intros j st; cbn [first_body].
  - split; [intros _ b [] | reflexivity].
  - destruct (bt b st Some) eqn:E.
    + split; [discriminate|]. intros H. rewrite (H b (or_introl eq_refl)) in E. discriminate.
    + rewrite IH. split.
      * intros H b' [<- | Hb]; auto.
      * intros H b' Hb. apply H. right. exact Hb.
Qed.

(** What a matcher finds is not empty and lies within the input. *)
Lemma event_at_bound bodies at0 s g n :
  (forall b, In b bodies -> nullable b = false) ->
  event_at bodies at0 s = Some (g, n) ->
  1 <= n <= length s /\ forall j, g = Some j -> j < length bodies.
Proof.
  intros Hnull. unfold event_at.
  destruct (newline_len at0 s) as [k|] eqn:En.
  - intros [= <- <-]. split; [exact (newline_len_bound _ _ _ En) | discriminate].
  - destruct (first_body 0 bodies (MState at0 s [])) as [[j st']|] eqn:E; [|discriminate].
    intros [= <- <-]. apply first_body_spec in E.
    destruct E as [b [Hn [_ [Hb _]]]]. rewrite Nat.sub_0_r in Hn.
    apply bt_sound in Hb. destruct Hb as [st1 [Hm [[= ->] _]]]. cbn [rest] in Hm.
    pose proof (accepts_progress _ _ _ Hm (Hnull b (nth_error_In _ _ Hn))).
    split; [lia|]. intros j' [= <-]. apply nth_error_Some. congruence.
Qed.

Lemma next_event_bound bodies : forall s idx i g n,
  (forall b, In b bodies -> nullable b = false) ->
  next_event bodies idx s = Some (i, (g, n)) ->
  idx <= i /\ 1 <= n /\ i + n <= idx + length s
  /\ forall j, g = Some j -> j < length bodies.
Proof.
  induction s as [|c s IH]; intros idx i g n Hnull H; cbn [next_event] in H.
  - destruct (event_at bodies (idx =? 0) []) as [e|] eqn:E; [|discriminate].
    injection H as Hi He. subst. apply (event_at_bound _ _ _ _ _ Hnull) in E.
    cbn [length] in *. lia.
  - destruct (event_at bodies (idx =? 0) (c :: s)) as [e|] eqn:E.
    + injection H as Hi He. subst. apply (event_at_bound _ _ _ _ _ Hnull) in E.
      destruct E as [E1 E2]. repeat split; try lia. exact E2.
    + apply (IH _ _ _ _ Hnull) in H. cbn [length]. 
      destruct H as [H1 [H2 [H3 H4]]]. repeat split; try lia. exact H4.
Qed.

Lemma next_event_here bodies idx s e :
  event_at bodies (idx =? 0) s = Some e -> next_event bodies idx s = Some (idx, e).
Proof. intros H. destruct s; cbn [next_event]; rewrite H; reflexivity. Qed.

Lemma exec_scan_combined bodies : forall s idx,
  (forall b, In b bodies -> no_caps b = true) ->
  exec_scan (combined bodies) idx s
  = match next_event bodies idx s with
    | Some (i, e) => Some (result_of_event i (skipn (i - idx) s) e)
    | None => None
    end.
Proof.
  induction s as [|c s IH]; intros idx Hn; cbn [exec_scan next_event];
    rewrite (exec_at_combined _ _ _ Hn).
  - destruct (event_at bodies (idx =? 0) []) as [e|]; [|reflexivity].
    cbn [option_map]. rewrite Nat.sub_diag. reflexivity.
  - destruct (event_at bodies (idx =? 0) (c :: s)) as [e|] eqn:E.
    + cbn [option_map]. rewrite Nat.sub_diag. reflexivity.
    + cbn [option_map]. rewrite (IH _ Hn).
      destruct (next_event bodies (S idx) s) as [[i e]|] eqn:En; [|reflexivity].
      assert (S idx <= i) as Hi.
      { clear -En. revert idx i e En. induction s as [|c' s IH]; intros idx i e En;
          cbn [next_event] in En.
        - destruct (event_at _ _ _); [injection En as Hi He; lia | discriminate].
        - destruct (event_at _ _ _); [injection En as Hi He; lia|].
          apply IH in En. lia. }
      replace (i - idx) with (S (i - S idx)) by lia. reflexivity.
Qed.

Lemma findIndex_from_unique f n j :
  j < n -> f j = true -> (forall i, i < j -> f i = false) ->
  findIndex_from f 0 n = Some j.
Proof.
  intros Hj Hf Hlt.
  assert (forall k i, i <= j -> j < i + k -> (forall i', i <= i' -> i' < j -> f i' = false) ->
                      findIndex_from f i k = Some j) as H.
  { induction k as [|k IH]; intros i Hi Hk Hprev; [lia|]. cbn [findIndex_from].
    destruct (Nat.eq_dec i j) as [-> | Hne].
    - rewrite Hf. reflexivity.
    - rewrite (Hprev i); [|lia|lia]. apply IH; [lia | lia |].
      intros i' H1 H2. apply Hprev; lia. }
  apply H; [lia | lia |]. intros i' _ Hi'. apply Hlt. exact Hi'.
Qed.

(** One iteration of the loop, for a matcher that [scans]. *)
Theorem match_iteration_event m bodies code st :
  scans m bodies -> lastIndex st <= length code ->
  match_iteration m code st
  = iterate_event (patterns m) st
      (next_event bodies (lastIndex st) (skipn (lastIndex st) code)).
Proof.
  intros [Hre [Hg [Hlen Hb]]] HL. unfold match_iteration, exec.
  assert ((length code <? lastIndex st) = false) as -> by (apply Nat.ltb_ge; exact HL).
  rewrite Hre, exec_scan_combined; [|intros b Hin; apply Hb; exact Hin].
  destruct (next_event bodies (lastIndex st) (skipn (lastIndex st) code))
    as [[i [g n]]|] eqn:E; [|reflexivity].
  apply next_event_bound in E; [|intros b Hin; apply Hb; exact Hin].
  destruct E as [Hi [Hn [Hend Hj]]]. rewrite length_skipn in Hend.
  set (s := skipn (i - lastIndex st) (skipn (lastIndex st) code)).
  assert (n <= length s) as Hs.
  { unfold s. rewrite !length_skipn. lia. }
  assert (exists c t, firstn n s = c :: t) as [c [t Ht]].
  { destruct s as [|c s']; [cbn [length] in Hs; lia|].
    destruct n as [|n]; [lia|]. exists c, (firstn n s'). reflexivity. }
  destruct g as [j|]; unfold result_of_event; cbn [fst snd captures index end_index iterate_event].
  - rewrite Ht. cbn [capture]. 
    replace (j + 2 =? 1) with false by (symmetry; apply Nat.eqb_neq; lia).
    cbn [truthy]. rewrite Hg. cbn [Nat.sub]. rewrite Nat.sub_0_r.
    rewrite (findIndex_from_unique _ (length bodies) j).
    + reflexivity.
    + apply Hj. reflexivity.
    + cbn [capture]. rewrite Nat.eqb_refl. reflexivity.
    + intros i' Hi'. cbn [capture].
      replace (j + 2 =? i' + 2) with false by (symmetry; apply Nat.eqb_neq; lia).
      reflexivity.
  - rewrite Ht. cbn [capture Nat.eqb truthy]. reflexivity.
Qed.

(** The loop of [match] is the loop on the events. *)
Theorem match_loop_event m bodies code :
  scans m bodies ->
  forall fuel st, lastIndex st <= length code ->
    match_loop fuel m code st = event_loop fuel (patterns m) bodies code st.
Proof.
  intros Hs. induction fuel as [|fuel IH]; intros st HL; [reflexivity|].
  cbn [match_loop event_loop]. rewrite (match_iteration_event _ _ _ _ Hs HL).
  destruct (next_event bodies (lastIndex st) (skipn (lastIndex st) code))
    as [[i [g n]]|] eqn:E; [|reflexivity].
  apply next_event_bound in E; [|intros b Hin; apply Hs; exact Hin].
  destruct E as [Hi [Hn [Hend _]]]. rewrite length_skipn in Hend.
  destruct g as [j|]; cbn [iterate_event].
  - destruct (nth_error (patterns m) j); [|reflexivity].
    destruct (existsb (Nat.eqb j) (seen st)); apply IH; cbn [lastIndex]; lia.
  - apply IH. cbn [lastIndex]. lia.
Qed.

(** The loop ends within [length code + 1] iterations. *)
Theorem event_loop_total ps bodies code :
  length ps = length bodies ->
  (forall b, In b bodies -> nullable b = false) ->
  forall fuel st, lastIndex st <= length code -> length code - lastIndex st < fuel ->
    exists result, event_loop fuel ps bodies code st = Some result.
Proof.
  intros Hlen Hnull. induction fuel as [|fuel IH]; intros st HL Hf; [lia|].
  cbn [event_loop].
  destruct (next_event bodies (lastIndex st) (skipn (lastIndex st) code))
    as [[i [g n]]|] eqn:E; [|eexists; reflexivity].
  apply (next_event_bound _ _ _ _ _ _ Hnull) in E.
  destruct E as [Hi [Hn [Hend Hj]]]. rewrite length_skipn in Hend.
  destruct g as [j|]; cbn [iterate_event].
  - destruct (nth_error ps j) eqn:Ej.
    + destruct (existsb (Nat.eqb j) (seen st)); apply IH; cbn [lastIndex]; lia.
    + apply nth_error_None in Ej. specialize (Hj j eq_refl). lia.
  - apply IH; cbn [lastIndex]; lia.
Qed.

Theorem match_total m bodies code :
  scans m bodies -> exists result, matcher_match m code = Some result.
Proof.
  intros Hs. unfold matcher_match.
  rewrite (match_loop_event _ _ _ Hs); [|cbn; lia].
  apply event_loop_total; [apply Hs | intros b Hb; apply Hs; exact Hb | cbn; lia | cbn; lia].
Qed.

(** What [exec] returns from an index on is the next event. *)
Lemma exec_next_event m bodies code idx :
  scans m bodies -> idx <= length code ->
  exec (re m) idx code
  = option_map (fun ie => result_of_event (fst ie) (skipn (fst ie) code) (snd ie))
               (next_event bodies idx (skipn idx code)).
Proof.
  intros [Hre [_ [_ Hb]]] HL. unfold exec.
  assert ((length code <? idx) = false) as -> by (apply Nat.ltb_ge; exact HL).
  rewrite Hre, exec_scan_combined; [|intros b Hin; apply Hb; exact Hin].
  destruct (next_event bodies idx (skipn idx code)) as [[i e]|] eqn:E; [|reflexivity].
  destruct e as [g n]. apply next_event_bound in E; [|intros b Hin; apply Hb; exact Hin].
  destruct E as [Hi _]. cbn [option_map fst snd].
  rewrite skipn_skipn. replace (i - idx + idx) with i by lia. reflexivity.
Qed.

End LoopFacts.

Import LoopFacts.

Module AuditFacts.

Lemma split_not_nil c s : Str.split c s <> [].
Proof.
  induction s as [|a s IH]; cbn [Str.split]; [discriminate|].
  destruct (Ascii.eqb a c); [discriminate|]. destruct (Str.split c s); discriminate.
Qed.

Lemma join_split s : Str.join (str ".") (Str.split "." s) = s.
Proof.
  induction s as [|a s IH]; [reflexivity|]. cbn [Str.split].
  destruct (Ascii.eqb a ".") eqn:E.
  - apply Ascii.eqb_eq in E. subst a.
    pose proof (split_not_nil "." s) as Hne.
    destruct (Str.split "." s) as [|w ws]; [congruence|].
    change (Str.join (str ".") ([] :: w :: ws)) with ([] ++ str "." ++ Str.join (str ".") (w :: ws)).
    rewrite IH. reflexivity.
  - pose proof (split_not_nil "." s) as Hne.
    destruct (Str.split "." s) as [|w ws]; [congruence|].
    destruct ws as [|w' ws].
    + cbn [Str.join] in *. rewrite IH. reflexivity.
    + change (Str.join (str ".") ((a :: w) :: w' :: ws))
        with (a :: (w ++ str "." ++ Str.join (str ".") (w' :: ws))).
      change (Str.join (str ".") (w :: w' :: ws))
        with (w ++ str "." ++ Str.join (str ".") (w' :: ws)) in IH.
      rewrite IH. reflexivity.
Qed.

(** A name is given by its shape, its class and its property. *)
Lemma name_shape_name n sh C P :
  name_shape n = Some (sh, C, P) -> n = shape_name sh C P.
Proof.
  intros H. rewrite <- (join_split n). revert H. unfold name_shape.
  destruct (Str.split "." n) as [|x [|y [|z [|w l]]]]; try discriminate.
  - destruct (ident x); [|discriminate]. intros [= <- <- <-]. reflexivity.
  - destruct (ident x); [|discriminate]. destruct (ident y); [|discriminate].
    intros [= <- <- <-]. reflexivity.
  - destruct (ident x); [|discriminate].
    destruct (Str.eqb y (str "prototype")) eqn:E; [|discriminate].
    destruct (ident z); [|discriminate]. intros [= <- <- <-].
    apply StrFacts.eqb_eq in E. subst y. reflexivity.
Qed.

Lemma name_shape_property n sh C P :
  name_shape n = Some (sh, C, P) -> property_of n = P.
Proof.
  unfold name_shape, property_of.
  destruct (Str.split "." n) as [|x [|y [|z [|w l]]]]; try discriminate.
  - destruct (ident x); [|discriminate]. intros [= <- <- <-]. reflexivity.
  - destruct (ident x); [|discriminate]. destruct (ident y); [|discriminate].
    intros [= <- <- <-]. reflexivity.
  - destruct (ident x); [|discriminate].
    destruct (Str.eqb y (str "prototype")); [|discriminate].
    destruct (ident z); [|discriminate]. intros [= <- <- <-]. reflexivity.
Qed.

Section Audit.

Variable data : list PolyfillModule.
Hypothesis Hwf : wf_catalog data.

(** The matcher of the audit scans with the regular expressions of the
    catalog and of the transforms. *)
Lemma audit_scans m : audit_matcher data = Some m -> scans m (audit_bodies data).
Proof.
  rewrite (audit_matcher_spec _ Hwf). intros [= <-]. unfold scans. cbn [re groups patterns].
  split; [reflexivity|]. split; [rewrite audit_lengths; reflexivity|].
  split; [rewrite audit_lengths; reflexivity|].
  intros b Hb. destruct (audit_bodies_structure _ _ Hwf Hb) as [H1 [_ H3]]. auto.
Qed.

Lemma audit_matcher_exists : exists m, audit_matcher data = Some m.
Proof. rewrite (audit_matcher_spec _ Hwf). eexists. reflexivity. Qed.

Lemma audit_patterns_of m : audit_matcher data = Some m -> patterns m = audit_patterns data.
Proof. rewrite (audit_matcher_spec _ Hwf). intros [= <-]. reflexivity. Qed.

(** Where the pattern of a catalog entry matches, the entry is among the
    candidates. *)
Lemma entry_candidates d at0 s st' :
  In d data -> corejs d = true ->
  bt (entry_body d) (MState at0 s []) Some = Some st' ->
  exists sh C P b,
    name_shape (p_name d) = Some (sh, C, P)
    /\ In (sh, b, rest st') (candidates s) /\ agrees b C P.
Proof.
  intros Hd Hc Hb. pose proof (wf_catalog_In _ _ Hwf Hd) as Hw.
  unfold wf_entry in Hw. rewrite Hc in Hw. unfold entry_body in Hb.
  destruct (name_shape (p_name d)) as [[[sh C] P]|] eqn:E; [|discriminate].
  exists sh, C, P.
  apply bt_sound in Hb. destruct Hb as [st1 [Hm [[= ->] _]]]. cbn [rest] in Hm.
  destruct (name_shape_ident _ _ _ _ E) as [HC HP].
  destruct (wf_module_chars _ Hw) as [HM HMne].
  destruct (enum_complete C P (module_text d) HC HP HM HMne (shape_alts sh) s (rest st'))
    as [b [Hin Hag]]; [destruct sh; discriminate | exact Hm |].
  exists b. split; [reflexivity|]. split; [|exact Hag].
  unfold candidates. apply in_flat_map. exists sh. split; [destruct sh; simpl; auto|].
  apply in_map_iff. exists (b, rest st'). split; [reflexivity | exact Hin].
Qed.

(** The pattern that the matcher finds is the pattern of a catalog entry,
    or a transform pattern. *)
Lemma audit_first_body st j st' :
  first_body 0 (audit_bodies data) st = Some (j, st') ->
  exists pattern,
    nth_error (audit_patterns data) j = Some pattern
    /\ ((exists d, In d data /\ corejs d = true /\ name pattern = p_name d
                   /\ bt (entry_body d) st Some = Some st')
        \/ (exists b, In b transform_bodies /\ bt b st Some = Some st'
                      /\ In pattern getTransformPatterns)).
Proof.
  intros H. apply first_body_spec in H. destruct H as [b [Hn [_ [Hb _]]]].
  rewrite Nat.sub_0_r in Hn. unfold audit_bodies in Hn. unfold audit_patterns.
  unfold getPolyfillPatterns, getCoreJsPolyfillData. rewrite map_map.
  destruct (Nat.lt_ge_cases j (length (filter corejs data))) as [Hj | Hj].
  - rewrite nth_error_app1 in Hn by (rewrite length_map; exact Hj).
    rewrite nth_error_app1 by (rewrite length_map; exact Hj).
    rewrite nth_error_map in *.
    destruct (nth_error (filter corejs data) j) as [d|] eqn:Ed; [|discriminate].
    cbn [option_map] in *. injection Hn as <-.
    eexists. split; [reflexivity|]. left. exists d.
    apply nth_error_In in Ed. apply filter_In in Ed. destruct Ed as [Hd Hc].
    repeat split; assumption.
  - rewrite nth_error_app2 in Hn by (rewrite length_map; exact Hj).
    rewrite nth_error_app2 by (rewrite length_map; exact Hj).
    rewrite length_map in *.
    set (k := j - length (filter corejs data)) in *.
    destruct (nth_error getTransformPatterns k) as [pattern|] eqn:Ep.
    + exists pattern. split; [reflexivity|]. right. exists b.
      repeat split; [exact (nth_error_In _ _ Hn) | exact Hb | exact (nth_error_In _ _ Ep)].
    + apply nth_error_None in Ep.
      assert (k < length transform_bodies) as Hk by (apply nth_error_Some; congruence).
      change (length getTransformPatterns) with 3 in Ep.
      change (length transform_bodies) with 3 in Hk. lia.
Qed.

Lemma audit_bodies_None st :
  (forall d, In d data -> corejs d = true -> bt (entry_body d) st Some = None) ->
  (forall b, In b transform_bodies -> bt b st Some = None) ->
  first_body 0 (audit_bodies data) st = None.
Proof.
  intros Hd Ht. apply first_body_None. intros b Hb. unfold audit_bodies in Hb.
  apply in_app_or in Hb. destruct Hb as [Hb | Hb]; [|apply Ht; exact Hb].
  apply in_map_iff in Hb. destruct Hb as [d [<- Hin]]. apply filter_In in Hin.
  apply Hd; apply Hin.
Qed.

Lemma is_none_true {A} (o : option A) : is_none o = true -> o = None.
Proof. destruct o; [discriminate | reflexivity]. Qed.

(** Where the text is quiet, the matcher finds nothing. *)
Lemma quiet_at_event props at0 t :
  (forall d, In d data -> corejs d = true -> ~ In (property_of (p_name d)) props) ->
  quiet_at props at0 t = true ->
  event_at (audit_bodies data) at0 t = None.
Proof.
  intros Hprops Hq. unfold quiet_at in Hq.
  apply andb_true_iff in Hq. destruct Hq as [Hq Hcand].
  apply andb_true_iff in Hq. destruct Hq as [Hnl Htr].
  unfold event_at. rewrite (is_none_true _ Hnl).
  rewrite audit_bodies_None; [reflexivity | |].
  - intros d Hd Hc. destruct (bt (entry_body d) _ Some) as [st'|] eqn:E; [|reflexivity].
    exfalso. destruct (entry_candidates d at0 t st' Hd Hc E) as [sh [C [P [b [Hs [Hin Hag]]]]]].
    rewrite forallb_forall in Hcand. specialize (Hcand _ Hin).
    unfold candidate_excluded in Hcand. cbn [fst snd] in Hcand.
    destruct Hag as [_ [Hag | Hag]]; rewrite Hag in Hcand; [discriminate|].
    apply existsb_exists in Hcand. destruct Hcand as [p [Hp Heq]].
    apply StrFacts.eqb_eq in Heq. subst p.
    apply (Hprops d Hd Hc). rewrite (name_shape_property _ _ _ _ Hs). exact Hp.
  - intros b Hb. rewrite forallb_forall in Htr. apply is_none_true. apply Htr. exact Hb.
Qed.

Lemma quiet_next_event props : forall s idx,
  (forall d, In d data -> corejs d = true -> ~ In (property_of (p_name d)) props) ->
  quiet props idx s = true ->
  next_event (audit_bodies data) idx s = None.
Proof.
  induction s as [|c s IH]; intros idx Hprops Hq; cbn [quiet next_event] in *;
    apply andb_true_iff in Hq; destruct Hq as [Hq Hrest];
    rewrite (quiet_at_event _ _ _ Hprops Hq); [reflexivity|].
  apply IH; assumption.
Qed.

(** A text that is quiet throughout has no match. *)
Theorem quiet_no_match props code m :
  (forall d, In d data -> corejs d = true -> ~ In (property_of (p_name d)) props) ->
  quiet props 0 code = true ->
  audit_matcher data = Some m ->
  matcher_match m code = Some [].
Proof.
  intros Hprops Hq Hm. unfold matcher_match.
  rewrite (match_loop_event _ _ _ (audit_scans _ Hm)); [|cbn; lia].
  cbn [event_loop initial_state lastIndex skipn].
  rewrite (quiet_next_event _ _ _ Hprops Hq). reflexivity.
Qed.

Lemma audit_event_exists d at0 s :
  In d data -> corejs d = true ->
  bt (entry_body d) (MState at0 s []) Some <> None ->
  newline_len at0 s = None ->
  exists j st', first_body 0 (audit_bodies data) (MState at0 s []) = Some (j, st')
                /\ event_at (audit_bodies data) at0 s = Some (Some j, length s - length (rest st')).
Proof.
  intros Hd Hc Hb Hnl. unfold event_at. rewrite Hnl.
  destruct (first_body 0 (audit_bodies data) (MState at0 s [])) as [[j st']|] eqn:E.
  - exists j, st'. split; reflexivity.
  - exfalso. apply Hb. rewrite first_body_None in E. apply E.
    unfold audit_bodies. apply in_or_app. left. apply in_map. apply filter_In. auto.
Qed.

End Audit.
End AuditFacts.

Import AuditFacts.

Module FramingFacts.

Lemma star_fuel_unflag r :
  (forall st k, (forall x, k x = k (unflag x)) -> bt r st k = bt r (unflag st) k) ->
  forall fuel st k, (forall x, k x = k (unflag x)) ->
    star_fuel (bt r) fuel st k = star_fuel (bt r) fuel (unflag st) k.
Proof.
  intros IH. induction fuel as [|fuel IHf]; intros st k Hk; cbn [star_fuel].
  - apply Hk.
  - rewrite <- (Hk st). f_equal.
    change (progress (unflag st) (fun st' => star_fuel (bt r) fuel st' k))
      with (progress st (fun st' => star_fuel (bt r) fuel st' k)).
    apply IH. intros x. unfold progress. cbn [unflag rest].
    destruct (_ <? _); [apply IHf; exact Hk | reflexivity].
Qed.

(** Without an anchor, the matcher does not see whether it is at index 0. *)
Lemma bt_unflag r :
  bol_free r = true ->
  forall st k, (forall x, k x = k (unflag x)) -> bt r st k = bt r (unflag st) k.
Proof.
  induction r; cbn [bol_free]; intros Hb st k Hk; cbn [bt]; try reflexivity.
  - apply Hk.
  - discriminate.
  - apply andb_true_iff in Hb. destruct Hb as [H1 H2].
    apply (IHr1 H1). intros x. apply (IHr2 H2). exact Hk.
  - apply andb_true_iff in Hb. destruct Hb as [H1 H2].
    rewrite (IHr1 H1 st k Hk), (IHr2 H2 st k Hk). reflexivity.
  - apply (star_fuel_unflag r (IHr Hb)). exact Hk.
  - apply (IHr Hb). intros x.
    apply (star_fuel_unflag r (IHr Hb) (length (rest x)) x k Hk).
  - rewrite <- (Hk st). f_equal.
    change (progress (unflag st) k) with (progress st k).
    apply (IHr Hb). intros x. unfold progress. cbn [unflag rest].
    destruct (_ <? _); [apply Hk | reflexivity].
  - change (fun st' => k (set_cap n (unflag st) st'))
      with (fun st' => k (set_cap n st st')).
    apply (IHr Hb). intros x. rewrite (Hk (set_cap n st x)), (Hk (set_cap n st (unflag x))).
    reflexivity.
  - apply (IHr Hb). exact Hk.
Qed.

Lemma bt_flag_rest r s cs :
  bol_free r = true ->
  option_map unflag (bt r (MState true s cs) Some)
  = option_map unflag (bt r (MState false s cs) Some).
Proof.
  intros Hb. rewrite <- !(bt_map r unflag).
  apply (bt_unflag r Hb (MState true s cs) (fun x => option_map unflag (Some x))).
  intros x. reflexivity.
Qed.

Lemma first_body_flag bodies s : forall j,
  (forall b, In b bodies -> bol_free b = true) ->
  event_of (first_body j bodies (MState true s []))
  = event_of (first_body j bodies (MState false s [])).
Proof.
  induction bodies as [|b bodies IH]; intros j Hb; [reflexivity|]. cbn [first_body].
  pose proof (bt_flag_rest b s [] (Hb b (or_introl eq_refl))) as H.
  destruct (bt b (MState true s []) Some) as [x|], (bt b (MState false s []) Some) as [y|];
    cbn [option_map] in H; try discriminate.
  - assert (rest x = rest y) as Hr.
    { injection H. auto. }
    cbn [event_of]. rewrite Hr. reflexivity.
  - apply IH. intros b' Hb'. apply Hb. right. exact Hb'.
Qed.

(** Away from a carriage return, what a matcher finds does not depend on
    being at index 0. *)
Lemma event_at_flag bodies s :
  (forall b, In b bodies -> bol_free b = true) ->
  newline_len true s = newline_len false s ->
  event_at bodies true s = event_at bodies false s.
Proof.
  intros Hb Hnl. unfold event_at. rewrite Hnl.
  destruct (newline_len false s); [reflexivity|].
  pose proof (first_body_flag bodies s 0 Hb) as H.
  destruct (first_body 0 bodies (MState true s [])) as [[j x]|],
           (first_body 0 bodies (MState false s [])) as [[j' y]|];
    cbn [event_of] in H; try discriminate; [|reflexivity].
  injection H as -> ->. reflexivity.
Qed.

Lemma next_event_shift bodies : forall s i,
  1 <= i ->
  next_event bodies (S i) s
  = option_map (fun ie => (S (fst ie), snd ie)) (next_event bodies i s).
Proof.
  induction s as [|c s IH]; intros i Hi; cbn [next_event];
    destruct i as [|i]; try lia; cbn [Nat.eqb].
  - destruct (event_at bodies false []); reflexivity.
  - destruct (event_at bodies false (c :: s)); [reflexivity|]. apply IH. lia.
Qed.

Lemma event_loop_S fuel ps bodies code st :
  event_loop (S fuel) ps bodies code st
  = match iterate_event ps st
            (next_event bodies (lastIndex st) (skipn (lastIndex st) code)) with
    | None => None
    | Some (inr result) => Some result
    | Some (inl st') => event_loop fuel ps bodies code st'
    end.
Proof. reflexivity. Qed.

Lemma event_loop_more ps bodies code : forall fuel st r,
  event_loop fuel ps bodies code st = Some r ->
  event_loop (S fuel) ps bodies code st = Some r.
Proof.
  induction fuel as [|fuel IH]; intros st r H; [discriminate|].
  cbn [event_loop] in H. change (event_loop (S (S fuel)) ps bodies code st)
    with (match iterate_event ps st
                  (next_event bodies (lastIndex st) (skipn (lastIndex st) code)) with
          | None => None
          | Some (inr result) => Some result
          | Some (inl st') => event_loop (S fuel) ps bodies code st'
          end).
  destruct (iterate_event ps st _) as [[st'|res]|]; [apply IH; exact H | exact H | exact H].
Qed.

Lemma next_event_ge bodies : forall s idx i e,
  next_event bodies idx s = Some (i, e) -> idx <= i.
Proof.
  induction s as [|c s IH]; intros idx i e H; cbn [next_event] in H.
  - destruct (event_at bodies (idx =? 0) []); [|discriminate].
    injection H as Hi _. lia.
  - destruct (event_at bodies (idx =? 0) (c :: s)).
    + injection H as Hi _. lia.
    + apply IH in H. lia.
Qed.

Lemma lockstep ps bodies c s : forall fuel st st' r,
  framed st st' -> 1 <= lastIndex st ->
  event_loop fuel ps bodies s st = Some r ->
  exists r', event_loop fuel ps bodies (c :: s) st' = Some r' /\ same_signals r r'.
Proof.
  induction fuel as [|fuel IH]; intros st st' r [HL [Hseen Hnames]] H1 H; [discriminate|].
  cbn [event_loop] in *. rewrite HL. cbn [skipn].
  rewrite (next_event_shift bodies _ _ H1).
  destruct (next_event bodies (lastIndex st) (skipn (lastIndex st) s)) as [[i [g n]]|] eqn:E;
    cbn [option_map fst snd iterate_event] in *.
  - apply next_event_ge in E. destruct g as [j|].
    + destruct (nth_error ps j) as [pattern|]; [|discriminate]. rewrite Hseen.
      destruct (existsb (Nat.eqb j) (seen st)).
      * refine (IH _ _ _ _ _ H); [|cbn [lastIndex]; lia].
        repeat split; cbn [lastIndex seen matches]; auto.
      * refine (IH _ _ _ _ _ H); [|cbn [lastIndex]; lia].
        repeat split; cbn [lastIndex seen matches]; auto.
        rewrite !map_app, Hnames. reflexivity.
    + refine (IH _ _ _ _ _ H); [|cbn [lastIndex]; lia].
      repeat split; cbn [lastIndex seen matches]; auto.
  - injection H as <-. exists (matches st'). split; [reflexivity | exact Hnames].
Qed.

Lemma next_event_shift0 bodies s :
  event_at bodies true s = event_at bodies false s ->
  next_event bodies 1 s
  = option_map (fun ie => (S (fst ie), snd ie)) (next_event bodies 0 s).
Proof.
  intros H. destruct s as [|a s]; cbn [next_event Nat.eqb]; rewrite H.
  - destruct (event_at bodies false []); reflexivity.
  - destruct (event_at bodies false (a :: s)); [reflexivity|].
    apply next_event_shift. lia.
Qed.

Lemma newline_len_flag s :
  newline_len true s = newline_len false s \/ exists t, s = Str.CR :: Str.LF :: t.
Proof.
  destruct s as [|a [|b t]]; cbn [newline_len]; auto.
  destruct (Ascii.eqb Str.CR a) eqn:Ea; auto.
  destruct (Ascii.eqb Str.LF b) eqn:Eb; auto.
  apply Ascii.eqb_eq in Ea, Eb. subst. right. exists t. reflexivity.
Qed.

Lemma lockstep_more ps bodies c s fuel st st' r :
  framed st st' -> 1 <= lastIndex st ->
  event_loop fuel ps bodies s st = Some r ->
  exists r', event_loop (S fuel) ps bodies (c :: s) st' = Some r' /\ same_signals r r'.
Proof.
  intros Hf H1 H. destruct (lockstep ps bodies c s fuel st st' r Hf H1 H) as [r' [Hr Hs]].
  exists r'. split; [apply event_loop_more; exact Hr | exact Hs].
Qed.

(** A run on a code and a run on the same code behind a character where
    nothing is found report the same signals. *)
Lemma framing_event_loop ps bodies c s r :
  (forall b, In b bodies -> bol_free b = true) ->
  (forall b, In b bodies -> nullable b = false) ->
  event_at bodies true (c :: s) = None ->
  event_loop (S (length s)) ps bodies s initial_state = Some r ->
  exists r', event_loop (S (length (c :: s))) ps bodies (c :: s) initial_state = Some r'
             /\ same_signals r r'.
Proof.
  intros Hbol Hnull Hc H. cbn [length].
  change (event_loop (S (S (length s))) ps bodies (c :: s) initial_state)
    with (match iterate_event ps initial_state (next_event bodies 0 (c :: s)) with
          | None => None
          | Some (inr result) => Some result
          | Some (inl st') => event_loop (S (length s)) ps bodies (c :: s) st'
          end).
  cbn [next_event Nat.eqb]. rewrite Hc.
  cbn [event_loop] in H. cbn [initial_state lastIndex skipn] in H.
  destruct (newline_len_flag s) as [Hnl | [t ->]].
  - rewrite (next_event_shift0 bodies s (event_at_flag bodies s Hbol Hnl)).
    destruct (next_event bodies 0 s) as [[i [g n]]|] eqn:E;
      cbn [option_map fst snd iterate_event] in *.
    + apply (next_event_bound _ _ _ _ _ _ Hnull) in E. destruct E as [_ [Hn _]].
      destruct g as [j|].
      * destruct (nth_error ps j) as [pattern|]; [|discriminate].
        cbn [initial_state seen existsb] in *.
        refine (lockstep_more _ _ _ _ _ _ _ _ _ _ H); [|cbn [lastIndex]; lia].
        repeat split.
      * refine (lockstep_more _ _ _ _ _ _ _ _ _ _ H); [|cbn [lastIndex]; lia].
        repeat split.
    + injection H as <-. exists []. split; reflexivity.
  - assert (event_at bodies true (Str.CR :: Str.LF :: t) = Some (None, 2)) as E0
      by reflexivity.
    assert (event_at bodies false (Str.CR :: Str.LF :: t) = Some (None, 1)) as E1
      by reflexivity.
    assert (event_at bodies false (Str.LF :: t) = Some (None, 1)) as E2 by reflexivity.
    rewrite (next_event_here bodies 0 _ _ E0) in H.
    rewrite (next_event_here bodies 1 _ _ E1).
    cbn [iterate_event initial_state seen matches cur_line lineBeginsAtIndex] in *.
    cbn [length] in *. rewrite event_loop_S.
    cbn [lastIndex Nat.add skipn].
    rewrite (next_event_here bodies 2 _ _ E2).
    cbn [iterate_event initial_state seen matches cur_line lineBeginsAtIndex].
    refine (lockstep _ _ _ _ _ _ _ _ _ _ H); [|cbn [lastIndex]; lia].
    repeat split.
Qed.

End FramingFacts.

Import FramingFacts.

Module TraceFacts.

Lemma line_of_snoc before e :
  line_of (before ++ [e]) = (line_of before + (if is_newline e then 1 else 0))%Z.
Proof.
  unfold line_of. rewrite filter_app, length_app. cbn [filter].
  destruct (is_newline e); cbn [length]; lia.
Qed.

Lemma line_start_snoc past before e :
  line_start past (before ++ [e])
  = if is_newline e then past e else line_start past before.
Proof. unfold line_start. rewrite fold_left_app. reflexivity. Qed.

Lemma tracked_initial : tracked initial_state [].
Proof. repeat split. Qed.

(** The loop of [match] reports the matches located on its trace. *)
Lemma event_loop_located ps bodies code : forall fuel st before r,
  tracked st before ->
  event_loop fuel ps bodies code st = Some r ->
  r = matches st ++ located index_plus_one ps before (trace fuel bodies code (lastIndex st)).
Proof.
  induction fuel as [|fuel IH]; intros st before r [Hseen [Hline Hbeg]] H; [discriminate|].
  rewrite event_loop_S in H. cbn [trace].
  destruct (next_event bodies (lastIndex st) (skipn (lastIndex st) code))
    as [[i [g n]]|]; cbn [iterate_event] in H.
  - destruct g as [j|].
    + destruct (nth_error ps j) as [pattern|] eqn:Ep; [|discriminate].
      cbn [located snd fst]. rewrite <- Hseen, Ep.
      destruct (existsb (Nat.eqb j) (seen st)) eqn:Es.
      * apply (IH _ (before ++ [(i, (Some j, n))])) in H.
        -- exact H.
        -- repeat split; cbn [seen cur_line lineBeginsAtIndex].
           ++ intros k. rewrite existsb_app, <- Hseen. cbn [existsb is_pattern snd].
              rewrite orb_false_r.
              destruct (Nat.eqb k j) eqn:E; [|rewrite orb_false_r; reflexivity].
              apply Nat.eqb_eq in E. subst k. rewrite Es. reflexivity.
           ++ rewrite line_of_snoc. cbn [is_newline snd]. lia.
           ++ rewrite line_start_snoc. exact Hbeg.
      * apply (IH _ (before ++ [(i, (Some j, n))])) in H.
        -- rewrite H. cbn [matches lastIndex]. rewrite <- app_assoc.
           rewrite Hline, Hbeg. reflexivity.
        -- repeat split; cbn [seen cur_line lineBeginsAtIndex].
           ++ intros k. rewrite existsb_app, <- Hseen. cbn [existsb is_pattern snd].
              rewrite orb_false_r. apply orb_comm.
           ++ rewrite line_of_snoc. cbn [is_newline snd]. lia.
           ++ rewrite line_start_snoc. exact Hbeg.
    + cbn [located snd]. apply (IH _ (before ++ [(i, (None, n))])) in H.
      * exact H.
      * repeat split; cbn [seen cur_line lineBeginsAtIndex].
        -- intros k. rewrite existsb_app, <- Hseen. cbn [existsb is_pattern snd].
           rewrite !orb_false_r. reflexivity.
        -- rewrite line_of_snoc, Hline. reflexivity.
        -- rewrite line_start_snoc. reflexivity.
  - injection H as <-. rewrite app_nil_r. reflexivity.
Qed.

(** What a located match is. *)
Lemma located_In past ps mt : forall evs before,
  In mt (located past ps before evs) ->
  exists pre i j n post pattern,
    evs = pre ++ (i, (Some j, n)) :: post
    /\ nth_error ps j = Some pattern
    /\ existsb (is_pattern j) (before ++ pre) = false
    /\ mt = {| m_name := name pattern;
               line := line_of (before ++ pre);
               column := Z.of_nat i - line_start past (before ++ pre) |}.
Proof.
  induction evs as [|[i [g n]] evs IH]; intros before H; [destruct H|].
  cbn [located snd fst] in H. apply in_app_or in H. destruct H as [H | H].
  - destruct g as [j|]; [|destruct H].
    destruct (existsb (is_pattern j) before) eqn:Es; [destruct H|].
    destruct (nth_error ps j) as [pattern|] eqn:Ep; [|destruct H].
    destruct H as [<- | []].
    exists [], i, j, n, evs, pattern. rewrite app_nil_r. repeat split; assumption.
  - destruct (IH _ H) as [pre [i' [j [n' [post [pattern [-> [Hp [Hs ->]]]]]]]]].
    exists ((i, (g, n)) :: pre), i', j, n', post, pattern.
    rewrite <- app_assoc in *. repeat split; assumption.
Qed.

(** The names reported are distinct when the names of the patterns are. *)
Lemma event_loop_names ps bodies code :
  NoDup (map name ps) ->
  forall fuel st r,
    NoDup (map m_name (matches st)) -> named_by ps (seen st) (matches st) ->
    event_loop fuel ps bodies code st = Some r ->
    NoDup (map m_name r).
Proof.
  intros Hnd. induction fuel as [|fuel IH]; intros st r Hm Hn H; [discriminate|].
  rewrite event_loop_S in H.
  destruct (next_event bodies (lastIndex st) (skipn (lastIndex st) code))
    as [[i [g n]]|]; cbn [iterate_event] in H.
  - destruct g as [j|].
    + destruct (nth_error ps j) as [pattern|] eqn:Ep; [|discriminate].
      destruct (existsb (Nat.eqb j) (seen st)) eqn:Es.
      * apply IH in H; [exact H | exact Hm | exact Hn].
      * apply IH in H; [exact H | |]; cbn [matches seen].
        -- rewrite map_app. cbn [map m_name].
           apply NoDup_app; [exact Hm | repeat constructor; intros [] |].
           intros x Hx [<- | []]. apply in_map_iff in Hx.
           destruct Hx as [mt [Hname Hin]]. destruct (Hn mt Hin) as [k [q [Hk [Hq Hmq]]]].
           assert (k = j).
           { apply (proj1 (NoDup_nth_error (map name ps)) Hnd).
             - rewrite length_map. apply nth_error_Some. congruence.
             - rewrite !nth_error_map, Hq, Ep. cbn [option_map]. congruence. }
           subst k. assert (existsb (Nat.eqb j) (seen st) = true); [|congruence].
           apply existsb_exists. exists j. split; [exact Hk | apply Nat.eqb_refl].
        -- intros mt Hin. apply in_app_or in Hin. destruct Hin as [Hin | [<- | []]].
           ++ destruct (Hn mt Hin) as [k [q [Hk Hq]]]. exists k, q. split; [right; exact Hk | exact Hq].
           ++ exists j, pattern. repeat split; [left; reflexivity | exact Ep].
    + apply IH in H; [exact H | exact Hm | exact Hn].
  - injection H as <-. exact Hm.
Qed.

(** A line terminator that [exec] finds has length one, unless it is a
    carriage return and a line feed at index 0. *)
Lemma newline_len_one at0 s n :
  newline_len at0 s = Some n -> n = 1 \/ (at0 = true /\ starts_with_crlf s = true).
Proof.
  unfold starts_with_crlf.
  destruct s as [|a [|b t]]; cbn [newline_len Str.startsWith]; try discriminate.
  - destruct (Ascii.eqb Str.CR a); [destruct at0; intros [= <-]; auto|].
    destruct (Ascii.eqb Str.LF a); [intros [= <-]; auto | discriminate].
  - destruct (Ascii.eqb Str.CR a).
    + destruct at0; [|intros [= <-]; auto].
      destruct (Ascii.eqb Str.LF b); intros [= <-]; auto.
    + destruct (Ascii.eqb Str.LF a); [intros [= <-]; auto | discriminate].
Qed.

Lemma event_at_newline bodies at0 s n :
  event_at bodies at0 s = Some (None, n) ->
  n = 1 \/ (at0 = true /\ starts_with_crlf s = true).
Proof.
  unfold event_at. destruct (newline_len at0 s) as [k|] eqn:E.
  - intros [= <-]. apply (newline_len_one _ _ _ E).
  - destruct (first_body 0 bodies (MState at0 s [])) as [[j st']|]; discriminate.
Qed.

Lemma next_event_newline bodies : forall s idx i n,
  next_event bodies idx s = Some (i, (None, n)) ->
  n = 1 \/ (idx = 0 /\ starts_with_crlf s = true).
Proof.
  induction s as [|c s IH]; intros idx i n H; cbn [next_event] in H.
  - destruct (event_at bodies (idx =? 0) []) as [e|] eqn:E; [|discriminate].
    injection H as _ ->. apply event_at_newline in E.
    destruct E as [E | [_ E]]; [auto | discriminate].
  - destruct (event_at bodies (idx =? 0) (c :: s)) as [e|] eqn:E.
    + injection H as _ ->. apply event_at_newline in E.
      destruct E as [E | [E1 E2]]; [auto|]. apply Nat.eqb_eq in E1. auto.
    + apply IH in H. destruct H as [H | [H _]]; [auto | discriminate].
Qed.

Lemma trace_unit_newline bodies code :
  starts_with_crlf code = false ->
  forall fuel idx, Forall unit_newline (trace fuel bodies code idx).
Proof.
  intros Hc. induction fuel as [|fuel IH]; intros idx; cbn [trace]; [constructor|].
  destruct (next_event bodies idx (skipn idx code)) as [[i [g n]]|] eqn:E; [|constructor].
  constructor; [|apply IH]. unfold unit_newline, is_newline. cbn [snd].
  destruct g as [j|]; [discriminate|]. intros _.
  apply next_event_newline in E. destruct E as [E | [-> E]]; [exact E|].
  cbn [skipn] in E. congruence.
Qed.

Lemma line_start_ext before :
  Forall unit_newline before ->
  line_start index_plus_one before = line_start past_terminator before.
Proof.
  induction before as [|e before IH] using rev_ind; intros H; [reflexivity|].
  apply Forall_app in H. destruct H as [H He]. inversion He as [|? ? He1 _]; subst.
  rewrite !line_start_snoc, (IH H). destruct (is_newline e) eqn:E; [|reflexivity].
  unfold index_plus_one, past_terminator. rewrite (He1 E). lia.
Qed.

Lemma located_ext ps : forall evs before,
  Forall unit_newline (before ++ evs) ->
  located index_plus_one ps before evs = located past_terminator ps before evs.
Proof.
  induction evs as [|e evs IH]; intros before H; [reflexivity|].
  cbn [located]. rewrite (IH (before ++ [e])) by (rewrite <- app_assoc; exact H).
  apply Forall_app in H. destruct H as [H _].
  rewrite (line_start_ext _ H). reflexivity.
Qed.

(** Every match of a scan has a pattern of its own behind it. *)
Lemma located_patterns past ps : forall evs before,
  Forall2 (fun j mt => exists pattern,
             nth_error ps j = Some pattern /\ m_name mt = name pattern)
          (reported_patterns ps before evs) (located past ps before evs).
Proof.
  induction evs as [|[i [g n]] evs IH]; intros before; [constructor|].
  cbn [reported_patterns located snd fst]. apply Forall2_app; [|apply IH].
  destruct g as [j|]; [|constructor].
  destruct (existsb (is_pattern j) before); [constructor|].
  destruct (nth_error ps j) as [pattern|] eqn:Ep; [|constructor].
  constructor; [|constructor]. exists pattern. split; [exact Ep | reflexivity].
Qed.

Lemma reported_patterns_fresh ps : forall evs before,
  NoDup (reported_patterns ps before evs)
  /\ forall j, In j (reported_patterns ps before evs) ->
               existsb (is_pattern j) before = false.
Proof.
  induction evs as [|[i [g n]] evs IH]; intros before; cbn [reported_patterns snd].
  - split; [constructor | intros j []].
  - destruct (IH (before ++ [(i, (g, n))])) as [Hnd Hfresh].
    assert (forall k, In k (reported_patterns ps (before ++ [(i, (g, n))]) evs) ->
                      existsb (is_pattern k) before = false
                      /\ is_pattern k (i, (g, n)) = false) as Hk.
    { intros k Hin. specialize (Hfresh k Hin). rewrite existsb_app in Hfresh.
      cbn [existsb] in Hfresh. rewrite orb_false_r in Hfresh.
      apply orb_false_iff in Hfresh. exact Hfresh. }
    destruct g as [j|]; [|cbn [app]; split; [exact Hnd | intros k Hin; apply Hk; exact Hin]].
    destruct (existsb (is_pattern j) before) eqn:Es;
      [cbn [app]; split; [exact Hnd | intros k Hin; apply Hk; exact Hin]|].
    destruct (nth_error ps j);
      [|cbn [app]; split; [exact Hnd | intros k Hin; apply Hk; exact Hin]].
    cbn [app]. split.
    + constructor; [|exact Hnd]. intros Hin. destruct (Hk j Hin) as [_ Hj].
      cbn [is_pattern snd] in Hj. rewrite Nat.eqb_refl in Hj. discriminate.
    + intros k [<- | Hin]; [exact Es | apply Hk; exact Hin].
Qed.

End TraceFacts.

Import TraceFacts.

Module DetectFacts.

Lemma distinct_NoDup l : distinct l = true -> NoDup l.
Proof.
  induction l as [|a l IH]; intros H; [constructor|].
  cbn [distinct] in H. apply andb_true_iff in H. destruct H as [Ha Hl].
  constructor; [|apply IH; exact Hl].
  intros Hin. apply negb_true_iff in Ha.
  assert (existsb (Str.eqb a) l = true); [|congruence].
  apply existsb_exists. exists a. split; [exact Hin | apply StrFacts.eqb_refl].
Qed.

Lemma names_match_none n found :
  existsb (names_match n) found = false -> ~ In n (map m_name found).
Proof.
  intros H Hin. apply in_map_iff in Hin. destruct Hin as [mt [Hn Hin]].
  assert (existsb (names_match n) found = true); [|congruence].
  apply existsb_exists. exists mt. split; [exact Hin|].
  unfold names_match. rewrite Hn. apply StrFacts.eqb_refl.
Qed.

Lemma names_match_some n found :
  ~ In n (map m_name found) -> existsb (names_match n) found = false.
Proof.
  intros H. destruct (existsb (names_match n) found) eqn:E; [|reflexivity].
  exfalso. apply H. apply existsb_exists in E. destruct E as [mt [Hin Hn]].
  apply StrFacts.eqb_eq in Hn. apply in_map_iff. exists mt. auto.
Qed.

(** One catalog entry leaves the list as it is or appends one match with
    the name of the entry, which the list did not have. *)
Lemma correlate_entry_cases bundle found d :
  correlate_entry bundle found d = found
  \/ (~ In (p_name d) (map m_name found)
      /\ exists l c, correlate_entry bundle found d
                     = found ++ [{| m_name := p_name d; line := l; column := c |}]).
Proof.
  unfold correlate_entry.
  destruct (existsb (names_match (p_name d)) found) eqn:E; [left; reflexivity|].
  destruct (non_empty (find (source_matches (modules d)) (sources bundle)));
    [|left; reflexivity].
  right. split; [apply names_match_none; exact E|].
  destruct (find _ (mappings bundle)); eexists; eexists; reflexivity.
Qed.

Lemma correlate_extends data bundle : forall found,
  exists added,
    correlate data bundle found = found ++ added
    /\ NoDup (map m_name added)
    /\ forall a, In a added -> ~ In (m_name a) (map m_name found).
Proof.
  unfold correlate. induction data as [|d data IH]; intros found; cbn [fold_left].
  - exists []. rewrite app_nil_r. repeat split; [constructor | intros a []].
  - destruct (correlate_entry_cases bundle found d) as [-> | [Hd [l [c ->]]]]; [apply IH|].
    destruct (IH (found ++ [{| m_name := p_name d; line := l; column := c |}]))
      as [added [-> [Hnd Hnew]]].
    exists ({| m_name := p_name d; line := l; column := c |} :: added).
    rewrite <- app_assoc. split; [reflexivity|]. split.
    + cbn [map m_name]. constructor; [|exact Hnd].
      intros Hin. apply in_map_iff in Hin. destruct Hin as [a [Ha Hin]].
      apply (Hnew a Hin). rewrite map_app, Ha. apply in_or_app. right. left. reflexivity.
    + intros a [<- | Hin]; [exact Hd|].
      intros Hf. apply (Hnew a Hin). rewrite map_app. apply in_or_app. left. exact Hf.
Qed.

Lemma correlate_NoDup data bundle found :
  NoDup (map m_name found) -> NoDup (map m_name (correlate data bundle found)).
Proof.
  intros H. destruct (correlate_extends data bundle found) as [added [-> [Hnd Hnew]]].
  rewrite map_app. apply NoDup_app; [exact H | exact Hnd |].
  intros x Hx Hin. apply in_map_iff in Hin. destruct Hin as [a [<- Hin]].
  apply (Hnew a Hin Hx).
Qed.

Lemma source_matches_nil mods : source_matches mods [] = false.
Proof.
  unfold source_matches. induction mods as [|m mods IH]; [reflexivity|].
  cbn [existsb]. rewrite IH, orb_false_r.
  unfold Str.endsWith. rewrite !rev_app_distr. reflexivity.
Qed.

Lemma find_source_non_empty mods sources source :
  find (source_matches mods) sources = Some source ->
  non_empty (Some source) = Some source.
Proof.
  intros H. apply find_some in H. destruct H as [_ H].
  destruct source; [rewrite source_matches_nil in H; discriminate | reflexivity].
Qed.

(** An entry whose name the list lacks, with a source in the map, has its
    match appended. *)
Lemma correlate_entry_adds bundle found d source :
  ~ In (p_name d) (map m_name found) ->
  find (source_matches (modules d)) (sources bundle) = Some source ->
  correlate_entry bundle found d
  = found ++ [{| m_name := p_name d;
                 line := fst (mapped_location bundle source);
                 column := snd (mapped_location bundle source) |}].
Proof.
  intros Hn Hs. unfold correlate_entry, mapped_location.
  rewrite (names_match_some _ _ Hn), Hs.
  change (non_empty (Some source)) with (non_empty (Some source)).
  rewrite (find_source_non_empty _ _ _ Hs).
  destruct (find _ (mappings bundle)); reflexivity.
Qed.

Lemma correlate_names data bundle : forall found x,
  In x (map m_name (correlate data bundle found)) ->
  In x (map m_name found) \/ In x (map p_name data).
Proof.
  unfold correlate. induction data as [|d data IH]; intros found x H; cbn [fold_left] in H.
  - left. exact H.
  - apply IH in H. destruct H as [H | H]; [|right; right; exact H].
    destruct (correlate_entry_cases bundle found d) as [E | [_ [l [c E]]]];
      rewrite E in H; [left; exact H|].
    rewrite map_app in H. apply in_app_or in H.
    destruct H as [H | [<- | []]]; [left; exact H | right; left; reflexivity].
Qed.

Lemma correlate_keeps data bundle : forall found x,
  In x found -> In x (correlate data bundle found).
Proof.
  intros found x H. destruct (correlate_extends data bundle found) as [added [-> _]].
  apply in_or_app. left. exact H.
Qed.

Lemma correlate_app data1 data2 bundle found :
  correlate (data1 ++ data2) bundle found
  = correlate data2 bundle (correlate data1 bundle found).
Proof. unfold correlate. apply fold_left_app. Qed.

(** The loop over the scripts returns the scripts whose combined list is
    not empty. *)
Lemma detect_script_reported data m bundles acc script :
  (forall code, exists r, matcher_match m code = Some r) ->
  detect_script data m bundles acc script
  = Some (acc ++ reported data m bundles [script]).
Proof.
  intros Htotal. unfold detect_script, reported, combined_matches. cbn [flat_map].
  destruct (non_empty (content script)) as [code|]; [|rewrite app_nil_r; reflexivity].
  unfold script_matches. destruct (Htotal code) as [r ->].
  destruct (find_bundle bundles script) as [bundle|].
  - destruct (correlate data bundle r); [rewrite app_nil_r|]; reflexivity.
  - destruct r; [rewrite app_nil_r|]; reflexivity.
Qed.

Lemma detect_loop_reported data m bundles :
  (forall code, exists r, matcher_match m code = Some r) ->
  forall scripts acc,
    detect_loop data m bundles scripts acc
    = Some (acc ++ reported data m bundles scripts).
Proof.
  intros Htotal. induction scripts as [|script scripts IH]; intros acc; cbn [detect_loop].
  - rewrite app_nil_r. reflexivity.
  - rewrite (detect_script_reported _ _ _ _ _ Htotal), IH, <- app_assoc.
    unfold reported. cbn [flat_map]. rewrite app_nil_r. reflexivity.
Qed.

Lemma polyfill_pattern_names data :
  map name (getPolyfillPatterns data) = map p_name (filter corejs data).
Proof.
  unfold getPolyfillPatterns, getCoreJsPolyfillData. rewrite !map_map.
  apply map_ext. reflexivity.
Qed.

Lemma name_first_char n sh C P :
  name_shape n = Some (sh, C, P) -> exists c r, n = c :: r /\ is_ident_char c = true.
Proof.
  intros H. pose proof (name_shape_name _ _ _ _ H) as Hn.
  assert (forall X, ident X = true -> exists c r, X = c :: r /\ is_ident_char c = true) as Hid.
  { intros [|c r] HX; [discriminate|]. exists c, r. split; [reflexivity|].
    cbn [ident forallb] in HX. apply andb_true_iff in HX. apply HX. }
  destruct sh; cbn [shape_name] in Hn.
  - revert H. unfold name_shape.
    destruct (Str.split "." n) as [|x [|y [|z [|w l]]]]; try discriminate.
    + destruct (ident x) eqn:Hx; [|discriminate]. intros Hinj.
      injection Hinj as _ HP. subst. apply Hid. exact Hx.
    + destruct (ident x && ident y); discriminate.
    + destruct (ident x && Str.eqb y (str "prototype") && ident z); discriminate.
  - destruct (name_shape_ident _ _ _ _ H) as [HC _].
    destruct (Hid C HC) as [c [r [-> Hc]]]. subst n. eexists. eexists. split; [reflexivity | exact Hc].
  - destruct (name_shape_ident _ _ _ _ H) as [HC _].
    destruct (Hid C HC) as [c [r [-> Hc]]]. subst n. eexists. eexists. split; [reflexivity | exact Hc].
Qed.

(** The patterns of the audit have distinct names when the catalog has. *)
Lemma audit_names_distinct data :
  wf_catalog data -> distinct (map p_name (filter corejs data)) = true ->
  NoDup (map name (audit_patterns data)).
Proof.
  intros Hwf Hd. unfold audit_patterns. rewrite map_app, polyfill_pattern_names.
  apply NoDup_app.
  - apply distinct_NoDup. exact Hd.
  - apply distinct_NoDup. reflexivity.
  - intros x Hx Ht. apply in_map_iff in Hx. destruct Hx as [d [<- Hin]].
    apply filter_In in Hin. destruct Hin as [Hin Hc].
    pose proof (wf_catalog_In _ _ Hwf Hin) as Hw. unfold wf_entry in Hw. rewrite Hc in Hw.
    destruct (name_shape (p_name d)) as [[[sh C] P]|] eqn:E; [|discriminate].
    destruct (name_first_char _ _ _ _ E) as [c [r [Hn Hi]]]. rewrite Hn in Ht.
    cbn [map getTransformPatterns name In] in Ht.
    destruct Ht as [Ht | [Ht | [Ht | []]]]; injection Ht as <- _; discriminate.
Qed.

End DetectFacts.

Import DetectFacts.

Module FramingAudit.

Lemma first_char_fold_Alt c rs : forall r,
  first_char (fold_left Alt rs r) c = first_char r c || existsb (fun x => first_char x c) rs.
Proof.
  induction rs as [|x rs IH]; intros r; cbn [fold_left existsb].
  - rewrite orb_false_r. reflexivity.
  - rewrite IH. cbn [first_char]. rewrite orb_assoc. reflexivity.
Qed.

Lemma first_char_name c N l :
  ident N = true -> is_ident_char c = false ->
  first_char (seq_of (map Char N ++ l)) c = false.
Proof.
  intros HN Hc. destruct N as [|a N]; [discriminate|].
  cbn [ident forallb] in HN. apply andb_true_iff in HN. destruct HN as [Ha _].
  cbn [map app seq_of fold_right first_char nullable andb]. rewrite orb_false_r.
  destruct (Ascii.eqb a c) eqn:E; [|reflexivity].
  apply Ascii.eqb_eq in E. subst a. congruence.
Qed.

Lemma first_char_inst_alt c C P M items :
  ident C = true -> ident P = true -> is_ident_char c = false ->
  alt_begins_without c items = true ->
  first_char (inst_alt C P M items) c = false.
Proof.
  intros HC HP Hc H. unfold inst_alt. destruct items as [|[k| | |] items]; try discriminate;
    cbn [flat_map inst_item].
  - cbn [alt_begins_without] in H. destruct (chunk_terms k) as [|t ts]; [discriminate|].
    apply andb_true_iff in H. destruct H as [Hn Hf].
    apply negb_true_iff in Hn, Hf.
    cbn [app seq_of fold_right first_char]. rewrite Hn, Hf. reflexivity.
  - apply first_char_name; assumption.
  - apply first_char_name; assumption.
Qed.

Lemma first_char_inst c C P M alts :
  ident C = true -> ident P = true -> is_ident_char c = false ->
  forallb (alt_begins_without c) alts = true ->
  first_char (inst C P M alts) c = false.
Proof.
  intros HC HP Hc H. unfold inst, alts_of. destruct alts as [|a alts]; [reflexivity|].
  cbn [forallb map] in *. apply andb_true_iff in H. destruct H as [Ha H].
  rewrite first_char_fold_Alt, (first_char_inst_alt _ _ _ _ _ HC HP Hc Ha). cbn [orb].
  induction alts as [|b alts IH]; [reflexivity|].
  cbn [forallb map existsb] in *. apply andb_true_iff in H. destruct H as [Hb H].
  rewrite (first_char_inst_alt _ _ _ _ _ HC HP Hc Hb), (IH H). reflexivity.
Qed.

Lemma first_char_text c C P M items :
  text_begins_without c items = true ->
  first_char (inst_alt C P M items) c = false.
Proof.
  intros H. unfold inst_alt. destruct items as [|[k| | |] items]; try discriminate.
  cbn [flat_map inst_item]. cbn [text_begins_without] in H.
  destruct (chunk_terms k) as [|t ts]; [discriminate|].
  apply andb_true_iff in H. destruct H as [Hn Hf].
  apply negb_true_iff in Hn, Hf.
  cbn [app seq_of fold_right first_char]. rewrite Hn, Hf. reflexivity.
Qed.

Lemma first_char_texts c C P M alts :
  forallb (text_begins_without c) alts = true ->
  first_char (inst C P M alts) c = false.
Proof.
  intros H. unfold inst, alts_of. destruct alts as [|a alts]; [reflexivity|].
  cbn [forallb map] in *. apply andb_true_iff in H. destruct H as [Ha H].
  rewrite first_char_fold_Alt, (first_char_text _ _ _ _ _ Ha). cbn [orb].
  induction alts as [|b alts IH]; [reflexivity|].
  cbn [forallb map existsb] in *. apply andb_true_iff in H. destruct H as [Hb H].
  rewrite (first_char_text _ _ _ _ _ Hb), (IH H). reflexivity.
Qed.

Lemma framing_char_cases c : framing_char c = true -> c = ";"%char \/ c = " "%char.
Proof.
  unfold framing_char. intros H. apply orb_true_iff in H.
  destruct H as [H | H]; apply Ascii.eqb_eq in H; auto.
Qed.

(** No pattern of a catalog without globals begins with a framing
    character. *)
Lemma audit_first_char data c b :
  wf_catalog data ->
  (forall d, In d data -> corejs d = true -> has_object d = true) ->
  framing_char c = true ->
  In b (audit_bodies data) -> first_char b c = false.
Proof.
  intros Hwf Hobj Hc Hb. unfold audit_bodies in Hb. apply in_app_or in Hb.
  destruct Hb as [Hb | Hb].
  - apply in_map_iff in Hb. destruct Hb as [d [<- Hd]]. apply filter_In in Hd.
    destruct Hd as [Hd Hcj]. specialize (Hobj d Hd Hcj).
    unfold has_object in Hobj. unfold entry_body.
    destruct (name_shape (p_name d)) as [[[sh C] P]|] eqn:E; [|reflexivity].
    destruct (name_shape_ident _ _ _ _ E) as [HC HP].
    apply first_char_inst; [exact HC | exact HP | |].
    + destruct (framing_char_cases c Hc) as [-> | ->]; reflexivity.
    + destruct (framing_char_cases c Hc) as [-> | ->];
        destruct sh; try discriminate; vm_compute; reflexivity.
  - unfold transform_bodies, transform_alts in Hb. cbn [map In] in Hb.
    destruct (framing_char_cases c Hc) as [-> | ->];
      destruct Hb as [<- | [<- | [<- | []]]]; vm_compute; reflexivity.
Qed.

Lemma first_char_no_match b at0 c s :
  first_char b c = false -> nullable b = false ->
  bt b (MState at0 (c :: s) []) Some = None.
Proof.
  intros Hf Hn. destruct (bt b _ Some) as [st'|] eqn:E; [|reflexivity].
  apply bt_sound in E. destruct E as [st1 [Hm [[= ->] _]]]. cbn [rest] in Hm.
  pose proof (accepts_progress _ _ _ Hm Hn) as Hl.
  destruct (accepts_first_char _ _ _ Hm Hl) as [c' [t [[= <- <-] Hc']]]. congruence.
Qed.

Lemma framing_event_at data at0 c s :
  wf_catalog data ->
  (forall d, In d data -> corejs d = true -> has_object d = true) ->
  framing_char c = true ->
  event_at (audit_bodies data) at0 (c :: s) = None.
Proof.
  intros Hwf Hobj Hc. unfold event_at.
  assert (newline_len at0 (c :: s) = None) as ->.
  { destruct (framing_char_cases c Hc) as [-> | ->]; reflexivity. }
  assert (first_body 0 (audit_bodies data) (MState at0 (c :: s) []) = None) as ->;
    [|reflexivity].
  apply first_body_None. intros b Hb. apply first_char_no_match.
  - apply (audit_first_char data c b Hwf Hobj Hc Hb).
  - apply (audit_bodies_structure data b Hwf Hb).
Qed.

(** The pattern of a global begins with [window.], with white space or a
    semicolon, with [defineProperty] or with the name of a module: it finds
    nothing at a character that none of these begins with. *)
Lemma global_no_match d at0 c s :
  corejs d = true -> wf_entry d = true -> has_object d = false ->
  forallb (text_begins_without c) (shape_alts Global) = true ->
  bt (entry_body d) (MState at0 (c :: s) []) Some = None.
Proof.
  intros Hc Hwf Hobj Hbeg. apply first_char_no_match.
  - unfold has_object in Hobj. unfold entry_body.
    destruct (name_shape (p_name d)) as [[[sh C] P]|]; [|reflexivity].
    destruct sh; try discriminate. apply first_char_texts. exact Hbeg.
  - apply (entry_body_structure d Hc Hwf).
Qed.

End FramingAudit.

Import FramingAudit.

Module CorrelationFacts.

Lemma existsb_find {A} (f : A -> bool) l :
  existsb f l = true -> exists x, find f l = Some x.
Proof.
  induction l as [|a l IH]; cbn [existsb find]; [discriminate|].
  destruct (f a); [eexists; reflexivity | exact IH].
Qed.

Lemma existsb_none {A} (f : A -> bool) l :
  existsb f l = false -> find f l = None.
Proof.
  induction l as [|a l IH]; cbn [existsb find]; [reflexivity|].
  destruct (f a); [discriminate | exact IH].
Qed.

(** An entry whose name the list lacks and that has a source in the map
    has a match in the list, placed by the first entry of that name that
    has a source. *)
Lemma correlate_adds bundle n : forall data found,
  existsb (named_source bundle n) data = true ->
  ~ In n (map m_name found) ->
  exists d0 source,
    find (named_source bundle n) data = Some d0
    /\ find (source_matches (modules d0)) (sources bundle) = Some source
    /\ In {| m_name := n;
             line := fst (mapped_location bundle source);
             column := snd (mapped_location bundle source) |}
          (correlate data bundle found).
Proof.
  induction data as [|a data IH]; intros found Hex Hn; [discriminate|].
  cbn [existsb find] in *.
  change (correlate (a :: data) bundle found)
    with (correlate data bundle (correlate_entry bundle found a)).
  destruct (named_source bundle n a) eqn:Ea.
  - unfold named_source in Ea. apply andb_true_iff in Ea. destruct Ea as [En Es].
    apply StrFacts.eqb_eq in En. destruct (existsb_find _ _ Es) as [source Hs].
    exists a, source. split; [reflexivity|]. split; [exact Hs|].
    apply correlate_keeps. rewrite (correlate_entry_adds _ _ _ source);
      [| rewrite En; exact Hn | exact Hs].
    rewrite En. apply in_or_app. right. left. reflexivity.
  - cbn [orb] in Hex. apply IH; [exact Hex|].
    unfold named_source in Ea. unfold correlate_entry.
    destruct (existsb (names_match (p_name a)) found); [exact Hn|].
    destruct (existsb (source_matches (modules a)) (sources bundle)) eqn:Es.
    + rewrite andb_true_r in Ea.
      destruct (non_empty _); [|exact Hn].
      assert (~ In n [p_name a]) as Hna.
      { intros [E | []]. rewrite E, StrFacts.eqb_refl in Ea. discriminate. }
      destruct (find _ (mappings bundle)); rewrite map_app; intros Hin;
        apply in_app_or in Hin; destruct Hin as [Hin | Hin]; auto.
    + rewrite (existsb_none _ _ Es). exact Hn.
Qed.

(** With distinct names, the first entry of a name is the entry. *)
Lemma named_source_first bundle : forall data d d0,
  NoDup (map p_name data) ->
  In d data ->
  find (named_source bundle (p_name d)) data = Some d0 ->
  d0 = d.
Proof.
  intros data d d0 Hnd Hd Hf. apply find_some in Hf. destruct Hf as [Hd0 Hf].
  unfold named_source in Hf. apply andb_true_iff in Hf. destruct Hf as [Hf _].
  apply StrFacts.eqb_eq in Hf. revert Hnd Hd Hd0 Hf. clear.
  induction data as [|a data IH]; intros Hnd Hd Hd0 Hf; [destruct Hd|].
  cbn [map] in Hnd. inversion Hnd as [|x l Hna Hnd']; subst.
  destruct Hd as [-> | Hd], Hd0 as [-> | Hd0]; [reflexivity | | |auto].
  - exfalso. apply Hna. rewrite <- Hf. apply in_map. exact Hd0.
  - exfalso. apply Hna. rewrite Hf. apply in_map. exact Hd.
Qed.

End CorrelationFacts.

Import CorrelationFacts.

Module ReportFacts.

Lemma reported_In data m bundles scripts script found :
  In (script, found) (reported data m bundles scripts)
  <-> In script scripts /\ found = combined_matches data m bundles script /\ found <> [].
Proof.
  unfold reported. rewrite in_flat_map. split.
  - intros [s [Hs Hin]].
    destruct (combined_matches data m bundles s) as [|x l] eqn:E; [destruct Hin|].
    destruct Hin as [[= <- <-] | []]. rewrite E. repeat split; [exact Hs | discriminate].
  - intros [Hs [-> Hne]]. exists script. split; [exact Hs|].
    destruct (combined_matches data m bundles script); [congruence | left; reflexivity].
Qed.

Lemma missing_content script :
  content script = None \/ content script = Some [] -> non_empty (content script) = None.
Proof. intros [-> | ->]; reflexivity. Qed.

End ReportFacts.

Import ReportFacts.

Module ListFacts.

Lemma In_singleton {A} (x y : A) : In x [y] -> x = y.
Proof. intros [H | []]. symmetry. exact H. Qed.

End ListFacts.

Import ListFacts.

(** * Properties of the audit *)

(** C1: with a well-formed catalog that has a core-js entry named
    [String.prototype.repeat], [match] on
    [String.prototype.repeat = function() {}] returns exactly one match,
    with that name, at line 0 and column 0. *)
Theorem basic_detection data d :
  wf_catalog data ->
  In d data -> corejs d = true -> p_name d = str "String.prototype.repeat" ->
  exists m, audit_matcher data = Some m
    /\ matcher_match m repeat_code
       = Some [{| m_name := str "String.prototype.repeat"; line := 0; column := 0 |}].
Proof.
  intros Hwf Hd Hc Hn.
  destruct (audit_matcher_exists data Hwf) as [m Hm]. exists m. split; [exact Hm|].
  unfold matcher_match.
  rewrite (match_loop_event _ _ _ (audit_scans data Hwf _ Hm)); [|cbn; lia].
  rewrite (audit_patterns_of data Hwf _ Hm).
  destruct (audit_event_exists data d true repeat_code Hd Hc) as [j [st' [Hfb Hev]]].
  { unfold entry_body. rewrite Hn. vm_compute. discriminate. }
  { reflexivity. }
  destruct (audit_first_body data _ _ _ Hfb) as [pattern [Hp Hcase]].
  assert (name pattern = str "String.prototype.repeat" /\ rest st' = str "function() {}")
    as [Hname Hrest].
  { destruct Hcase as [[d' [Hd' [Hc' [Hnm Hb]]]] | [b [Hb [Hbt _]]]].
    - destruct (entry_candidates data Hwf d' _ _ _ Hd' Hc' Hb)
        as [sh [C [P [bnd [Hs [Hin Hag]]]]]].
      assert (candidates repeat_code
              = [(Proto, (Some (str "String"), Some (str "repeat")), str "function() {}")])
        as Hcand by (vm_compute; reflexivity).
      rewrite Hcand in Hin. apply In_singleton in Hin. injection Hin as -> -> ->.
      destruct Hag as [[Hag1 | Hag1] [Hag2 | Hag2]]; try discriminate.
      injection Hag1 as <-. injection Hag2 as <-.
      apply name_shape_name in Hs. split; [|reflexivity].
      rewrite Hnm, Hs. reflexivity.
    - exfalso. unfold transform_bodies, transform_alts in Hb. cbn [map In] in Hb.
      destruct Hb as [<- | [<- | [<- | []]]]; vm_compute in Hbt; discriminate. }
  unfold initial_state. change (S (length repeat_code)) with 40.
  cbn [event_loop lastIndex skipn].
  assert (next_event (audit_bodies data) 0 repeat_code
          = Some (0, (Some j, length repeat_code - length (rest st')))) as ->.
  { apply next_event_here. exact Hev. } cbn [iterate_event]. rewrite Hp. cbn [existsb seen].
  rewrite Hrest. cbn [lastIndex].
  change (0 + (length repeat_code - length (str "function() {}"))) with 26.
  change (skipn 26 repeat_code) with (str "function() {}").
  rewrite (quiet_next_event data Hwf [] (str "function() {}") 26).
  - cbn [iterate_event matches app cur_line lineBeginsAtIndex]. rewrite Hname. reflexivity.
  - intros ? ? ? [].
  - vm_compute. reflexivity.
Qed.

Lemma basic_detection_witness :
  exists m, audit_matcher Sample.catalog = Some m
    /\ matcher_match m repeat_code
       = Some [{| m_name := str "String.prototype.repeat"; line := 0; column := 0 |}].
Proof.
  apply (basic_detection Sample.catalog (Sample.entry "String.prototype.repeat" "es.string.repeat" true)).
  - vm_compute. reflexivity.
  - vm_compute. auto 10.
  - reflexivity.
  - reflexivity.
Defined.

(** C2 (as stated, refuted): in a chained assignment the match kept for
    [Object.values] is the one at index 28, although its signature first
    occurs at index 12, inside what the pattern of [Object.keys] has read;
    and with the catalog that the generator writes for a module and the
    module of the same feature under [esnext], two entries of one name,
    the list of a file has two matches of that name. *)
Lemma first_occurrence_counterexample :
  Sample.run Sample.catalog chained_code
  = Some [ {| m_name := str "Object.keys"; line := 0; column := 0 |};
           {| m_name := str "Object.values"; line := 0; column := 28 |} ]
  /\ first_occurrence values_expression chained_code = Some 12
  /\ option_map (forallb (at_first_occurrence (audit_patterns Sample.catalog) chained_code))
                (Sample.run Sample.catalog chained_code) = Some false
  /\ Generator.generate Generator.sample_runtime Generator.twin_list
     = Some (Generator.manual ++ Sample.twin_catalog)
  /\ Sample.run (Generator.manual ++ Sample.twin_catalog) twin_code
     = Some [ {| m_name := str "Array.prototype.findLast"; line := 0; column := 0 |};
              {| m_name := str "Array.prototype.findLast"; line := 1; column := 9 |} ].
Proof. vm_compute. repeat split. Qed.

(** C2 (amended): the results of [exec] are the events of the scan, which
    starts every search where the last result ended; the list of a file
    has at most one match per pattern, the one at the first event of that
    pattern, hence at most one per name when the names of the catalog are
    distinct; and the source map adds one match per name at most, and none
    for a name that is present. *)
Theorem one_match_per_name data code bundle :
  wf_catalog data ->
  exists m found,
    audit_matcher data = Some m
    /\ (forall idx, idx <= length code ->
          exec (re m) idx code
          = option_map (fun ie => result_of_event (fst ie) (skipn (fst ie) code) (snd ie))
                       (next_event (audit_bodies data) idx (skipn idx code)))
    /\ matcher_match m code = Some found
    /\ (exists js,
          NoDup js
          /\ Forall2 (fun j mt => exists pattern,
                        nth_error (patterns m) j = Some pattern
                        /\ m_name mt = name pattern) js found)
    /\ (forall mt, In mt found ->
          exists pre i j n post pattern,
            scan_events (audit_bodies data) code = pre ++ (i, (Some j, n)) :: post
            /\ nth_error (patterns m) j = Some pattern
            /\ existsb (is_pattern j) pre = false
            /\ mt = {| m_name := name pattern;
                       line := line_of pre;
                       column := Z.of_nat i - line_start index_plus_one pre |})
    /\ (distinct (map p_name (filter corejs data)) = true ->
        NoDup (map m_name found)
        /\ NoDup (map m_name (correlate data bundle found)))
    /\ exists added,
         correlate data bundle found = found ++ added
         /\ NoDup (map m_name added)
         /\ forall a, In a added -> ~ In (m_name a) (map m_name found).
Proof.
  intros Hwf.
  destruct (audit_matcher_exists data Hwf) as [m Hm].
  pose proof (audit_scans data Hwf _ Hm) as Hs.
  destruct (match_total m _ code Hs) as [found Hf].
  exists m, found. split; [exact Hm|].
  split; [intros idx Hidx; apply (exec_next_event _ _ _ _ Hs Hidx)|]. split; [exact Hf|].
  unfold matcher_match in Hf. rewrite (match_loop_event _ _ _ Hs) in Hf by (cbn; lia).
  pose proof (event_loop_located _ _ _ _ _ [] _ tracked_initial Hf) as Hloc.
  cbn [initial_state matches app lastIndex] in Hloc.
  split.
  { exists (reported_patterns (patterns m) []
              (trace (S (length code)) (audit_bodies data) code 0)).
    split; [apply reported_patterns_fresh|]. rewrite Hloc. apply located_patterns. }
  split.
  { intros mt Hin. rewrite Hloc in Hin. apply located_In in Hin. exact Hin. }
  split.
  { intros Hd.
    assert (NoDup (map m_name found)) as Hnd.
    { refine (event_loop_names _ _ _ _ _ _ _ _ _ Hf).
      - rewrite (audit_patterns_of data Hwf _ Hm). apply audit_names_distinct; assumption.
      - constructor.
      - intros mt []. }
    split; [exact Hnd | apply correlate_NoDup; exact Hnd]. }
  destruct (correlate_extends data bundle found) as [added [E [Hadd Hnew]]].
  exists added. repeat split; assumption.
Qed.

Lemma one_match_per_name_witness :
  exists m found,
    audit_matcher Sample.catalog = Some m
    /\ matcher_match m chained_code = Some found
    /\ found = [ {| m_name := str "Object.keys"; line := 0; column := 0 |};
                 {| m_name := str "Object.values"; line := 0; column := 28 |} ]
    /\ NoDup (map m_name found)
    /\ NoDup (map m_name (correlate Sample.catalog Sample.bundle found))
    /\ correlate Sample.catalog Sample.bundle found
       = found ++ [ {| m_name := str "String.prototype.repeat"; line := 0; column := 0 |} ].
Proof.
  destruct (one_match_per_name Sample.catalog chained_code Sample.bundle)
    as [m [found [Hm [_ [Hf [_ [_ [Hd _]]]]]]]].
  - vm_compute. reflexivity.
  - destruct Hd as [Hnd Hnd']; [vm_compute; reflexivity|].
    assert (Sample.run Sample.catalog chained_code
            = Some [ {| m_name := str "Object.keys"; line := 0; column := 0 |};
                     {| m_name := str "Object.values"; line := 0; column := 28 |} ]) as Hrun
      by (vm_compute; reflexivity).
    unfold Sample.run in Hrun. rewrite Hm, Hf in Hrun. injection Hrun as Hfound.
    exists m, found. split; [exact Hm|]. split; [exact Hf|]. split; [exact Hfound|].
    split; [exact Hnd|]. split; [exact Hnd'|]. rewrite Hfound. reflexivity.
Defined.

(** C3 (as stated, refuted): a polyfill match named [constructor], for
    which the graph has no entry, finds the constructor that every object
    inherits; the loop over what it takes for modules throws, and nothing
    is computed.  And with a shared module of 2^53 bytes and two modules of
    one byte, one for each of two polyfills, the machine adds one byte
    twice to 2^53 and returns 2^53, two bytes less than the sizes sum
    to. *)
Lemma polyfill_estimate_counterexample :
  own_dependencies (dependencies Sample.graph) (str "constructor") = None
  /\ is_transform (Sample.found "constructor") = false
  /\ Doubles.estimatedWastedBytesFromPolyfills Sample.graph
       [Sample.found "Object.entries"; Sample.found "constructor"] = None
  /\ Doubles.estimateWastedBytes Sample.graph (Sample.script (str "var a;"))
       [Sample.found "Object.entries"; Sample.found "constructor"] = None
  /\ modules_seen huge_graph [Sample.found "Object.entries"; Sample.found "Object.values"]
     = Some [0; 1; 2]
  /\ Doubles.estimatedWastedBytesFromPolyfills huge_graph
       [Sample.found "Object.entries"; Sample.found "Object.values"]
     = Some (Num (2 ^ 53))
  /\ fold_right (fun u acc => add (sizes_total huge_graph u) acc) (Num 0) [[0]; [1]; [2]]
     = Num (2 ^ 53 + 2)
  /\ Doubles.round (2 ^ 53 + 2) = (2 ^ 53 + 2)%Z.
Proof. vm_compute. repeat split. Qed.

(** C3 (amended): the modules summed are the union of the dependencies of
    the polyfill matches, each once, in the order of first mention; unless
    the name of a polyfill match finds an inherited member, in which case
    the code throws, the polyfill part is the sum of their sizes, read off
    [graph.moduleSizes] and added in that order by the machine, clamped to
    the ceiling; for polyfills that share one module [h] and nothing else,
    the modules summed are [h] once and the other modules of each once;
    and while the absolute values of the sizes sum to 2^53 at most, so that
    every sum is exact, the sum before the clamp is the size of [h] plus
    the sizes of the other modules of each. *)
Theorem polyfill_estimate_dedup graph found :
  NoDup (seen_modules graph found)
  /\ (forall j, In j (seen_modules graph found) <->
        exists r mods, In r found /\ is_transform r = false
          /\ own_dependencies (dependencies graph) (m_name r) = Some mods /\ In j mods)
  /\ modules_seen graph (polyfill_matches found)
     = (if names_inherited graph found then None else Some (seen_modules graph found))
  /\ Doubles.estimatedWastedBytesFromPolyfills graph found
     = (if names_inherited graph found then None
        else Some (min (Doubles.add (Num 0)
                          (sizes_added graph (seen_modules graph found)))
                       (Num (maxSize graph))))
  /\ (sizes_exact graph ->
      Doubles.add (Num 0) (sizes_added graph (seen_modules graph found))
      = sizes_total graph (seen_modules graph found)
      /\ Doubles.estimatedWastedBytesFromPolyfills graph found
         = estimatedWastedBytesFromPolyfills graph found)
  /\ (forall h us,
        polyfill_matches found <> [] ->
        Forall2 (fun r u => exists d,
                   own_dependencies (dependencies graph) (m_name r) = Some d
                   /\ Permutation d (h :: u)) (polyfill_matches found) us ->
        NoDup (h :: concat us) ->
        Permutation (seen_modules graph found) (h :: concat us)
        /\ (sizes_exact graph ->
            Doubles.add (Num 0) (sizes_added graph (seen_modules graph found))
            = fold_right (fun u acc => add (sizes_total graph u) acc) (Num 0)
                         ([h] :: us))).
Proof.
  split; [apply seen_modules_NoDup|]. split; [apply seen_modules_spec|].
  split; [apply modules_seen_spec|]. split; [apply machine_polyfills_value|].
  split.
  { intros He. split; [|apply polyfills_exact; exact He].
    apply machine_zero_exact; [exact He | apply seen_modules_NoDup]. }
  intros h us Hne HF Hnd.
  pose proof (seen_shared graph found h us HF Hne Hnd) as Hp.
  split; [exact Hp|]. intros He.
  rewrite (machine_zero_exact graph _ He (seen_modules_NoDup graph found)).
  rewrite <- sizes_total_concat. rewrite !sizes_total_sizes.
  apply sum_sizes_perm. exact Hp.
Qed.

Lemma polyfill_estimate_dedup_witness :
  seen_modules Sample.graph
    [Sample.found "Object.entries"; Sample.found "Object.values";
     Sample.found "@babel/plugin-transform-classes";
     Sample.found "String.prototype.repeat"] = [0; 1; 2; 3]
  /\ Doubles.estimatedWastedBytesFromPolyfills Sample.graph
       [Sample.found "Object.entries"; Sample.found "Object.values";
        Sample.found "@babel/plugin-transform-classes";
        Sample.found "String.prototype.repeat"] = Some (Num 1550)
  /\ Permutation
       (seen_modules Sample.graph
          [Sample.found "Object.entries"; Sample.found "Object.values";
           Sample.found "@babel/plugin-transform-classes";
           Sample.found "String.prototype.repeat"])
       (0 :: concat [[1]; [2]; [3]])
  /\ Doubles.add (Num 0)
       (sizes_added Sample.graph
          (seen_modules Sample.graph
             [Sample.found "Object.entries"; Sample.found "Object.values";
              Sample.found "@babel/plugin-transform-classes";
              Sample.found "String.prototype.repeat"]))
     = Num (1000 + (200 + (300 + 50)))
  /\ estimatedWastedBytesFromPolyfills Sample.graph
       [Sample.found "Object.entries"; Sample.found "Object.values";
        Sample.found "@babel/plugin-transform-classes";
        Sample.found "String.prototype.repeat"] = Some (Num 1550).
Proof.
  assert (sizes_exact Sample.graph) as He by (unfold sizes_exact; cbn; lia).
  pose proof (polyfill_estimate_dedup Sample.graph
                [Sample.found "Object.entries"; Sample.found "Object.values";
                 Sample.found "@babel/plugin-transform-classes";
                 Sample.found "String.prototype.repeat"])
    as [_ [_ [_ [Hvalue [Hexact Hshared]]]]].
  destruct (Hexact He) as [_ Hsame].
  destruct (Hshared 0 [[1]; [2]; [3]]) as [Hperm Hsum].
  - discriminate.
  - repeat constructor; eexists; (split; [reflexivity | apply Permutation_refl]).
  - repeat constructor; cbn; intuition discriminate.
  - split; [reflexivity|]. split; [rewrite Hvalue; reflexivity|].
    split; [exact Hperm|]. split; [rewrite (Hsum He); reflexivity|].
    rewrite <- Hsame, Hvalue. reflexivity.
Defined.




(** C5 (as stated, refuted): with the catalog that the generator writes
    for a module and the module of the same feature under [esnext], two
    entries of one name, and a source map that lists both modules, the
    list has the match of the first entry only, and none at the mapping of
    the source of the second; and for a script of a bundle whose content is
    empty nothing is reported, although the map lists the module of an
    entry. *)
Lemma source_map_counterexample :
  Sample.run Sample.twin_catalog blah_code = Some []
  /\ map (fun d => find (source_matches (modules d)) (sources Sample.twin_bundle))
         Sample.twin_catalog
     = [Some Sample.twin_source; Some Sample.esnext_source]
  /\ mapped_location Sample.twin_bundle Sample.esnext_source = (3, 4)%Z
  /\ Sample.detect Sample.twin_catalog [Sample.twin_bundle] [Sample.script blah_code]
     = Some [ (Sample.script blah_code,
               [ {| m_name := str "Array.prototype.findLast"; line := 1; column := 2 |} ]) ]
  /\ Sample.run Sample.catalog [] = Some []
  /\ find_bundle [Sample.bundle] Sample.silent_script = Some Sample.bundle
  /\ existsb (fun d => existsb (source_matches (modules d)) (sources Sample.bundle))
             Sample.catalog = true
  /\ Sample.detect Sample.catalog [Sample.bundle] [Sample.silent_script] = Some [].
Proof. vm_compute. repeat split. Qed.

(** C5 (amended): for a script with content that belongs to a bundle, every
    catalog entry that pattern matching did not find and one of whose
    modules names a source of the map has exactly one match of its name in
    the list of the script; the match is at the place of the first mapping
    of the first such source of the first catalog entry of that name that
    has one, the entry itself when the names of the catalog are distinct,
    or at line 0 and column 0 when the map has no mapping of that
    source. *)
Theorem source_map_correlation data bundles script code bundle :
  wf_catalog data ->
  non_empty (content script) = Some code ->
  find_bundle bundles script = Some bundle ->
  exists m found all,
    audit_matcher data = Some m
    /\ matcher_match m code = Some found
    /\ script_matches data m bundles script code = Some all
    /\ detect_script data m bundles [] script = Some (match all with
                                                      | [] => []
                                                      | _ => [(script, all)]
                                                      end)
    /\ forall d,
         In d data ->
         ~ In (p_name d) (map m_name found) ->
         existsb (source_matches (modules d)) (sources bundle) = true ->
         exists d0 source,
           find (named_source bundle (p_name d)) data = Some d0
           /\ find (source_matches (modules d0)) (sources bundle) = Some source
           /\ (exists before after,
                 all = before
                       ++ {| m_name := p_name d;
                             line := fst (mapped_location bundle source);
                             column := snd (mapped_location bundle source) |} :: after
                 /\ ~ In (p_name d) (map m_name before)
                 /\ ~ In (p_name d) (map m_name after))
           /\ (distinct (map p_name data) = true -> d0 = d).
Proof.
  intros Hwf Hcode Hb.
  destruct (audit_matcher_exists data Hwf) as [m Hm].
  destruct (match_total m _ code (audit_scans data Hwf _ Hm)) as [found Hf].
  exists m, found, (correlate data bundle found).
  assert (script_matches data m bundles script code = Some (correlate data bundle found))
    as Hall by (unfold script_matches; rewrite Hf, Hb; reflexivity).
  split; [exact Hm|]. split; [exact Hf|]. split; [exact Hall|]. split.
  { unfold detect_script. rewrite Hcode, Hall.
    destruct (correlate data bundle found); reflexivity. }
  intros d Hin Hn Hs.
  destruct (correlate_adds bundle (p_name d) data found) as [d0 [source [Hd0 [Hsrc Hadd]]]];
    [|exact Hn|].
  { apply existsb_exists. exists d. split; [exact Hin|].
    unfold named_source. rewrite StrFacts.eqb_refl, Hs. reflexivity. }
  exists d0, source. split; [exact Hd0|]. split; [exact Hsrc|]. split.
  - destruct (correlate_extends data bundle found) as [added [E [Hnd Hnew]]].
    rewrite E in Hadd |- *. apply in_app_or in Hadd. destruct Hadd as [Hadd | Hadd].
    { exfalso. apply Hn. apply (in_map m_name) in Hadd. exact Hadd. }
    apply in_split in Hadd. destruct Hadd as [a1 [a2 ->]].
    exists (found ++ a1), a2. split; [rewrite <- app_assoc; reflexivity|].
    rewrite map_app in Hnd. cbn [map m_name] in Hnd. apply NoDup_remove_2 in Hnd.
    split.
    + rewrite map_app. intros Hx. apply in_app_or in Hx.
      destruct Hx as [Hx | Hx]; [exact (Hn Hx)|].
      apply Hnd. apply in_or_app. left. exact Hx.
    + intros Hx. apply Hnd. apply in_or_app. right. exact Hx.
  - intros Hd. apply (named_source_first bundle data); [apply distinct_NoDup; exact Hd | |];
      assumption.
Qed.

Lemma source_map_correlation_witness :
  exists m all before after,
    audit_matcher Sample.catalog = Some m
    /\ matcher_match m blah_code = Some []
    /\ script_matches Sample.catalog m [Sample.mapped_bundle] (Sample.script blah_code) blah_code
       = Some all
    /\ detect_script Sample.catalog m [Sample.mapped_bundle] [] (Sample.script blah_code)
       = Some [(Sample.script blah_code, all)]
    /\ all = before
             ++ {| m_name := str "String.prototype.repeat"; line := 3; column := 14 |} :: after
    /\ ~ In (str "String.prototype.repeat") (map m_name before)
    /\ ~ In (str "String.prototype.repeat") (map m_name after).
Proof.
  destruct (source_map_correlation Sample.catalog [Sample.mapped_bundle]
              (Sample.script blah_code) blah_code Sample.mapped_bundle)
    as [m [found [all [Hm [Hf [Hall [Hdet Hd]]]]]]].
  - vm_compute. reflexivity.
  - reflexivity.
  - reflexivity.
  - assert (Sample.run Sample.catalog blah_code = Some []) as Hrun
      by (vm_compute; reflexivity).
    unfold Sample.run in Hrun. rewrite Hm, Hf in Hrun. injection Hrun as ->.
    destruct (Hd (Sample.entry "String.prototype.repeat" "es.string.repeat" true))
      as [d0 [source [Hd0 [Hsrc [[before [after [Hsplit [Hb Ha]]]] Hsame]]]]].
    + vm_compute. tauto.
    + intros [].
    + vm_compute. reflexivity.
    + rewrite (Hsame eq_refl) in Hsrc. vm_compute in Hsrc. injection Hsrc as <-.
      exists m, all, before, after.
      split; [exact Hm|]. split; [exact Hf|]. split; [exact Hall|].
      split; [|split; [exact Hsplit | split; [exact Hb | exact Ha]]].
      rewrite Hdet, Hsplit. destruct before; reflexivity.
Defined.

(** C6: with a well-formed catalog that has no entry for the properties
    [message], [someFn] and [b], the five ordinary texts have no match; and
    with any well-formed catalog, also one with the global [Promise], an
    assignment to [SomePromise] has none: whatever follows the identifier,
    the pattern of a global finds nothing that begins inside it. *)
Theorem no_false_positives data :
  wf_catalog data ->
  (forall d, In d data -> corejs d = true ->
             ~ In (property_of (p_name d)) unrelated_properties) ->
  exists m, audit_matcher data = Some m
    /\ (forall code, In code ordinary_code -> matcher_match m code = Some [])
    /\ matcher_match m subclass_code = Some []
    /\ (forall d t i,
          In d data -> corejs d = true -> has_object d = false ->
          i < length subclass_name ->
          bt (entry_body d) (MState (i =? 0) (skipn i (subclass_name ++ t)) []) Some = None).
Proof.
  intros Hwf Hprops. destruct (audit_matcher_exists data Hwf) as [m Hm].
  exists m. split; [exact Hm|]. split; [|split].
  - intros code Hcode.
    apply (quiet_no_match data Hwf unrelated_properties code m Hprops); [|exact Hm].
    unfold ordinary_code in Hcode. cbn [In] in Hcode.
    destruct Hcode as [<- | [<- | [<- | [<- | [<- | []]]]]]; vm_compute; reflexivity.
  - apply (quiet_no_match data Hwf [] subclass_code m); [| |exact Hm].
    + intros ? ? ? [].
    + vm_compute. reflexivity.
  - intros d t i Hd Hc Hobj Hi. pose proof (wf_catalog_In _ _ Hwf Hd) as Hw.
    change (length subclass_name) with 11 in Hi.
    do 11 (destruct i as [|i];
           [apply (global_no_match d _ _ _ Hc Hw Hobj); reflexivity|]).
    lia.
Qed.

Lemma no_false_positives_witness :
  exists m, audit_matcher Sample.catalog_with_global = Some m
    /\ (forall code, In code ordinary_code -> matcher_match m code = Some [])
    /\ matcher_match m subclass_code = Some []
    /\ (forall d t i,
          In d Sample.catalog_with_global -> corejs d = true -> has_object d = false ->
          i < length subclass_name ->
          bt (entry_body d) (MState (i =? 0) (skipn i (subclass_name ++ t)) []) Some = None).
Proof.
  apply (no_false_positives Sample.catalog_with_global).
  - vm_compute. reflexivity.
  - intros d Hd _ Hin. vm_compute in Hd.
    repeat (destruct Hd as [<- | Hd]; [vm_compute in Hin; intuition discriminate|]).
    destruct Hd.
Defined.

(** C7 (as stated, refuted): on two lines with a chained assignment the
    match of [Object.values] is reported on line 1, although its signature
    first occurs at index 12, on line 0; and for a file that begins with a
    carriage return and a line feed the scan resumes at index 2, just past
    the terminator, while the start of the line is recorded as 1. *)
Lemma line_column_counterexample :
  Sample.run Sample.catalog chained_lines
  = Some [ {| m_name := str "Object.keys"; line := 0; column := 0 |};
           {| m_name := str "Object.values"; line := 1; column := 0 |} ]
  /\ first_occurrence values_expression chained_lines = Some 12
  /\ position chained_lines 12 = (0, 12)%Z
  /\ option_map (forallb (at_first_occurrence (audit_patterns Sample.catalog) chained_lines))
                (Sample.run Sample.catalog chained_lines) = Some false
  /\ Sample.first_iteration Sample.catalog crlf_code
     = Some (inl {| lastIndex := 2; seen := []; matches := [];
                    cur_line := 1; lineBeginsAtIndex := 1 |})
  /\ Sample.run Sample.catalog crlf_code
     = Some [ {| m_name := str "String.prototype.repeat"; line := 1; column := 1 |} ].
Proof. vm_compute. repeat split. Qed.

(** C7 (amended): in a file that does not begin with a carriage return and
    a line feed, the results of [exec] are the events of the scan; every
    line terminator that the scan finds adds one to the line counter,
    records the index just past it as the start of the line and emits no
    match; and every match is reported at the first event of its pattern,
    with the number of line terminators found before it as line and its
    index less the start of the line as column. *)
Theorem line_column_bookkeeping data code :
  wf_catalog data -> starts_with_crlf code = false ->
  exists m,
    audit_matcher data = Some m
    /\ (forall idx, idx <= length code ->
          exec (re m) idx code
          = option_map (fun ie => result_of_event (fst ie) (skipn (fst ie) code) (snd ie))
                       (next_event (audit_bodies data) idx (skipn idx code)))
    /\ (forall st i n,
          lastIndex st <= length code ->
          next_event (audit_bodies data) (lastIndex st) (skipn (lastIndex st) code)
          = Some (i, (None, n)) ->
          match_iteration m code st
          = Some (inl {| lastIndex := i + n;
                         seen := seen st;
                         matches := matches st;
                         cur_line := cur_line st + 1;
                         lineBeginsAtIndex := Z.of_nat (i + n) |}))
    /\ matcher_match m code
       = Some (located past_terminator (patterns m) []
                 (scan_events (audit_bodies data) code)).
Proof.
  intros Hwf Hc.
  destruct (audit_matcher_exists data Hwf) as [m Hm].
  pose proof (audit_scans data Hwf _ Hm) as Hs.
  exists m. split; [exact Hm|].
  split; [intros idx Hidx; apply (exec_next_event _ _ _ _ Hs Hidx)|]. split.
  - intros st i n HL He.
    rewrite (match_iteration_event _ _ _ _ Hs HL), He. cbn [iterate_event].
    apply next_event_newline in He. destruct He as [-> | [H0 Hcr]].
    + do 3 f_equal. lia.
    + rewrite H0 in Hcr. cbn [skipn] in Hcr. congruence.
  - destruct (match_total m _ code Hs) as [found Hf]. rewrite Hf. f_equal.
    unfold matcher_match in Hf. rewrite (match_loop_event _ _ _ Hs) in Hf by (cbn; lia).
    rewrite (event_loop_located _ _ _ _ _ [] _ tracked_initial Hf).
    cbn [initial_state matches app lastIndex]. apply located_ext.
    cbn [app]. apply trace_unit_newline. exact Hc.
Qed.

Lemma line_column_bookkeeping_witness :
  exists m,
    audit_matcher Sample.catalog = Some m
    /\ (forall idx, idx <= length two_lines ->
          exec (re m) idx two_lines
          = option_map (fun ie => result_of_event (fst ie) (skipn (fst ie) two_lines) (snd ie))
                       (next_event (audit_bodies Sample.catalog) idx (skipn idx two_lines)))
    /\ (forall st i n,
          lastIndex st <= length two_lines ->
          next_event (audit_bodies Sample.catalog) (lastIndex st)
            (skipn (lastIndex st) two_lines)
          = Some (i, (None, n)) ->
          match_iteration m two_lines st
          = Some (inl {| lastIndex := i + n;
                         seen := seen st;
                         matches := matches st;
                         cur_line := cur_line st + 1;
                         lineBeginsAtIndex := Z.of_nat (i + n) |}))
    /\ matcher_match m two_lines
       = Some (located past_terminator (patterns m) []
                 (scan_events (audit_bodies Sample.catalog) two_lines)).
Proof.
  apply (line_column_bookkeeping Sample.catalog two_lines).
  - vm_compute. reflexivity.
  - reflexivity.
Defined.

(** C8 (as stated, refuted): with a catalog that has the global
    [Promise], an assignment to [Promise] at the start of the file has no
    match, and has one behind a space. *)
Lemma framing_counterexample :
  Sample.run Sample.catalog_with_global global_code = Some []
  /\ Sample.run Sample.catalog_with_global (" "%char :: global_code)
     = Some [ {| m_name := str "Promise"; line := 0; column := 0 |} ].
Proof. vm_compute. split; reflexivity. Qed.

(** C8 (amended): with a well-formed catalog in which every pattern names
    an object, a text and the same text behind a semicolon or a space
    report the same signals, in the same order. *)
Theorem framing_invariance data c s :
  wf_catalog data ->
  (forall d, In d data -> corejs d = true -> has_object d = true) ->
  framing_char c = true ->
  exists m r r',
    audit_matcher data = Some m
    /\ matcher_match m s = Some r
    /\ matcher_match m (c :: s) = Some r'
    /\ same_signals r r'.
Proof.
  intros Hwf Hobj Hc.
  destruct (audit_matcher_exists data Hwf) as [m Hm].
  pose proof (audit_scans data Hwf _ Hm) as Hs.
  destruct (match_total m _ s Hs) as [r Hr].
  exists m, r.
  unfold matcher_match in *.
  rewrite (match_loop_event _ _ _ Hs) in Hr by (cbn; lia).
  destruct (framing_event_loop (patterns m) (audit_bodies data) c s r) as [r' [Hr' Hsame]].
  - intros b Hb. apply (audit_bodies_structure data b Hwf Hb).
  - intros b Hb. apply (audit_bodies_structure data b Hwf Hb).
  - apply framing_event_at; assumption.
  - exact Hr.
  - exists r'. split; [exact Hm|].
    rewrite !(match_loop_event _ _ _ Hs) by (cbn; lia).
    repeat split; assumption.
Qed.

Lemma framing_invariance_witness :
  exists m r r',
    audit_matcher Sample.catalog = Some m
    /\ matcher_match m framed_code = Some r
    /\ matcher_match m (";"%char :: framed_code) = Some r'
    /\ same_signals r r'.
Proof.
  apply (framing_invariance Sample.catalog ";"%char framed_code).
  - vm_compute. reflexivity.
  - intros d Hd _. vm_compute in Hd.
    repeat (destruct Hd as [<- | Hd]; [reflexivity|]). destruct Hd.
  - reflexivity.
Defined.




(** C10: a script whose content is missing or empty leaves the map as it
    is; [detectAcrossScripts] returns, and what it returns has a script as
    key exactly when the combined list of that script is not empty, with
    that list as value. *)
Theorem missing_content_skipped data bundles scripts :
  wf_catalog data ->
  exists m,
    audit_matcher data = Some m
    /\ (forall acc script,
          content script = None \/ content script = Some [] ->
          detect_script data m bundles acc script = Some acc
          /\ combined_matches data m bundles script = [])
    /\ detectAcrossScripts data m bundles scripts = Some (reported data m bundles scripts)
    /\ (forall script found,
          In (script, found) (reported data m bundles scripts)
          <-> In script scripts
              /\ found = combined_matches data m bundles script /\ found <> []).
Proof.
  intros Hwf. destruct (audit_matcher_exists data Hwf) as [m Hm].
  exists m. split; [exact Hm|]. split; [|split].
  - intros acc script Hc. apply missing_content in Hc.
    unfold detect_script, combined_matches. rewrite Hc. split; reflexivity.
  - unfold detectAcrossScripts. rewrite detect_loop_reported; [reflexivity|].
    intros code. apply (match_total m _ code (audit_scans data Hwf _ Hm)).
  - intros script found. apply reported_In.
Qed.

Lemma missing_content_skipped_witness :
  exists m,
    audit_matcher Sample.catalog = Some m
    /\ (forall acc script,
          content script = None \/ content script = Some [] ->
          detect_script Sample.catalog m [Sample.bundle] acc script = Some acc
          /\ combined_matches Sample.catalog m [Sample.bundle] script = [])
    /\ detectAcrossScripts Sample.catalog m [Sample.bundle]
         [Sample.no_content; Sample.empty_content; Sample.script blah_code]
       = Some (reported Sample.catalog m [Sample.bundle]
                 [Sample.no_content; Sample.empty_content; Sample.script blah_code])
    /\ (forall script found,
          In (script, found)
             (reported Sample.catalog m [Sample.bundle]
                [Sample.no_content; Sample.empty_content; Sample.script blah_code])
          <-> In script [Sample.no_content; Sample.empty_content; Sample.script blah_code]
              /\ found = combined_matches Sample.catalog m [Sample.bundle] script
              /\ found <> []).
Proof.
  apply (missing_content_skipped Sample.catalog [Sample.bundle]
           [Sample.no_content; Sample.empty_content; Sample.script blah_code]).
  vm_compute. reflexivity.
Defined.

(** * Further facts *)

Import Positions Signatures Snippets Warnings Regenerator Estimates.

Module PositionFacts.

Lemma firstn_plus {A} (l : list A) : forall a k,
  firstn (a + k) l = firstn a l ++ firstn k (skipn a l).
Proof.
  induction l as [|x l IH]; intros a k.
  - rewrite !firstn_nil, skipn_nil, firstn_nil. reflexivity.
  - destruct a as [|a]; [reflexivity|]. cbn [Nat.add firstn skipn app]. rewrite IH. reflexivity.
Qed.

Lemma terminators_app a b : terminators (a ++ b) = terminators a + terminators b.
Proof. unfold terminators. rewrite filter_app, length_app. reflexivity. Qed.

Lemma terminators_firstn_mono s a b :
  a <= b -> terminators (firstn a s) <= terminators (firstn b s).
Proof.
  intros H. replace b with (a + (b - a)) by lia.
  rewrite firstn_plus, terminators_app. lia.
Qed.

Lemma terminators_firstn s a : terminators (firstn a s) <= terminators s.
Proof.
  rewrite <- (firstn_skipn a s) at 2. rewrite terminators_app. lia.
Qed.

Lemma terminators_step s i c t :
  skipn i s = c :: t -> is_line_terminator c = true ->
  terminators (firstn (S i) s) = S (terminators (firstn i s)).
Proof.
  intros Hs Hc. replace (S i) with (i + 1) by lia.
  rewrite firstn_plus, terminators_app, Hs. cbn [firstn]. unfold terminators at 2.
  cbn [filter]. rewrite Hc. cbn [length]. lia.
Qed.

Lemma newline_len_terminator at0 s n :
  newline_len at0 s = Some n -> exists c t, s = c :: t /\ is_line_terminator c = true.
Proof.
  destruct s as [|c t]; cbn [newline_len]; [discriminate|]. intros H. exists c, t.
  split; [reflexivity|]. unfold is_line_terminator.
  destruct (Ascii.eqb Str.CR c) eqn:E1.
  - apply Ascii.eqb_eq in E1. subst c. reflexivity.
  - destruct (Ascii.eqb Str.LF c) eqn:E2; [|discriminate].
    apply Ascii.eqb_eq in E2. subst c. reflexivity.
Qed.

Lemma event_at_terminator bodies at0 s n :
  event_at bodies at0 s = Some (None, n) ->
  exists c t, s = c :: t /\ is_line_terminator c = true.
Proof.
  unfold event_at. destruct (newline_len at0 s) as [k|] eqn:E.
  - intros _. apply (newline_len_terminator _ _ _ E).
  - destruct (first_body 0 bodies (MState at0 s [])) as [[j st']|]; discriminate.
Qed.

(** A line terminator that the scan finds is a line terminator of the
    text. *)
Lemma next_event_terminator bodies : forall s idx i n,
  next_event bodies idx s = Some (i, (None, n)) ->
  exists c t, skipn (i - idx) s = c :: t /\ is_line_terminator c = true.
Proof.
  induction s as [|a s IH]; intros idx i n H; cbn [next_event] in H.
  - destruct (event_at bodies (idx =? 0) []) as [e|] eqn:E; [|discriminate].
    injection H as <- ->. apply event_at_terminator in E. rewrite Nat.sub_diag. exact E.
  - destruct (event_at bodies (idx =? 0) (a :: s)) as [e|] eqn:E.
    + injection H as <- ->. apply event_at_terminator in E. rewrite Nat.sub_diag. exact E.
    + pose proof (next_event_ge _ _ _ _ _ H) as Hge. apply IH in H.
      replace (i - idx) with (S (i - S idx)) by lia. exact H.
Qed.

Lemma state_in_file_initial code : state_in_file code initial_state.
Proof.
  unfold state_in_file. cbn [initial_state lastIndex cur_line lineBeginsAtIndex matches].
  repeat split; try lia; constructor.
Qed.

(** The loop of [match] keeps its state and its matches in the text. *)
Lemma event_loop_in_file ps bodies code :
  (forall b, In b bodies -> nullable b = false) ->
  forall fuel st r,
    state_in_file code st ->
    event_loop fuel ps bodies code st = Some r ->
    Forall (in_file code) r.
Proof.
  intros Hnull. induction fuel as [|fuel IH]; intros st r [HL [Hline [Hbeg Hm]]] H;
    [discriminate|].
  rewrite event_loop_S in H.
  destruct (next_event bodies (lastIndex st) (skipn (lastIndex st) code))
    as [[i [g n]]|] eqn:E; cbn [iterate_event] in H.
  - pose proof (next_event_bound _ _ _ _ _ _ Hnull E) as [Hi [Hn [Hend _]]].
    rewrite length_skipn in Hend.
    pose proof (terminators_firstn_mono code (lastIndex st) i Hi) as Hmono.
    pose proof (terminators_firstn code i) as Hall.
    destruct g as [j|].
    + destruct (nth_error ps j) as [pattern|]; [|discriminate].
      pose proof (terminators_firstn_mono code (lastIndex st) (i + n)) as Hmono2.
      destruct (existsb (Nat.eqb j) (seen st)).
      * apply IH in H; [exact H|]. unfold state_in_file.
        cbn [lastIndex cur_line lineBeginsAtIndex matches]. repeat split; try lia. exact Hm.
      * apply IH in H; [exact H|]. unfold state_in_file.
        cbn [lastIndex cur_line lineBeginsAtIndex matches]. repeat split; try lia.
        apply Forall_app. split; [exact Hm|]. constructor; [|constructor].
        unfold in_file. cbn [line column]. lia.
    + destruct (next_event_terminator _ _ _ _ _ E) as [c [t [Hs Hc]]].
      rewrite skipn_skipn in Hs. replace (i - lastIndex st + lastIndex st) with i in Hs by lia.
      pose proof (terminators_step code i c t Hs Hc) as Hstep.
      pose proof (terminators_firstn_mono code (S i) (i + n)) as Hmono2.
      apply IH in H; [exact H|]. unfold state_in_file.
      cbn [lastIndex cur_line lineBeginsAtIndex matches]. repeat split; try lia. exact Hm.
  - injection H as <-. exact Hm.
Qed.

End PositionFacts.

Import PositionFacts.

Module DetectionFacts.

(** A list of terms reads a text, whatever follows. *)
Lemma or_else_l a b : a <> None -> or_else a b <> None.
Proof. destruct a; [discriminate | congruence]. Qed.

Lemma or_else_r a b : b <> None -> or_else a b <> None.
Proof. destruct a; [discriminate | auto]. Qed.

(** The backtracking matcher finds every match: where an expression
    without anchor can read from [s] to [s'] and the continuation succeeds
    at [s'], the matcher succeeds. *)
Lemma bt_complete_fuel r s s' :
  accepts r s s' -> bol_free r = true ->
  (forall a caps k, good k s' -> bt r (MState a s caps) k <> None)
  /\ (forall r1, r = Star r1 ->
        forall fuel a caps k, length s <= fuel -> good k s' ->
          star_fuel (bt r1) fuel (MState a s caps) k <> None).
Proof.
  induction 1 as
    [ s | c s | c s Hc | negated c s Hc | negated items c s Hc | s
    | r1 r2 s s' s'' H1 IH1 H2 IH2 | r1 r2 s s' H1 IH1 | r1 r2 s s' H1 IH1
    | r s | r s s' s'' H1 IH1 H2 IH2 | r s s' s'' H1 IH1 H2 IH2
    | r s | r s s' H1 IH1 | n r s s' H1 IH1 | r s s' H1 IH1 ];
    intros Hb; cbn [bol_free] in Hb;
    (split; [|try (intros ? Heq0; discriminate Heq0)]).
  - intros a caps k Hk. apply Hk.
  - intros a caps k Hk. cbn [bt]. rewrite one_char_cons, Ascii.eqb_refl. apply Hk.
  - intros a caps k Hk. cbn [bt]. rewrite one_char_cons, Hc. apply Hk.
  - intros a caps k Hk. cbn [bt]. rewrite one_char_cons, Hc. apply Hk.
  - intros a caps k Hk. cbn [bt]. rewrite one_char_cons, Hc. apply Hk.
  - discriminate.
  - apply andb_true_iff in Hb. destruct Hb as [Hb1 Hb2].
    intros a caps k Hk. cbn [bt]. apply (proj1 (IH1 Hb1)).
    intros a' caps'. apply (proj1 (IH2 Hb2)). exact Hk.
  - apply andb_true_iff in Hb. destruct Hb as [Hb1 Hb2].
    intros a caps k Hk. cbn [bt]. apply or_else_l. apply (proj1 (IH1 Hb1)). exact Hk.
  - apply andb_true_iff in Hb. destruct Hb as [Hb1 Hb2].
    intros a caps k Hk. cbn [bt]. apply or_else_r. apply (proj1 (IH1 Hb2)). exact Hk.
  - intros a caps k Hk. cbn [bt rest].
    destruct (length s); cbn [star_fuel]; [apply Hk | apply or_else_r; apply Hk].
  - intros r0 Heq fuel a caps k Hf Hk. injection Heq as Heq. subst r0.
    destruct fuel; cbn [star_fuel]; [apply Hk | apply or_else_r; apply Hk].
  - intros a caps k Hk. cbn [bt rest].
    assert (forall fuel a caps k, length s <= fuel -> good k s'' ->
              star_fuel (bt r) fuel (MState a s caps) k <> None) as Hstar.
    { intros fuel a0 caps0 k0 Hf Hk0.
      destruct (Nat.lt_ge_cases (length s') (length s)) as [Hlt | Hge].
      - destruct fuel as [|fuel]; [lia|]. cbn [star_fuel]. apply or_else_l.
        apply (proj1 (IH1 Hb)). intros a' caps'. unfold progress. cbn [rest].
        apply Nat.ltb_lt in Hlt. rewrite Hlt.
        apply (proj2 (IH2 Hb) r eq_refl); [apply Nat.ltb_lt in Hlt; lia | exact Hk0].
      - pose proof (accepts_same_length _ _ _ H1 Hge) as ->.
        apply (proj2 (IH2 Hb) r eq_refl); assumption. }
    apply Hstar; [lia | exact Hk].
  - intros r0 Heq fuel a caps k Hf Hk. injection Heq as Heq. subst r0.
    destruct (Nat.lt_ge_cases (length s') (length s)) as [Hlt | Hge].
    + destruct fuel as [|fuel]; [lia|]. cbn [star_fuel]. apply or_else_l.
      apply (proj1 (IH1 Hb)). intros a' caps'. unfold progress. cbn [rest].
      apply Nat.ltb_lt in Hlt. rewrite Hlt.
      apply (proj2 (IH2 Hb) r eq_refl); [apply Nat.ltb_lt in Hlt; lia | exact Hk].
    + pose proof (accepts_same_length _ _ _ H1 Hge) as ->.
      apply (proj2 (IH2 Hb) r eq_refl); assumption.
  - intros a caps k Hk. cbn [bt]. apply (proj1 (IH1 Hb)).
    intros a' caps'. cbn [rest]. apply (proj2 (IH2 Hb) r eq_refl); [lia | exact Hk].
  - intros a caps k Hk. cbn [bt]. apply or_else_r. apply Hk.
  - intros a caps k Hk. cbn [bt].
    destruct (Nat.lt_ge_cases (length s') (length s)) as [Hlt | Hge].
    + apply or_else_l. apply (proj1 (IH1 Hb)). intros a' caps'. unfold progress.
      cbn [rest]. apply Nat.ltb_lt in Hlt. rewrite Hlt. apply Hk.
    + pose proof (accepts_same_length _ _ _ H1 Hge) as ->. apply or_else_r. apply Hk.
  - intros a caps k Hk. cbn [bt]. apply (proj1 (IH1 Hb)).
    intros a' caps'. unfold set_cap. cbn [rest at_start]. apply Hk.
  - intros a caps k Hk. cbn [bt]. apply (proj1 (IH1 Hb)). exact Hk.
Qed.

Theorem bt_complete r s s' a caps :
  accepts r s s' -> bol_free r = true -> bt r (MState a s caps) Some <> None.
Proof.
  intros H Hb. apply (proj1 (bt_complete_fuel r s s' H Hb)). intros a' caps'. discriminate.
Qed.

Lemma accepts_seq_app l1 : forall l2 s s' s'',
  accepts (seq_of l1) s s' -> accepts (seq_of l2) s' s'' ->
  accepts (seq_of (l1 ++ l2)) s s''.
Proof.
  induction l1 as [|r l1 IH]; intros l2 s s' s'' H1 H2.
  - apply accepts_Empty_inv in H1. subst s'. exact H2.
  - cbn [seq_of fold_right] in H1. apply accepts_Seq_inv in H1.
    destruct H1 as [u [Hr H1]]. cbn [app seq_of fold_right].
    apply (A_Seq _ _ _ u); [exact Hr|]. apply (IH _ _ _ _ H1 H2).
Qed.

Lemma reads_nil : reads_text [] [].
Proof. intros s. apply A_Empty. Qed.

Lemma reads_app ts1 ts2 w1 w2 :
  reads_text ts1 w1 -> reads_text ts2 w2 -> reads_text (ts1 ++ ts2) (w1 ++ w2).
Proof.
  intros H1 H2 s. rewrite <- app_assoc.
  apply (accepts_seq_app _ _ _ (w2 ++ s)); [apply H1 | apply H2].
Qed.

Lemma reads_one t w : (forall s, accepts t (w ++ s) s) -> reads_text [t] w.
Proof. intros H s. cbn [seq_of fold_right]. apply (A_Seq _ _ _ s); [apply H | apply A_Empty]. Qed.

Lemma accepts_single t c s : single t = true -> first_char t c = true -> accepts t (c :: s) s.
Proof.
  destruct t; try discriminate; cbn [first_char]; intros _ H.
  - apply Ascii.eqb_eq in H. subst. apply A_Char.
  - apply A_Dot. apply negb_true_iff in H. exact H.
  - apply A_Space. exact H.
  - apply A_Class. exact H.
Qed.

Lemma spells_reads ts : forall w, spells ts w = true -> reads_text ts w.
Proof.
  induction ts as [|t ts IH]; intros [|c w] H; try discriminate.
  - apply reads_nil.
  - cbn [spells] in H. apply andb_true_iff in H. destruct H as [H Hw].
    apply andb_true_iff in H. destruct H as [Ht Hc].
    change (t :: ts) with ([t] ++ ts). change (c :: w) with ([c] ++ w).
    apply reads_app; [|apply IH; exact Hw].
    apply reads_one. intros s. apply accepts_single; assumption.
Qed.

Lemma reads_chars N : reads_text (map Char N) N.
Proof.
  apply spells_reads. induction N as [|c N IH]; [reflexivity|].
  cbn [map spells single first_char]. rewrite Ascii.eqb_refl. exact IH.
Qed.

Lemma module_char_not_terminator c : is_module_char c = true -> is_line_terminator c = false.
Proof.
  destruct (is_line_terminator c) eqn:E; [|reflexivity]. intros H.
  unfold is_line_terminator in E. cbn zeta in E. apply orb_true_iff in E.
  destruct E as [E | E]; apply Nat.eqb_eq in E;
    rewrite <- (ascii_nat_embedding c), E in H; vm_compute in H; discriminate.
Qed.

Lemma reads_atoms M : forallb is_module_char M = true -> reads_text (map atom M) M.
Proof.
  intros HM. apply spells_reads. induction M as [|c M IH]; [reflexivity|].
  cbn [forallb] in HM. apply andb_true_iff in HM. destruct HM as [Hc HM].
  cbn [map spells]. rewrite (IH HM), andb_true_r. unfold atom.
  destruct (Ascii.eqb c ".") eqn:E; cbn [single first_char andb].
  - rewrite (module_char_not_terminator c Hc). reflexivity.
  - apply Ascii.eqb_refl.
Qed.

(** White space that may be there: [\s?]. *)
Lemma reads_gap gap : is_gap gap = true -> reads_text [Opt (Space false)] gap.
Proof.
  intros H. apply reads_one. intros s. destruct gap as [|w [|w' gap]]; try discriminate.
  - apply A_OptO.
  - apply A_OptS. apply A_Space. exact H.
Qed.

(** A run of characters of one class: [\s*], [.*], [\S*]. *)
Lemma reads_star t ws :
  single t = true -> forallb (first_char t) ws = true -> reads_text [Star t] ws.
Proof.
  intros Ht H. apply reads_one. intros s. induction ws as [|c ws IH]; [apply A_StarO|].
  cbn [forallb] in H. apply andb_true_iff in H. destruct H as [Hc H].
  apply (A_StarS _ _ (ws ++ s)); [apply accepts_single; assumption | apply IH; exact H].
Qed.

Lemma reads_quote q : is_quote q = true -> reads_text (chunk_terms [ "["%char; "'"%char; Str.dquote; "]"%char ]) [q].
Proof.
  intros H. apply spells_reads. unfold is_quote in H. apply orb_true_iff in H.
  destruct H as [H | H]; apply Ascii.eqb_eq in H; subst q; vm_compute; reflexivity.
Qed.

Lemma reads_not_equals x :
  Ascii.eqb x "=" = false -> reads_text [Class true [CChar "="%char]] [x].
Proof.
  intros H. apply spells_reads. simpl. unfold class_matches. simpl. rewrite H. reflexivity.
Qed.

Lemma reads_assign_tail gap x :
  is_gap gap = true -> Ascii.eqb x "=" = false ->
  reads_text (chunk_terms (str "\s?=[^=]")) (gap ++ str "=" ++ [x]).
Proof.
  intros Hg Hx.
  replace (chunk_terms (str "\s?=[^=]"))
    with ([Opt (Space false)] ++ [Char "="%char] ++ [Class true [CChar "="%char]])
    by (vm_compute; reflexivity).
  apply reads_app; [apply reads_gap; exact Hg|].
  apply reads_app; [apply spells_reads; reflexivity | apply reads_not_equals; exact Hx].
Qed.

Lemma reads_bracket_tail gap x :
  is_gap gap = true -> Ascii.eqb x "=" = false ->
  reads_text (chunk_terms (str "\]\s?=[^=]")) (str "]" ++ gap ++ str "=" ++ [x]).
Proof.
  intros Hg Hx.
  replace (chunk_terms (str "\]\s?=[^=]"))
    with ([Char "]"%char] ++ chunk_terms (str "\s?=[^=]")) by (vm_compute; reflexivity).
  apply reads_app; [apply spells_reads; reflexivity | apply reads_assign_tail; assumption].
Qed.

Lemma reads_comma_gap gap :
  is_gap gap = true -> reads_text (chunk_terms (str ",\s?")) (str "," ++ gap).
Proof.
  intros Hg.
  replace (chunk_terms (str ",\s?")) with ([Char ","%char] ++ [Opt (Space false)])
    by (vm_compute; reflexivity).
  apply reads_app; [apply spells_reads; reflexivity | apply reads_gap; exact Hg].
Qed.

Lemma reads_comma_spaces ws :
  forallb is_space ws = true ->
  reads_text (chunk_terms (str ",\s*{")) (str "," ++ ws ++ str "{").
Proof.
  intros Hw.
  replace (chunk_terms (str ",\s*{"))
    with ([Char ","%char] ++ [Star (Space false)] ++ [Char "{"%char])
    by (vm_compute; reflexivity).
  apply reads_app; [apply spells_reads; reflexivity|].
  apply reads_app; [apply reads_star; [reflexivity | exact Hw] | apply spells_reads; reflexivity].
Qed.

Lemma reads_shim_middle filler ws :
  forallb (fun c => negb (is_line_terminator c)) filler = true ->
  forallb is_space ws = true ->
  reads_text (chunk_terms (str ":.*},\s*{"))
             (str ":" ++ filler ++ str "}," ++ ws ++ str "{").
Proof.
  intros Hf Hw.
  replace (chunk_terms (str ":.*},\s*{"))
    with ([Char ":"%char] ++ [Star Dot] ++ [Char "}"%char; Char ","%char]
          ++ [Star (Space false)] ++ [Char "{"%char])
    by (vm_compute; reflexivity).
  apply reads_app; [apply spells_reads; reflexivity|].
  apply reads_app; [apply reads_star; [reflexivity | exact Hf]|].
  apply reads_app; [apply spells_reads; reflexivity|].
  apply reads_app; [apply reads_star; [reflexivity | exact Hw] | apply spells_reads; reflexivity].
Qed.

Lemma reads_target_tail filler :
  forallb (fun c => negb (is_space c)) filler = true ->
  reads_text (chunk_terms (str "\S*},{")) (filler ++ str "},{").
Proof.
  intros Hf.
  replace (chunk_terms (str "\S*},{"))
    with ([Star (Space true)] ++ [Char "}"%char; Char ","%char; Char "{"%char])
    by (vm_compute; reflexivity).
  apply reads_app; [apply reads_star; [reflexivity | exact Hf] | apply spells_reads; reflexivity].
Qed.

Section Items.

Variables C P M : Str.t.
Hypothesis HM : forallb is_module_char M = true.

Lemma reads_items_cons i items w1 w2 :
  reads_text (inst_item C P M i) w1 ->
  reads_text (flat_map (inst_item C P M) items) w2 ->
  reads_text (flat_map (inst_item C P M) (i :: items)) (w1 ++ w2).
Proof. apply reads_app. Qed.

Lemma reads_items_last i w :
  reads_text (inst_item C P M i) w -> reads_text (flat_map (inst_item C P M) [i]) w.
Proof.
  intros H. rewrite <- (app_nil_r w). apply reads_items_cons; [exact H | apply reads_nil].
Qed.

Lemma reads_HoleC : reads_text (inst_item C P M HoleC) C.
Proof. apply reads_chars. Qed.

Lemma reads_HoleP : reads_text (inst_item C P M HoleP) P.
Proof. apply reads_chars. Qed.

Lemma reads_HoleM : reads_text (inst_item C P M HoleM) M.
Proof. apply reads_atoms. exact HM. Qed.

Lemma reads_Text k w : spells (chunk_terms k) w = true -> reads_text (inst_item C P M (Text k)) w.
Proof. apply spells_reads. Qed.

(** The object of a pattern, before other items. *)
Lemma reads_object sh items w :
  sh <> Global ->
  reads_text (flat_map (inst_item C P M) items) w ->
  reads_text (flat_map (inst_item C P M) (object_items sh ++ items)) (object_text sh C ++ w).
Proof.
  intros Hsh H. destruct sh; [congruence | |]; cbn [object_items object_text app].
  - apply reads_items_cons; [apply reads_HoleC | exact H].
  - rewrite <- app_assoc. apply reads_items_cons; [apply reads_HoleC|].
    apply reads_items_cons; [apply reads_Text; reflexivity | exact H].
Qed.

Lemma reads_items_split i items w w1 w2 :
  w = w1 ++ w2 ->
  reads_text (inst_item C P M i) w1 ->
  reads_text (flat_map (inst_item C P M) items) w2 ->
  reads_text (flat_map (inst_item C P M) (i :: items)) w.
Proof. intros ->. apply reads_items_cons. Qed.

Lemma reads_object_split sh items w w2 :
  sh <> Global ->
  w = object_text sh C ++ w2 ->
  reads_text (flat_map (inst_item C P M) items) w2 ->
  reads_text (flat_map (inst_item C P M) (object_items sh ++ items)) w.
Proof. intros Hsh ->. apply reads_object. exact Hsh. Qed.

Ltac same_text := repeat (simpl; rewrite <- ?app_assoc); reflexivity.

(** Every form is read by its alternative of the pattern. *)
Lemma reads_form sh f :
  sh <> Global -> valid_form f = true ->
  reads_text (flat_map (inst_item C P M) (nth (form_index f) (shape_alts sh) []))
             (signature_text sh C P M f).
Proof.
  intros Hsh Hf.
  assert (shape_alts sh
          = [ object_items sh ++ [T "\."; HoleP; T "\s?=[^=]"];
              object_items sh ++ [T "\["] ++ qt_items ++ [T "\]\s?=[^=]"];
              [T "defineProperty\("] ++ object_items sh ++ [T ",\s?"] ++ qt_items;
              [T "\("] ++ object_items sh ++ [T ",\s*{"; HoleP; T ":.*},\s*{"; HoleP];
              [T "{target:"] ++ qt_class_items ++ [T "\S*},{"; HoleP; T ":"];
              module_alt ]) as ->
    by (destruct sh; [congruence | reflexivity | reflexivity]).
  destruct f as [gap x | q1 q2 gap x | gap q1 q2 | ws1 filler ws2 | q1 q2 filler |];
    cbn [form_index nth signature_text valid_form] in *;
    repeat match goal with
           | H : _ && _ = true |- _ => apply andb_true_iff in H; destruct H
           | H : negb _ = true |- _ => apply negb_true_iff in H
           end.
  - apply reads_object; [exact Hsh|].
    apply reads_items_cons; [apply reads_Text; reflexivity|].
    apply reads_items_cons; [apply reads_HoleP|].
    apply reads_items_last. apply reads_assign_tail; assumption.
  - apply reads_object; [exact Hsh|]. unfold qt_items. cbn [app].
    apply reads_items_cons; [apply reads_Text; reflexivity|].
    apply (reads_items_cons _ _ [q1]); [apply reads_quote; assumption|].
    apply reads_items_cons; [apply reads_HoleP|].
    apply (reads_items_cons _ _ [q2]); [apply reads_quote; assumption|].
    apply reads_items_last. apply reads_bracket_tail; assumption.
  - cbn [app]. apply reads_items_cons; [apply reads_Text; reflexivity|].
    apply reads_object; [exact Hsh|]. unfold qt_items. cbn [app].
    apply (reads_items_split _ _ _ (str "," ++ gap) ([q1] ++ P ++ [q2]));
      [same_text | apply reads_comma_gap; assumption|].
    apply (reads_items_cons _ _ [q1]); [apply reads_quote; assumption|].
    apply reads_items_cons; [apply reads_HoleP|].
    apply reads_items_last. apply reads_quote; assumption.
  - cbn [app]. apply reads_items_cons; [apply reads_Text; reflexivity|].
    apply reads_object; [exact Hsh|].
    apply (reads_items_split _ _ _ (str "," ++ ws1 ++ str "{")
             (P ++ str ":" ++ filler ++ str "}," ++ ws2 ++ str "{" ++ P));
      [same_text | apply reads_comma_spaces; assumption|].
    apply reads_items_cons; [apply reads_HoleP|].
    apply (reads_items_split _ _ _ (str ":" ++ filler ++ str "}," ++ ws2 ++ str "{") P);
      [same_text | apply reads_shim_middle; assumption|].
    apply reads_items_last. apply reads_HoleP.
  - unfold qt_class_items. cbn [app].
    apply reads_items_cons; [apply reads_Text; reflexivity|].
    apply (reads_items_cons _ _ [q1]); [apply reads_quote; assumption|].
    apply reads_items_cons; [apply reads_HoleC|].
    apply (reads_items_cons _ _ [q2]); [apply reads_quote; assumption|].
    apply (reads_items_split _ _ _ (filler ++ str "},{") (P ++ str ":"));
      [same_text | apply reads_target_tail; assumption|].
    apply reads_items_cons; [apply reads_HoleP|].
    apply reads_items_last. apply reads_Text. reflexivity.
  - unfold module_alt.
    apply reads_items_cons; [apply reads_Text; reflexivity|].
    apply reads_items_cons; [apply reads_HoleM|].
    apply reads_items_last. apply reads_Text. reflexivity.
Qed.

End Items.

Lemma accepts_fold_Alt_intro alts : forall a r s s',
  (r = a \/ In r alts) -> accepts r s s' -> accepts (fold_left Alt alts a) s s'.
Proof.
  induction alts as [|b alts IH]; intros a r s s' Hin H; cbn [fold_left].
  - destruct Hin as [-> | []]. exact H.
  - destruct Hin as [-> | [-> | Hin]].
    + apply (IH _ (Alt a b)); [left; reflexivity | apply A_AltL; exact H].
    + apply (IH _ (Alt a r)); [left; reflexivity | apply A_AltR; exact H].
    + apply (IH _ r); [right; exact Hin | exact H].
Qed.

Lemma accepts_alts_intro alts r s s' :
  In r alts -> accepts r s s' -> accepts (alts_of alts) s s'.
Proof.
  destruct alts as [|a alts]; [intros []|]. intros Hin H. cbn [alts_of].
  apply (accepts_fold_Alt_intro alts a r); [|exact H].
  destruct Hin as [-> | Hin]; auto.
Qed.

(** The pattern of an entry reads every form of its signature. *)
Lemma accepts_form d sh C P f t :
  corejs d = true -> wf_entry d = true ->
  name_shape (p_name d) = Some (sh, C, P) -> sh <> Global ->
  valid_form f = true ->
  accepts (entry_body d) (signature_text sh C P (module_text d) f ++ t) t.
Proof.
  intros Hc Hw Hs Hsh Hf. unfold wf_entry in Hw. rewrite Hc, Hs in Hw.
  destruct (wf_module_chars _ Hw) as [HM _].
  unfold entry_body. rewrite Hs. unfold inst.
  apply (accepts_alts_intro _ (inst_alt C P (module_text d)
                                 (nth (form_index f) (shape_alts sh) []))).
  - apply in_map. apply nth_In. destruct sh; [congruence | |]; destruct f; cbn; lia.
  - apply (reads_form C P (module_text d) HM sh f Hsh Hf).
Qed.

Lemma form_matches d sh C P f at0 t :
  corejs d = true -> wf_entry d = true ->
  name_shape (p_name d) = Some (sh, C, P) -> sh <> Global ->
  valid_form f = true ->
  bt (entry_body d) (MState at0 (signature_text sh C P (module_text d) f ++ t) []) Some
  <> None.
Proof.
  intros Hc Hw Hs Hsh Hf.
  apply (bt_complete _ _ t); [apply accepts_form; assumption|].
  apply (entry_body_structure d Hc Hw).
Qed.

Lemma not_terminator_newline_len at0 c s :
  is_line_terminator c = false -> newline_len at0 (c :: s) = None.
Proof.
  intros H. cbn [newline_len].
  destruct (Ascii.eqb Str.CR c) eqn:E1; [apply Ascii.eqb_eq in E1; subst c; discriminate|].
  destruct (Ascii.eqb Str.LF c) eqn:E2; [apply Ascii.eqb_eq in E2; subst c; discriminate|].
  reflexivity.
Qed.

Lemma ident_char_not_terminator c : is_ident_char c = true -> is_line_terminator c = false.
Proof.
  intros H. apply module_char_not_terminator. unfold is_module_char. rewrite H. reflexivity.
Qed.

(** A form begins with a character that ends no line. *)
Lemma signature_first sh C P M f :
  ident C = true -> sh <> Global ->
  exists c w, signature_text sh C P M f = c :: w /\ is_line_terminator c = false.
Proof.
  intros HC Hsh. destruct C as [|c0 C]; [discriminate|].
  cbn [ident forallb] in HC. apply andb_true_iff in HC. destruct HC as [Hc0 _].
  apply ident_char_not_terminator in Hc0.
  destruct f; destruct sh; try congruence; cbn [signature_text object_text app str];
    eexists; eexists; (split; [reflexivity|]); try exact Hc0; reflexivity.
Qed.

Lemma event_at_pattern_first bodies at0 s j n :
  event_at bodies at0 s = Some (Some j, n) -> newline_len at0 s = None.
Proof.
  unfold event_at. destruct (newline_len at0 s); [discriminate | reflexivity].
Qed.

(** Where the matcher finds something at an index, a search from before
    finds something at that index or before. *)
Lemma next_event_before bodies :
  (forall b, In b bodies -> nullable b = false) ->
  forall k s idx e0,
    event_at bodies (idx + k =? 0) (skipn k s) = Some e0 ->
    exists i e, next_event bodies idx s = Some (i, e) /\ i <= idx + k
                /\ (i = idx + k -> e = e0).
Proof.
  intros Hnull. induction k as [|k IH]; intros s idx e0 H.
  - rewrite Nat.add_0_r in *. cbn [skipn] in H.
    exists idx, e0. split; [apply next_event_here; exact H | split; [lia | auto]].
  - destruct (event_at bodies (idx =? 0) s) as [e|] eqn:E.
    + exists idx, e. split; [apply next_event_here; exact E | split; [lia | lia]].
    + destruct s as [|c s].
      * cbn [skipn] in H. destruct e0 as [g n].
        apply (event_at_bound _ _ _ _ _ Hnull) in H. cbn [length] in H. lia.
      * cbn [next_event]. rewrite E. cbn [skipn] in H.
        replace (idx + S k) with (S idx + k) in * by lia.
        destruct (IH s (S idx) e0 H) as [i [e [Hn [Hi He]]]].
        exists i, e. auto.
Qed.

(** Where a pattern matches at an index [p], the loop of [match] reports
    something. *)
Lemma event_loop_finds ps bodies code p j0 n0 :
  (forall b, In b bodies -> nullable b = false) ->
  event_at bodies (p =? 0) (skipn p code) = Some (Some j0, n0) ->
  forall fuel st r,
    event_loop fuel ps bodies code st = Some r ->
    matches st <> [] \/ (seen st = [] /\ lastIndex st <= p) ->
    r <> [].
Proof.
  intros Hnull Hp. induction fuel as [|fuel IH]; intros st r H Hst; [discriminate|].
  rewrite event_loop_S in H.
  assert (forall (l : list PatternMatchResult) x, l ++ [x] <> []) as Hsnoc
    by (intros [|? ?] ?; discriminate).
  destruct Hst as [Hm | [Hseen HL]].
  - destruct (next_event bodies (lastIndex st) (skipn (lastIndex st) code))
      as [[i [g n]]|]; cbn [iterate_event] in H.
    + destruct g as [j|].
      * destruct (nth_error ps j); [|discriminate].
        destruct (existsb (Nat.eqb j) (seen st));
          (apply IH in H; [exact H|]); left; cbn [matches]; auto.
      * apply IH in H; [exact H|]. left. exact Hm.
    + injection H as <-. exact Hm.
  - destruct (next_event_before bodies Hnull (p - lastIndex st)
                (skipn (lastIndex st) code) (lastIndex st) (Some j0, n0))
      as [i [e [Hn [Hi He]]]].
    { rewrite skipn_skipn. replace (lastIndex st + (p - lastIndex st)) with p by lia.
      replace (p - lastIndex st + lastIndex st) with p by lia. exact Hp. }
    rewrite Hn in H. destruct e as [g n]. cbn [iterate_event] in H.
    destruct g as [j|].
    + destruct (nth_error ps j); [|discriminate]. rewrite Hseen in H. cbn [existsb] in H.
      apply IH in H; [exact H|]. left. cbn [matches]. auto.
    + apply IH in H; [exact H|]. right. cbn [seen lastIndex]. split; [exact Hseen|].
      assert (i <> p) as Hip.
      { intros ->. replace (lastIndex st + (p - lastIndex st)) with p in He by lia.
        specialize (He eq_refl). discriminate. }
      pose proof (next_event_newline _ _ _ _ _ Hn) as [-> | [H0 Hcr]]; [lia|].
      pose proof (next_event_ge _ _ _ _ _ Hn) as Hge.
      pose proof (next_event_bound _ _ _ _ _ _ Hnull Hn) as [_ [_ [Hend _]]].
      rewrite H0 in *. cbn [skipn] in *.
      unfold starts_with_crlf in Hcr.
      destruct code as [|a [|b code]]; cbn [Str.startsWith] in Hcr;
        rewrite ?andb_false_r in Hcr; try discriminate.
      apply andb_true_iff in Hcr. destruct Hcr as [Ha Hb'].
      apply andb_true_iff in Hb'. destruct Hb' as [Hb' _].
      apply Ascii.eqb_eq in Ha, Hb'. subst a b.
      assert (i = 0) as ->.
      { cbn [next_event Nat.eqb] in Hn.
        change (event_at bodies true (Str.CR :: Str.LF :: code)) with (Some (@None nat, 2)) in Hn.
        injection Hn as Hi0 _. lia. }
      assert (n = 2) as ->.
      { cbn [next_event Nat.eqb] in Hn.
        change (event_at bodies true (Str.CR :: Str.LF :: code)) with (Some (@None nat, 2)) in Hn.
        injection Hn as Hn2. lia. }
      destruct p as [|[|p]]; [lia | | lia].
      cbn [skipn Nat.eqb] in Hp. apply event_at_pattern_first in Hp. discriminate.
Qed.

(** A text that holds what the pattern of an entry reads has a match. *)
Lemma accepted_found data d pre c w t :
  wf_catalog data ->
  In d data -> corejs d = true ->
  is_line_terminator c = false ->
  accepts (entry_body d) (c :: w ++ t) t ->
  exists m found,
    audit_matcher data = Some m
    /\ matcher_match m (pre ++ c :: w ++ t) = Some found
    /\ found <> [].
Proof.
  intros Hwf Hd Hc Hc0 Hacc.
  destruct (audit_matcher_exists data Hwf) as [m Hm].
  pose proof (audit_scans data Hwf _ Hm) as Hs.
  set (code := pre ++ c :: w ++ t) in *.
  destruct (match_total m _ code Hs) as [found Hfound].
  pose proof (wf_catalog_In _ _ Hwf Hd) as Hw.
  set (p := length pre).
  assert (skipn p code = c :: w ++ t) as Hskip.
  { unfold code, p. rewrite skipn_app, skipn_all, Nat.sub_diag. reflexivity. }
  assert (newline_len (p =? 0) (skipn p code) = None) as Hnl.
  { rewrite Hskip. apply not_terminator_newline_len. exact Hc0. }
  assert (bt (entry_body d) (MState (p =? 0) (skipn p code) []) Some <> None) as Hbt.
  { rewrite Hskip. apply (bt_complete _ _ t); [exact Hacc|].
    apply (entry_body_structure d Hc Hw). }
  destruct (audit_event_exists data d _ _ Hd Hc Hbt Hnl) as [j [st' [_ Hev]]].
  exists m, found. split; [exact Hm|]. split; [exact Hfound|].
  pose proof Hfound as Hloop. unfold matcher_match in Hloop.
  rewrite (match_loop_event _ _ _ Hs) in Hloop by (cbn; lia).
  refine (event_loop_finds _ _ _ p j _ _ Hev _ _ _ Hloop _).
  - intros b Hb. apply Hs. exact Hb.
  - right. cbn [initial_state seen lastIndex]. split; [reflexivity | lia].
Qed.

(** A text that holds a form of the signature of an entry has a match. *)
Lemma signature_found data d sh C P f pre t :
  wf_catalog data ->
  In d data -> corejs d = true ->
  name_shape (p_name d) = Some (sh, C, P) -> sh <> Global ->
  valid_form f = true ->
  exists m found,
    audit_matcher data = Some m
    /\ matcher_match m (pre ++ signature_text sh C P (module_text d) f ++ t) = Some found
    /\ found <> []
    /\ pre ++ signature_text sh C P (module_text d) f ++ t <> [].
Proof.
  intros Hwf Hd Hc Hsh Hobj Hf.
  pose proof (wf_catalog_In _ _ Hwf Hd) as Hw.
  destruct (name_shape_ident _ _ _ _ Hsh) as [HC _].
  destruct (signature_first sh C P (module_text d) f HC Hobj) as [c [w [Hsig Hc0]]].
  pose proof (accepts_form d sh C P f t Hc Hw Hsh Hobj Hf) as Hacc.
  rewrite Hsig in *. cbn [app] in *.
  destruct (accepted_found data d pre c w t Hwf Hd Hc Hc0 Hacc) as [m [found [Hm [Hf' Hne]]]].
  exists m, found. split; [exact Hm|]. split; [exact Hf'|]. split; [exact Hne|].
  destruct pre; discriminate.
Qed.

(** The dot inside the object of a pattern reads any character of a
    line. *)
Lemma accepts_wildcard d C P x gap y t :
  corejs d = true -> wf_entry d = true ->
  name_shape (p_name d) = Some (Proto, C, P) ->
  is_line_terminator x = false -> is_gap gap = true -> Ascii.eqb y "=" = false ->
  accepts (entry_body d)
          ((C ++ x :: str "prototype." ++ P ++ gap ++ str "=" ++ [y]) ++ t) t.
Proof.
  intros Hc Hw Hs Hx Hg Hy. unfold wf_entry in Hw. rewrite Hc, Hs in Hw.
  destruct (wf_module_chars _ Hw) as [HM _].
  unfold entry_body. rewrite Hs. unfold inst.
  apply (accepts_alts_intro _ (inst_alt C P (module_text d)
                                 (nth 0 (shape_alts Proto) []))).
  - apply in_map. left. reflexivity.
  - cbn [nth shape_alts object_items app].
    assert (reads_text
              (flat_map (inst_item C P (module_text d))
                 [HoleC; T ".prototype"; T "\."; HoleP; T "\s?=[^=]"])
              (C ++ (x :: str "prototype") ++ str "." ++ P ++ gap ++ str "=" ++ [y])) as H.
    { apply reads_items_cons; [apply reads_HoleC|].
      apply reads_items_cons.
      - apply reads_Text.
        replace (chunk_terms (str ".prototype"))
          with (Dot :: map Char (str "prototype")) by (vm_compute; reflexivity).
        cbn [spells single first_char map str Str.lit list_ascii_of_string andb].
        rewrite Hx. reflexivity.
      - apply reads_items_cons; [apply reads_Text; reflexivity|].
        apply reads_items_cons; [apply reads_HoleP|].
        apply reads_items_last. apply reads_assign_tail; assumption. }
    specialize (H t). unfold inst_alt. exact H.
Qed.

End DetectionFacts.

Import DetectionFacts.

Module SourceFacts.

Lemma endsWith_spec p s : Str.endsWith p s = true <-> exists pre, s = pre ++ p.
Proof.
  unfold Str.endsWith. rewrite StrFacts.startsWith_spec. split.
  - intros [r Hr]. exists (rev r).
    rewrite <- (rev_involutive s), Hr, rev_app_distr, rev_involutive. reflexivity.
  - intros [pre ->]. exists (rev pre). apply rev_app_distr.
Qed.

Lemma includes_spec p s :
  Str.includes p s = true <-> exists pre post, s = pre ++ p ++ post.
Proof.
  induction s as [|c s IH]; cbn [Str.includes].
  - rewrite orb_false_r, StrFacts.startsWith_spec. split.
    + intros [r Hr]. exists [], r. exact Hr.
    + intros [pre [post H]]. destruct pre; [exists post; exact H | discriminate].
  - rewrite orb_true_iff, StrFacts.startsWith_spec, IH. split.
    + intros [[r Hr] | [pre [post Hr]]].
      * exists [], r. exact Hr.
      * exists (c :: pre), post. rewrite Hr. reflexivity.
    + intros [[|a pre] [post H]].
      * left. exists post. exact H.
      * right. injection H as _ H. exists pre, post. exact H.
Qed.

(** The sources that name a module of an entry. *)
Lemma source_matches_spec mods source :
  source_matches mods source = true <->
  exists module, In module mods
    /\ ((exists pre, source = pre ++ str "/" ++ module ++ str ".js")
        \/ exists pre post, source = pre ++ (str "node_modules/" ++ module ++ str "/") ++ post).
Proof.
  unfold source_matches. rewrite existsb_exists. split.
  - intros [module [Hin H]]. exists module. split; [exact Hin|].
    apply orb_true_iff in H. destruct H as [H | H].
    + left. apply endsWith_spec in H. exact H.
    + right. apply includes_spec in H. exact H.
  - intros [module [Hin H]]. exists module. split; [exact Hin|].
    apply orb_true_iff. destruct H as [H | H].
    + left. apply endsWith_spec. exact H.
    + right. apply includes_spec. exact H.
Qed.

(** What one catalog entry appends comes from a source of the map that
    names one of its modules. *)
Lemma correlate_entry_sound bundle found d :
  correlate_entry bundle found d = found
  \/ (~ In (p_name d) (map m_name found)
      /\ exists source,
           find (source_matches (modules d)) (sources bundle) = Some source
           /\ source <> []
           /\ correlate_entry bundle found d
              = found ++ [{| m_name := p_name d;
                             line := fst (mapped_location bundle source);
                             column := snd (mapped_location bundle source) |}]).
Proof.
  destruct (existsb (names_match (p_name d)) found) eqn:E.
  - left. unfold correlate_entry. rewrite E. reflexivity.
  - destruct (find (source_matches (modules d)) (sources bundle)) as [source|] eqn:Es.
    + right. split; [apply names_match_none; exact E|].
      exists source. split; [reflexivity|]. split.
      * intros ->. apply find_some in Es. rewrite source_matches_nil in Es.
        destruct Es; discriminate.
      * apply correlate_entry_adds; [apply names_match_none; exact E | exact Es].
    + left. unfold correlate_entry. rewrite E, Es. reflexivity.
Qed.

Lemma correlate_sound data bundle : forall found,
  exists added,
    correlate data bundle found = found ++ added
    /\ forall x, In x added ->
         exists d source,
           In d data /\ m_name x = p_name d
           /\ find (source_matches (modules d)) (sources bundle) = Some source
           /\ source <> []
           /\ line x = fst (mapped_location bundle source)
           /\ column x = snd (mapped_location bundle source).
Proof.
  unfold correlate. induction data as [|d data IH]; intros found; cbn [fold_left].
  - exists []. rewrite app_nil_r. split; [reflexivity | intros x []].
  - destruct (correlate_entry_sound bundle found d) as [-> | [_ [source [Hs [Hne ->]]]]].
    + destruct (IH found) as [added [-> Hadd]]. exists added. split; [reflexivity|].
      intros x Hx. destruct (Hadd x Hx) as [d0 [s0 [Hd0 H]]].
      exists d0, s0. split; [right; exact Hd0 | exact H].
    + destruct (IH (found ++ [{| m_name := p_name d;
                                 line := fst (mapped_location bundle source);
                                 column := snd (mapped_location bundle source) |}]))
        as [added [-> Hadd]].
      eexists (_ :: added). rewrite <- app_assoc. split; [reflexivity|].
      intros x [<- | Hx].
      * exists d, source. cbn [m_name line column]. repeat split; auto. left. reflexivity.
      * destruct (Hadd x Hx) as [d0 [s0 [Hd0 H]]].
        exists d0, s0. split; [right; exact Hd0 | exact H].
Qed.

End SourceFacts.

Module OrderFacts.

(** What one transform match adds to the estimate. *)
Lemma add_transform_delta script acc r :
  add_transform script acc r
  = add acc (Num (match non_empty (content script) with
                  | Some code => transform_estimate code r
                  | None => 0%Z
                  end)).
Proof.
  assert (forall a, a = add a (Num 0)) as Hz.
  { intros [z|]; simpl; [f_equal; lia | reflexivity]. }
  unfold add_transform, transform_estimate.
  destruct (find _ getTransformPatterns) as [p|];
    [|destruct (non_empty (content script)); apply Hz].
  destruct (estimateBytes p) as [f|];
    [|destruct (non_empty (content script)); apply Hz].
  destruct (non_empty (content script)); [reflexivity | apply Hz].
Qed.


Lemma transforms_sum script rs : forall a,
  fold_left (add_transform script) rs (Num a)
  = Num (a + fold_right (fun r acc => delta script r + acc) 0 rs)%Z.
Proof.
  induction rs as [|r rs IH]; intros a; cbn [fold_left fold_right].
  - f_equal. lia.
  - rewrite add_transform_delta. cbn [add]. fold (delta script r). rewrite IH.
    f_equal. lia.
Qed.

Lemma delta_sum_perm script rs rs' :
  Permutation rs rs' ->
  fold_right (fun r acc => delta script r + acc)%Z 0%Z rs
  = fold_right (fun r acc => delta script r + acc)%Z 0%Z rs'.
Proof. induction 1; cbn [fold_right]; lia. Qed.



Lemma filter_perm {A} (f : A -> bool) l l' :
  Permutation l l' -> Permutation (filter f l) (filter f l').
Proof.
  induction 1; cbn [filter].
  - constructor.
  - destruct (f x); [constructor|]; assumption.
  - destruct (f x), (f y); try apply Permutation_refl. constructor.
  - eapply Permutation_trans; eassumption.
Qed.

Lemma dependency_union_perm graph rs rs' :
  Permutation rs rs' ->
  Permutation (dependency_union graph rs) (dependency_union graph rs').
Proof.
  intros H. unfold dependency_union.
  apply NoDup_Permutation; try apply NoDup_nodup.
  intros j. rewrite !nodup_In, !in_flat_map. split; intros [r [Hr Hj]]; exists r; split; auto.
  - apply (Permutation_in _ H). exact Hr.
  - apply (Permutation_in _ (Permutation_sym H)). exact Hr.
Qed.


Lemma existsb_perm {A} (f : A -> bool) l l' :
  Permutation l l' -> existsb f l = existsb f l'.
Proof.
  induction 1; cbn [existsb]; try congruence.
  - destruct (f x), (f y); reflexivity.
Qed.

Lemma names_inherited_perm graph found found' :
  Permutation found found' ->
  names_inherited graph found = names_inherited graph found'.
Proof. intros H. apply existsb_perm. apply filter_perm. exact H. Qed.


Lemma transform_total_perm script found found' :
  Permutation found found' ->
  transform_total script found = transform_total script found'.
Proof.
  intros H. unfold transform_total. apply (filter_perm is_transform) in H.
  induction H; cbn [fold_right]; lia.
Qed.

Lemma count_split_zero sep s :
  sep <> [] -> (Str.count_split sep s = 0 <-> Str.includes sep s = false).
Proof.
  intros Hsep. unfold Str.count_split. induction s as [|c s IH].
  - cbn [Str.count_split_from Str.includes]. rewrite orb_false_r.
    destruct sep; [congruence|]. cbn [Str.startsWith]. tauto.
  - cbn [Str.count_split_from Str.includes].
    destruct (Str.startsWith sep (c :: s)); cbn [orb].
    + split; discriminate.
    + exact IH.
Qed.

End OrderFacts.

Import SourceFacts OrderFacts.

Module SearchFacts.

(** [exec] finds nothing when the expression matches at no index. *)
Lemma exec_scan_None r : forall s idx,
  exec_scan r idx s = None <->
  forall k, k <= length s -> bt r (MState (idx + k =? 0) (skipn k s) []) Some = None.
Proof.
  induction s as [|c s IH]; intros idx; cbn [exec_scan]; unfold exec_at.
  - destruct (bt r (MState (idx =? 0) [] []) Some) eqn:E.
    + split; [discriminate|]. intros H. specialize (H 0 (le_n _)).
      rewrite Nat.add_0_r in H. cbn [skipn] in H. congruence.
    + split; [|reflexivity]. intros _ k Hk. cbn [length] in Hk.
      assert (k = 0) as -> by lia. rewrite Nat.add_0_r. exact E.
  - destruct (bt r (MState (idx =? 0) (c :: s) []) Some) eqn:E.
    + split; [discriminate|]. intros H. specialize (H 0 (Nat.le_0_l _)).
      rewrite Nat.add_0_r in H. cbn [skipn] in H. congruence.
    + rewrite IH. split.
      * intros H [|k] Hk; [rewrite Nat.add_0_r; exact E|].
        cbn [length] in Hk. specialize (H k (proj2 (Nat.succ_le_mono _ _) Hk)).
        rewrite Nat.add_succ_r. exact H.
      * intros H k Hk. specialize (H (S k)). cbn [length skipn] in H.
        rewrite Nat.add_succ_r in H. apply H. lia.
Qed.

(** Without an anchor, the matcher succeeds just where the expression can
    read. *)
Lemma bt_accepts r a s :
  bol_free r = true ->
  (bt r (MState a s []) Some <> None <-> exists s', accepts r s s').
Proof.
  intros Hb. split.
  - intros H. destruct (bt r (MState a s []) Some) as [x|] eqn:E; [|congruence].
    apply bt_sound in E. destruct E as [st' [Hacc _]]. exists (rest st'). exact Hacc.
  - intros [s' H]. apply (bt_complete _ _ _ _ _ H Hb).
Qed.

Lemma exec_found r s :
  bol_free r = true ->
  (exec r 0 s <> None <-> exists pre t s', s = pre ++ t /\ accepts r t s').
Proof.
  intros Hb. unfold exec. cbn [Nat.ltb Nat.leb skipn]. split.
  - intros H.
    destruct (exec_scan r 0 s) eqn:E; [clear H|congruence].
    assert (~ forall k, k <= length s ->
              bt r (MState (0 + k =? 0) (skipn k s) []) Some = None) as Hn.
    { intros Hall. apply exec_scan_None in Hall. congruence. }
    assert (exists k, k <= length s /\ bt r (MState (0 + k =? 0) (skipn k s) []) Some <> None)
      as [k [Hk Hbt]].
    { clear E. revert Hn. generalize (length s) as n. induction n as [|n IHn]; intros Hn.
      - exists 0. split; [lia|]. intros E. apply Hn. intros k Hk.
        assert (k = 0) as -> by lia. exact E.
      - destruct (bt r (MState (0 + S n =? 0) (skipn (S n) s) []) Some) eqn:E.
        + exists (S n). split; [lia|]. rewrite E. discriminate.
        + destruct IHn as [k [Hk Hbt]].
          * intros Hall. apply Hn. intros k Hk.
            destruct (Nat.eq_dec k (S n)) as [-> | Hne]; [exact E | apply Hall; lia].
          * exists k. split; [lia | exact Hbt]. }
    apply bt_accepts in Hbt; [|exact Hb]. destruct Hbt as [s' Hacc].
    exists (firstn k s), (skipn k s), s'. split; [symmetry; apply firstn_skipn | exact Hacc].
  - intros [pre [t [s' [-> Hacc]]]] E.
    destruct (exec_scan r 0 (pre ++ t)) eqn:E0; [congruence|]. clear E.
    assert (forall k, k <= length (pre ++ t) ->
              bt r (MState (0 + k =? 0) (skipn k (pre ++ t)) []) Some = None) as Hall
      by (apply exec_scan_None; exact E0).
    specialize (Hall (length pre)). rewrite skipn_app, skipn_all, Nat.sub_diag in Hall.
    cbn [skipn app] in Hall.
    refine (bt_complete _ _ _ _ _ Hacc Hb (Hall _)). rewrite length_app. lia.
Qed.

(** What a literal text followed by one class reads. *)
Lemma accepts_literal w : forall ts s s',
  accepts (seq_of (map Char w ++ ts)) s s' <->
  exists t, s = w ++ t /\ accepts (seq_of ts) t s'.
Proof.
  induction w as [|c w IH]; intros ts s s'; cbn [map app].
  - split; [intros H; exists s; auto | intros [t [-> H]]; exact H].
  - cbn [seq_of fold_right]. fold (seq_of (map Char w ++ ts)). split.
    + intros H. apply accepts_Seq_inv in H. destruct H as [s0 [Hc H]].
      apply accepts_Char_inv in Hc. apply IH in H. destruct H as [t [-> H]].
      exists t. split; [exact Hc | exact H].
    + intros [t [-> H]]. apply (A_Seq _ _ _ (w ++ t)); [apply A_Char|].
      apply IH. exists t. auto.
Qed.

Lemma accepts_class_last negated items s s' :
  accepts (seq_of [Class negated items]) s s' <->
  exists c, s = c :: s' /\ class_matches negated items c = true.
Proof.
  cbn [seq_of fold_right]. split.
  - intros H. apply accepts_Seq_inv in H. destruct H as [s0 [Hc H]].
    apply accepts_Empty_inv in H. subst s0. inversion Hc; subst. eauto.
  - intros [c [-> H]]. apply (A_Seq _ _ _ s'); [apply A_Class; exact H | apply A_Empty].
Qed.

Lemma coreJs2_parse :
  parse coreJs2_expression
  = Some (seq_of (map Char coreJs2_prefix ++ [Class false [CChar "6"; CChar "7"]])).
Proof. vm_compute. reflexivity. Qed.

Lemma matches_coreJs2_spec s :
  matches_coreJs2 s = true <->
  exists pre c post,
    s = pre ++ coreJs2_prefix ++ c :: post /\ (c = "6"%char \/ c = "7"%char).
Proof.
  unfold matches_coreJs2. rewrite coreJs2_parse.
  set (r := seq_of (map Char coreJs2_prefix ++ [Class false [CChar "6"; CChar "7"]])).
  assert (bol_free r = true) as Hb by reflexivity.
  pose proof (exec_found r s Hb) as Hex.
  assert (forall c, class_matches false [CChar "6"; CChar "7"] c = true <->
                    (c = "6"%char \/ c = "7"%char)) as Hclass.
  { intros c. unfold class_matches. cbn [existsb item_matches xorb].
    rewrite orb_false_r, orb_true_iff, !Ascii.eqb_eq. reflexivity. }
  split.
  - intros H. destruct (exec r 0 s) eqn:E; [|discriminate].
    destruct (proj1 Hex) as [pre [t [s' [-> Hacc]]]]; [discriminate|].
    apply accepts_literal in Hacc. destruct Hacc as [t0 [-> Hacc]].
    apply accepts_class_last in Hacc. destruct Hacc as [c [-> Hc]].
    exists pre, c, s'. split; [reflexivity | apply Hclass; exact Hc].
  - intros [pre [c [post [-> Hc]]]].
    destruct (exec r 0 _) eqn:E; [reflexivity|]. exfalso.
    apply (proj2 Hex); [|reflexivity].
    exists pre, (coreJs2_prefix ++ c :: post), post. split; [reflexivity|].
    apply accepts_literal. exists (c :: post). split; [reflexivity|].
    apply accepts_class_last. exists c. split; [reflexivity | apply Hclass; exact Hc].
Qed.

Lemma matches_coreJs2_includes s : matches_coreJs2 s = names_coreJs2 s.
Proof.
  apply eq_true_iff_eq. rewrite matches_coreJs2_spec. unfold names_coreJs2.
  rewrite orb_true_iff, !includes_spec. split.
  - intros [pre [c [post [-> [-> | ->]]]]]; [left | right]; exists pre, post; reflexivity.
  - intros [[pre [post ->]] | [pre [post ->]]].
    + exists pre, "6"%char, post. split; [reflexivity | left; reflexivity].
    + exists pre, "7"%char, post. split; [reflexivity | right; reflexivity].
Qed.

End SearchFacts.

Import SearchFacts.

Module RegeneratorFacts.

Lemma accepts_opt_char c ts s s' :
  accepts (seq_of (Opt (Char c) :: ts)) s s' <->
  accepts (seq_of ts) s s' \/ exists t, s = c :: t /\ accepts (seq_of ts) t s'.
Proof.
  cbn [seq_of fold_right]. fold (seq_of ts). split.
  - intros H. apply accepts_Seq_inv in H. destruct H as [s0 [Ho H]].
    inversion Ho; subst.
    + left. exact H.
    + right. match goal with Hc : accepts (Char c) _ _ |- _ => apply accepts_Char_inv in Hc; subst end.
      eexists. split; [reflexivity | exact H].
  - intros [H | [t [-> H]]].
    + apply (A_Seq _ _ _ s); [apply A_OptO | exact H].
    + apply (A_Seq _ _ _ t); [apply A_OptS; apply A_Char | exact H].
Qed.

Lemma accepts_chars_iff w s s' : accepts (seq_of (map Char w)) s s' <-> s = w ++ s'.
Proof.
  rewrite <- (app_nil_r (map Char w)), accepts_literal. cbn [seq_of fold_right]. split.
  - intros [t [-> H]]. apply accepts_Empty_inv in H. subst. reflexivity.
  - intros ->. exists s'. split; [reflexivity | apply A_Empty].
Qed.

Lemma wrap_parse : parse (str "regeneratorRuntime\(?\)?\.a?wrap") = Some wrap_regex.
Proof. vm_compute. reflexivity. Qed.

Lemma accepts_wrap s s' :
  accepts wrap_regex s s' <-> exists v, In v wrap_variants /\ s = v ++ s'.
Proof.
  unfold wrap_regex. rewrite accepts_literal. split.
  - intros [t1 [-> H]].
    apply accepts_opt_char in H.
    assert (exists o t2, In o [[]; str "("] /\ t1 = o ++ t2
              /\ accepts (seq_of (Opt (Char ")") :: map Char (str ".")
                                  ++ Opt (Char "a") :: map Char (str "wrap"))) t2 s')
      as [o [t2 [Ho [-> H2]]]].
    { destruct H as [H | [t [-> H]]].
      - exists [], t1. split; [left; reflexivity | auto].
      - exists (str "("), t. split; [right; left; reflexivity | auto]. }
    apply accepts_opt_char in H2.
    assert (exists c t3, In c [[]; str ")"] /\ t2 = c ++ t3
              /\ accepts (seq_of (map Char (str ".")
                                  ++ Opt (Char "a") :: map Char (str "wrap"))) t3 s')
      as [c [t3 [Hc [-> H3]]]].
    { destruct H2 as [H2 | [t [-> H2]]].
      - exists [], t2. split; [left; reflexivity | auto].
      - exists (str ")"), t. split; [right; left; reflexivity | auto]. }
    apply accepts_literal in H3. destruct H3 as [t4 [-> H4]].
    apply accepts_opt_char in H4.
    assert (exists a t5, In a [[]; str "a"] /\ t4 = a ++ t5
              /\ accepts (seq_of (map Char (str "wrap"))) t5 s')
      as [a [t5 [Ha [-> H5]]]].
    { destruct H4 as [H4 | [t [-> H4]]].
      - exists [], t4. split; [left; reflexivity | auto].
      - exists (str "a"), t. split; [right; left; reflexivity | auto]. }
    apply accepts_chars_iff in H5. subst t5.
    exists (str "regeneratorRuntime" ++ o ++ c ++ str "." ++ a ++ str "wrap"). split.
    + unfold wrap_variants. apply in_flat_map. exists o. split; [exact Ho|].
      apply in_flat_map. exists c. split; [exact Hc|].
      apply in_map_iff. exists a. split; [reflexivity | exact Ha].
    + rewrite <- !app_assoc. reflexivity.
  - intros [v [Hv ->]]. unfold wrap_variants in Hv.
    apply in_flat_map in Hv. destruct Hv as [o [Ho Hv]].
    apply in_flat_map in Hv. destruct Hv as [c [Hc Hv]].
    apply in_map_iff in Hv. destruct Hv as [a [<- Ha]].
    exists (o ++ c ++ str "." ++ a ++ str "wrap" ++ s').
    split; [rewrite <- !app_assoc; reflexivity|].
    apply accepts_opt_char.
    assert (accepts (seq_of (Opt (Char ")") :: map Char (str ".")
                             ++ Opt (Char "a") :: map Char (str "wrap")))
                    (c ++ str "." ++ a ++ str "wrap" ++ s') s') as H2.
    { apply accepts_opt_char.
      assert (accepts (seq_of (map Char (str ".") ++ Opt (Char "a") :: map Char (str "wrap")))
                      (str "." ++ a ++ str "wrap" ++ s') s') as H3.
      { apply accepts_literal. exists (a ++ str "wrap" ++ s'). split; [reflexivity|].
        apply accepts_opt_char.
        destruct Ha as [<- | [<- | []]].
        - left. apply accepts_chars_iff. reflexivity.
        - right. exists (str "wrap" ++ s'). split; [reflexivity|].
          apply accepts_chars_iff. reflexivity. }
      destruct Hc as [<- | [<- | []]].
      - left. exact H3.
      - right. eexists. split; [reflexivity | exact H3]. }
    destruct Ho as [<- | [<- | []]].
    + left. exact H2.
    + right. eexists. split; [reflexivity | exact H2].
Qed.

Lemma match_count_zero r content :
  match_count r content = 0 <-> exec r 0 content = None.
Proof.
  unfold match_count. cbn [match_count_fuel].
  destruct (exec r 0 content); split; congruence.
Qed.

Lemma includes_any vs s :
  existsb (fun v => Str.includes v s) vs = true <->
  exists v pre post, In v vs /\ s = pre ++ v ++ post.
Proof.
  rewrite existsb_exists. split.
  - intros [v [Hv H]]. apply includes_spec in H. destruct H as [pre [post H]].
    exists v, pre, post. auto.
  - intros [v [pre [post [Hv H]]]]. exists v. split; [exact Hv|].
    apply includes_spec. exists pre, post. exact H.
Qed.

End RegeneratorFacts.

Import RegeneratorFacts.

Import ThirdPartiesInsight.

Module SubItemFacts.

Import QArith Lqa.

Lemma compareFn_before a b : Qle_bool (compareFn a b) 0 = true <-> before a b.
Proof.
  rewrite Qle_bool_iff. unfold compareFn, before.
  destruct (Qeq_bool (u_mainThreadTime b - u_mainThreadTime a) 0) eqn:E.
  - apply Qeq_bool_iff in E. split.
    + intros H. right. split; lra.
    + intros [H | [_ H]]; lra.
  - apply Qeq_bool_neq in E. split.
    + intros H. left.
      destruct (Qlt_le_dec (u_mainThreadTime b) (u_mainThreadTime a)) as [Hlt | Hle]; [exact Hlt|].
      exfalso. apply E. lra.
    + intros [H | [H _]]; [lra | exfalso; apply E; lra].
Qed.

Lemma before_total a b : ~ before a b -> before b a.
Proof.
  unfold before. intros H.
  destruct (Qlt_le_dec (u_mainThreadTime a) (u_mainThreadTime b)) as [Hlt | Hle]; [left; exact Hlt|].
  destruct (Qlt_le_dec (u_mainThreadTime b) (u_mainThreadTime a)) as [Hlt' | Hle'].
  - exfalso. apply H. left. exact Hlt'.
  - right. split; [lra|].
    destruct (Qlt_le_dec (u_transferSize b) (u_transferSize a)) as [Ht | Ht]; [|exact Ht].
    exfalso. apply H. right. split; lra.
Qed.

Lemma before_trans a b c : before a b -> before b c -> before a c.
Proof.
  unfold before. intros [H1 | [H1 H1']] [H2 | [H2 H2']].
  - left. lra.
  - left. lra.
  - left. lra.
  - right. split; lra.
Qed.

Lemma insert_perm x l : Permutation (insert x l) (x :: l).
Proof.
  induction l as [|y l IH]; cbn [insert]; [apply Permutation_refl|].
  destruct (Qle_bool (compareFn x y) 0); [apply Permutation_refl|].
  eapply Permutation_trans; [apply perm_skip; exact IH | apply perm_swap].
Qed.

Lemma sort_perm l : Permutation (sort l) l.
Proof.
  induction l as [|x l IH]; cbn [sort fold_right]; [constructor|].
  eapply Permutation_trans; [apply insert_perm | apply perm_skip; exact IH].
Qed.

Lemma insert_sorted x l :
  Sorted.StronglySorted before l -> Sorted.StronglySorted before (insert x l).
Proof.
  induction 1 as [|y l Hs IH Hy]; cbn [insert].
  - constructor; constructor.
  - destruct (Qle_bool (compareFn x y) 0) eqn:E.
    + apply compareFn_before in E. constructor; [constructor; assumption|].
      constructor; [exact E|].
      rewrite Forall_forall in *. intros z Hz. apply (before_trans _ y); auto.
    + assert (before y x) as Hyx.
      { apply before_total. intros H. apply compareFn_before in H. congruence. }
      constructor; [exact IH|].
      rewrite Forall_forall in *. intros z Hz.
      apply (Permutation_in _ (insert_perm x l)) in Hz.
      destruct Hz as [<- | Hz]; auto.
Qed.

Lemma sort_sorted l : Sorted.StronglySorted before (sort l).
Proof.
  induction l as [|x l IH]; cbn [sort fold_right]; [constructor|].
  apply insert_sorted. exact IH.
Qed.

Lemma tied_sym_trans x y z :
  tied x y = true -> tied x z = tied y z.
Proof.
  unfold tied, compareFn. intros H.
  assert (u_mainThreadTime y == u_mainThreadTime x /\ u_transferSize y == u_transferSize x) as [H1 H2].
  { destruct (Qeq_bool (u_mainThreadTime y - u_mainThreadTime x) 0) eqn:E.
    - apply Qeq_bool_iff in E. apply Qeq_bool_iff in H. split; lra.
    - apply Qeq_bool_neq in E. apply Qeq_bool_iff in H. exfalso. apply E. exact H. }
  assert (forall p q p' q', p == p' -> q == q' ->
            Qeq_bool (if Qeq_bool p 0 then q else p) 0
            = Qeq_bool (if Qeq_bool p' 0 then q' else p') 0) as Hc.
  { intros p q p' q' Hp Hq.
    assert (Qeq_bool p 0 = Qeq_bool p' 0) as E.
    { destruct (Qeq_bool p 0) eqn:E1, (Qeq_bool p' 0) eqn:E2; try reflexivity.
      - apply Qeq_bool_iff in E1. apply Qeq_bool_neq in E2. exfalso. apply E2. lra.
      - apply Qeq_bool_iff in E2. apply Qeq_bool_neq in E1. exfalso. apply E1. lra. }
    rewrite E. destruct (Qeq_bool p' 0) eqn:E2.
    - destruct (Qeq_bool q 0) eqn:E3, (Qeq_bool q' 0) eqn:E4; try reflexivity.
      + apply Qeq_bool_iff in E3. apply Qeq_bool_neq in E4. exfalso. apply E4. lra.
      + apply Qeq_bool_iff in E4. apply Qeq_bool_neq in E3. exfalso. apply E3. lra.
    - rewrite E, E2. reflexivity. }
  apply Hc; lra.
Qed.

Lemma insert_tied x : forall l z,
  filter (tied z) (insert x l) = filter (tied z) (x :: l).
Proof.
  induction l as [|y l IH]; intros z; cbn [insert]; [reflexivity|].
  destruct (Qle_bool (compareFn x y) 0) eqn:E; [reflexivity|].
  cbn [filter]. rewrite IH. cbn [filter].
  destruct (tied z y) eqn:Ey, (tied z x) eqn:Ex; try reflexivity.
  exfalso.
  assert (tied y x = true) as Hyx.
  { rewrite <- (tied_sym_trans z y x Ey). exact Ex. }
  assert (tied x y = true) as Hxy.
  { pose proof (tied_sym_trans y x y Hyx) as H1. rewrite <- H1.
    unfold tied, compareFn. apply Qeq_bool_iff.
    destruct (Qeq_bool (u_mainThreadTime y - u_mainThreadTime y) 0) eqn:E0.
    - lra.
    - apply Qeq_bool_neq in E0. exfalso. apply E0. lra. }
  unfold tied in Hxy. apply Qeq_bool_iff in Hxy.
  assert (Qle_bool (compareFn x y) 0 = true); [|congruence].
  apply Qle_bool_iff. lra.
Qed.

Lemma sort_stable l z : filter (tied z) (sort l) = filter (tied z) l.
Proof.
  induction l as [|x l IH]; cbn [sort fold_right]; [reflexivity|].
  fold (sort l). rewrite insert_tied. cbn [filter]. rewrite IH. reflexivity.
Qed.

End SubItemFacts.

Import SubItemFacts.

Import Generator.

Module GeneratorFacts.

Lemma toUpperCase_ident c : is_ident_char c = true -> is_ident_char (toUpperCase c) = true.
Proof.
  destruct c as [[] [] [] [] [] [] [] []]; vm_compute; intros H; try reflexivity; discriminate.
Qed.

Lemma ident_not_dot c : is_ident_char c = true -> Ascii.eqb c "." = false.
Proof.
  destruct c as [[] [] [] [] [] [] [] []]; vm_compute; intros H; try reflexivity; discriminate.
Qed.

Lemma kebab_camel_length n : forall s,
  length s <= n -> kebab s = true -> forallb is_ident_char (kebabCaseToCamelCase s) = true.
Proof.
  induction n as [|n IH]; intros [|c t] Hn H; try reflexivity; [cbn in Hn; lia|].
  cbn [length] in Hn. cbn [kebab] in H. cbn [kebabCaseToCamelCase].
  destruct (Ascii.eqb c "-").
  - destruct t as [|d t']; [discriminate|].
    apply andb_true_iff in H. destruct H as [Hd Ht]. rewrite Hd.
    cbn [forallb]. rewrite (toUpperCase_ident _ Hd). cbn [andb].
    apply IH; [cbn [length] in Hn; lia|].
    cbn [kebab] in Ht.
    assert (Ascii.eqb d "-" = false) as E.
    { destruct d as [[] [] [] [] [] [] [] []]; vm_compute in Hd; try discriminate; reflexivity. }
    rewrite E in Ht. apply andb_true_iff in Ht. apply Ht.
  - apply andb_true_iff in H. destruct H as [Hc Ht].
    cbn [forallb]. rewrite Hc. cbn [andb]. apply IH; [lia | exact Ht].
Qed.

Lemma kebab_camel s :
  kebab s = true -> forallb is_ident_char (kebabCaseToCamelCase s) = true.
Proof. apply (kebab_camel_length (length s)). apply le_n. Qed.

Lemma camel_nonempty s : s <> [] -> kebabCaseToCamelCase s <> [].
Proof.
  destruct s as [|c t]; [congruence|]. intros _. cbn [kebabCaseToCamelCase].
  destruct (Ascii.eqb c "-"); [|discriminate].
  destruct t as [|d t']; [discriminate|]. destruct (is_ident_char d); discriminate.
Qed.

Lemma ident_forallb s : s <> [] -> forallb is_ident_char s = true -> ident s = true.
Proof. destruct s; [congruence|]. intros _ H. exact H. Qed.

Lemma kebab_camel_ident s : s <> [] -> kebab s = true -> ident (kebabCaseToCamelCase s) = true.
Proof.
  intros Hs Hk. apply ident_forallb; [apply camel_nonempty; exact Hs | apply kebab_camel; exact Hk].
Qed.

Lemma class_name_ident part0 C :
  kebab part0 = true -> class_name part0 = Some C -> ident C = true.
Proof.
  intros Hk. unfold class_name.
  pose proof (kebab_camel _ Hk) as Hc.
  destruct (kebabCaseToCamelCase part0) as [|c cs]; [discriminate|].
  cbn [forallb] in Hc. apply andb_true_iff in Hc. destruct Hc as [Hc Hcs].
  destruct (Str.eqb part0 (str "url")); [intros [= <-]; reflexivity|].
  destruct (Str.eqb part0 (str "json")); [intros [= <-]; reflexivity|].
  intros [= <-]. cbn [ident forallb]. rewrite (toUpperCase_ident _ Hc). exact Hcs.
Qed.

Lemma prop_name_ident part1 rest_parts :
  kebab part1 = true -> part1 <> [] -> ident (prop_name (part1 :: rest_parts)) = true.
Proof.
  intros Hk Hne. unfold prop_name.
  destruct (Str.eqb part1 (str "to-json")); [reflexivity|].
  apply kebab_camel_ident; assumption.
Qed.

(** Splitting at the dots a text that starts with a word. *)
Lemma split_word w :
  forallb is_ident_char w = true -> Str.split "." w = [w].
Proof.
  induction w as [|c w IH]; intros H; [reflexivity|].
  cbn [forallb] in H. apply andb_true_iff in H. destruct H as [Hc Hw].
  cbn [Str.split]. rewrite (ident_not_dot _ Hc), (IH Hw). reflexivity.
Qed.

Lemma split_word_dot w t :
  forallb is_ident_char w = true ->
  Str.split "." (w ++ "."%char :: t) = w :: Str.split "." t.
Proof.
  induction w as [|c w IH]; intros H.
  - cbn [app Str.split]. rewrite Ascii.eqb_refl. reflexivity.
  - cbn [forallb] in H. apply andb_true_iff in H. destruct H as [Hc Hw].
    cbn [app Str.split]. rewrite (ident_not_dot _ Hc), (IH Hw). reflexivity.
Qed.

Lemma name_shape_global C : ident C = true -> name_shape C = Some (Global, str "window", C).
Proof.
  intros H. unfold name_shape. rewrite (split_word _ (ident_chars _ H)), H. reflexivity.
Qed.

Lemma name_shape_static C P :
  ident C = true -> ident P = true ->
  name_shape (C ++ str "." ++ P) = Some (Static, C, P).
Proof.
  intros HC HP. unfold name_shape.
  change (C ++ str "." ++ P) with (C ++ "."%char :: P).
  rewrite (split_word_dot _ _ (ident_chars _ HC)), (split_word _ (ident_chars _ HP)), HC, HP.
  reflexivity.
Qed.

Lemma name_shape_proto C P :
  ident C = true -> ident P = true ->
  name_shape (C ++ str ".prototype." ++ P) = Some (Proto, C, P).
Proof.
  intros HC HP. unfold name_shape.
  change (C ++ str ".prototype." ++ P) with (C ++ "."%char :: str "prototype" ++ "."%char :: P).
  rewrite (split_word_dot _ _ (ident_chars _ HC)).
  rewrite (split_word_dot (str "prototype") P eq_refl).
  rewrite (split_word _ (ident_chars _ HP)), HC, HP. reflexivity.
Qed.

Lemma kebab_module_chars s : kebab s = true -> forallb is_module_char s = true.
Proof.
  induction s as [|c t IH]; intros H; [reflexivity|].
  cbn [kebab] in H. cbn [forallb].
  destruct (Ascii.eqb c "-") eqn:E.
  - apply Ascii.eqb_eq in E. subst c.
    destruct t as [|d t']; [discriminate|].
    apply andb_true_iff in H. destruct H as [_ H]. rewrite (IH H). reflexivity.
  - apply andb_true_iff in H. destruct H as [Hc H].
    rewrite (ident_module_char _ Hc), (IH H). reflexivity.
Qed.

Lemma split_module_chars s :
  forallb (fun p => forallb is_module_char p) (Str.split "." s) = true ->
  forallb is_module_char s = true.
Proof.
  induction s as [|c s IH]; intros H; [reflexivity|].
  cbn [Str.split] in H. cbn [forallb].
  destruct (Ascii.eqb c ".") eqn:E.
  - apply Ascii.eqb_eq in E. subst c. cbn [forallb] in H. rewrite (IH H). reflexivity.
  - destruct (Str.split "." s) as [|w ws].
    + cbn [forallb] in H. rewrite andb_true_r in H. apply andb_true_iff in H.
      destruct H as [Hc _]. rewrite Hc. apply IH. reflexivity.
    + cbn [forallb] in H. apply andb_true_iff in H. destruct H as [H Hws].
      apply andb_true_iff in H. destruct H as [Hc Hw]. rewrite Hc. apply IH.
      cbn [forallb]. rewrite Hw, Hws. reflexivity.
Qed.

Lemma module_name_wf name : module_name_ok name = true -> wf_module name = true.
Proof.
  unfold module_name_ok. intros H.
  assert (forallb is_module_char name = true) as Hall.
  { apply split_module_chars.
    destruct (Str.split "." name) as [|prefix parts]; [discriminate|].
    apply andb_true_iff in H. destruct H as [H Hparts].
    apply andb_true_iff in H. destruct H as [Hp _].
    cbn [forallb]. rewrite (kebab_module_chars _ Hp). cbn [andb].
    apply forallb_forall. intros p Hin.
    rewrite forallb_forall in Hparts. specialize (Hparts p Hin).
    apply andb_true_iff in Hparts. apply kebab_module_chars. apply Hparts. }
  destruct name as [|c name]; [|exact Hall].
  cbn in H. discriminate.
Qed.

Lemma module_name_parts name part0 rest_parts :
  module_name_ok name = true ->
  skipn 1 (Str.split "." name) = part0 :: rest_parts ->
  kebab part0 = true /\ part0 <> []
  /\ match rest_parts with
     | part1 :: _ => kebab part1 = true /\ part1 <> []
     | [] => True
     end.
Proof.
  unfold module_name_ok. destruct (Str.split "." name) as [|prefix parts]; [discriminate|].
  cbn [skipn]. intros H ->. apply andb_true_iff in H. destruct H as [_ H].
  cbn [forallb] in H. apply andb_true_iff in H. destruct H as [H0 H].
  apply andb_true_iff in H0. destruct H0 as [Hk Hn].
  split; [exact Hk|]. split.
  - intros ->. discriminate.
  - destruct rest_parts as [|part1 r]; [exact I|].
    cbn [forallb] in H. apply andb_true_iff in H. destruct H as [H1 _].
    apply andb_true_iff in H1. destruct H1 as [Hk1 Hn1].
    split; [exact Hk1|]. intros ->. discriminate.
Qed.

(** The entry of a module: its name has one of the three shapes, with
    the class and the property that the script derived. *)
Lemma entry_of_shape rt name d :
  module_name_ok name = true ->
  entry_of rt name = Some d ->
  corejs d = true /\ modules d = [name]
  /\ exists part0 rest_parts C,
       skipn 1 (Str.split "." name) = part0 :: rest_parts
       /\ class_name part0 = Some C
       /\ match rest_parts with
          | [] => global_truthy rt C = true
                  /\ name_shape (p_name d) = Some (Global, str "window", C)
          | _ :: _ =>
              (instance_has rt C (prop_name rest_parts) = true
               /\ name_shape (p_name d) = Some (Proto, C, prop_name rest_parts))
              \/ (instance_has rt C (prop_name rest_parts) = false
                  /\ global_truthy rt C = true /\ has_own rt C (prop_name rest_parts) = true
                  /\ name_shape (p_name d) = Some (Static, C, prop_name rest_parts))
          end.
Proof.
  intros Hok. unfold entry_of.
  destruct (skipn 1 (Str.split "." name)) as [|part0 rest_parts] eqn:Eparts; [discriminate|].
  destruct (module_name_parts _ _ _ Hok Eparts) as [Hk0 [Hn0 Hrest]].
  destruct (class_name part0) as [C|] eqn:EC; [|discriminate].
  pose proof (class_name_ident _ _ Hk0 EC) as HC.
  destruct rest_parts as [|part1 r].
  - destruct (global_truthy rt C) eqn:Eg; [|discriminate]. intros [= <-].
    cbn [corejs modules p_name]. split; [reflexivity|]. split; [reflexivity|].
    exists part0, [], C. split; [reflexivity|]. split; [exact EC|].
    split; [exact Eg|]. apply name_shape_global. exact HC.
  - destruct Hrest as [Hk1 Hn1].
    pose proof (prop_name_ident part1 r Hk1 Hn1) as HP.
    destruct (instance_has rt C (prop_name (part1 :: r))) eqn:Ei.
    + intros [= <-]. cbn [corejs modules p_name]. split; [reflexivity|]. split; [reflexivity|].
      exists part0, (part1 :: r), C. split; [reflexivity|]. split; [exact EC|].
      left. split; [exact Ei|]. apply name_shape_proto; assumption.
    + destruct (global_truthy rt C) eqn:Eg; [|discriminate].
      destruct (has_own rt C (prop_name (part1 :: r))) eqn:Eh; [|discriminate].
      intros [= <-]. cbn [corejs modules p_name]. split; [reflexivity|]. split; [reflexivity|].
      exists part0, (part1 :: r), C. split; [reflexivity|]. split; [exact EC|].
      right. split; [exact Ei|]. split; [exact Eg|]. split; [exact Eh|].
      apply name_shape_static; assumption.
Qed.

Lemma entry_of_wf rt name d :
  module_name_ok name = true -> entry_of rt name = Some d -> wf_entry d = true.
Proof.
  intros Hok H. destruct (entry_of_shape rt name d Hok H)
    as [Hc [Hm [part0 [rest_parts [C [_ [_ Hshape]]]]]]].
  unfold wf_entry, module_text. rewrite Hc, Hm. cbn [nth_error template_value].
  destruct rest_parts.
  - destruct Hshape as [_ ->]. apply module_name_wf. exact Hok.
  - destruct Hshape as [[_ ->] | [_ [_ [_ ->]]]]; apply module_name_wf; exact Hok.
Qed.

(** What the loop adds to the data. *)
Lemma generate_loop_adds rt : forall compat data result,
  generate_loop rt compat data = Some result ->
  exists added,
    result = data ++ added
    /\ forall d, In d added ->
         exists name, In name compat
           /\ existsb (Str.eqb name) modulesToSkip = false
           /\ entry_of rt name = Some d.
Proof.
  induction compat as [|name compat IH]; intros data result H; cbn [generate_loop] in H.
  - injection H as <-. exists []. rewrite app_nil_r. split; [reflexivity | intros d []].
  - destruct (existsb (fun d => existsb (Str.eqb name) (modules d)) data).
    { destruct (IH _ _ H) as [added [-> Hadd]]. exists added. split; [reflexivity|].
      intros d Hd. destruct (Hadd d Hd) as [n [Hn H']]. exists n. split; [right; exact Hn | exact H']. }
    destruct (existsb (Str.eqb name) modulesToSkip) eqn:Eskip.
    { destruct (IH _ _ H) as [added [-> Hadd]]. exists added. split; [reflexivity|].
      intros d Hd. destruct (Hadd d Hd) as [n [Hn H']]. exists n. split; [right; exact Hn | exact H']. }
    destruct (entry_of rt name) as [d0|] eqn:Ed; [|discriminate].
    destruct (IH _ _ H) as [added [-> Hadd]]. exists (d0 :: added).
    rewrite <- app_assoc. split; [reflexivity|].
    intros d [<- | Hd].
    + exists name. split; [left; reflexivity|]. split; [exact Eskip | exact Ed].
    + destruct (Hadd d Hd) as [n [Hn H']]. exists n. split; [right; exact Hn | exact H'].
Qed.

Lemma camel_no_hyphen s :
  existsb (Ascii.eqb "-") s = false -> kebabCaseToCamelCase s = s.
Proof.
  induction s as [|c t IH]; intros H; [reflexivity|].
  cbn [existsb] in H. apply orb_false_iff in H. destruct H as [Hc Ht].
  cbn [kebabCaseToCamelCase]. rewrite Ascii.eqb_sym, Hc, (IH Ht). reflexivity.
Qed.

Lemma ident_not_hyphen c : is_ident_char c = true -> Ascii.eqb "-" c = false.
Proof.
  destruct c as [[] [] [] [] [] [] [] []]; vm_compute; intros H; try reflexivity; discriminate.
Qed.

Lemma ident_no_hyphen s : forallb is_ident_char s = true -> existsb (Ascii.eqb "-") s = false.
Proof.
  induction s as [|c t IH]; intros H; [reflexivity|].
  cbn [forallb] in H. apply andb_true_iff in H. destruct H as [Hc Ht].
  cbn [existsb]. rewrite (ident_not_hyphen _ Hc), (IH Ht). reflexivity.
Qed.

(** The pattern of the audit for a name of each shape. *)
Lemma polyfill_pattern_global C M :
  ident C = true ->
  polyfill_pattern (shape_name Global (str "window") C, Some M)
  = {| name := shape_name Global (str "window") C;
       expression := buildPolyfillExpression None C M;
       estimateBytes := None |}.
Proof.
  intros HC. unfold polyfill_pattern. cbn [fst snd shape_name template_value].
  rewrite (split_word _ (ident_chars _ HC)). reflexivity.
Qed.

Lemma polyfill_pattern_static C P M :
  ident C = true -> ident P = true ->
  polyfill_pattern (shape_name Static C P, Some M)
  = {| name := shape_name Static C P;
       expression := buildPolyfillExpression (Some C) P M;
       estimateBytes := None |}.
Proof.
  intros HC HP. unfold polyfill_pattern. cbn [fst snd shape_name template_value].
  change (C ++ str "." ++ P) with (C ++ "."%char :: P).
  rewrite (split_word_dot _ _ (ident_chars _ HC)), (split_word _ (ident_chars _ HP)).
  reflexivity.
Qed.

Lemma polyfill_pattern_proto C P M :
  ident C = true -> ident P = true ->
  polyfill_pattern (shape_name Proto C P, Some M)
  = {| name := shape_name Proto C P;
       expression := buildPolyfillExpression (Some (C ++ str ".prototype")) P M;
       estimateBytes := None |}.
Proof.
  intros HC HP. unfold polyfill_pattern. cbn [fst snd shape_name template_value].
  change (C ++ str "." ++ str "prototype" ++ str "." ++ P)
    with (C ++ "."%char :: str "prototype" ++ "."%char :: P).
  rewrite (split_word_dot _ _ (ident_chars _ HC)).
  rewrite (split_word_dot (str "prototype") P eq_refl).
  rewrite (split_word _ (ident_chars _ HP)). reflexivity.
Qed.

Lemma generate_Some rt compat data :
  generate rt compat = Some data -> generate_loop rt compat manual = Some data.
Proof.
  unfold generate.
  generalize (filter (fun m => negb (existsb (Str.eqb m) compat)) modulesToSkip).
  intros [|x l]; [auto | discriminate].
Qed.

Lemma manual_wf : forallb wf_entry manual = true.
Proof. vm_compute. reflexivity. Qed.

End GeneratorFacts.

Import GeneratorFacts.

(** * Further properties *)

(** X1: the regular expression built from a well-formed catalog has one
    capturing group for the line terminators and one per pattern, and every
    result of [exec] has exactly one of them defined, holding the whole text
    of the match, which is not empty and lies in the input from the index
    where the search started. *)
Theorem one_group_per_result data :
  wf_catalog data ->
  exists m,
    audit_matcher data = Some m
    /\ groups m = S (length (patterns m))
    /\ forall code idx r,
         idx <= length code ->
         exec (re m) idx code = Some r ->
         idx <= index r /\ index r < end_index r /\ end_index r <= length code
         /\ exists g,
              captures r = [(g, firstn (end_index r - index r) (skipn (index r) code))]
              /\ 1 <= g <= groups m
              /\ firstn (end_index r - index r) (skipn (index r) code) <> [].
Proof.
  intros Hwf. destruct (audit_matcher_exists data Hwf) as [m Hm].
  pose proof (audit_scans data Hwf _ Hm) as Hs.
  exists m. split; [exact Hm|].
  pose proof Hs as [Hre [Hg [Hlen Hb]]]. split; [rewrite Hg, Hlen; reflexivity|].
  intros code idx r Hidx He.
  rewrite (exec_next_event m (audit_bodies data) code idx Hs Hidx) in He.
  destruct (next_event (audit_bodies data) idx (skipn idx code)) as [[i [g n]]|] eqn:E;
    [|discriminate].
  cbn [option_map fst snd] in He.
  apply next_event_bound in E; [|intros b Hin; apply Hb; exact Hin].
  destruct E as [Hi [Hn [Hend Hj]]]. rewrite length_skipn in Hend.
  assert (firstn n (skipn i code) <> []) as Hne.
  { intros Hnil. apply (f_equal (@length _)) in Hnil.
    rewrite length_firstn, length_skipn in Hnil. cbn [length] in Hnil. lia. }
  destruct g as [j|]; injection He as <-; unfold result_of_event;
    cbn [fst snd index end_index captures];
    replace (i + n - i) with n by lia;
    (split; [lia|]); (split; [lia|]); (split; [lia|]); eexists;
    (split; [reflexivity|]); (split; [|exact Hne]).
  - specialize (Hj j eq_refl). lia.
  - lia.
Qed.

Lemma one_group_per_result_witness :
  exists m,
    audit_matcher Sample.catalog = Some m
    /\ groups m = S (length (patterns m))
    /\ forall code idx r,
         idx <= length code ->
         exec (re m) idx code = Some r ->
         idx <= index r /\ index r < end_index r /\ end_index r <= length code
         /\ exists g,
              captures r = [(g, firstn (end_index r - index r) (skipn (index r) code))]
              /\ 1 <= g <= groups m
              /\ firstn (end_index r - index r) (skipn (index r) code) <> [].
Proof.
  apply (one_group_per_result Sample.catalog). vm_compute. reflexivity.
Defined.

(** X2: with a well-formed catalog an iteration of the loop of [match]
    either returns the matches or moves [lastIndex] forward, within the
    text, and never reads a pattern that is not there; so [match] returns
    on every text. *)
Theorem match_advances data :
  wf_catalog data ->
  exists m,
    audit_matcher data = Some m
    /\ (forall code st,
          lastIndex st <= length code ->
          match_iteration m code st = Some (inr (matches st))
          \/ exists st',
               match_iteration m code st = Some (inl st')
               /\ lastIndex st < lastIndex st' <= length code)
    /\ forall code, exists found, matcher_match m code = Some found.
Proof.
  intros Hwf. destruct (audit_matcher_exists data Hwf) as [m Hm].
  pose proof (audit_scans data Hwf _ Hm) as Hs.
  exists m. split; [exact Hm|]. split.
  - intros code st HL. rewrite (match_iteration_event _ _ _ _ Hs HL).
    destruct (next_event (audit_bodies data) (lastIndex st) (skipn (lastIndex st) code))
      as [[i [g n]]|] eqn:E; [|left; reflexivity].
    right. destruct Hs as [_ [_ [Hlen Hb]]].
    apply next_event_bound in E; [|intros b Hin; apply Hb; exact Hin].
    destruct E as [Hi [Hn [Hend Hj]]]. rewrite length_skipn in Hend.
    cbn [iterate_event]. destruct g as [j|].
    + specialize (Hj j eq_refl). rewrite <- Hlen in Hj.
      destruct (nth_error (patterns m) j) as [pattern|] eqn:Ep.
      * destruct (existsb (Nat.eqb j) (seen st)); eexists;
          (split; [reflexivity|]); cbn [lastIndex]; lia.
      * apply nth_error_None in Ep. lia.
    + eexists. split; [reflexivity|]. cbn [lastIndex]. lia.
  - intros code. apply (match_total m _ code Hs).
Qed.

Lemma match_advances_witness :
  exists m,
    audit_matcher Sample.catalog = Some m
    /\ (forall code st,
          lastIndex st <= length code ->
          match_iteration m code st = Some (inr (matches st))
          \/ exists st',
               match_iteration m code st = Some (inl st')
               /\ lastIndex st < lastIndex st' <= length code)
    /\ forall code, exists found, matcher_match m code = Some found.
Proof.
  apply (match_advances Sample.catalog). vm_compute. reflexivity.
Defined.

(** X3: every match that [match] reports lies in the text: its line is
    between 0 and the number of carriage returns and line feeds of the
    text, its column between 0 and the length of the text. *)
Theorem positions_in_file data code :
  wf_catalog data ->
  exists m found,
    audit_matcher data = Some m
    /\ matcher_match m code = Some found
    /\ Forall (in_file code) found.
Proof.
  intros Hwf. destruct (audit_matcher_exists data Hwf) as [m Hm].
  pose proof (audit_scans data Hwf _ Hm) as Hs.
  destruct (match_total m _ code Hs) as [found Hf].
  exists m, found. split; [exact Hm|]. split; [exact Hf|].
  unfold matcher_match in Hf. rewrite (match_loop_event _ _ _ Hs) in Hf by (cbn; lia).
  refine (event_loop_in_file _ _ _ _ _ _ _ (state_in_file_initial code) Hf).
  intros b Hb. apply Hs. exact Hb.
Qed.

Lemma positions_in_file_witness :
  exists m found,
    audit_matcher Sample.catalog = Some m
    /\ matcher_match m chained_lines = Some found
    /\ Forall (in_file chained_lines) found.
Proof.
  apply (positions_in_file Sample.catalog chained_lines). vm_compute. reflexivity.
Defined.

(** X4: pattern matching reports only names of catalog entries marked
    [corejs] and names of transforms; an entry that is not marked is found
    through a source map or not at all. *)
Theorem reported_names data code :
  wf_catalog data ->
  exists m found,
    audit_matcher data = Some m
    /\ matcher_match m code = Some found
    /\ forall mt, In mt found ->
         In (m_name mt) (map p_name (filter corejs data))
         \/ In (m_name mt) (map name getTransformPatterns).
Proof.
  intros Hwf. destruct (audit_matcher_exists data Hwf) as [m Hm].
  pose proof (audit_scans data Hwf _ Hm) as Hs.
  destruct (match_total m _ code Hs) as [found Hf].
  exists m, found. split; [exact Hm|]. split; [exact Hf|].
  intros mt Hin.
  unfold matcher_match in Hf. rewrite (match_loop_event _ _ _ Hs) in Hf by (cbn; lia).
  rewrite (event_loop_located _ _ _ _ _ [] _ tracked_initial Hf) in Hin.
  cbn [initial_state matches app lastIndex] in Hin.
  apply located_In in Hin.
  destruct Hin as [pre [i [j [n [post [pattern [_ [Hp [_ ->]]]]]]]]]. cbn [m_name].
  apply nth_error_In in Hp. rewrite (audit_patterns_of data Hwf _ Hm) in Hp.
  unfold audit_patterns in Hp. apply in_app_or in Hp. destruct Hp as [Hp | Hp].
  - left. rewrite <- polyfill_pattern_names. apply in_map. exact Hp.
  - right. apply in_map. exact Hp.
Qed.

Lemma reported_names_witness :
  exists m found,
    audit_matcher Sample.catalog = Some m
    /\ matcher_match m chained_lines = Some found
    /\ forall mt, In mt found ->
         In (m_name mt) (map p_name (filter corejs Sample.catalog))
         \/ In (m_name mt) (map name getTransformPatterns).
Proof.
  apply (reported_names Sample.catalog chained_lines). vm_compute. reflexivity.
Defined.

(** X5: a text that begins with a signature of a catalog entry with an
    object, in any of its six forms, has a match at line 0 and column 0
    as its first match; the match has the name of the entry when the entry
    is the first of the catalog marked [corejs]. *)
Theorem signature_detected data d sh C P f t :
  wf_catalog data ->
  In d data -> corejs d = true ->
  name_shape (p_name d) = Some (sh, C, P) -> sh <> Global ->
  valid_form f = true ->
  exists m mt others,
    audit_matcher data = Some m
    /\ matcher_match m (signature_text sh C P (module_text d) f ++ t) = Some (mt :: others)
    /\ line mt = 0%Z /\ column mt = 0%Z
    /\ (hd_error (filter corejs data) = Some d -> m_name mt = p_name d).
Proof.
  intros Hwf Hd Hc Hsh Hobj Hf.
  destruct (audit_matcher_exists data Hwf) as [m Hm].
  pose proof (audit_scans data Hwf _ Hm) as Hs.
  set (code := signature_text sh C P (module_text d) f ++ t).
  destruct (match_total m _ code Hs) as [found Hfound].
  pose proof (wf_catalog_In _ _ Hwf Hd) as Hw.
  destruct (name_shape_ident _ _ _ _ Hsh) as [HC _].
  destruct (signature_first sh C P (module_text d) f HC Hobj) as [c [w [Hsig Hc0]]].
  assert (newline_len true code = None) as Hnl.
  { unfold code. rewrite Hsig. apply not_terminator_newline_len. exact Hc0. }
  pose proof (form_matches d sh C P f true t Hc Hw Hsh Hobj Hf) as Hbt. fold code in Hbt.
  destruct (audit_event_exists data d true code Hd Hc Hbt Hnl) as [j [st' [Hfb Hev]]].
  destruct (audit_first_body data _ _ _ Hfb) as [pattern [Hp _]].
  pose proof Hfound as Hloc. unfold matcher_match in Hloc.
  rewrite (match_loop_event _ _ _ Hs) in Hloc by (cbn; lia).
  apply (event_loop_located _ _ _ _ _ [] _ tracked_initial) in Hloc.
  cbn [initial_state matches app lastIndex trace skipn] in Hloc.
  rewrite (next_event_here _ 0 code _ Hev) in Hloc.
  cbn [located snd fst existsb] in Hloc.
  rewrite (audit_patterns_of data Hwf _ Hm), Hp in Hloc. cbn [app] in Hloc.
  exists m. eexists. eexists. split; [exact Hm|]. split; [rewrite Hfound; f_equal; exact Hloc|].
  cbn [line column m_name]. split; [reflexivity|]. split; [reflexivity|].
  intros Hhd. destruct (filter corejs data) as [|d0 l] eqn:Efilter; [discriminate|].
  injection Hhd as ->.
  assert (j = 0) as ->.
  { unfold audit_bodies in Hfb. rewrite Efilter in Hfb. cbn [map app first_body] in Hfb.
    destruct (bt (entry_body d) (MState true code []) Some); [|congruence].
    injection Hfb as <- _. reflexivity. }
  unfold audit_patterns in Hp.
  pose proof (polyfill_pattern_names data) as Hnames. rewrite Efilter in Hnames.
  destruct (getPolyfillPatterns data) as [|p0 ps]; [discriminate|].
  cbn [app nth_error] in Hp. injection Hp as <-.
  cbn [map] in Hnames. injection Hnames as Hn _. exact Hn.
Qed.

Lemma signature_detected_witness :
  exists m mt others,
    audit_matcher Sample.catalog = Some m
    /\ matcher_match m
         (signature_text Static (str "Object") (str "values")
            (module_text (Sample.entry "Object.values" "es.object.values" true))
            (DefineProperty (str " ") "'"%char "'"%char) ++ str ", f)")
       = Some (mt :: others)
    /\ line mt = 0%Z /\ column mt = 0%Z
    /\ (hd_error (filter corejs Sample.catalog)
        = Some (Sample.entry "Object.values" "es.object.values" true) ->
        m_name mt = p_name (Sample.entry "Object.values" "es.object.values" true)).
Proof.
  apply (signature_detected Sample.catalog
           (Sample.entry "Object.values" "es.object.values" true)
           Static (str "Object") (str "values")
           (DefineProperty (str " ") "'"%char "'"%char) (str ", f)")).
  - vm_compute. reflexivity.
  - vm_compute. auto 10.
  - reflexivity.
  - vm_compute. reflexivity.
  - discriminate.
  - reflexivity.
Defined.

(** X6: a text that holds a signature of a catalog entry with an object
    anywhere has at least one match, and a script with that text as content
    is a key of what [detectAcrossScripts] returns, with a list that is not
    empty. *)
Theorem signature_flagged data d sh C P f pre t bundles scripts script :
  wf_catalog data ->
  In d data -> corejs d = true ->
  name_shape (p_name d) = Some (sh, C, P) -> sh <> Global ->
  valid_form f = true ->
  In script scripts ->
  content script = Some (pre ++ signature_text sh C P (module_text d) f ++ t) ->
  exists m found result all,
    audit_matcher data = Some m
    /\ matcher_match m (pre ++ signature_text sh C P (module_text d) f ++ t) = Some found
    /\ found <> []
    /\ detectAcrossScripts data m bundles scripts = Some result
    /\ In (script, all) result /\ all <> [].
Proof.
  intros Hwf Hd Hc Hsh Hobj Hf Hin Hcontent.
  destruct (signature_found data d sh C P f pre t Hwf Hd Hc Hsh Hobj Hf)
    as [m [found [Hm [Hfound [Hne Hcode]]]]].
  pose proof (audit_scans data Hwf _ Hm) as Hs.
  set (code := pre ++ signature_text sh C P (module_text d) f ++ t) in *.
  assert (combined_matches data m bundles script <> []) as Hall.
  { unfold combined_matches. rewrite Hcontent.
    assert (non_empty (Some code) = Some code) as ->
      by (destruct code; [congruence | reflexivity]).
    unfold script_matches. rewrite Hfound.
    destruct (find_bundle bundles script) as [bundle|]; [|exact Hne].
    destruct (correlate_extends data bundle found) as [added [-> _]].
    destruct found; [congruence | discriminate]. }
  exists m, found, (reported data m bundles scripts), (combined_matches data m bundles script).
  split; [exact Hm|]. split; [exact Hfound|]. split; [exact Hne|]. split.
  - unfold detectAcrossScripts. rewrite detect_loop_reported; [reflexivity|].
    intros code0. apply (match_total m _ code0 Hs).
  - split; [|exact Hall]. apply reported_In. auto.
Qed.

Lemma signature_flagged_witness :
  exists m found result all,
    audit_matcher Sample.catalog = Some m
    /\ matcher_match m
         (str "var e=" ++
          signature_text Proto (str "String") (str "repeat")
            (module_text (Sample.entry "String.prototype.repeat" "es.string.repeat" true))
            (Assign [] "f"%char) ++ str "unction(){}")
       = Some found
    /\ found <> []
    /\ detectAcrossScripts Sample.catalog m []
         [Sample.script (str "var e=String.prototype.repeat=function(){}")] = Some result
    /\ In (Sample.script (str "var e=String.prototype.repeat=function(){}"), all) result
    /\ all <> [].
Proof.
  apply (signature_flagged Sample.catalog
           (Sample.entry "String.prototype.repeat" "es.string.repeat" true)
           Proto (str "String") (str "repeat") (Assign [] "f"%char)
           (str "var e=") (str "unction(){}") []
           [Sample.script (str "var e=String.prototype.repeat=function(){}")]
           (Sample.script (str "var e=String.prototype.repeat=function(){}"))).
  - vm_compute. reflexivity.
  - vm_compute. auto 10.
  - reflexivity.
  - vm_compute. reflexivity.
  - discriminate.
  - reflexivity.
  - left. reflexivity.
  - reflexivity.
Defined.

(** X7: the code that the verification tool writes to load the module of
    a catalog entry with an object has at least one match. *)
Theorem require_code_flagged data d sh C P :
  wf_catalog data ->
  In d data -> corejs d = true ->
  name_shape (p_name d) = Some (sh, C, P) -> sh <> Global ->
  exists m found,
    audit_matcher data = Some m
    /\ matcher_match m (makeRequireCodeForPolyfill (module_text d)) = Some found
    /\ found <> [].
Proof.
  intros Hwf Hd Hc Hsh Hobj.
  destruct (signature_found data d sh C P ModulePath
              (str "require(" ++ [Str.dquote] ++ str "../../../../node_modules/")
              (str ")") Hwf Hd Hc Hsh Hobj eq_refl) as [m [found [Hm [Hf [Hne _]]]]].
  exists m, found. split; [exact Hm|]. split; [|exact Hne].
  rewrite <- Hf. f_equal. unfold makeRequireCodeForPolyfill. cbn [signature_text].
  repeat (simpl; rewrite <- ?app_assoc). reflexivity.
Qed.

Lemma require_code_flagged_witness :
  exists m found,
    audit_matcher Sample.catalog = Some m
    /\ matcher_match m
         (makeRequireCodeForPolyfill
            (module_text (Sample.entry "Object.entries" "es.object.entries" true)))
       = Some found
    /\ found <> [].
Proof.
  apply (require_code_flagged Sample.catalog
           (Sample.entry "Object.entries" "es.object.entries" true)
           Static (str "Object") (str "entries")).
  - vm_compute. reflexivity.
  - vm_compute. auto 10.
  - reflexivity.
  - vm_compute. reflexivity.
  - discriminate.
Defined.

(** X8: what the source map of a bundle adds to the matches of a script is
    appended after them, at most one match per name, never for a name that
    pattern matching found; each added match has the name of a catalog
    entry, marked [corejs] or not, and the place given by the map for the
    first source that ends with [/<module>.js] or holds
    [node_modules/<module>/] for a module of the entry. *)
Theorem correlation_sound data bundle found :
  exists added,
    correlate data bundle found = found ++ added
    /\ NoDup (map m_name added)
    /\ forall x, In x added ->
         ~ In (m_name x) (map m_name found)
         /\ exists d source module,
              In d data /\ m_name x = p_name d
              /\ find (source_matches (modules d)) (sources bundle) = Some source
              /\ In source (sources bundle) /\ In module (modules d)
              /\ ((exists pre, source = pre ++ str "/" ++ module ++ str ".js")
                  \/ exists pre post,
                       source = pre ++ (str "node_modules/" ++ module ++ str "/") ++ post)
              /\ line x = fst (mapped_location bundle source)
              /\ column x = snd (mapped_location bundle source).
Proof.
  destruct (correlate_extends data bundle found) as [added [E [Hnd Hnew]]].
  destruct (correlate_sound data bundle found) as [added' [E' Hsound]].
  assert (added' = added) as -> by (rewrite E in E'; apply app_inv_head in E'; congruence).
  exists added. split; [exact E|]. split; [exact Hnd|].
  intros x Hx. split; [apply Hnew; exact Hx|].
  destruct (Hsound x Hx) as [d [source [Hd [Hn [Hfind [_ [Hl Hc]]]]]]].
  pose proof (find_some _ _ Hfind) as [Hin Hm].
  apply source_matches_spec in Hm. destruct Hm as [module [Hmod Hshape]].
  exists d, source, module. repeat split; assumption.
Qed.

(** Beyond 2^53 the order of the matches matters: with a module of 2^53
    bytes and two of one byte, the machine returns 2^53 when the large
    module comes first and two bytes more when it comes last. *)
Lemma estimate_order_matters :
  Doubles.estimateWastedBytes huge_graph (Sample.script blah_code)
    [Sample.found "Object.entries"; Sample.found "Object.keys"] = Some (Num (2 ^ 53))
  /\ Doubles.estimateWastedBytes huge_graph (Sample.script blah_code)
       [Sample.found "Object.keys"; Sample.found "Object.entries"] = Some (Num (2 ^ 53 + 2)).
Proof. vm_compute. split; reflexivity. Qed.

(** X9: while the sizes of the graph, its ceiling and the estimates of the
    transform matches sum, in absolute value, to 2^53 at most, every sum of
    [estimateWastedBytes] is exact and the estimate of a script does not
    depend on the order of its matches: for two lists with the same matches
    the function throws for both or returns the same number. *)
Theorem estimate_order_invariant graph script found found' :
  Permutation found found' ->
  estimate_exact graph script found ->
  estimate_exact graph script found'
  /\ Doubles.estimateWastedBytes graph script found = estimateWastedBytes graph script found
  /\ Doubles.estimateWastedBytes graph script found
     = Doubles.estimateWastedBytes graph script found'.
Proof.
  intros Hp He.
  assert (estimate_exact graph script found') as He'.
  { unfold estimate_exact in *. rewrite <- (transform_total_perm script _ _ Hp). exact He. }
  split; [exact He'|]. split; [apply machine_estimate_exact; exact He|].
  rewrite (machine_estimate_exact _ _ _ He), (machine_estimate_exact _ _ _ He').
  rewrite !estimate_value, <- (names_inherited_perm graph _ _ Hp).
  destruct (names_inherited graph found); [reflexivity|]. f_equal. f_equal.
  - f_equal. rewrite !sizes_total_sizes. apply sum_sizes_perm.
    eapply Permutation_trans; [apply seen_union|].
    eapply Permutation_trans; [|apply Permutation_sym, seen_union].
    apply dependency_union_perm. apply filter_perm. exact Hp.
  - unfold estimatedWastedBytesFromTransforms. rewrite !transforms_sum. f_equal. f_equal.
    apply delta_sum_perm. apply filter_perm. exact Hp.
Qed.

Lemma estimate_order_invariant_witness :
  estimate_exact Sample.graph (Sample.script Snippets.classes_code)
    [Sample.found "@babel/plugin-transform-classes"; Sample.found "Object.entries"]
  /\ Doubles.estimateWastedBytes Sample.graph (Sample.script Snippets.classes_code)
       [Sample.found "Object.entries"; Sample.found "@babel/plugin-transform-classes"]
     = estimateWastedBytes Sample.graph (Sample.script Snippets.classes_code)
         [Sample.found "Object.entries"; Sample.found "@babel/plugin-transform-classes"]
  /\ Doubles.estimateWastedBytes Sample.graph (Sample.script Snippets.classes_code)
       [Sample.found "Object.entries"; Sample.found "@babel/plugin-transform-classes"]
     = Doubles.estimateWastedBytes Sample.graph (Sample.script Snippets.classes_code)
         [Sample.found "@babel/plugin-transform-classes"; Sample.found "Object.entries"].
Proof.
  apply (estimate_order_invariant Sample.graph (Sample.script Snippets.classes_code)
           [Sample.found "Object.entries"; Sample.found "@babel/plugin-transform-classes"]).
  - apply perm_swap.
  - vm_compute. discriminate.
Defined.



(** X11: the estimate for a match of the classes transform in a script with
    content is 983 bytes when the content never holds [_classCallCheck],
    and 1000 bytes plus 17 for every occurrence after the first one
    otherwise. *)
Theorem classes_estimate_floor script code l c :
  non_empty (content script) = Some code ->
  exists e,
    estimatedWastedBytesFromTransforms script
      [{| m_name := str "@babel/plugin-transform-classes"; line := l; column := c |}]
    = Num e
    /\ (Str.includes (str "_classCallCheck") code = false -> e = 983%Z)
    /\ (Str.includes (str "_classCallCheck") code = true ->
        exists k, e = (1000 + 17 * Z.of_nat k)%Z
                  /\ S k = Str.count_split (str "_classCallCheck") code).
Proof.
  intros Hc. unfold estimatedWastedBytesFromTransforms.
  cbn [filter].
  change (is_transform {| m_name := str "@babel/plugin-transform-classes";
                          line := l; column := c |}) with true.
  cbn [fold_left]. unfold add_transform. cbn [m_name].
  assert (find (fun p => Str.eqb (name p) (str "@babel/plugin-transform-classes"))
            getTransformPatterns
          = Some {| name := str "@babel/plugin-transform-classes";
                    expression := str "Cannot call a class as a function";
                    estimateBytes := Some estimate_classes |}) as -> by reflexivity.
  cbn [estimateBytes]. rewrite Hc. cbn [add].
  eexists. split; [reflexivity|].
  unfold estimate_classes, count_string.
  change (Z.of_nat (length (str "_classCallCheck()"))) with 17%Z.
  pose proof (count_split_zero (str "_classCallCheck") code) as Hz.
  split.
  - intros H. apply Hz in H; [|discriminate]. rewrite H. reflexivity.
  - intros H. destruct (Str.count_split (str "_classCallCheck") code) as [|k] eqn:E.
    + assert (Str.includes (str "_classCallCheck") code = false) by (apply Hz; [discriminate | reflexivity]).
      congruence.
    + exists k. split; [lia | reflexivity].
Qed.

Lemma classes_estimate_floor_witness :
  exists e,
    estimatedWastedBytesFromTransforms (Sample.script Snippets.classes_code)
      [{| m_name := str "@babel/plugin-transform-classes"; line := 0; column := 0 |}]
    = Num e
    /\ (Str.includes (str "_classCallCheck") Snippets.classes_code = false -> e = 983%Z)
    /\ (Str.includes (str "_classCallCheck") Snippets.classes_code = true ->
        exists k, e = (1000 + 17 * Z.of_nat k)%Z
                  /\ S k = Str.count_split (str "_classCallCheck") Snippets.classes_code).
Proof.
  apply (classes_estimate_floor (Sample.script Snippets.classes_code) Snippets.classes_code 0 0).
  reflexivity.
Defined.

(** X12: the audit warns about version 2 of core-js once at most, however
    many bundles name it, and it does so exactly when a bundle of the first
    party has a source that holds [node_modules/core-js/modules/es6] or
    [node_modules/core-js/modules/es7]. *)
Theorem coreJs2_warning isFirstParty bundles :
  warnings isFirstParty bundles
  = if existsb (fun bundle => isFirstParty bundle && existsb names_coreJs2 (sources bundle))
               bundles
    then [detectedCoreJs2Warning]
    else [].
Proof.
  induction bundles as [|bundle bundles IH]; cbn [warnings existsb]; [reflexivity|].
  assert (existsb matches_coreJs2 (sources bundle) = existsb names_coreJs2 (sources bundle))
    as ->.
  { induction (sources bundle) as [|s l IHl]; cbn [existsb]; [reflexivity|].
    rewrite matches_coreJs2_includes, IHl. reflexivity. }
  destruct (isFirstParty bundle); cbn [andb orb]; [|exact IH].
  destruct (existsb names_coreJs2 (sources bundle)); cbn [orb]; [reflexivity | exact IH].
Qed.

(** X13: the sub-items of an entity are the URLs listed for it, each with
    the times of its summary, or zero where it has none; they come sorted
    by time on the main thread, largest first, then by transfer size,
    largest first, and the URLs that tie keep the order of the listing.
    An entity without a listing has no sub-items. *)
Theorem sub_items_sorted {Entity} (entity : Entity) (insight : Insight Entity) :
  Permutation (makeSubItems entity insight)
              (map (summarize insight) (urls_of entity insight))
  /\ Sorted.StronglySorted before (makeSubItems entity insight)
  /\ forall z, filter (tied z) (makeSubItems entity insight)
               = filter (tied z) (map (summarize insight) (urls_of entity insight)).
Proof.
  unfold makeSubItems. split; [apply sort_perm|].
  split; [apply sort_sorted|]. intros z. apply sort_stable.
Qed.

(** X14: whatever the runtime answers, the catalog that the generator
    writes for module names in kebab case is well formed for the audit: it
    is the two entries written by hand followed by entries marked
    [corejs], each with one module, taken from the list and not from
    [modulesToSkip], and with a name of one of the three shapes. *)
Theorem generated_catalog_well_formed rt compat data :
  forallb module_name_ok compat = true ->
  generate rt compat = Some data ->
  wf_catalog data
  /\ exists added,
       data = manual ++ added
       /\ forall d, In d added ->
            corejs d = true
            /\ exists polyfillModuleName sh C P,
                 modules d = [polyfillModuleName]
                 /\ In polyfillModuleName compat
                 /\ ~ In polyfillModuleName modulesToSkip
                 /\ name_shape (p_name d) = Some (sh, C, P)
                 /\ p_name d = shape_name sh C P.
Proof.
  intros Hok H. apply generate_Some in H.
  destruct (generate_loop_adds rt compat manual data H) as [added [-> Hadd]].
  rewrite forallb_forall in Hok.
  assert (forall d, In d added ->
            corejs d = true
            /\ exists polyfillModuleName sh C P,
                 modules d = [polyfillModuleName]
                 /\ In polyfillModuleName compat
                 /\ ~ In polyfillModuleName modulesToSkip
                 /\ name_shape (p_name d) = Some (sh, C, P)
                 /\ p_name d = shape_name sh C P) as Hall.
  { intros d Hd. destruct (Hadd d Hd) as [name [Hin [Hskip He]]].
    destruct (entry_of_shape rt name d (Hok name Hin) He)
      as [Hc [Hm [part0 [rest_parts [C [_ [_ Hshape]]]]]]].
    split; [exact Hc|].
    assert (~ In name modulesToSkip) as Hns.
    { intros Hs. assert (existsb (Str.eqb name) modulesToSkip = true); [|congruence].
      apply existsb_exists. exists name. split; [exact Hs | apply StrFacts.eqb_refl]. }
    destruct rest_parts.
    - destruct Hshape as [_ Hn]. exists name, Global, (str "window"), C.
      repeat split; try assumption. apply name_shape_name. exact Hn.
    - destruct Hshape as [[_ Hn] | [_ [_ [_ Hn]]]].
      + exists name, Proto, C, (prop_name (t :: rest_parts)).
        repeat split; try assumption. apply name_shape_name. exact Hn.
      + exists name, Static, C, (prop_name (t :: rest_parts)).
        repeat split; try assumption. apply name_shape_name. exact Hn. }
  split; [|exists added; split; [reflexivity | exact Hall]].
  unfold wf_catalog. rewrite forallb_app. apply andb_true_iff.
  split; [exact manual_wf|].
  apply forallb_forall. intros d Hd.
  destruct (Hadd d Hd) as [name [Hin [_ He]]].
  apply (entry_of_wf rt name d (Hok name Hin) He).
Qed.

Lemma generated_catalog_well_formed_witness :
  exists data,
    generate sample_runtime sample_list = Some data
    /\ wf_catalog data
    /\ exists added,
         data = manual ++ added
         /\ forall d, In d added ->
              corejs d = true
              /\ exists polyfillModuleName sh C P,
                   modules d = [polyfillModuleName]
                   /\ In polyfillModuleName sample_list
                   /\ ~ In polyfillModuleName modulesToSkip
                   /\ name_shape (p_name d) = Some (sh, C, P)
                   /\ p_name d = shape_name sh C P.
Proof.
  eexists. split; [vm_compute; reflexivity|].
  apply (generated_catalog_well_formed sample_runtime sample_list).
  - vm_compute. reflexivity.
  - vm_compute. reflexivity.
Defined.

(** X15: the audit reads back from a generated name the class and the
    property that the generator derived from the module name: the pattern
    of an entry is built for no object and the class, for the class and
    the property, or for the prototype of the class and the property. *)
Theorem generated_name_round_trip rt polyfillModuleName d :
  module_name_ok polyfillModuleName = true ->
  entry_of rt polyfillModuleName = Some d ->
  exists part0 rest_parts C,
    skipn 1 (Str.split "." polyfillModuleName) = part0 :: rest_parts
    /\ class_name part0 = Some C
    /\ polyfill_pattern (p_name d, nth_error (modules d) 0)
       = {| name := p_name d;
            expression :=
              match rest_parts with
              | [] => buildPolyfillExpression None C polyfillModuleName
              | _ :: _ =>
                  if instance_has rt C (prop_name rest_parts)
                  then buildPolyfillExpression (Some (C ++ str ".prototype"))
                         (prop_name rest_parts) polyfillModuleName
                  else buildPolyfillExpression (Some C)
                         (prop_name rest_parts) polyfillModuleName
              end;
            estimateBytes := None |}.
Proof.
  intros Hok He.
  destruct (entry_of_shape rt _ d Hok He)
    as [_ [Hm [part0 [rest_parts [C [Eparts [EC Hshape]]]]]]].
  exists part0, rest_parts, C. split; [exact Eparts|]. split; [exact EC|].
  rewrite Hm. cbn [nth_error].
  destruct rest_parts as [|part1 r].
  - destruct Hshape as [_ Hn].
    pose proof (name_shape_ident _ _ _ _ Hn) as [_ HC].
    rewrite (name_shape_name _ _ _ _ Hn).
    exact (polyfill_pattern_global C polyfillModuleName HC).
  - destruct Hshape as [[Hi Hn] | [Hi [_ [_ Hn]]]]; rewrite Hi;
      pose proof (name_shape_ident _ _ _ _ Hn) as [HC HP];
      rewrite (name_shape_name _ _ _ _ Hn).
    + exact (polyfill_pattern_proto C _ polyfillModuleName HC HP).
    + exact (polyfill_pattern_static C _ polyfillModuleName HC HP).
Qed.

Lemma generated_name_round_trip_witness :
  exists d part0 rest_parts C,
    entry_of sample_runtime (str "esnext.array.find-last") = Some d
    /\ skipn 1 (Str.split "." (str "esnext.array.find-last")) = part0 :: rest_parts
    /\ class_name part0 = Some C
    /\ polyfill_pattern (p_name d, nth_error (modules d) 0)
       = {| name := p_name d;
            expression :=
              match rest_parts with
              | [] => buildPolyfillExpression None C (str "esnext.array.find-last")
              | _ :: _ =>
                  if instance_has sample_runtime C (prop_name rest_parts)
                  then buildPolyfillExpression (Some (C ++ str ".prototype"))
                         (prop_name rest_parts) (str "esnext.array.find-last")
                  else buildPolyfillExpression (Some C)
                         (prop_name rest_parts) (str "esnext.array.find-last")
              end;
            estimateBytes := None |}.
Proof.
  eexists. 
  assert (entry_of sample_runtime (str "esnext.array.find-last")
          = Some {| p_name := str "Array.prototype.findLast";
                    modules := [str "esnext.array.find-last"]; corejs := true |}) as He
    by (vm_compute; reflexivity).
  destruct (generated_name_round_trip sample_runtime (str "esnext.array.find-last") _
              eq_refl He) as [part0 [rest_parts [C H]]].
  exists part0, rest_parts, C. split; [exact He | exact H].
Defined.

(** X16: [kebabCaseToCamelCase] leaves a text without a hyphen as it is,
    and turns a text in kebab case, where every hyphen comes before a word
    character, into word characters only, the hyphens being gone. *)
Theorem kebab_to_camel s :
  (existsb (Ascii.eqb "-") s = false -> kebabCaseToCamelCase s = s)
  /\ (kebab s = true ->
      forallb is_ident_char (kebabCaseToCamelCase s) = true
      /\ existsb (Ascii.eqb "-") (kebabCaseToCamelCase s) = false
      /\ kebabCaseToCamelCase (kebabCaseToCamelCase s) = kebabCaseToCamelCase s).
Proof.
  split; [apply camel_no_hyphen|]. intros Hk.
  pose proof (kebab_camel s Hk) as H. split; [exact H|].
  pose proof (ident_no_hyphen _ H) as Hn. split; [exact Hn|].
  apply camel_no_hyphen. exact Hn.
Qed.

Lemma kebab_to_camel_witness :
  forallb is_ident_char (kebabCaseToCamelCase (str "find-last")) = true
  /\ existsb (Ascii.eqb "-") (kebabCaseToCamelCase (str "find-last")) = false
  /\ kebabCaseToCamelCase (kebabCaseToCamelCase (str "find-last"))
     = kebabCaseToCamelCase (str "find-last").
Proof.
  apply (proj2 (kebab_to_camel (str "find-last"))). reflexivity.
Defined.

(** X17: in the pattern of an instance property the dot before
    [prototype] is not escaped and stands for any character of a line: a
    text that assigns to the property with another character in the place
    of that dot, as in [String_prototype.repeat=f], has a match as well. *)
Theorem object_dot_wildcard data d C P x gap y pre t :
  wf_catalog data -> In d data -> corejs d = true ->
  name_shape (p_name d) = Some (Proto, C, P) ->
  is_line_terminator x = false -> is_gap gap = true -> Ascii.eqb y "=" = false ->
  exists m found,
    audit_matcher data = Some m
    /\ matcher_match m
         (pre ++ (C ++ x :: str "prototype." ++ P ++ gap ++ str "=" ++ [y]) ++ t)
       = Some found
    /\ found <> [].
Proof.
  intros Hwf Hd Hc Hsh Hx Hg Hy.
  pose proof (wf_catalog_In _ _ Hwf Hd) as Hw.
  pose proof (accepts_wildcard d C P x gap y t Hc Hw Hsh Hx Hg Hy) as Hacc.
  destruct (name_shape_ident _ _ _ _ Hsh) as [HC _].
  destruct C as [|c C]; [discriminate|].
  cbn [ident forallb] in HC. apply andb_true_iff in HC. destruct HC as [Hc0 _].
  apply ident_char_not_terminator in Hc0.
  cbn [app] in *.
  exact (accepted_found data d pre c _ t Hwf Hd Hc Hc0 Hacc).
Qed.

Lemma object_dot_wildcard_witness :
  exists m found,
    audit_matcher Sample.catalog = Some m
    /\ matcher_match m
         (str "var e=" ++ (str "String" ++ "_"%char :: str "prototype." ++ str "repeat"
                           ++ [] ++ str "=" ++ ["f"%char]) ++ str ";")
       = Some found
    /\ found <> [].
Proof.
  apply (object_dot_wildcard Sample.catalog
           (Sample.entry "String.prototype.repeat" "es.string.repeat" true)
           (str "String") (str "repeat") "_"%char [] "f"%char (str "var e=") (str ";")).
  - vm_compute. reflexivity.
  - vm_compute. auto 10.
  - reflexivity.
  - vm_compute. reflexivity.
  - reflexivity.
  - reflexivity.
  - reflexivity.
Defined.

(** X18: the estimate of the regenerator transform is 0 exactly when the
    content holds none of [regeneratorRuntime.wrap] and
    [regeneratorRuntime.awrap], with or without [(] and [)] after the name;
    so it is 0 for a content that the pattern of the transform flags for
    [regeneratorRuntime] alone. *)
Theorem regenerator_estimate_zero code :
  estimate_regenerator code = 0%Z <->
  existsb (fun v => Str.includes v code) wrap_variants = false.
Proof.
  unfold estimate_regenerator, count_regexp. rewrite wrap_parse.
  assert (bol_free wrap_regex = true) as Hb by reflexivity.
  pose proof (exec_found wrap_regex code Hb) as Hex.
  pose proof (match_count_zero wrap_regex code) as Hz.
  pose proof (includes_any wrap_variants code) as Hinc.
  split.
  - intros H0. assert (match_count wrap_regex code = 0) as Hc by lia.
    apply Hz in Hc.
    destruct (existsb _ wrap_variants) eqn:E; [|reflexivity]. exfalso.
    destruct (proj1 Hinc eq_refl) as [v [pre [post [Hv ->]]]].
    apply (proj2 Hex); [|exact Hc].
    exists pre, (v ++ post), post. split; [reflexivity|].
    apply accepts_wrap. exists v. auto.
  - intros E. assert (exec wrap_regex 0 code = None) as Hn.
    { destruct (exec wrap_regex 0 code) eqn:Ee; [|reflexivity]. exfalso.
      destruct (proj1 Hex) as [pre [t [s' [-> Hacc]]]]; [discriminate|].
      apply accepts_wrap in Hacc. destruct Hacc as [v [Hv ->]].
      assert (existsb (fun u => Str.includes u (pre ++ v ++ s')) wrap_variants = true);
        [|congruence].
      apply Hinc. exists v, pre, s'. auto. }
    apply Hz in Hn. rewrite Hn. reflexivity.
Qed.
